(** * A shallow embedding of the hyperliquid matching engine core

    The development follows the C++ sources under [include/hyperliquid]:
    [types.h], [command.h], [order.h], [flat_map.h], [mempool.h],
    [price_levels_array.h], [order_book.h] and [spsc_queue.h].

    Modelling conventions.
    - [Tick], [Quantity] (both [int64_t]) and the identifiers are integers
      of [Z].  Signed overflow is undefined behaviour in C++: sums and
      differences of quantities are computed in [Z], which is the arithmetic
      of the code as long as they stay within [int64_t].  Where an overflow
      would change what a theorem concludes (a level total, the liquidity
      the fill-or-kill precheck adds up), the range is a hypothesis of the
      theorem.  The unsigned hash arithmetic of [flat_map.h] wraps and the
      wrap-around is written out.
    - An intrusive doubly linked FIFO ([LevelFIFO]) is the list of its nodes
      from head to tail; a node pointer is a handle of the node pool.  The
      lists record the links of the nodes queued in a level.  A pointer to a
      node that is not queued in the level it is used with has links that
      the lists do not record: there the model stops ([BadHandle]) while the
      source goes on.  An index entry that outlives its node leads there
      (the erase defect of the order index can leave one behind);
      [lookups_live] names the runs that are free of it, and the theorems
      about what every run from a fresh engine preserves take it as a
      hypothesis.  The last section has the links themselves ([Links]) and
      proves the lists against them.
    - The model is of a build that keeps [assert] (no [NDEBUG]): a failed
      assertion stops the operation ([AssertionFailure]).
    - The two callbacks append to one event log, in invocation order.
    - [TimestampUtil::now_ns] reads a clock that is a parameter [now] of the
      operations; the n-th reading of a run is [now n].
    - An operation either finishes ([Done]) or stops early ([Crash]): a failed
      [assert], an access through a handle that does not denote a node of the
      addressed level, or a loop that does not come to an end. *)

From Stdlib Require Import ZArith Lia Bool List.
From stdpp Require Import base numbers list option.
Import ListNotations.
Local Open Scope Z_scope.

(** ** types.h *)

Definition OrderId := Z.
Definition UserId := Z.
Definition SymbolId := Z.
Definition Tick := Z.
Definition Quantity := Z.
Definition Timestamp := Z.
Definition Handle := nat.

(** The largest [int64_t]. *)
Definition INT64_MAX : Z := 2 ^ 63 - 1.

Inductive Side := Bid | Ask.
Inductive OrderType := Limit | Market | StopLimit | StopMarket.
Inductive TimeInForce := GTC | IOC | FOK | GTD.

Module OrderFlags.
Definition NONE : Z := 0.
Definition POST_ONLY : Z := Z.shiftl 1 0.
Definition REDUCE_ONLY : Z := Z.shiftl 1 1.
Definition STP : Z := Z.shiftl 1 2.
Definition ICEBERG : Z := Z.shiftl 1 3.
Definition STOP : Z := Z.shiftl 1 4.
End OrderFlags.

Record PriceBand := mkPriceBand {
  min_tick : Tick;
  max_tick : Tick;
  tick_size : Tick
}.

Module Sentinel.
Definition EMPTY_BID : Tick := - 2 ^ 63.
Definition EMPTY_ASK : Tick := 2 ^ 63 - 1.
Definition INVALID_ORDER : OrderId := 0.
End Sentinel.

Definition Side_eqb (a b : Side) : bool :=
  match a, b with Bid, Bid | Ask, Ask => true | _, _ => false end.

Definition TimeInForce_eqb (a b : TimeInForce) : bool :=
  match a, b with
  | GTC, GTC | IOC, IOC | FOK, FOK | GTD, GTD => true
  | _, _ => false
  end.

(** ** flat_map.h: open addressing, linear probing, power-of-two capacity *)

Module FlatMap.

Section WithValue.
Context {V : Type}.
(** The value left in a slot by [memset(.., 0, ..)]. *)
Variable zero : V.

Record Entry := mkEntry { key : Z; value : V }.

Record t := mk {
  entries_ : list Entry;
  capacity_ : Z;
  size_ : Z
}.

(** [entries_[i]]; every index the code uses is masked by
    [capacity_ - 1], so it is in range whenever [entries_] has
    [capacity_] elements. *)
Definition at_ (es : list Entry) (i : Z) : Entry :=
  default (mkEntry 0 zero) (es !! Z.to_nat i).

Definition set_key (e : Entry) (k : Z) : Entry := mkEntry k (value e).

(** [hash]: the 64-bit mixer, on [uint64_t]. *)
Definition wrap64 (x : Z) : Z := x mod 2 ^ 64.

Definition hash (k : Z) : Z :=
  let x := wrap64 k in
  let x := Z.lxor x (Z.shiftr x 33) in
  let x := wrap64 (x * 0xff51afd7ed558ccd) in
  let x := Z.lxor x (Z.shiftr x 33) in
  let x := wrap64 (x * 0xc4ceb9fe1a85ec53) in
  let x := Z.lxor x (Z.shiftr x 33) in
  x.

Definition home (mask : Z) (k : Z) : Z := Z.land (hash k) mask.

(** [find]: the loop body runs at most [capacity_ + 1] times, the
    [probes > capacity_] exit returning [nullptr]. *)
Fixpoint find_loop (es : list Entry) (mask k idx : Z) (fuel : nat)
  : option V :=
  match fuel with
  | O => None
  | S fuel' =>
      let e := at_ es idx in
      if key e =? 0 then None
      else if key e =? k then Some (value e)
      else find_loop es mask k (Z.land (idx + 1) mask) fuel'
  end.

Definition find (m : t) (k : Z) : option V :=
  if k =? 0 then None
  else
    let buf_mask := capacity_ m - 1 in
    find_loop (entries_ m) buf_mask k (home buf_mask k)
              (S (Z.to_nat (capacity_ m))).

(** [insert_internal]: the probe loop has no exit but an empty or a
    matching slot; after [capacity_] probes every slot has been seen, so
    running out of fuel is the loop that never ends ([None]).  The
    boolean tells whether [size_] is incremented. *)
Fixpoint insert_loop (es : list Entry) (mask k : Z) (v : V) (idx : Z)
         (fuel : nat) : option (list Entry * bool) :=
  match fuel with
  | O => None
  | S fuel' =>
      let e := at_ es idx in
      if key e =? 0 then
        Some (<[Z.to_nat idx := mkEntry k v]> es, true)
      else if key e =? k then
        Some (<[Z.to_nat idx := mkEntry (key e) v]> es, false)
      else insert_loop es mask k v (Z.land (idx + 1) mask) fuel'
  end.

Definition insert_internal (m : t) (k : Z) (v : V) : option t :=
  let buf_mask := capacity_ m - 1 in
  match insert_loop (entries_ m) buf_mask k v (home buf_mask k)
                    (Z.to_nat (capacity_ m)) with
  | None => None
  | Some (es, fresh) =>
      Some (mk es (capacity_ m) (if fresh then size_ m + 1 else size_ m))
  end.

(** [resize]: a zeroed table of the new capacity, then every old entry
    with a key is inserted again, in slot order. *)
Definition reinsert (acc : option t) (e : Entry) : option t :=
  match acc with
  | None => None
  | Some m => if key e =? 0 then Some m else insert_internal m (key e) (value e)
  end.

Definition resize (m : t) (new_cap : Z) : option t :=
  fold_left reinsert (entries_ m)
    (Some (mk (replicate (Z.to_nat new_cap) (mkEntry 0 zero)) new_cap 0)).

(** The constructor: [cap = 16; while (cap < initial_capacity) cap <<= 1]. *)
Fixpoint grow_cap (cap initial_capacity : Z) (fuel : nat) : Z :=
  match fuel with
  | O => cap
  | S fuel' =>
      if cap <? initial_capacity
      then grow_cap (Z.shiftl cap 1) initial_capacity fuel'
      else cap
  end.

Definition create (initial_capacity : Z) : t :=
  let cap := grow_cap 16 initial_capacity 64 in
  mk (replicate (Z.to_nat cap) (mkEntry 0 zero)) cap 0.

(** [insert]: [size_ >= capacity_ * 0.7] compares a [size_t] with a
    double; for a power-of-two capacity below [2^52] it holds exactly when
    [10 * size_ >= 7 * capacity_]. *)
Definition insert (m : t) (k : Z) (v : V) : option t :=
  if 10 * size_ m >=? 7 * capacity_ m then
    match resize m (capacity_ m * 2) with
    | None => None
    | Some m' => insert_internal m' k v
    end
  else insert_internal m k v.

(** [erase], the backward shift after the key's slot was emptied.  Both
    branches of the source's [if (!wrapped)] compute the same
    disjunction. *)
Definition can_move (idx probe_idx desired_idx : Z) : bool :=
  let wrapped := probe_idx <? idx in
  if negb wrapped
  then (desired_idx <=? idx) || (desired_idx >? probe_idx)
  else (desired_idx <=? idx) || (desired_idx >? probe_idx).

Fixpoint shift_loop (es : list Entry) (mask idx probe_idx : Z)
         (fuel : nat) : option (list Entry) :=
  match fuel with
  | O => None
  | S fuel' =>
      let probe_entry := at_ es probe_idx in
      if key probe_entry =? 0 then Some es
      else
        let desired_idx := home mask (key probe_entry) in
        if can_move idx probe_idx desired_idx then
          let es1 := <[Z.to_nat idx := probe_entry]> es in
          let es2 := <[Z.to_nat probe_idx := set_key probe_entry 0]> es1 in
          shift_loop es2 mask probe_idx (Z.land (probe_idx + 1) mask) fuel'
        else
          shift_loop es mask idx (Z.land (probe_idx + 1) mask) fuel'
  end.

Fixpoint erase_loop (m : t) (mask k idx : Z) (fuel : nat) : option t :=
  match fuel with
  | O => None
  | S fuel' =>
      let e := at_ (entries_ m) idx in
      if key e =? 0 then Some m
      else if key e =? k then
        let es := <[Z.to_nat idx := set_key e 0]> (entries_ m) in
        match shift_loop es mask idx (Z.land (idx + 1) mask)
                         (Z.to_nat (capacity_ m)) with
        | None => None
        | Some es' => Some (mk es' (capacity_ m) (size_ m - 1))
        end
      else erase_loop m mask k (Z.land (idx + 1) mask) fuel'
  end.

Definition erase (m : t) (k : Z) : option t :=
  let buf_mask := capacity_ m - 1 in
  erase_loop m buf_mask k (home buf_mask k) (Z.to_nat (capacity_ m)).

End WithValue.

Arguments Entry : clear implicits.
Arguments t : clear implicits.

End FlatMap.

(** A script of map operations, run on a fresh [FlatMap(16)]. *)
Inductive MapOp := MInsert (k : Z) (v : Z) | MErase (k : Z).

Definition map_step (m : option (FlatMap.t Z)) (op : MapOp)
  : option (FlatMap.t Z) :=
  match m with
  | None => None
  | Some m =>
      match op with
      | MInsert k v => FlatMap.insert 0 m k v
      | MErase k => FlatMap.erase 0 m k
      end
  end.

Definition run_map (ops : list MapOp) : option (FlatMap.t Z) :=
  fold_left map_step ops (Some (FlatMap.create 0 16)).

(** The value most recently inserted for [k] and not erased since. *)
Fixpoint last_bound (ops : list MapOp) (k : Z) (cur : option Z) : option Z :=
  match ops with
  | [] => cur
  | MInsert k' v :: ops' =>
      last_bound ops' k (if k' =? k then Some v else cur)
  | MErase k' :: ops' =>
      last_bound ops' k (if k' =? k then None else cur)
  end.

(** ** command.h and event.h *)

Inductive CommandType := NewOrder | CancelOrder | ModifyOrder.

Module OrderCommand.
Record t := mk {
  type : CommandType;
  recv_ts : Timestamp;
  order_id : OrderId;
  symbol_id : SymbolId;
  user_id : UserId;
  price_ticks : Tick;
  qty : Quantity;
  side : Side;
  order_type : OrderType;
  tif : TimeInForce;
  flags : Z;
  stop_price : Tick;
  display_qty : Quantity;
  expiry_ts : Timestamp
}.
End OrderCommand.

Module TradeEvent.
Record t := mk {
  ts : Timestamp;
  taker_id : OrderId;
  maker_id : OrderId;
  symbol_id : SymbolId;
  price_ticks : Tick;
  qty : Quantity
}.
End TradeEvent.

Module BookUpdate.
Record t := mk {
  ts : Timestamp;
  symbol_id : SymbolId;
  best_bid : Tick;
  best_ask : Tick;
  bid_qty : Quantity;
  ask_qty : Quantity
}.
End BookUpdate.

Module ExecResult.
Record t := mk {
  filled : Quantity;
  remaining : Quantity;
  accepted : bool
}.
(** The two-argument constructor leaves [accepted] at its default. *)
Definition make (f r : Quantity) : t := mk f r true.
End ExecResult.

Inductive AnyEvent :=
| Trade (t : TradeEvent.t)
| Update (u : BookUpdate.t).

(** ** order.h *)

(** The fields [submit_limit_side] writes into a pooled node.  The iceberg,
    expiry and stop fields of a pooled node are never written nor read by
    the book; [prev] and [next] are the node's place in its level. *)
Module OrderNode.
Record t := mk {
  id : OrderId;
  user : UserId;
  qty : Quantity;
  ts : Timestamp;
  flags : Z
}.
Definition set_qty (n : t) (q : Quantity) : t :=
  mk (id n) (user n) q (ts n) (flags n).
End OrderNode.

Record LevelFIFO := mkLevel {
  nodes : list (Handle * OrderNode.t);
  total_qty : Quantity
}.

Module Level.
Definition empty_level : LevelFIFO := mkLevel [] 0.

Definition empty (l : LevelFIFO) : bool :=
  match nodes l with [] => true | _ :: _ => false end.

Definition enqueue (l : LevelFIFO) (h : Handle) (n : OrderNode.t)
  : LevelFIFO :=
  mkLevel (nodes l ++ [(h, n)]) (total_qty l + OrderNode.qty n).

(** The node a handle denotes in this level. *)
Fixpoint lookup (h : Handle) (ns : list (Handle * OrderNode.t))
  : option OrderNode.t :=
  match ns with
  | [] => None
  | (h', n) :: ns' => if Nat.eqb h' h then Some n else lookup h ns'
  end.

Fixpoint unlink (h : Handle) (ns : list (Handle * OrderNode.t))
  : list (Handle * OrderNode.t) :=
  match ns with
  | [] => []
  | (h', n) :: ns' => if Nat.eqb h' h then ns' else (h', n) :: unlink h ns'
  end.

Fixpoint update (h : Handle) (f : OrderNode.t -> OrderNode.t)
         (ns : list (Handle * OrderNode.t)) : list (Handle * OrderNode.t) :=
  match ns with
  | [] => []
  | (h', n) :: ns' =>
      if Nat.eqb h' h then (h', f n) :: ns' else (h', n) :: update h f ns'
  end.

(** [erase(node)]: [None] when the handle is not a node of this level. *)
Definition erase (l : LevelFIFO) (h : Handle) : option LevelFIFO :=
  match lookup h (nodes l) with
  | None => None
  | Some n => Some (mkLevel (unlink h (nodes l)) (total_qty l - OrderNode.qty n))
  end.

Definition reduce_qty (l : LevelFIFO) (h : Handle) (reduction : Quantity)
  : option LevelFIFO :=
  match lookup h (nodes l) with
  | None => None
  | Some _ =>
      Some (mkLevel
              (update h (fun n => OrderNode.set_qty n (OrderNode.qty n - reduction))
                      (nodes l))
              (total_qty l - reduction))
  end.
End Level.

(** ** mempool.h

    The pool hands out node handles; a freed handle is pushed on the free
    list and is the next one handed out.  Slabs are an unbounded supply of
    fresh handles, numbered from 1 (0 is the null pointer). *)
Record SlabPool := mkPool {
  free_list_ : list Handle;
  next_fresh_ : Handle;
  in_use_ : nat
}.

Module Pool.
Definition create : SlabPool := mkPool [] 1%nat 0%nat.

Definition alloc (p : SlabPool) : Handle * SlabPool :=
  match free_list_ p with
  | h :: fl => (h, mkPool fl (next_fresh_ p) (S (in_use_ p)))
  | [] => (next_fresh_ p, mkPool [] (S (next_fresh_ p)) (S (in_use_ p)))
  end.

(** The pool once [free(ptr)] is past its two assertions: the node is pushed
    on the free list and [in_use_] is decremented. *)
Definition released (p : SlabPool) (h : Handle) : SlabPool :=
  mkPool (h :: free_list_ p) (next_fresh_ p) (in_use_ p - 1)%nat.

(** [free(ptr)]: [None] is a failed [assert], on a null pointer or on a pool
    with nothing in use.  Past the assertions [in_use_ > 0], so the [size_t]
    decrement does not wrap. *)
Definition free (p : SlabPool) (h : Handle) : option SlabPool :=
  if Nat.eqb h 0 || Nat.eqb (in_use_ p) 0 then None
  else Some (released p h).
End Pool.

(** ** price_levels_array.h *)

Record PriceLevelsArray := mkPLA {
  band_ : PriceBand;
  levels_ : list LevelFIFO;
  best_bid_ : Tick;
  best_ask_ : Tick;
  best_bid_ptr_ : option nat;
  best_ask_ptr_ : option nat
}.

Module PLA.
Definition create (band : PriceBand) : PriceLevelsArray :=
  mkPLA band
        (replicate (Z.to_nat (max_tick band - min_tick band + 1))
                   Level.empty_level)
        Sentinel.EMPTY_BID Sentinel.EMPTY_ASK None None.

Definition is_valid_price (pl : PriceLevelsArray) (px : Tick) : bool :=
  (px >=? min_tick (band_ pl)) && (px <=? max_tick (band_ pl)).

(** [idx], in a build that keeps the assertion: [None] is the failed
    [assert]. *)
Definition idx (pl : PriceLevelsArray) (px : Tick) : option nat :=
  if (px >=? min_tick (band_ pl)) && (px <=? max_tick (band_ pl))
  then Some (Z.to_nat (px - min_tick (band_ pl)))
  else None.

(** [idx] as it is compiled with [NDEBUG], the assertion removed: the
    [static_cast<size_t>] of the difference, whatever the tick. *)
Definition idx_unchecked (pl : PriceLevelsArray) (px : Tick) : Z :=
  FlatMap.wrap64 (px - min_tick (band_ pl)).

Definition get_level (pl : PriceLevelsArray) (px : Tick)
  : option LevelFIFO :=
  match idx pl px with
  | None => None
  | Some i => levels_ pl !! i
  end.

Definition has_level (pl : PriceLevelsArray) (px : Tick) : option bool :=
  match get_level pl px with
  | None => None
  | Some l => Some (negb (Level.empty l))
  end.

Definition best_level_ptr (pl : PriceLevelsArray) (s : Side) : option nat :=
  match s with Bid => best_bid_ptr_ pl | Ask => best_ask_ptr_ pl end.

Definition set_best_bid (pl : PriceLevelsArray) (px : Tick)
  : option PriceLevelsArray :=
  if px =? Sentinel.EMPTY_BID then
    Some (mkPLA (band_ pl) (levels_ pl) px (best_ask_ pl) None
                (best_ask_ptr_ pl))
  else
    match idx pl px with
    | None => None
    | Some i =>
        Some (mkPLA (band_ pl) (levels_ pl) px (best_ask_ pl) (Some i)
                    (best_ask_ptr_ pl))
    end.

Definition set_best_ask (pl : PriceLevelsArray) (px : Tick)
  : option PriceLevelsArray :=
  if px =? Sentinel.EMPTY_ASK then
    Some (mkPLA (band_ pl) (levels_ pl) (best_bid_ pl) px
                (best_bid_ptr_ pl) None)
  else
    match idx pl px with
    | None => None
    | Some i =>
        Some (mkPLA (band_ pl) (levels_ pl) (best_bid_ pl) px
                    (best_bid_ptr_ pl) (Some i))
    end.

(** Writing through the reference [get_level] or a level pointer gave. *)
Definition store (pl : PriceLevelsArray) (i : nat) (l : LevelFIFO)
  : PriceLevelsArray :=
  mkPLA (band_ pl) (<[i := l]> (levels_ pl)) (best_bid_ pl) (best_ask_ pl)
        (best_bid_ptr_ pl) (best_ask_ptr_ pl).
End PLA.

(** ** order_book.h *)

Module OrderEntry.
Record t := mk {
  side : Side;
  price : Tick;
  node : Handle
}.
Definition zero : t := mk Bid 0 0%nat.
End OrderEntry.

Record OrderBook := mkBook {
  symbol_id_ : SymbolId;
  bids_ : PriceLevelsArray;
  asks_ : PriceLevelsArray;
  order_pool_ : SlabPool;
  id_index_ : FlatMap.t OrderEntry.t;
  (** whether a callback is registered *)
  on_trade_ : bool;
  on_book_update_ : bool
}.

(** The book, the log the callbacks write, and how often the clock was read. *)
Record World := mkWorld {
  book : OrderBook;
  events : list AnyEvent;
  clock_reads : nat
}.

Inductive Failure := AssertionFailure | BadHandle | NoTermination.

Inductive Outcome (A : Type) :=
| Done (a : A) (w : World)
| Crash (f : Failure) (w : World).
Arguments Done {A} a w.
Arguments Crash {A} f w.

Definition M (A : Type) : Type := World -> Outcome A.

Definition ret {A} (a : A) : M A := fun w => Done a w.

Definition bind {A B} (m : M A) (k : A -> M B) : M B :=
  fun w =>
    match m w with
    | Done a w' => k a w'
    | Crash f w' => Crash f w'
    end.

Definition crash {A} (f : Failure) : M A := fun w => Crash f w.

Definition lift {A} (f : Failure) (o : option A) : M A :=
  match o with Some a => ret a | None => crash f end.

Definition gets {A} (f : OrderBook -> A) : M A :=
  fun w => Done (f (book w)) w.

Definition get_book : M OrderBook := gets (fun b => b).

Definition update_book (f : OrderBook -> OrderBook) : M unit :=
  fun w => Done tt (mkWorld (f (book w)) (events w) (clock_reads w)).

Definition log (e : AnyEvent) : M unit :=
  fun w => Done tt (mkWorld (book w) (events w ++ [e]) (clock_reads w)).

Notation "x <- m ;; k" := (bind m (fun x => k))
  (at level 100, m at next level, right associativity).
Notation "m ;;; k" := (bind m (fun _ => k))
  (at level 100, right associativity).

Definition with_bids (pl : PriceLevelsArray) (b : OrderBook) : OrderBook :=
  mkBook (symbol_id_ b) pl (asks_ b) (order_pool_ b) (id_index_ b)
         (on_trade_ b) (on_book_update_ b).

Definition with_asks (pl : PriceLevelsArray) (b : OrderBook) : OrderBook :=
  mkBook (symbol_id_ b) (bids_ b) pl (order_pool_ b) (id_index_ b)
         (on_trade_ b) (on_book_update_ b).

Definition with_pool (p : SlabPool) (b : OrderBook) : OrderBook :=
  mkBook (symbol_id_ b) (bids_ b) (asks_ b) p (id_index_ b)
         (on_trade_ b) (on_book_update_ b).

Definition with_index (ix : FlatMap.t OrderEntry.t) (b : OrderBook)
  : OrderBook :=
  mkBook (symbol_id_ b) (bids_ b) (asks_ b) (order_pool_ b) ix
         (on_trade_ b) (on_book_update_ b).

(** [s == Side::Bid ? bids_ : asks_] *)
Definition side_levels (s : Side) (b : OrderBook) : PriceLevelsArray :=
  match s with Bid => bids_ b | Ask => asks_ b end.

Definition with_side_levels (s : Side) (pl : PriceLevelsArray)
  : OrderBook -> OrderBook :=
  match s with Bid => with_bids pl | Ask => with_asks pl end.

Definition best_bid (b : OrderBook) : Tick := best_bid_ (bids_ b).
Definition best_ask (b : OrderBook) : Tick := best_ask_ (asks_ b).

(** [OrderBook::empty(Side)] *)
Definition empty (b : OrderBook) (s : Side) : bool :=
  match s with
  | Bid => best_bid b =? Sentinel.EMPTY_BID
  | Ask => best_ask b =? Sentinel.EMPTY_ASK
  end.

Definition MAX_SEARCH : Z := 10000.
Definition MAX_STEPS : Z := 10000.

(** The [for] loops of [refresh_best_after_depletion]: [Some None] when no
    level was found, [None] when a level access fails. *)
Fixpoint search_down (pl : PriceLevelsArray) (current_best i : Z) (n : nat)
  : option (option Tick) :=
  match n with
  | O => Some None
  | S n' =>
      let px := current_best - i in
      if px <=? Sentinel.EMPTY_BID then Some None
      else if negb (PLA.is_valid_price pl px) then Some None
      else
        match PLA.has_level pl px with
        | None => None
        | Some true => Some (Some px)
        | Some false => search_down pl current_best (i + 1) n'
        end
  end.

Fixpoint search_up (pl : PriceLevelsArray) (current_best i : Z) (n : nat)
  : option (option Tick) :=
  match n with
  | O => Some None
  | S n' =>
      let px := current_best + i in
      if px >=? Sentinel.EMPTY_ASK then Some None
      else if negb (PLA.is_valid_price pl px) then Some None
      else
        match PLA.has_level pl px with
        | None => None
        | Some true => Some (Some px)
        | Some false => search_up pl current_best (i + 1) n'
        end
  end.

Definition refresh_bids (pl : PriceLevelsArray) : option PriceLevelsArray :=
  let current_best := best_bid_ pl in
  if current_best =? Sentinel.EMPTY_BID then Some pl
  else
    match search_down pl current_best 1 (Z.to_nat MAX_SEARCH) with
    | None => None
    | Some (Some px) => PLA.set_best_bid pl px
    | Some None => PLA.set_best_bid pl Sentinel.EMPTY_BID
    end.

Definition refresh_asks (pl : PriceLevelsArray) : option PriceLevelsArray :=
  let current_best := best_ask_ pl in
  if current_best =? Sentinel.EMPTY_ASK then Some pl
  else
    match search_up pl current_best 1 (Z.to_nat MAX_SEARCH) with
    | None => None
    | Some (Some px) => PLA.set_best_ask pl px
    | Some None => PLA.set_best_ask pl Sentinel.EMPTY_ASK
    end.

Definition refresh_best_after_depletion (s : Side) : M unit :=
  match s with
  | Bid =>
      pl <- gets bids_ ;;
      pl' <- lift AssertionFailure (refresh_bids pl) ;;
      update_book (with_bids pl')
  | Ask =>
      pl <- gets asks_ ;;
      pl' <- lift AssertionFailure (refresh_asks pl) ;;
      update_book (with_asks pl')
  end.

(** [check_fok_liquidity<IsBid>]: the walk over the opposite ladder. *)
Fixpoint fok_walk (is_bid : bool) (opp : PriceLevelsArray)
         (qty px_limit available current_px : Z) (steps_left : nat)
  : option Quantity :=
  match steps_left with
  | O => Some available
  | S n =>
      if available <? qty then
        let stop :=
          if is_bid
          then (current_px >? px_limit) || (current_px =? Sentinel.EMPTY_ASK)
          else (current_px <? px_limit) || (current_px =? Sentinel.EMPTY_BID) in
        if stop then Some available
        else if negb (PLA.is_valid_price opp current_px) then Some available
        else
          match PLA.has_level opp current_px, PLA.get_level opp current_px with
          | Some hl, Some l =>
              fok_walk is_bid opp qty px_limit
                       (if hl then available + total_qty l else available)
                       (if is_bid then current_px + 1 else current_px - 1) n
          | _, _ => None
          end
      else Some available
  end.

Definition check_fok_liquidity (is_bid : bool) (b : OrderBook)
           (qty : Quantity) (px_limit : Tick) : option bool :=
  let best_price := if is_bid then best_ask b else best_bid b in
  let no_cross :=
    if is_bid
    then (best_price =? Sentinel.EMPTY_ASK) || (best_price >? px_limit)
    else (best_price =? Sentinel.EMPTY_BID) || (best_price <? px_limit) in
  if no_cross then Some false
  else
    match fok_walk is_bid (if is_bid then asks_ b else bids_ b)
                   qty px_limit 0 best_price (Z.to_nat MAX_STEPS) with
    | None => None
    | Some available => Some (available >=? qty)
    end.

Section Engine.

(** The clock behind [TimestampUtil::now_ns]. *)
Variable now : nat -> Timestamp.

Definition now_ns : M Timestamp :=
  fun w =>
    Done (now (clock_reads w))
         (mkWorld (book w) (events w) (S (clock_reads w))).

Definition emit_trade (trade : TradeEvent.t) : M unit :=
  cb <- gets on_trade_ ;;
  if cb then log (Trade trade) else ret tt.

Definition emit_book_update : M unit :=
  cb <- gets on_book_update_ ;;
  if cb then
    best_bid_px <- gets best_bid ;;
    best_ask_px <- gets best_ask ;;
    bid_qty <-
      (if negb (best_bid_px =? Sentinel.EMPTY_BID) then
         b <- gets bids_ ;;
         l <- lift AssertionFailure (PLA.get_level b best_bid_px) ;;
         ret (total_qty l)
       else ret 0) ;;
    ask_qty <-
      (if negb (best_ask_px =? Sentinel.EMPTY_ASK) then
         a <- gets asks_ ;;
         l <- lift AssertionFailure (PLA.get_level a best_ask_px) ;;
         ret (total_qty l)
       else ret 0) ;;
    ts <- now_ns ;;
    sym <- gets symbol_id_ ;;
    log (Update (BookUpdate.mk ts sym best_bid_px best_ask_px bid_qty ask_qty))
  else ret tt.

Definition alloc_node : M Handle :=
  p <- gets order_pool_ ;;
  let '(h, p') := Pool.alloc p in
  update_book (with_pool p') ;;;
  ret h.

Definition free_node (h : Handle) : M unit :=
  p <- gets order_pool_ ;;
  p' <- lift AssertionFailure (Pool.free p h) ;;
  update_book (with_pool p').

Definition index_erase (k : OrderId) : M unit :=
  ix <- gets id_index_ ;;
  ix' <- lift NoTermination (FlatMap.erase OrderEntry.zero ix k) ;;
  update_book (with_index ix').

Definition index_insert (k : OrderId) (e : OrderEntry.t) : M unit :=
  ix <- gets id_index_ ;;
  ix' <- lift NoTermination (FlatMap.insert OrderEntry.zero ix k e) ;;
  update_book (with_index ix').

(** The inner [while (maker && qty > 0)] of [match_against_side], walking
    one level from its head: [makers] are the nodes still ahead, [kept]
    the nodes the walk has left in the level behind it, [total] the
    level's [total_qty]. *)
Fixpoint match_level (taker_id : OrderId) (taker_user : UserId)
         (ts : Timestamp) (enable_stp : bool) (best_price : Tick)
         (makers kept : list (Handle * OrderNode.t)) (total : Quantity)
         (qty total_filled : Quantity)
  : M (LevelFIFO * Quantity * Quantity) :=
  match makers with
  | [] => ret (mkLevel kept total, qty, total_filled)
  | (h, maker) :: rest =>
      if qty >? 0 then
        if enable_stp && (OrderNode.user maker =? taker_user) then
          match_level taker_id taker_user ts enable_stp best_price
                      rest (kept ++ [(h, maker)]) total qty total_filled
        else
          let match_qty := Z.min qty (OrderNode.qty maker) in
          cb <- gets on_trade_ ;;
          sym <- gets symbol_id_ ;;
          (if cb then
             emit_trade (TradeEvent.mk ts taker_id (OrderNode.id maker) sym
                                       best_price match_qty)
           else ret tt) ;;;
          let qty' := qty - match_qty in
          let total_filled' := total_filled + match_qty in
          if match_qty >=? OrderNode.qty maker then
            index_erase (OrderNode.id maker) ;;;
            free_node h ;;;
            match_level taker_id taker_user ts enable_stp best_price
                        rest kept (total - OrderNode.qty maker)
                        qty' total_filled'
          else
            match_level taker_id taker_user ts enable_stp best_price
                        rest
                        (kept ++ [(h, OrderNode.set_qty maker
                                        (OrderNode.qty maker - match_qty))])
                        (total - match_qty) qty' total_filled'
      else ret (mkLevel (kept ++ makers) total, qty, total_filled)
  end.

(** The outer [while (qty > 0)] of [match_against_side<IsBid>]; [s] is the
    side matched against.  Every round that goes on moves the cached best
    price one level further, so there are no more rounds than levels. *)
Fixpoint match_loop (s : Side) (px_limit : Tick) (taker_id : OrderId)
         (taker_user : UserId) (ts : Timestamp) (enable_stp : bool)
         (fuel : nat) (qty total_filled : Quantity) : M Quantity :=
  match fuel with
  | O => crash NoTermination
  | S fuel' =>
      if qty >? 0 then
        levels <- gets (side_levels s) ;;
        match PLA.best_level_ptr levels s with
        | None => ret total_filled
        | Some i =>
            best_level <- lift BadHandle (levels_ levels !! i) ;;
            if Level.empty best_level then ret total_filled
            else
              let best_price :=
                match s with
                | Bid => best_bid_ levels
                | Ask => best_ask_ levels
                end in
              let no_cross :=
                match s with
                | Bid => best_price <? px_limit
                | Ask => best_price >? px_limit
                end in
              if no_cross then ret total_filled
              else
                r <- match_level taker_id taker_user ts enable_stp
                                 best_price (nodes best_level) []
                                 (total_qty best_level) qty total_filled ;;
                let '(best_level', qty', total_filled') := r in
                update_book
                  (fun b => with_side_levels s
                              (PLA.store (side_levels s b) i best_level') b) ;;;
                if Level.empty best_level' then
                  refresh_best_after_depletion s ;;;
                  match_loop s px_limit taker_id taker_user ts enable_stp
                             fuel' qty' total_filled'
                else ret total_filled'
        end
      else ret total_filled
  end.

Definition match_against_side (s : Side) (qty : Quantity) (px_limit : Tick)
           (taker_id : OrderId) (taker_user : UserId) (ts : Timestamp)
           (enable_stp : bool) : M Quantity :=
  levels <- gets (side_levels s) ;;
  match_loop s px_limit taker_id taker_user ts enable_stp
             (S (S (length (levels_ levels)))) qty 0.

Definition stp_enabled (flags : Z) : bool :=
  negb (Z.land flags OrderFlags.STP =? 0).

(** [submit_limit_side<IsBid>] *)
Definition submit_limit_side (is_bid : bool) (cmd : OrderCommand.t)
  : M ExecResult.t :=
  let taker_side := if is_bid then Bid else Ask in
  let enable_stp := stp_enabled (OrderCommand.flags cmd) in
  can_fill <-
    (if TimeInForce_eqb (OrderCommand.tif cmd) FOK then
       b <- get_book ;;
       lift AssertionFailure
            (check_fok_liquidity is_bid b (OrderCommand.qty cmd)
                                 (OrderCommand.price_ticks cmd))
     else ret true) ;;
  if negb can_fill then
    emit_book_update ;;;
    ret (ExecResult.make 0 0)
  else
    crosses <-
      (if is_bid then
         best_ask <- gets best_ask ;;
         ret (negb (best_ask =? Sentinel.EMPTY_ASK)
              && (best_ask <=? OrderCommand.price_ticks cmd))
       else
         best_bid <- gets best_bid ;;
         ret (negb (best_bid =? Sentinel.EMPTY_BID)
              && (best_bid >=? OrderCommand.price_ticks cmd))) ;;
    filled <-
      (if crosses then
         match_against_side (if is_bid then Ask else Bid)
                            (OrderCommand.qty cmd)
                            (OrderCommand.price_ticks cmd)
                            (OrderCommand.order_id cmd)
                            (OrderCommand.user_id cmd)
                            (OrderCommand.recv_ts cmd) enable_stp
       else ret 0) ;;
    let remaining := OrderCommand.qty cmd - filled in
    if remaining >? 0 then
      if TimeInForce_eqb (OrderCommand.tif cmd) IOC then
        emit_book_update ;;;
        ret (ExecResult.make filled 0)
      else if TimeInForce_eqb (OrderCommand.tif cmd) FOK then
        emit_book_update ;;;
        ret (ExecResult.make filled 0)
      else
        levels <- gets (side_levels taker_side) ;;
        i <- lift AssertionFailure
                  (PLA.idx levels (OrderCommand.price_ticks cmd)) ;;
        level <- lift BadHandle (levels_ levels !! i) ;;
        h <- alloc_node ;;
        let node :=
          OrderNode.mk (OrderCommand.order_id cmd) (OrderCommand.user_id cmd)
                       remaining (OrderCommand.recv_ts cmd)
                       (OrderCommand.flags cmd) in
        update_book
          (fun b => with_side_levels taker_side
                      (PLA.store (side_levels taker_side b) i
                                 (Level.enqueue level h node)) b) ;;;
        (if is_bid then
           bids <- gets bids_ ;;
           if OrderCommand.price_ticks cmd >? best_bid_ bids then
             bids' <- lift AssertionFailure
                           (PLA.set_best_bid bids
                                             (OrderCommand.price_ticks cmd)) ;;
             update_book (with_bids bids')
           else ret tt
         else
           asks <- gets asks_ ;;
           if OrderCommand.price_ticks cmd <? best_ask_ asks then
             asks' <- lift AssertionFailure
                           (PLA.set_best_ask asks
                                             (OrderCommand.price_ticks cmd)) ;;
             update_book (with_asks asks')
           else ret tt) ;;;
        index_insert (OrderCommand.order_id cmd)
                     (OrderEntry.mk taker_side
                                    (OrderCommand.price_ticks cmd) h) ;;;
        emit_book_update ;;;
        ret (ExecResult.make filled remaining)
    else
      emit_book_update ;;;
      ret (ExecResult.make filled remaining).

Definition submit_limit (cmd : OrderCommand.t) : M ExecResult.t :=
  match OrderCommand.side cmd with
  | Bid => submit_limit_side true cmd
  | Ask => submit_limit_side false cmd
  end.

Definition submit_market (cmd : OrderCommand.t) : M ExecResult.t :=
  let enable_stp := stp_enabled (OrderCommand.flags cmd) in
  filled <-
    match OrderCommand.side cmd with
    | Bid =>
        match_against_side Ask (OrderCommand.qty cmd) Sentinel.EMPTY_ASK
                           (OrderCommand.order_id cmd)
                           (OrderCommand.user_id cmd)
                           (OrderCommand.recv_ts cmd) enable_stp
    | Ask =>
        match_against_side Bid (OrderCommand.qty cmd) Sentinel.EMPTY_BID
                           (OrderCommand.order_id cmd)
                           (OrderCommand.user_id cmd)
                           (OrderCommand.recv_ts cmd) enable_stp
    end ;;
  let remaining := OrderCommand.qty cmd - filled in
  emit_book_update ;;;
  ret (ExecResult.make filled remaining).

(** The level and the node an index entry points at. *)
Definition entry_level (b : OrderBook) (e : OrderEntry.t)
  : option (nat * LevelFIFO) :=
  let levels := side_levels (OrderEntry.side e) b in
  match PLA.idx levels (OrderEntry.price e) with
  | None => None
  | Some i =>
      match levels_ levels !! i with
      | None => None
      | Some l => Some (i, l)
      end
  end.

Definition cancel (id : OrderId) : M bool :=
  ix <- gets id_index_ ;;
  match FlatMap.find OrderEntry.zero ix id with
  | None => ret false
  | Some entry =>
      let side := OrderEntry.side entry in
      b <- get_book ;;
      il <- lift AssertionFailure (entry_level b entry) ;;
      let '(i, level) := il in
      level' <- lift BadHandle (Level.erase level (OrderEntry.node entry)) ;;
      update_book
        (fun b => with_side_levels side
                    (PLA.store (side_levels side b) i level') b) ;;;
      free_node (OrderEntry.node entry) ;;;
      (if Level.empty level' then refresh_best_after_depletion side
       else ret tt) ;;;
      index_erase id ;;;
      emit_book_update ;;;
      ret true
  end.

(** The node [entry.node] points at. *)
Definition entry_node (b : OrderBook) (e : OrderEntry.t)
  : option OrderNode.t :=
  match entry_level b e with
  | None => None
  | Some (_, l) => Level.lookup (OrderEntry.node e) (nodes l)
  end.

Definition modify (id : OrderId) (new_price : Tick) (new_qty : Quantity)
  : M ExecResult.t :=
  ix <- gets id_index_ ;;
  match FlatMap.find OrderEntry.zero ix id with
  | None => ret (ExecResult.make 0 0)
  | Some entry =>
      b <- get_book ;;
      shrink <-
        (if new_price =? OrderEntry.price entry then
           n <- lift BadHandle (entry_node b entry) ;;
           ret (new_qty <? OrderNode.qty n)
         else ret false) ;;
      if shrink then
        let side := OrderEntry.side entry in
        il <- lift AssertionFailure (entry_level b entry) ;;
        let '(i, level) := il in
        n <- lift BadHandle (entry_node b entry) ;;
        let diff := OrderNode.qty n - new_qty in
        level' <- lift BadHandle
                       (Level.reduce_qty level (OrderEntry.node entry) diff) ;;
        update_book
          (fun b => with_side_levels side
                      (PLA.store (side_levels side b) i level') b) ;;;
        emit_book_update ;;;
        ret (ExecResult.make 0 new_qty)
      else
        n <- lift BadHandle (entry_node b entry) ;;
        let user := OrderNode.user n in
        let flags := OrderNode.flags n in
        let side := OrderEntry.side entry in
        now <- now_ns ;;
        cancelled <- cancel id ;;
        if negb cancelled then ret (ExecResult.make 0 0)
        else
          (** [symbol_id] is left unset by the source and never read. *)
          let new_cmd :=
            OrderCommand.mk NewOrder now id 0 user new_price new_qty side
                            Limit GTC flags 0 0 0 in
          submit_limit new_cmd
  end.

(** The dispatch of [MatchingEngine::run]. *)
Inductive Reply :=
| Exec (r : ExecResult.t)
| Cancelled (ok : bool).

Definition step (cmd : OrderCommand.t) : M Reply :=
  match OrderCommand.type cmd with
  | NewOrder =>
      match OrderCommand.order_type cmd with
      | Limit => r <- submit_limit cmd ;; ret (Exec r)
      | _ => r <- submit_market cmd ;; ret (Exec r)
      end
  | CancelOrder => ok <- cancel (OrderCommand.order_id cmd) ;; ret (Cancelled ok)
  | ModifyOrder =>
      r <- modify (OrderCommand.order_id cmd) (OrderCommand.price_ticks cmd)
                  (OrderCommand.qty cmd) ;;
      ret (Exec r)
  end.

Fixpoint run (cmds : list OrderCommand.t) : M (list Reply) :=
  match cmds with
  | [] => ret []
  | cmd :: cmds' =>
      r <- step cmd ;;
      rs <- run cmds' ;;
      ret (r :: rs)
  end.

End Engine.

(** A fresh engine: [MatchingEngine]'s constructor builds both ladders over
    the band, an index of 8192 slots, and registers both callbacks. *)
Definition new_book (symbol : SymbolId) (band : PriceBand) : OrderBook :=
  mkBook symbol (PLA.create band) (PLA.create band) Pool.create
         (FlatMap.create OrderEntry.zero 8192) false false.

Definition set_on_trade (b : OrderBook) : OrderBook :=
  mkBook (symbol_id_ b) (bids_ b) (asks_ b) (order_pool_ b) (id_index_ b)
         true (on_book_update_ b).

Definition set_on_book_update (b : OrderBook) : OrderBook :=
  mkBook (symbol_id_ b) (bids_ b) (asks_ b) (order_pool_ b) (id_index_ b)
         (on_trade_ b) true.

Definition new_engine (symbol : SymbolId) (band : PriceBand) : World :=
  mkWorld (set_on_book_update (set_on_trade (new_book symbol band))) [] 0.

(** ** Quantities the properties speak about *)

Definition level_open_qty (l : LevelFIFO) : Quantity :=
  fold_right (fun hn acc => OrderNode.qty (snd hn) + acc) 0 (nodes l).

Definition ladder_open_qty (pl : PriceLevelsArray) : Quantity :=
  fold_right (fun l acc => level_open_qty l + acc) 0 (levels_ pl).

(** The open quantity of all nodes resting in the book. *)
Definition resting_qty (b : OrderBook) : Quantity :=
  ladder_open_qty (bids_ b) + ladder_open_qty (asks_ b).

Definition trade_qty (e : AnyEvent) : Quantity :=
  match e with Trade t => TradeEvent.qty t | Update _ => 0 end.

Definition traded_qty (es : list AnyEvent) : Quantity :=
  fold_right (fun e acc => trade_qty e + acc) 0 es.

Definition is_trade (e : AnyEvent) : bool :=
  match e with Trade _ => true | Update _ => false end.

Definition is_update (e : AnyEvent) : bool :=
  match e with Trade _ => false | Update _ => true end.

(** The highest tick with a resting node, scanning the ladder upwards from
    [px]; [acc] when there is none. *)
Fixpoint highest_from (ls : list LevelFIFO) (px acc : Tick) : Tick :=
  match ls with
  | [] => acc
  | l :: ls' => highest_from ls' (px + 1) (if Level.empty l then acc else px)
  end.

Definition highest_resting_tick (pl : PriceLevelsArray) : Tick :=
  highest_from (levels_ pl) (min_tick (band_ pl)) Sentinel.EMPTY_BID.

(** The lowest tick with a resting node. *)
Fixpoint lowest_from (ls : list LevelFIFO) (px : Tick) : Tick :=
  match ls with
  | [] => Sentinel.EMPTY_ASK
  | l :: ls' => if Level.empty l then lowest_from ls' (px + 1) else px
  end.

Definition lowest_resting_tick (pl : PriceLevelsArray) : Tick :=
  lowest_from (levels_ pl) (min_tick (band_ pl)).

(** ** Index entries whose node has left its level

    [cancel] and [modify] follow [entry.node] of the index entry they find,
    without a test.  When that node is queued in the level the entry names,
    the lists of the model change as the links of the source do.  The index
    can also hold an entry whose node has left that level: an erase that
    moves a key out of its probe chain hides the key's entry from [find] and
    from later erases, and an insert or a resize can bring it back after the
    node was freed or handed to another order.  The source then works on
    links that the lists do not record, and the model stops with
    [BadHandle].  [lookups_live] says that a run has no such lookup: every
    Cancel and Modify either does not find its identifier or finds an entry
    whose node is queued in the level the entry names. *)
Definition entry_live (b : OrderBook) (id : OrderId) : bool :=
  match FlatMap.find OrderEntry.zero (id_index_ b) id with
  | None => true
  | Some entry =>
      match entry_node b entry with Some _ => true | None => false end
  end.

Definition follows_live_entry (cmd : OrderCommand.t) (b : OrderBook) : bool :=
  match OrderCommand.type cmd with
  | NewOrder => true
  | CancelOrder | ModifyOrder => entry_live b (OrderCommand.order_id cmd)
  end.

Fixpoint lookups_live (now : nat -> Timestamp) (cmds : list OrderCommand.t)
         (w : World) : bool :=
  match cmds with
  | [] => true
  | cmd :: cmds' =>
      follows_live_entry cmd (book w)
      && match step now cmd w with
         | Done _ w' => lookups_live now cmds' w'
         | Crash _ _ => true
         end
  end.

(** ** Commands and a clock for the worked examples *)

Definition limit_order (id : OrderId) (user : UserId) (s : Side) (px : Tick)
           (q : Quantity) (tif : TimeInForce) (flags : Z) : OrderCommand.t :=
  OrderCommand.mk NewOrder 0 id 1 user px q s Limit tif flags 0 0 0.

Definition market_order (id : OrderId) (user : UserId) (s : Side)
           (q : Quantity) : OrderCommand.t :=
  OrderCommand.mk NewOrder 0 id 1 user 0 q s Market GTC 0 0 0 0.

Definition cancel_order (id : OrderId) : OrderCommand.t :=
  OrderCommand.mk CancelOrder 0 id 1 0 0 0 Bid Limit GTC 0 0 0 0.

Definition modify_order (id : OrderId) (px : Tick) (q : Quantity)
  : OrderCommand.t :=
  OrderCommand.mk ModifyOrder 0 id 1 0 px q Bid Limit GTC 0 0 0 0.

Definition band_100_200 : PriceBand := mkPriceBand 100 200 1.

Definition counting_clock (n : nat) : Timestamp := Z.of_nat n.

Definition final_world {A} (o : Outcome A) : World :=
  match o with Done _ w => w | Crash _ w => w end.

Definition completed {A} (o : Outcome A) : bool :=
  match o with Done _ _ => true | Crash _ _ => false end.

(** * The order index: backward-shift deletion *)

Definition wrap_script : list MapOp := [MInsert 29 1; MInsert 30 2; MErase 29].

(** C10 (fails on the code).  Keys 29 and 30 hash to slots 15 and 0 of a
    16-slot table.  Erasing 29 empties slot 15; the shift then looks at slot
    0, takes the wrapped branch, and moves key 30 from its home slot 0 back
    to slot 15, where [find] no longer reaches it: the key was inserted and
    never erased, yet [find] returns null. *)
Theorem erase_wrap_loses_key :
  FlatMap.home 15 29 = 15 /\ FlatMap.home 15 30 = 0 /\
  last_bound wrap_script 30 None = Some 2 /\
  (exists m, run_map wrap_script = Some m /\
             FlatMap.find 0 m 30 = None /\
             FlatMap.key (FlatMap.at_ 0 (FlatMap.entries_ m) 15) = 30).
Proof.
  split; [vm_compute; reflexivity|].
  split; [vm_compute; reflexivity|].
  split; [vm_compute; reflexivity|].
  destruct (run_map wrap_script) as [m|] eqn:E; [|vm_compute in E; discriminate].
  exists m. split; [reflexivity|].
  vm_compute in E. injection E as <-.
  split; vm_compute; reflexivity.
Qed.

(** * Cached best prices *)

Definition forgotten_best_script : list OrderCommand.t :=
  [limit_order 1 100 Bid 150 10 GTC 0;
   limit_order 2 101 Bid 140 10 GTC 0;
   cancel_order 2].

(** C8 (fails on the code).  Bids rest at 150 and 140; cancelling the only
    order at 140 empties a level that is not the best one, yet [cancel]
    calls [refresh_best_after_depletion], which searches below the cached
    best 150, finds nothing and reports the bid side empty while order 1
    still rests at 150. *)
Theorem cancel_below_best_forgets_best_bid :
  let o := run counting_clock forgotten_best_script
               (new_engine 1 band_100_200) in
  completed o = true /\
  best_bid (book (final_world o)) = Sentinel.EMPTY_BID /\
  highest_resting_tick (bids_ (book (final_world o))) = 150 /\
  resting_qty (book (final_world o)) = 10.
Proof.
  cbv zeta.
  split; [vm_compute; reflexivity|].
  split; [vm_compute; reflexivity|].
  split; vm_compute; reflexivity.
Qed.

(** * Reasoning about the state-and-failure monad *)

Definition outcome_map {A B} (f : A -> B) (o : Outcome A) : Outcome B :=
  match o with
  | Done a w => Done (f a) w
  | Crash fl w => Crash fl w
  end.

Lemma bind_done {A B} (m : M A) (k : A -> M B) w b w2 :
  bind m k w = Done b w2 ->
  exists a w1, m w = Done a w1 /\ k a w1 = Done b w2.
Proof.
  unfold bind. destruct (m w) as [a w1|f w1]; [eauto|discriminate].
Qed.

Lemma bind_crash {A B} (m : M A) (k : A -> M B) w f w2 :
  bind m k w = Crash f w2 ->
  m w = Crash f w2 \/ exists a w1, m w = Done a w1 /\ k a w1 = Crash f w2.
Proof.
  unfold bind. destruct (m w) as [a w1|f' w1]; [eauto|].
  intros [= -> ->]. now left.
Qed.

Lemma lift_done {A} f (o : option A) w a w' :
  lift f o w = Done a w' -> o = Some a /\ w' = w.
Proof. destruct o; cbn; [intros [= -> ->]; auto|discriminate]. Qed.

Lemma bind_ret_r {A B} (m : M A) (f : A -> B) w :
  bind m (fun a => ret (f a)) w = outcome_map f (m w).
Proof. unfold bind, ret. now destruct (m w). Qed.

Lemma bind_assoc {A B C} (m : M A) (k : A -> M B) (k' : B -> M C) w :
  bind (bind m k) k' w = bind m (fun a => bind (k a) k') w.
Proof. unfold bind. now destruct (m w). Qed.

(** * Market orders and immediate-or-cancel limit orders *)

(** The command [submit_market] is compared with: the same command as an
    IOC limit order at the opposite side's sentinel. *)
Definition market_as_limit (cmd : OrderCommand.t) : OrderCommand.t :=
  OrderCommand.mk (OrderCommand.type cmd) (OrderCommand.recv_ts cmd)
    (OrderCommand.order_id cmd) (OrderCommand.symbol_id cmd)
    (OrderCommand.user_id cmd)
    (match OrderCommand.side cmd with
     | Bid => Sentinel.EMPTY_ASK
     | Ask => Sentinel.EMPTY_BID
     end)
    (OrderCommand.qty cmd) (OrderCommand.side cmd)
    (OrderCommand.order_type cmd) IOC (OrderCommand.flags cmd)
    (OrderCommand.stop_price cmd) (OrderCommand.display_qty cmd)
    (OrderCommand.expiry_ts cmd).

(** What the IOC branch reports for a residual. *)
Definition ioc_report (r : ExecResult.t) : ExecResult.t :=
  ExecResult.make (ExecResult.filled r)
                  (if ExecResult.remaining r >? 0 then 0
                   else ExecResult.remaining r).

(** The cached best of the side a taker on side [s] matches against is a
    64-bit tick, and its level pointer is null when it is the sentinel. *)
Definition opposite_best_ok (b : OrderBook) (s : Side) : Prop :=
  match s with
  | Bid => best_ask b <= Sentinel.EMPTY_ASK /\
           (best_ask b = Sentinel.EMPTY_ASK -> best_ask_ptr_ (asks_ b) = None)
  | Ask => Sentinel.EMPTY_BID <= best_bid b /\
           (best_bid b = Sentinel.EMPTY_BID -> best_bid_ptr_ (bids_ b) = None)
  end.

Lemma match_against_side_no_level s qty px tid tu ts stp w :
  PLA.best_level_ptr (side_levels s (book w)) s = None ->
  match_against_side s qty px tid tu ts stp w = Done 0 w.
Proof.
  intros Hp. unfold match_against_side, bind, gets. cbn.
  destruct (qty >? 0); [|reflexivity].
  unfold bind, gets. now rewrite Hp.
Qed.

(** C7 (amended).  On a book whose opposite cached best is consistent,
    [submit_market] and the IOC limit order at the opposite sentinel leave
    the same world (same trades, same book update, same book) and report the
    same filled quantity; the market order reports the unfilled residual
    [qty - filled] as [remaining], where the IOC limit order reports 0. *)
Theorem market_is_ioc_at_sentinel now cmd w :
  opposite_best_ok (book w) (OrderCommand.side cmd) ->
  submit_limit now (market_as_limit cmd) w
  = outcome_map ioc_report (submit_market now cmd w)
  /\ (forall r w', submit_market now cmd w = Done r w' ->
        ExecResult.remaining r = OrderCommand.qty cmd - ExecResult.filled r).
Proof.
  intros Hok. split.
  - unfold submit_limit, submit_market, market_as_limit.
    destruct (OrderCommand.side cmd) eqn:Hs; cbn [OrderCommand.side];
      unfold submit_limit_side; cbn [OrderCommand.tif OrderCommand.qty
        OrderCommand.price_ticks OrderCommand.flags OrderCommand.order_id
        OrderCommand.user_id OrderCommand.recv_ts TimeInForce_eqb negb];
      destruct Hok as [Hle Hnone];
      unfold bind, ret, gets, outcome_map; cbn [negb].
    + destruct (best_ask (book w) =? Sentinel.EMPTY_ASK) eqn:Hb; cbn [negb andb].
      * apply Z.eqb_eq in Hb.
        rewrite match_against_side_no_level by (cbn; auto).
        destruct (OrderCommand.qty cmd - 0 >? 0) eqn:Hq;
          destruct (emit_book_update now w); unfold ioc_report; cbn;
          rewrite ?Hq; reflexivity.
      * replace (best_ask (book w) <=? Sentinel.EMPTY_ASK) with true
          by (symmetry; apply Z.leb_le; exact Hle).
        destruct (match_against_side _ _ _ _ _ _ _ w) as [filled w1|f w1];
          [|reflexivity].
        destruct (OrderCommand.qty cmd - filled >? 0) eqn:Hq;
          destruct (emit_book_update now w1); unfold ioc_report; cbn;
          rewrite ?Hq; reflexivity.
    + destruct (best_bid (book w) =? Sentinel.EMPTY_BID) eqn:Hb; cbn [negb andb].
      * apply Z.eqb_eq in Hb.
        rewrite match_against_side_no_level by (cbn; auto).
        destruct (OrderCommand.qty cmd - 0 >? 0) eqn:Hq;
          destruct (emit_book_update now w); unfold ioc_report; cbn;
          rewrite ?Hq; reflexivity.
      * replace (best_bid (book w) >=? Sentinel.EMPTY_BID) with true
          by (symmetry; apply Z.geb_le; lia).
        destruct (match_against_side _ _ _ _ _ _ _ w) as [filled w1|f w1];
          [|reflexivity].
        destruct (OrderCommand.qty cmd - filled >? 0) eqn:Hq;
          destruct (emit_book_update now w1); unfold ioc_report; cbn;
          rewrite ?Hq; reflexivity.
  - intros r w'. unfold submit_market. intros H.
    apply bind_done in H as (filled & w1 & _ & H).
    apply bind_done in H as (u & w2 & _ & H).
    injection H as <- _. reflexivity.
Qed.

Definition reply_of {A} (o : Outcome A) : option A :=
  match o with Done a _ => Some a | Crash _ _ => None end.

(** One ask of 5 lots resting at 150. *)
Definition one_ask_world : World :=
  final_world (run counting_clock [limit_order 1 100 Ask 150 5 GTC 0]
                   (new_engine 1 band_100_200)).

Lemma market_is_ioc_at_sentinel_witness :
  opposite_best_ok (book one_ask_world) Bid /\
  (submit_limit counting_clock (market_as_limit (market_order 2 101 Bid 10))
                one_ask_world
   = outcome_map ioc_report
       (submit_market counting_clock (market_order 2 101 Bid 10) one_ask_world)
   /\ (forall r w',
         submit_market counting_clock (market_order 2 101 Bid 10) one_ask_world
         = Done r w' ->
         ExecResult.remaining r = 10 - ExecResult.filled r)).
Proof.
  assert (H : opposite_best_ok (book one_ask_world) Bid).
  { split; vm_compute; intros; discriminate. }
  split; [exact H|].
  exact (market_is_ioc_at_sentinel counting_clock
           (market_order 2 101 Bid 10) one_ask_world H).
Defined.

(** C7 as stated fails: a market buy of 10 against 5 resting lots reports
    [remaining = 5], the IOC limit order at the sentinel reports 0. *)
Lemma market_reports_residual :
  reply_of (submit_market counting_clock (market_order 2 101 Bid 10)
                          one_ask_world)
  = Some (ExecResult.mk 5 5 true) /\
  reply_of (submit_limit counting_clock
                         (market_as_limit (market_order 2 101 Bid 10))
                         one_ask_world)
  = Some (ExecResult.mk 5 0 true).
Proof. split; vm_compute; reflexivity. Qed.

(** * Well-formed ladders *)

(** The vector has one level per tick of the band. *)
Definition ladder_shape (pl : PriceLevelsArray) : Prop :=
  length (levels_ pl)
  = Z.to_nat (max_tick (band_ pl) - min_tick (band_ pl) + 1).

(** The cached bests are sentinels or ticks of the band. *)
Definition bests_ok (b : OrderBook) : Prop :=
  (best_bid b = Sentinel.EMPTY_BID
   \/ PLA.is_valid_price (bids_ b) (best_bid b) = true) /\
  (best_ask b = Sentinel.EMPTY_ASK
   \/ PLA.is_valid_price (asks_ b) (best_ask b) = true).

Lemma idx_valid pl px :
  PLA.is_valid_price pl px = true ->
  PLA.idx pl px = Some (Z.to_nat (px - min_tick (band_ pl))).
Proof. unfold PLA.is_valid_price, PLA.idx. now intros ->. Qed.

Lemma idx_invalid pl px :
  PLA.is_valid_price pl px = false -> PLA.idx pl px = None.
Proof. unfold PLA.is_valid_price, PLA.idx. now intros ->. Qed.

Lemma idx_some pl px i :
  PLA.idx pl px = Some i ->
  PLA.is_valid_price pl px = true /\ i = Z.to_nat (px - min_tick (band_ pl)).
Proof.
  unfold PLA.is_valid_price, PLA.idx.
  destruct (_ && _); [intros [= <-]; auto|discriminate].
Qed.

Lemma valid_range pl px :
  PLA.is_valid_price pl px = true <->
  min_tick (band_ pl) <= px <= max_tick (band_ pl).
Proof. unfold PLA.is_valid_price. rewrite andb_true_iff. lia. Qed.

Lemma idx_in_range pl px i :
  ladder_shape pl -> PLA.idx pl px = Some i -> (i < length (levels_ pl))%nat.
Proof.
  intros Hs Hi. apply idx_some in Hi as [Hv ->].
  apply valid_range in Hv. rewrite Hs. lia.
Qed.

Lemma get_level_valid pl px :
  ladder_shape pl -> PLA.is_valid_price pl px = true ->
  exists l, PLA.get_level pl px = Some l.
Proof.
  intros Hs Hv. unfold PLA.get_level. rewrite (idx_valid _ _ Hv).
  apply lookup_lt_is_Some_2. apply valid_range in Hv. rewrite Hs. lia.
Qed.

(** * Fill-or-kill: the liquidity precheck *)

(** What rests at tick [px]. *)
Definition level_liquidity (pl : PriceLevelsArray) (px : Tick) : Quantity :=
  match PLA.get_level pl px with
  | Some l => if Level.empty l then 0 else total_qty l
  | None => 0
  end.

(** The ticks the precheck visits: from the opposite best outward, as long
    as the tick crosses the limit and lies in the band, 10 000 at most. *)
Definition crossing_ticks (is_bid : bool) (opp : PriceLevelsArray)
           (px_limit : Tick) : list Tick :=
  let best := if is_bid then best_ask_ opp else best_bid_ opp in
  let count :=
    if is_bid
    then Z.min px_limit (Z.min (max_tick (band_ opp)) (Sentinel.EMPTY_ASK - 1))
         - best + 1
    else best
         - Z.max px_limit (Z.max (min_tick (band_ opp)) (Sentinel.EMPTY_BID + 1))
         + 1 in
  map (fun k => if is_bid then best + Z.of_nat k else best - Z.of_nat k)
      (seq 0 (Z.to_nat (Z.min MAX_STEPS count))).

Definition sumZ (l : list Z) : Z := fold_right Z.add 0 l.

Definition crossing_liquidity (is_bid : bool) (b : OrderBook)
           (px_limit : Tick) : Quantity :=
  let opp := if is_bid then asks_ b else bids_ b in
  sumZ (map (level_liquidity opp) (crossing_ticks is_bid opp px_limit)).

Definition totals_nonneg (pl : PriceLevelsArray) : Prop :=
  forall i l, levels_ pl !! i = Some l -> 0 <= total_qty l.

Lemma level_liquidity_nonneg pl px :
  totals_nonneg pl -> 0 <= level_liquidity pl px.
Proof.
  intros Hn. unfold level_liquidity, PLA.get_level.
  destruct (PLA.idx pl px) as [i|]; [|reflexivity].
  destruct (levels_ pl !! i) as [l|] eqn:E; [|reflexivity].
  destruct (Level.empty l); [reflexivity|eauto].
Qed.

Lemma sumZ_liquidity_nonneg pl ticks :
  totals_nonneg pl -> 0 <= sumZ (map (level_liquidity pl) ticks).
Proof.
  intros Hn. unfold sumZ.
  induction ticks as [|t ts IH]; cbn [map fold_right]; [lia|].
  pose proof (level_liquidity_nonneg pl t Hn). lia.
Qed.

Lemma seq_ticks (f : nat -> Z) n :
  map f (seq 0 (S n)) = f 0%nat :: map (fun k => f (S k)) (seq 0 n).
Proof. cbn. f_equal. rewrite <- seq_shift, map_map. reflexivity. Qed.

Lemma has_level_liquidity opp px l :
  PLA.get_level opp px = Some l ->
  PLA.has_level opp px = Some (negb (Level.empty l)) /\
  level_liquidity opp px = if Level.empty l then 0 else total_qty l.
Proof. unfold PLA.has_level, level_liquidity. now intros ->. Qed.

(** The walk adds up the liquidity of the crossing ticks as long as the sum
    stays below the quantity asked for. *)
Lemma fok_walk_bid opp qty px_limit n : forall available current_px,
  ladder_shape opp -> totals_nonneg opp ->
  max_tick (band_ opp) <= Sentinel.EMPTY_ASK ->
  min_tick (band_ opp) <= current_px ->
  let count :=
    Z.min px_limit (Z.min (max_tick (band_ opp)) (Sentinel.EMPTY_ASK - 1))
    - current_px + 1 in
  let ticks :=
    map (fun k => current_px + Z.of_nat k)
        (seq 0 (Z.to_nat (Z.min (Z.of_nat n) count))) in
  available + sumZ (map (level_liquidity opp) ticks) < qty ->
  fok_walk true opp qty px_limit available current_px n
  = Some (available + sumZ (map (level_liquidity opp) ticks)).
Proof.
  induction n as [|n IH];
    intros available current_px Hs Hn Hmax Hmin count ticks Hlt.
  - subst ticks. replace (Z.to_nat _) with 0%nat by lia.
    cbn. f_equal. lia.
  - pose proof (sumZ_liquidity_nonneg opp ticks Hn) as Hpos.
    cbn [fok_walk].
    replace (available <? qty) with true by (symmetry; apply Z.ltb_lt; lia).
    destruct (Z_le_gt_dec count 0) as [Hc|Hc].
    + subst ticks. replace (Z.to_nat _) with 0%nat by lia.
      cbn [seq map sumZ fold_right]. rewrite Z.add_0_r.
      destruct ((current_px >? px_limit) || (current_px =? Sentinel.EMPTY_ASK))
        eqn:Hstop; [reflexivity|].
      apply orb_false_iff in Hstop as [H1 H2].
      replace (PLA.is_valid_price opp current_px) with false; [reflexivity|].
      symmetry. apply not_true_is_false. intros Hv%valid_range.
      subst count. lia.
    + replace ((current_px >? px_limit) || (current_px =? Sentinel.EMPTY_ASK))
        with false by (symmetry; apply orb_false_iff; subst count; lia).
      assert (Hv : PLA.is_valid_price opp current_px = true)
        by (apply valid_range; subst count; lia).
      rewrite Hv. cbn [negb].
      destruct (get_level_valid opp current_px Hs Hv) as [l Hl].
      destruct (has_level_liquidity opp current_px l Hl) as [Hh Hq].
      rewrite Hh, Hl.
      assert (Hticks :
        sumZ (map (level_liquidity opp) ticks)
        = level_liquidity opp current_px
          + sumZ (map (level_liquidity opp)
                      (map (fun k => current_px + 1 + Z.of_nat k)
                           (seq 0 (Z.to_nat
                              (Z.min (Z.of_nat n)
                                 (Z.min px_limit
                                    (Z.min (max_tick (band_ opp))
                                           (Sentinel.EMPTY_ASK - 1))
                                  - (current_px + 1) + 1))))))).
      { subst ticks.
        replace (Z.to_nat (Z.min (Z.of_nat (S n)) count))
          with (S (Z.to_nat (Z.min (Z.of_nat n) (count - 1)))) by lia.
        rewrite seq_ticks. cbn [map sumZ fold_right].
        rewrite Z.add_0_r. f_equal.
        replace (count - 1)
          with (Z.min px_limit
                  (Z.min (max_tick (band_ opp)) (Sentinel.EMPTY_ASK - 1))
                - (current_px + 1) + 1) by (subst count; lia).
        f_equal. f_equal. apply map_ext. intros k. lia. }
      rewrite Hticks in Hlt |- *.
      replace (if negb (Level.empty l) then available + total_qty l
               else available)
        with (available + level_liquidity opp current_px)
        by (rewrite Hq; destruct (Level.empty l); cbn; lia).
      rewrite IH by (auto; lia). f_equal. lia.
Qed.

Lemma fok_walk_ask opp qty px_limit n : forall available current_px,
  ladder_shape opp -> totals_nonneg opp ->
  Sentinel.EMPTY_BID <= min_tick (band_ opp) ->
  current_px <= max_tick (band_ opp) ->
  let count :=
    current_px
    - Z.max px_limit (Z.max (min_tick (band_ opp)) (Sentinel.EMPTY_BID + 1))
    + 1 in
  let ticks :=
    map (fun k => current_px - Z.of_nat k)
        (seq 0 (Z.to_nat (Z.min (Z.of_nat n) count))) in
  available + sumZ (map (level_liquidity opp) ticks) < qty ->
  fok_walk false opp qty px_limit available current_px n
  = Some (available + sumZ (map (level_liquidity opp) ticks)).
Proof.
  induction n as [|n IH];
    intros available current_px Hs Hn Hmin Hmax count ticks Hlt.
  - subst ticks. replace (Z.to_nat _) with 0%nat by lia.
    cbn. f_equal. lia.
  - pose proof (sumZ_liquidity_nonneg opp ticks Hn) as Hpos.
    cbn [fok_walk].
    replace (available <? qty) with true by (symmetry; apply Z.ltb_lt; lia).
    destruct (Z_le_gt_dec count 0) as [Hc|Hc].
    + subst ticks. replace (Z.to_nat _) with 0%nat by lia.
      cbn [seq map sumZ fold_right]. rewrite Z.add_0_r.
      destruct ((current_px <? px_limit) || (current_px =? Sentinel.EMPTY_BID))
        eqn:Hstop; [reflexivity|].
      apply orb_false_iff in Hstop as [H1 H2].
      replace (PLA.is_valid_price opp current_px) with false; [reflexivity|].
      symmetry. apply not_true_is_false. intros Hv%valid_range.
      subst count. lia.
    + replace ((current_px <? px_limit) || (current_px =? Sentinel.EMPTY_BID))
        with false by (symmetry; apply orb_false_iff; subst count; lia).
      assert (Hv : PLA.is_valid_price opp current_px = true)
        by (apply valid_range; subst count; lia).
      rewrite Hv. cbn [negb].
      destruct (get_level_valid opp current_px Hs Hv) as [l Hl].
      destruct (has_level_liquidity opp current_px l Hl) as [Hh Hq].
      rewrite Hh, Hl.
      assert (Hticks :
        sumZ (map (level_liquidity opp) ticks)
        = level_liquidity opp current_px
          + sumZ (map (level_liquidity opp)
                      (map (fun k => current_px - 1 - Z.of_nat k)
                           (seq 0 (Z.to_nat
                              (Z.min (Z.of_nat n)
                                 (current_px - 1
                                  - Z.max px_limit
                                      (Z.max (min_tick (band_ opp))
                                             (Sentinel.EMPTY_BID + 1))
                                  + 1))))))).
      { subst ticks.
        replace (Z.to_nat (Z.min (Z.of_nat (S n)) count))
          with (S (Z.to_nat (Z.min (Z.of_nat n) (count - 1)))) by lia.
        rewrite seq_ticks. cbn [map sumZ fold_right].
        rewrite Z.sub_0_r. f_equal.
        replace (count - 1)
          with (current_px - 1
                - Z.max px_limit
                    (Z.max (min_tick (band_ opp)) (Sentinel.EMPTY_BID + 1))
                + 1) by (subst count; lia).
        f_equal. f_equal. apply map_ext. intros k. lia. }
      rewrite Hticks in Hlt |- *.
      replace (if negb (Level.empty l) then available + total_qty l
               else available)
        with (available + level_liquidity opp current_px)
        by (rewrite Hq; destruct (Level.empty l); cbn; lia).
      rewrite IH by (auto; lia). f_equal. lia.
Qed.

(** The band and the cached bests are 64-bit ticks. *)
Definition ticks_in_range (pl : PriceLevelsArray) : Prop :=
  Sentinel.EMPTY_BID <= min_tick (band_ pl) /\
  max_tick (band_ pl) <= Sentinel.EMPTY_ASK.

Lemma check_fok_insufficient (is_bid : bool) b qty px_limit :
  let opp := if is_bid then asks_ b else bids_ b in
  ladder_shape opp -> totals_nonneg opp -> ticks_in_range opp ->
  bests_ok b ->
  crossing_liquidity is_bid b px_limit < qty ->
  check_fok_liquidity is_bid b qty px_limit = Some false.
Proof.
  intros opp Hs Hn [Hlo Hhi] [Hbb Hba] Hlt.
  unfold check_fok_liquidity, crossing_liquidity, crossing_ticks in *.
  fold opp in Hlt.
  replace (Z.of_nat (Z.to_nat MAX_STEPS)) with MAX_STEPS in *
    by (unfold MAX_STEPS; lia).
  destruct is_bid; subst opp.
  - destruct ((best_ask b =? Sentinel.EMPTY_ASK) || (best_ask b >? px_limit))
      eqn:Hnc; [reflexivity|].
    apply orb_false_iff in Hnc as [H1 H2].
    destruct Hba as [Hba|Hba]; [unfold best_ask in *; lia|].
    apply valid_range in Hba. unfold best_ask in *.
    pose proof (fok_walk_bid (asks_ b) qty px_limit (Z.to_nat MAX_STEPS) 0
                  (best_ask_ (asks_ b)) Hs Hn Hhi (proj1 Hba)) as Hw.
    cbv zeta in Hw.
    replace (Z.of_nat (Z.to_nat MAX_STEPS)) with MAX_STEPS in Hw
      by (unfold MAX_STEPS; lia).
    rewrite Hw by (rewrite Z.add_0_l; exact Hlt).
    apply f_equal. rewrite Z.geb_leb. apply Z.leb_gt.
    rewrite Z.add_0_l. exact Hlt.
  - destruct ((best_bid b =? Sentinel.EMPTY_BID) || (best_bid b <? px_limit))
      eqn:Hnc; [reflexivity|].
    apply orb_false_iff in Hnc as [H1 H2].
    destruct Hbb as [Hbb|Hbb]; [unfold best_bid in *; lia|].
    apply valid_range in Hbb. unfold best_bid in *.
    pose proof (fok_walk_ask (bids_ b) qty px_limit (Z.to_nat MAX_STEPS) 0
                  (best_bid_ (bids_ b)) Hs Hn Hlo (proj2 Hbb)) as Hw.
    cbv zeta in Hw.
    replace (Z.of_nat (Z.to_nat MAX_STEPS)) with MAX_STEPS in Hw
      by (unfold MAX_STEPS; lia).
    rewrite Hw by (rewrite Z.add_0_l; exact Hlt).
    apply f_equal. rewrite Z.geb_leb. apply Z.leb_gt.
    rewrite Z.add_0_l. exact Hlt.
Qed.

(** Both ladders have one level per tick of a 64-bit band. *)
Definition book_shape (b : OrderBook) : Prop :=
  (ladder_shape (bids_ b) /\ ticks_in_range (bids_ b)) /\
  (ladder_shape (asks_ b) /\ ticks_in_range (asks_ b)).

Definition is_bid_side (s : Side) : bool :=
  match s with Bid => true | Ask => false end.

(** With a callback registered, [emit_book_update] appends one update that
    carries the cached bests, and touches nothing else but the clock. *)
Lemma emit_book_update_done now w :
  on_book_update_ (book w) = true ->
  book_shape (book w) -> bests_ok (book w) ->
  exists u,
    emit_book_update now w
    = Done tt (mkWorld (book w) (events w ++ [Update u]) (S (clock_reads w)))
    /\ BookUpdate.best_bid u = best_bid (book w)
    /\ BookUpdate.best_ask u = best_ask (book w)
    /\ BookUpdate.ts u = now (clock_reads w).
Proof.
  intros Hcb [[Hsb _] [Hsa _]] [Hbb Hba].
  unfold emit_book_update, bind, gets, ret, lift, log, now_ns. rewrite Hcb.
  pose (bq := match PLA.get_level (bids_ (book w)) (best_bid (book w)) with
              | Some l => total_qty l | None => 0 end).
  pose (aq := match PLA.get_level (asks_ (book w)) (best_ask (book w)) with
              | Some l => total_qty l | None => 0 end).
  exists (BookUpdate.mk (now (clock_reads w)) (symbol_id_ (book w))
            (best_bid (book w)) (best_ask (book w))
            (if negb (best_bid (book w) =? Sentinel.EMPTY_BID) then bq else 0)
            (if negb (best_ask (book w) =? Sentinel.EMPTY_ASK) then aq else 0)).
  split; [|cbn; auto].
  subst bq aq.
  destruct (best_bid (book w) =? Sentinel.EMPTY_BID) eqn:Eb; cbn [negb];
    destruct (best_ask (book w) =? Sentinel.EMPTY_ASK) eqn:Ea; cbn [negb];
    repeat match goal with
      | H : _ \/ _ |- _ => destruct H as [H|H]; [lia|]
      end;
    try (destruct (get_level_valid _ _ Hsb Hbb) as [lb Hlb];
         unfold best_bid in *);
    try (destruct (get_level_valid _ _ Hsa Hba) as [la Hla];
         unfold best_ask in *);
    repeat first [rewrite Hlb | rewrite Hla | progress unfold ret
                 | progress cbn [book events clock_reads]];
    reflexivity.
Qed.

Lemma emit_book_update_off now w :
  on_book_update_ (book w) = false -> emit_book_update now w = Done tt w.
Proof.
  intros Hcb. unfold emit_book_update, bind, gets, ret. now rewrite Hcb.
Qed.

(** C5.  A FOK limit order whose crossing liquidity (the resting quantity
    of the at most 10 000 ticks from the opposite best up to the limit) is
    below its quantity returns [{filled = 0, remaining = 0}]; the book (every
    resting order, both cached bests) is unchanged, no trade is emitted, and
    the log grows by exactly one book update. *)
Theorem fok_insufficient_is_killed now cmd w :
  let is_bid := is_bid_side (OrderCommand.side cmd) in
  OrderCommand.tif cmd = FOK ->
  book_shape (book w) -> bests_ok (book w) ->
  totals_nonneg (if is_bid then asks_ (book w) else bids_ (book w)) ->
  on_book_update_ (book w) = true ->
  crossing_liquidity is_bid (book w) (OrderCommand.price_ticks cmd)
  < OrderCommand.qty cmd ->
  exists u,
    submit_limit now cmd w
    = Done (ExecResult.make 0 0)
           (mkWorld (book w) (events w ++ [Update u]) (S (clock_reads w)))
    /\ BookUpdate.best_bid u = best_bid (book w)
    /\ BookUpdate.best_ask u = best_ask (book w).
Proof.
  intros is_bid Htif Hshape Hbests Hnn Hcb Hlt.
  assert (Hfok : check_fok_liquidity is_bid (book w) (OrderCommand.qty cmd)
                   (OrderCommand.price_ticks cmd) = Some false).
  { apply check_fok_insufficient; auto;
      destruct Hshape as [[? ?] [? ?]]; destruct is_bid; auto. }
  destruct (emit_book_update_done now w Hcb Hshape Hbests)
    as (u & Hu & Hb1 & Hb2 & _).
  exists u. split; [|auto].
  unfold submit_limit. subst is_bid.
  destruct (OrderCommand.side cmd); cbn [is_bid_side] in *;
    unfold submit_limit_side; rewrite Htif; cbn [TimeInForce_eqb];
    unfold bind at 1; unfold bind at 1; unfold get_book, gets at 1;
    rewrite Hfok; cbn [lift ret negb];
    unfold bind; rewrite Hu; reflexivity.
Qed.

Lemma totals_nonneg_check pl :
  forallb (fun l => 0 <=? total_qty l) (levels_ pl) = true -> totals_nonneg pl.
Proof.
  intros H i l Hl. rewrite forallb_forall in H.
  apply Z.leb_le, H. apply list_elem_of_In. eapply list_elem_of_lookup_2, Hl.
Qed.

(** One ask of 10 lots resting at 150. *)
Definition ten_ask_world : World :=
  final_world (run counting_clock [limit_order 1 100 Ask 150 10 GTC 0]
                   (new_engine 1 band_100_200)).

Lemma fok_insufficient_is_killed_witness :
  crossing_liquidity true (book ten_ask_world) 150 = 10 /\
  exists u,
    submit_limit counting_clock (limit_order 2 101 Bid 150 15 FOK 0)
                 ten_ask_world
    = Done (ExecResult.make 0 0)
           (mkWorld (book ten_ask_world)
                    (events ten_ask_world ++ [Update u])
                    (S (clock_reads ten_ask_world)))
    /\ BookUpdate.best_bid u = best_bid (book ten_ask_world)
    /\ BookUpdate.best_ask u = best_ask (book ten_ask_world).
Proof.
  split; [vm_compute; reflexivity|].
  apply (fok_insufficient_is_killed counting_clock
           (limit_order 2 101 Bid 150 15 FOK 0) ten_ask_world).
  - reflexivity.
  - repeat split; vm_compute; congruence.
  - split; [left|right]; vm_compute; reflexivity.
  - apply totals_nonneg_check. vm_compute. reflexivity.
  - vm_compute. reflexivity.
  - vm_compute. reflexivity.
Defined.

(** * Levels as lists of nodes *)

Lemma lookup_here h n pre post :
  Forall (fun x => fst x <> h) pre ->
  Level.lookup h (pre ++ (h, n) :: post) = Some n.
Proof.
  induction 1 as [|[h' n'] pre Hne _ IH]; cbn.
  - now rewrite Nat.eqb_refl.
  - cbn in Hne. apply Nat.eqb_neq in Hne. now rewrite Hne.
Qed.

Lemma update_here h f n pre post :
  Forall (fun x => fst x <> h) pre ->
  Level.update h f (pre ++ (h, n) :: post) = pre ++ (h, f n) :: post.
Proof.
  induction 1 as [|[h' n'] pre Hne _ IH]; cbn.
  - now rewrite Nat.eqb_refl.
  - cbn in Hne. apply Nat.eqb_neq in Hne. rewrite Hne. now f_equal.
Qed.


(** Every node a handle denotes in a level sits at some place of it. *)
Lemma lookup_split h ns n :
  Level.lookup h ns = Some n ->
  exists pre post,
    ns = pre ++ (h, n) :: post /\ Forall (fun x => fst x <> h) pre.
Proof.
  induction ns as [|[h' n'] ns IH]; cbn; [discriminate|].
  destruct (Nat.eqb h' h) eqn:E.
  - intros [= ->]. apply Nat.eqb_eq in E as ->. exists [], ns. auto.
  - intros H. destruct (IH H) as (pre & post & -> & Hpre).
    exists ((h', n') :: pre), post. split; [reflexivity|].
    constructor; [cbn; now apply Nat.eqb_neq|exact Hpre].
Qed.

(** ** Storing a level keeps the shape and the cached bests *)

Definition store_level (s : Side) (i : nat) (l : LevelFIFO) (b : OrderBook)
  : OrderBook :=
  with_side_levels s (PLA.store (side_levels s b) i l) b.

Lemma book_shape_store s i l b :
  book_shape b -> book_shape (store_level s i l b).
Proof.
  unfold book_shape, store_level, ladder_shape, ticks_in_range.
  destruct s; cbn; rewrite ?length_insert; tauto.
Qed.

Lemma bests_ok_store s i l b :
  bests_ok b -> bests_ok (store_level s i l b).
Proof. unfold bests_ok, store_level. destruct s; cbn; tauto. Qed.

(** * Modify: the in-place shrink *)

(** X25.  When the index holds order [id] at price [new_price], its node
    sits somewhere in that level with an open quantity above a non-negative
    [new_qty], on a well-shaped book with a book-update callback, then
    [modify] returns [{filled = 0, remaining = new_qty}], the level keeps the
    same nodes in the same order with only this node's quantity set to
    [new_qty] (and [total_qty] lowered by the difference), nothing else in the
    book changes, and exactly one book update is emitted. *)
Theorem modify_shrinks_in_place now id new_price new_qty w entry i level
        pre post n :
  let b := book w in
  let h := OrderEntry.node entry in
  let s := OrderEntry.side entry in
  FlatMap.find OrderEntry.zero (id_index_ b) id = Some entry ->
  OrderEntry.price entry = new_price ->
  entry_level b entry = Some (i, level) ->
  nodes level = pre ++ (h, n) :: post ->
  Forall (fun x => fst x <> h) pre ->
  0 <= new_qty < OrderNode.qty n ->
  book_shape b -> bests_ok b -> on_book_update_ b = true ->
  exists u,
    modify now id new_price new_qty w
    = Done (ExecResult.make 0 new_qty)
        (mkWorld
           (store_level s i
              (mkLevel (pre ++ (h, OrderNode.set_qty n new_qty) :: post)
                       (total_qty level - (OrderNode.qty n - new_qty)))
              b)
           (events w ++ [Update u])
           (S (clock_reads w))).
Proof.
  intros b h s Hfind Hprice Hlevel Hnodes Hpre [_ Hlt] Hshape Hbests Hcb.
  set (level' := mkLevel (pre ++ (h, OrderNode.set_qty n new_qty) :: post)
                         (total_qty level - (OrderNode.qty n - new_qty))).
  set (w1 := mkWorld (store_level s i level' b) (events w) (clock_reads w)).
  destruct (emit_book_update_done now w1) as (u & Hu & _).
  { subst w1; cbn. unfold store_level. destruct s; exact Hcb. }
  { apply book_shape_store, Hshape. }
  { apply bests_ok_store, Hbests. }
  exists u.
  assert (Hnode : entry_node b entry = Some n).
  { unfold entry_node. rewrite Hlevel, Hnodes. apply lookup_here, Hpre. }
  unfold modify. unfold bind at 1. unfold gets at 1. fold b. rewrite Hfind.
  unfold bind at 1. unfold get_book, gets at 1. fold b.
  rewrite Hprice, Z.eqb_refl.
  unfold bind at 1 2. rewrite Hnode. cbn [lift ret].
  replace (new_qty <? OrderNode.qty n) with true
    by (symmetry; apply Z.ltb_lt; exact Hlt).
  unfold bind at 1. rewrite Hlevel. cbn [lift ret].
  unfold bind at 1. unfold ret at 1.
  unfold bind at 1.
  unfold Level.reduce_qty. fold h. rewrite Hnodes, (lookup_here _ _ _ _ Hpre).
  rewrite (update_here _ _ _ _ _ Hpre). cbn [lift ret].
  replace (OrderNode.set_qty n
             (OrderNode.qty n - (OrderNode.qty n - new_qty)))
    with (OrderNode.set_qty n new_qty) by (f_equal; lia).
  unfold bind at 1. unfold update_book at 1.
  fold b s level'. fold (store_level s i level' b). fold w1.
  unfold bind. rewrite Hu. subst w1. reflexivity.
Qed.

(** Two bids of 10 lots at 150, order 1 ahead of order 2. *)
Definition two_bids_world : World :=
  final_world (run counting_clock
                   [limit_order 1 100 Bid 150 10 GTC 0;
                    limit_order 2 101 Bid 150 10 GTC 0]
                   (new_engine 1 band_100_200)).

Lemma modify_shrinks_in_place_witness :
  FlatMap.find OrderEntry.zero (id_index_ (book two_bids_world)) 1
  = Some (OrderEntry.mk Bid 150 1%nat) /\
  exists u,
    modify counting_clock 1 150 5 two_bids_world
    = Done (ExecResult.make 0 5)
        (mkWorld
           (store_level Bid 50
              (mkLevel [(1%nat, OrderNode.mk 1 100 5 0 0);
                        (2%nat, OrderNode.mk 2 101 10 0 0)] 15)
              (book two_bids_world))
           (events two_bids_world ++ [Update u])
           (S (clock_reads two_bids_world))).
Proof.
  split; [vm_compute; reflexivity|].
  apply (modify_shrinks_in_place counting_clock 1 150 5 two_bids_world
           (OrderEntry.mk Bid 150 1%nat) 50%nat
           (mkLevel [(1%nat, OrderNode.mk 1 100 10 0 0);
                     (2%nat, OrderNode.mk 2 101 10 0 0)] 20)
           [] [(2%nat, OrderNode.mk 2 101 10 0 0)]
           (OrderNode.mk 1 100 10 0 0)).
  - vm_compute. reflexivity.
  - reflexivity.
  - vm_compute. reflexivity.
  - reflexivity.
  - constructor.
  - cbn. lia.
  - repeat split; vm_compute; congruence.
  - split; [right|left]; vm_compute; reflexivity.
  - vm_compute. reflexivity.
Defined.

Definition lost_order_script : list OrderCommand.t :=
  [limit_order 5501 100 Bid 150 10 GTC 0;
   limit_order 8798 101 Bid 150 10 GTC 0;
   cancel_order 8798;
   modify_order 5501 150 5].

(** C6 (fails on the code).  Orders 5501 and 8798 rest at 150 with 10 lots
    each; in the index of 8192 slots their keys have the home slots 0 and
    8191.  Cancelling 8798 erases its key, and the backward shift moves key
    5501 from slot 0 to slot 8191, where [find] does not reach it.  Order
    5501 still rests at 150 with 10 lots, yet Modify(5501, 150, 5) returns
    [{0, 0}], leaves the quantity at 10 and emits no book update: the three
    updates of the log are those of the first three commands. *)
Theorem modify_misses_resting_order :
  let o := run counting_clock lost_order_script (new_engine 1 band_100_200) in
  FlatMap.home 8191 5501 = 0 /\ FlatMap.home 8191 8798 = 8191 /\
  reply_of o
  = Some [Exec (ExecResult.make 0 10); Exec (ExecResult.make 0 10);
          Cancelled true; Exec (ExecResult.make 0 0)] /\
  PLA.get_level (bids_ (book (final_world o))) 150
  = Some (mkLevel [(1%nat, OrderNode.mk 5501 100 10 0 0)] 10) /\
  FlatMap.find OrderEntry.zero (id_index_ (book (final_world o))) 5501 = None
  /\
  length (List.filter is_update (events (final_world o))) = 3%nat.
Proof.
  cbv zeta.
  split; [vm_compute; reflexivity|].
  split; [vm_compute; reflexivity|].
  split; [vm_compute; reflexivity|].
  split; [vm_compute; reflexivity|].
  split; vm_compute; reflexivity.
Qed.

(** * The matching loops, step by step *)

Definition after_trade (t : TradeEvent.t) (w : World) : World :=
  if on_trade_ (book w)
  then mkWorld (book w) (events w ++ [Trade t]) (clock_reads w)
  else w.

Definition set_book (b : OrderBook) (w : World) : World :=
  mkWorld b (events w) (clock_reads w).

Definition after_free (h : Handle) (w : World) : World :=
  set_book (with_pool (Pool.released (order_pool_ (book w)) h) (book w)) w.

Lemma free_node_done h w w' :
  free_node h w = Done tt w' ->
  w' = after_free h w /\ h <> 0%nat /\ (0 < in_use_ (order_pool_ (book w)))%nat.
Proof.
  unfold free_node, bind, gets, lift, update_book, ret, crash, Pool.free.
  destruct (Nat.eqb h 0) eqn:Hh; [discriminate|].
  destruct (Nat.eqb (in_use_ (order_pool_ (book w))) 0) eqn:Hu;
    [discriminate|].
  cbn [orb]. intros [= <-].
  apply Nat.eqb_neq in Hh, Hu. split; [reflexivity|]. split; [exact Hh|lia].
Qed.

Lemma emit_trade_eq t w : emit_trade t w = Done tt (after_trade t w).
Proof.
  unfold emit_trade, after_trade, bind, gets, log, ret.
  destruct (on_trade_ (book w)); reflexivity.
Qed.

Lemma index_erase_done k w w' :
  index_erase k w = Done tt w' ->
  exists ix',
    FlatMap.erase OrderEntry.zero (id_index_ (book w)) k = Some ix' /\
    w' = set_book (with_index ix' (book w)) w.
Proof.
  unfold index_erase, bind, gets, lift, update_book, ret, crash.
  destruct (FlatMap.erase _ _ _) as [ix'|]; [|discriminate].
  intros [= <-]. eauto.
Qed.

Lemma index_insert_done k e w w' :
  index_insert k e w = Done tt w' ->
  exists ix',
    FlatMap.insert OrderEntry.zero (id_index_ (book w)) k e = Some ix' /\
    w' = set_book (with_index ix' (book w)) w.
Proof.
  unfold index_insert, bind, gets, lift, update_book, ret, crash.
  destruct (FlatMap.insert _ _ _ _) as [ix'|]; [|discriminate].
  intros [= <-]. eauto.
Qed.

Section MatchLevel.
Variables (taker_id : OrderId) (taker_user : UserId) (ts : Timestamp)
          (enable_stp : bool) (best_price : Tick).

Definition trade_with (maker : OrderNode.t) (q : Quantity) (w : World)
  : TradeEvent.t :=
  TradeEvent.mk ts taker_id (OrderNode.id maker) (symbol_id_ (book w))
                best_price q.

(** Case analysis of one run of the inner loop. *)
Lemma match_level_ind
  (P : list (Handle * OrderNode.t) -> list (Handle * OrderNode.t) ->
       Quantity -> Quantity -> Quantity -> World ->
       LevelFIFO * Quantity * Quantity -> World -> Prop) :
  (forall kept total qty filled w,
      P [] kept total qty filled w (mkLevel kept total, qty, filled) w) ->
  (forall h maker rest kept total qty filled w,
      qty <= 0 ->
      P ((h, maker) :: rest) kept total qty filled w
        (mkLevel (kept ++ (h, maker) :: rest) total, qty, filled) w) ->
  (forall h maker rest kept total qty filled w r w',
      0 < qty -> enable_stp = true -> OrderNode.user maker = taker_user ->
      P rest (kept ++ [(h, maker)]) total qty filled w r w' ->
      P ((h, maker) :: rest) kept total qty filled w r w') ->
  (forall h maker rest kept total qty filled w ix' r w',
      0 < qty ->
      enable_stp && (OrderNode.user maker =? taker_user) = false ->
      OrderNode.qty maker <= qty ->
      let w1 := after_trade (trade_with maker (OrderNode.qty maker) w) w in
      FlatMap.erase OrderEntry.zero (id_index_ (book w1))
                    (OrderNode.id maker) = Some ix' ->
      let w3 := after_free h (set_book (with_index ix' (book w1)) w1) in
      P rest kept (total - OrderNode.qty maker)
        (qty - OrderNode.qty maker) (filled + OrderNode.qty maker) w3 r w' ->
      P ((h, maker) :: rest) kept total qty filled w r w') ->
  (forall h maker rest kept total qty filled w r w',
      0 < qty ->
      enable_stp && (OrderNode.user maker =? taker_user) = false ->
      qty < OrderNode.qty maker ->
      let w1 := after_trade (trade_with maker qty w) w in
      P rest
        (kept ++ [(h, OrderNode.set_qty maker (OrderNode.qty maker - qty))])
        (total - qty) 0 (filled + qty) w1 r w' ->
      P ((h, maker) :: rest) kept total qty filled w r w') ->
  forall makers kept total qty filled w r w',
    match_level taker_id taker_user ts enable_stp best_price
                makers kept total qty filled w = Done r w' ->
    P makers kept total qty filled w r w'.
Proof.
  intros Hnil Hstop Hskip Herase Hreduce.
  induction makers as [|[h maker] rest IH];
    intros kept total qty filled w r w' Hrun.
  - cbn in Hrun. injection Hrun as <- <-. apply Hnil.
  - cbn [match_level] in Hrun.
    destruct (qty >? 0) eqn:Hq.
    2:{ injection Hrun as <- <-. apply Hstop. lia. }
    assert (0 < qty) by lia.
    destruct (enable_stp && (OrderNode.user maker =? taker_user)) eqn:Hs.
    { apply andb_true_iff in Hs as [Hs1 Hs2]. apply Z.eqb_eq in Hs2.
      apply Hskip; auto. }
    unfold bind at 1 in Hrun. unfold gets at 1 in Hrun.
    unfold bind at 1 in Hrun. unfold gets at 1 in Hrun.
    unfold bind at 1 in Hrun.
    assert (Ht : forall t,
      (if on_trade_ (book w) then emit_trade t else ret tt) w
      = Done tt (after_trade t w)).
    { intros t. destruct (on_trade_ (book w)) eqn:E.
      - apply emit_trade_eq.
      - unfold after_trade. now rewrite E. }
    rewrite Ht in Hrun.
    destruct (Z.min qty (OrderNode.qty maker) >=? OrderNode.qty maker) eqn:Hm.
    + assert (Hmin : Z.min qty (OrderNode.qty maker) = OrderNode.qty maker)
        by lia.
      rewrite Hmin in Hrun.
      apply bind_done in Hrun as ([] & w2 & He & Hrun).
      apply index_erase_done in He as (ix' & He & ->).
      apply bind_done in Hrun as ([] & w3 & Hf & Hrun).
      apply free_node_done in Hf as (-> & _).
      eapply Herase; eauto. lia.
    + assert (Hmin : Z.min qty (OrderNode.qty maker) = qty) by lia.
      rewrite Hmin in Hrun. replace (qty - qty) with 0 in Hrun by lia.
      eapply Hreduce; eauto. lia.
Qed.
End MatchLevel.

(** What the matching loops leave alone: both ladders, the callbacks, the
    symbol and the clock. *)
Definition same_ladders (w w' : World) : Prop :=
  bids_ (book w') = bids_ (book w) /\ asks_ (book w') = asks_ (book w) /\
  on_trade_ (book w') = on_trade_ (book w) /\
  on_book_update_ (book w') = on_book_update_ (book w) /\
  symbol_id_ (book w') = symbol_id_ (book w) /\
  clock_reads w' = clock_reads w.

Lemma same_ladders_refl w : same_ladders w w.
Proof. unfold same_ladders. tauto. Qed.

Lemma same_ladders_trans w1 w2 w3 :
  same_ladders w1 w2 -> same_ladders w2 w3 -> same_ladders w1 w3.
Proof. unfold same_ladders. intuition congruence. Qed.

Lemma same_ladders_trade t w : same_ladders w (after_trade t w).
Proof.
  unfold after_trade, same_ladders.
  destruct (on_trade_ (book w)) eqn:E; cbn; rewrite ?E; tauto.
Qed.

Definition nodes_qty (ns : list (Handle * OrderNode.t)) : Quantity :=
  fold_right (fun hn acc => OrderNode.qty (snd hn) + acc) 0 ns.

Lemma nodes_qty_app a b : nodes_qty (a ++ b) = nodes_qty a + nodes_qty b.
Proof.
  unfold nodes_qty. induction a as [|x a IH]; cbn [app fold_right]; lia.
Qed.

Lemma traded_qty_app a b : traded_qty (a ++ b) = traded_qty a + traded_qty b.
Proof.
  unfold traded_qty. induction a as [|x a IH]; cbn [app fold_right]; lia.
Qed.

Lemma match_level_frame tid tu ts stp bp makers kept total qty filled w r w' :
  match_level tid tu ts stp bp makers kept total qty filled w = Done r w' ->
  same_ladders w w'.
Proof.
  revert makers kept total qty filled w r w'.
  apply (match_level_ind tid tu ts stp bp
           (fun _ _ _ _ _ w _ w' => same_ladders w w')).
  - intros. apply same_ladders_refl.
  - intros. apply same_ladders_refl.
  - auto.
  - intros h maker rest kept total qty filled w ix' r w' _ _ _ w1 _ w3 IH.
    eapply same_ladders_trans; [|exact IH]. subst w3 w1.
    unfold same_ladders, after_free, set_book, after_trade.
    destruct (on_trade_ (book w)) eqn:E; cbn; rewrite ?E; tauto.
  - intros h maker rest kept total qty filled w r w' _ _ _ w1 IH.
    eapply same_ladders_trans; [|exact IH]. apply same_ladders_trade.
Qed.

(** The events of one level walk are trades, and they add up to what was
    filled; the taker's quantity, the level's [total_qty] and the open
    quantity of its nodes all go down by the same amount. *)
Lemma match_level_account tid tu ts stp bp makers kept total qty filled w
      l' qty' filled' w' :
  match_level tid tu ts stp bp makers kept total qty filled w
  = Done (l', qty', filled') w' ->
  qty' = qty - (filled' - filled) /\
  total_qty l' = total - (filled' - filled) /\
  nodes_qty (nodes l') = nodes_qty kept + nodes_qty makers - (filled' - filled) /\
  exists evs,
    events w' = events w ++ evs /\
    forallb is_trade evs = true /\
    (on_trade_ (book w) = true -> traded_qty evs = filled' - filled).
Proof.
  revert makers kept total qty filled w l' qty' filled' w'.
  assert (H : forall makers kept total qty filled w r w',
    match_level tid tu ts stp bp makers kept total qty filled w = Done r w' ->
    snd (fst r) = qty - (snd r - filled) /\
    total_qty (fst (fst r)) = total - (snd r - filled) /\
    nodes_qty (nodes (fst (fst r)))
    = nodes_qty kept + nodes_qty makers - (snd r - filled) /\
    exists evs,
      events w' = events w ++ evs /\
      forallb is_trade evs = true /\
      (on_trade_ (book w) = true -> traded_qty evs = snd r - filled)).
  { apply (match_level_ind tid tu ts stp bp
      (fun makers kept total qty filled w r w' =>
         snd (fst r) = qty - (snd r - filled) /\
         total_qty (fst (fst r)) = total - (snd r - filled) /\
         nodes_qty (nodes (fst (fst r)))
         = nodes_qty kept + nodes_qty makers - (snd r - filled) /\
         exists evs,
           events w' = events w ++ evs /\
           forallb is_trade evs = true /\
           (on_trade_ (book w) = true -> traded_qty evs = snd r - filled))).
    - intros. cbn [fst snd nodes total_qty].
      change (nodes_qty []) with 0.
      split; [lia|]. split; [lia|]. split; [lia|].
      exists []. rewrite app_nil_r. split; [reflexivity|].
      split; [reflexivity|]. intros _. cbn. lia.
    - intros. cbn [fst snd nodes total_qty]. rewrite nodes_qty_app.
      split; [lia|]. split; [lia|]. split; [lia|].
      exists []. rewrite app_nil_r. split; [reflexivity|].
      split; [reflexivity|]. intros _. cbn. lia.
    - intros h maker rest kept total qty filled w r w' _ _ _ IH.
      rewrite nodes_qty_app in IH. cbn [nodes_qty fold_right snd] in *.
      unfold nodes_qty in *. cbn [fold_right snd] in *.
      destruct IH as (? & ? & ? & evs & ? & ? & ?).
      repeat split; try lia. exists evs. auto.
    - intros h maker rest kept total qty filled w ix' r w' _ _ _ w1 _ w3 IH.
      destruct IH as (? & ? & ? & evs & Hev & Htr & Hsum).
      unfold nodes_qty in *. cbn [fold_right snd] in *.
      repeat split; try lia.
      subst w3 w1. unfold after_trade in *. cbn in Hev, Hsum.
      destruct (on_trade_ (book w)) eqn:Hcb; cbn in Hev, Hsum.
      + exists (Trade (trade_with tid ts bp maker (OrderNode.qty maker) w)
                  :: evs).
        rewrite Hev, <- app_assoc. repeat split; auto.
        intros _. unfold traded_qty in *. cbn [fold_right trade_qty].
        cbn. rewrite Hsum by (rewrite Hcb; reflexivity). lia.
      + exists evs. repeat split; auto. discriminate.
    - intros h maker rest kept total qty filled w r w' _ _ _ w1 IH.
      destruct IH as (? & ? & ? & evs & Hev & Htr & Hsum).
      rewrite nodes_qty_app in *.
      unfold nodes_qty in *. cbn [fold_right snd OrderNode.set_qty OrderNode.qty] in *.
      repeat split; try lia.
      subst w1. unfold after_trade in *.
      destruct (on_trade_ (book w)) eqn:Hcb; cbn in Hev, Hsum.
      + exists (Trade (trade_with tid ts bp maker qty w) :: evs).
        rewrite Hev, <- app_assoc. repeat split; auto.
        intros _. unfold traded_qty in *. cbn [fold_right trade_qty].
        cbn. rewrite Hsum by exact Hcb. lia.
      + exists evs. repeat split; auto. discriminate. }
  intros makers kept total qty filled w l' qty' filled' w' Hrun.
  apply H in Hrun. exact Hrun.
Qed.

Definition refresh_ladder (s : Side) (pl : PriceLevelsArray)
  : option PriceLevelsArray :=
  match s with Bid => refresh_bids pl | Ask => refresh_asks pl end.

Lemma refresh_done s w w' :
  refresh_best_after_depletion s w = Done tt w' ->
  exists pl',
    refresh_ladder s (side_levels s (book w)) = Some pl' /\
    w' = set_book (with_side_levels s pl' (book w)) w.
Proof.
  unfold refresh_best_after_depletion.
  destruct s; unfold bind, gets, lift, update_book, ret, crash; cbn;
    match goal with |- context [match ?o with Some _ => _ | None => _ end] =>
      destruct o as [pl'|] eqn:E end;
    try discriminate; intros [= <-]; eauto.
Qed.

Definition side_best (s : Side) (pl : PriceLevelsArray) : Tick :=
  match s with Bid => best_bid_ pl | Ask => best_ask_ pl end.

(** The taker's limit does not reach the best price of side [s]. *)
Definition no_cross (s : Side) (pl : PriceLevelsArray) (px_limit : Tick)
  : bool :=
  match s with
  | Bid => best_bid_ pl <? px_limit
  | Ask => best_ask_ pl >? px_limit
  end.

Section MatchLoop.
Variables (s : Side) (px_limit : Tick) (taker_id : OrderId)
          (taker_user : UserId) (ts : Timestamp) (enable_stp : bool).

(** Case analysis of one run of the outer loop. *)
Lemma match_loop_ind
  (P : nat -> Quantity -> Quantity -> World -> Quantity -> World -> Prop) :
  (forall fuel qty filled w, qty <= 0 -> P (S fuel) qty filled w filled w) ->
  (forall fuel qty filled w,
      0 < qty ->
      PLA.best_level_ptr (side_levels s (book w)) s = None ->
      P (S fuel) qty filled w filled w) ->
  (forall fuel qty filled w i l,
      0 < qty ->
      PLA.best_level_ptr (side_levels s (book w)) s = Some i ->
      levels_ (side_levels s (book w)) !! i = Some l ->
      Level.empty l = true ->
      P (S fuel) qty filled w filled w) ->
  (forall fuel qty filled w i l,
      0 < qty ->
      PLA.best_level_ptr (side_levels s (book w)) s = Some i ->
      levels_ (side_levels s (book w)) !! i = Some l ->
      Level.empty l = false ->
      no_cross s (side_levels s (book w)) px_limit = true ->
      P (S fuel) qty filled w filled w) ->
  (forall fuel qty filled w i l l' qty' filled' w1,
      0 < qty ->
      PLA.best_level_ptr (side_levels s (book w)) s = Some i ->
      levels_ (side_levels s (book w)) !! i = Some l ->
      Level.empty l = false ->
      no_cross s (side_levels s (book w)) px_limit = false ->
      match_level taker_id taker_user ts enable_stp
                  (side_best s (side_levels s (book w)))
                  (nodes l) [] (total_qty l) qty filled w
      = Done (l', qty', filled') w1 ->
      Level.empty l' = false ->
      P (S fuel) qty filled w filled'
        (set_book (store_level s i l' (book w1)) w1)) ->
  (forall fuel qty filled w i l l' qty' filled' w1 w3 r w',
      0 < qty ->
      PLA.best_level_ptr (side_levels s (book w)) s = Some i ->
      levels_ (side_levels s (book w)) !! i = Some l ->
      Level.empty l = false ->
      no_cross s (side_levels s (book w)) px_limit = false ->
      match_level taker_id taker_user ts enable_stp
                  (side_best s (side_levels s (book w)))
                  (nodes l) [] (total_qty l) qty filled w
      = Done (l', qty', filled') w1 ->
      Level.empty l' = true ->
      refresh_best_after_depletion s
        (set_book (store_level s i l' (book w1)) w1) = Done tt w3 ->
      P fuel qty' filled' w3 r w' ->
      P (S fuel) qty filled w r w') ->
  forall fuel qty filled w r w',
    match_loop s px_limit taker_id taker_user ts enable_stp fuel qty filled w
    = Done r w' ->
    P fuel qty filled w r w'.
Proof.
  intros Hdone Hnoptr Hempty Hnocross Hpartial Hdepleted.
  induction fuel as [|fuel IH]; intros qty filled w r w' Hrun;
    [discriminate|].
  cbn [match_loop] in Hrun.
  destruct (qty >? 0) eqn:Hq.
  2:{ injection Hrun as <- <-. apply Hdone. lia. }
  assert (0 < qty) by lia.
  unfold bind at 1 in Hrun. unfold gets at 1 in Hrun.
  destruct (PLA.best_level_ptr (side_levels s (book w)) s) as [i|] eqn:Hp.
  2:{ injection Hrun as <- <-. now apply Hnoptr. }
  unfold bind at 1 in Hrun.
  destruct (levels_ (side_levels s (book w)) !! i) as [l|] eqn:Hl;
    [|discriminate].
  cbn [lift ret] in Hrun.
  destruct (Level.empty l) eqn:He.
  { injection Hrun as <- <-. eapply Hempty; eauto. }
  cbv zeta in Hrun.
  match type of Hrun with
  | (if ?c then _ else _) _ = _ =>
      assert (Hnc : c = no_cross s (side_levels s (book w)) px_limit)
        by (destruct s; reflexivity);
      rewrite Hnc in Hrun; clear Hnc
  end.
  destruct (no_cross s (side_levels s (book w)) px_limit) eqn:Hc.
  { injection Hrun as <- <-. eapply Hnocross; eauto. }
  apply bind_done in Hrun as ([[l' qty'] filled'] & w1 & Hm & Hrun).
  fold (side_best s (side_levels s (book w))) in Hm.
  unfold bind at 1, update_book at 1 in Hrun.
  fold (store_level s i l') in Hrun.
  fold (set_book (store_level s i l' (book w1)) w1) in Hrun.
  destruct (Level.empty l') eqn:He'.
  - apply bind_done in Hrun as ([] & w3 & Hr & Hrun).
    eapply Hdepleted; eauto.
  - injection Hrun as <- <-. eapply Hpartial; eauto.
Qed.
End MatchLoop.

(** ** What one call of [match_against_side] does to the book and the log *)

Definition opposite (s : Side) : Side :=
  match s with Bid => Ask | Ask => Bid end.

Lemma ladder_open_qty_insert ls i l l' :
  ls !! i = Some l ->
  fold_right (fun l acc => level_open_qty l + acc) 0 (<[i := l']> ls)
  = fold_right (fun l acc => level_open_qty l + acc) 0 ls
    - level_open_qty l + level_open_qty l'.
Proof.
  revert i. induction ls as [|x ls IH]; intros [|i] H; try discriminate.
  - injection H as ->. cbn. lia.
  - cbn in H. cbn [fold_right]. change (<[S i:=l']> (x :: ls)) with (x :: <[i:=l']> ls).
    cbn [fold_right]. rewrite (IH _ H). lia.
Qed.

Lemma ladder_open_qty_store pl i l l' :
  levels_ pl !! i = Some l ->
  ladder_open_qty (PLA.store pl i l')
  = ladder_open_qty pl - level_open_qty l + level_open_qty l'.
Proof. intros H. unfold ladder_open_qty. cbn. now apply ladder_open_qty_insert. Qed.

Lemma refresh_bids_levels pl pl' :
  refresh_bids pl = Some pl' ->
  levels_ pl' = levels_ pl /\ band_ pl' = band_ pl /\
  best_ask_ pl' = best_ask_ pl /\ best_ask_ptr_ pl' = best_ask_ptr_ pl.
Proof.
  unfold refresh_bids.
  destruct (best_bid_ pl =? Sentinel.EMPTY_BID); [intros [= <-]; auto|].
  destruct (search_down _ _ _ _) as [[px|]|]; try discriminate;
    unfold PLA.set_best_bid;
    repeat match goal with
      | |- context [if ?c then _ else _] => destruct c
      | |- context [match PLA.idx ?a ?b with _ => _ end] =>
          destruct (PLA.idx a b)
      end; try discriminate; intros [= <-]; cbn; auto.
Qed.

Lemma refresh_asks_levels pl pl' :
  refresh_asks pl = Some pl' ->
  levels_ pl' = levels_ pl /\ band_ pl' = band_ pl /\
  best_bid_ pl' = best_bid_ pl /\ best_bid_ptr_ pl' = best_bid_ptr_ pl.
Proof.
  unfold refresh_asks.
  destruct (best_ask_ pl =? Sentinel.EMPTY_ASK); [intros [= <-]; auto|].
  destruct (search_up _ _ _ _) as [[px|]|]; try discriminate;
    unfold PLA.set_best_ask;
    repeat match goal with
      | |- context [if ?c then _ else _] => destruct c
      | |- context [match PLA.idx ?a ?b with _ => _ end] =>
          destruct (PLA.idx a b)
      end; try discriminate; intros [= <-]; cbn; auto.
Qed.

Lemma refresh_ladder_levels s pl pl' :
  refresh_ladder s pl = Some pl' ->
  levels_ pl' = levels_ pl /\ band_ pl' = band_ pl.
Proof.
  destruct s; cbn; intros H;
    [apply refresh_bids_levels in H|apply refresh_asks_levels in H]; tauto.
Qed.

(** The other side, the callbacks, the symbol and the clock are not touched
    by matching against side [s]; on side [s] only levels and the cached
    best change. *)
Definition matched_frame (s : Side) (w w' : World) : Prop :=
  side_levels (opposite s) (book w') = side_levels (opposite s) (book w) /\
  band_ (side_levels s (book w')) = band_ (side_levels s (book w)) /\
  length (levels_ (side_levels s (book w')))
  = length (levels_ (side_levels s (book w))) /\
  on_trade_ (book w') = on_trade_ (book w) /\
  on_book_update_ (book w') = on_book_update_ (book w) /\
  symbol_id_ (book w') = symbol_id_ (book w) /\
  clock_reads w' = clock_reads w.

Lemma matched_frame_refl s w : matched_frame s w w.
Proof. unfold matched_frame. tauto. Qed.

Lemma matched_frame_trans s w1 w2 w3 :
  matched_frame s w1 w2 -> matched_frame s w2 w3 -> matched_frame s w1 w3.
Proof. unfold matched_frame. intuition congruence. Qed.

Lemma same_ladders_frame s w w' : same_ladders w w' -> matched_frame s w w'.
Proof.
  unfold same_ladders, matched_frame.
  destruct s; cbn; intuition congruence.
Qed.

Lemma store_frame s i l w :
  matched_frame s w (set_book (store_level s i l (book w)) w).
Proof.
  unfold matched_frame, set_book, store_level.
  destruct s; cbn; rewrite ?length_insert; tauto.
Qed.

Lemma refresh_frame s w w' :
  refresh_best_after_depletion s w = Done tt w' -> matched_frame s w w'.
Proof.
  intros H. apply refresh_done in H as (pl' & Hr & ->).
  apply refresh_ladder_levels in Hr as [Hl Hb].
  unfold matched_frame, set_book.
  destruct s; cbn in *; rewrite ?Hl, ?Hb; tauto.
Qed.

Lemma match_loop_frame s px tid tu ts stp fuel qty filled w r w' :
  match_loop s px tid tu ts stp fuel qty filled w = Done r w' ->
  matched_frame s w w'.
Proof.
  revert fuel qty filled w r w'.
  apply (match_loop_ind s px tid tu ts stp
           (fun _ _ _ w _ w' => matched_frame s w w'));
    intros; try apply matched_frame_refl.
  - eapply matched_frame_trans; [|apply store_frame].
    eapply same_ladders_frame, match_level_frame; eauto.
  - eapply matched_frame_trans; [|eassumption].
    eapply matched_frame_trans; [|eapply refresh_frame; eassumption].
    eapply matched_frame_trans; [|apply store_frame].
    eapply same_ladders_frame, match_level_frame; eauto.
Qed.

Lemma side_levels_store s i l b :
  side_levels s (store_level s i l b) = PLA.store (side_levels s b) i l.
Proof. destruct s; reflexivity. Qed.

Lemma same_ladders_side s w w' :
  same_ladders w w' -> side_levels s (book w') = side_levels s (book w).
Proof. unfold same_ladders. destruct s; cbn; tauto. Qed.

Lemma refresh_open_qty s w w' :
  refresh_best_after_depletion s w = Done tt w' ->
  ladder_open_qty (side_levels s (book w'))
  = ladder_open_qty (side_levels s (book w)) /\
  events w' = events w /\ on_trade_ (book w') = on_trade_ (book w).
Proof.
  intros H. apply refresh_done in H as (pl' & Hr & ->).
  apply refresh_ladder_levels in Hr as [Hl Hb].
  unfold ladder_open_qty, set_book. destruct s; cbn in *; rewrite ?Hl; auto.
Qed.

(** Conservation across the outer loop: what is filled leaves side [s], and
    is logged as trades. *)
Lemma match_loop_account s px tid tu ts stp fuel qty filled w r w' :
  match_loop s px tid tu ts stp fuel qty filled w = Done r w' ->
  ladder_open_qty (side_levels s (book w'))
  = ladder_open_qty (side_levels s (book w)) - (r - filled) /\
  exists evs,
    events w' = events w ++ evs /\
    forallb is_trade evs = true /\
    (on_trade_ (book w) = true -> traded_qty evs = r - filled).
Proof.
  revert fuel qty filled w r w'.
  apply (match_loop_ind s px tid tu ts stp
    (fun _ _ filled w r w' =>
       ladder_open_qty (side_levels s (book w'))
       = ladder_open_qty (side_levels s (book w)) - (r - filled) /\
       exists evs,
         events w' = events w ++ evs /\
         forallb is_trade evs = true /\
         (on_trade_ (book w) = true -> traded_qty evs = r - filled)));
    try (intros; split; [lia|]; exists []; rewrite app_nil_r;
         split; [reflexivity|]; split; [reflexivity|]; intros _; cbn; lia).
  - intros fuel qty filled w i l l' qty' filled' w1 _ _ Hl _ _ Hm _.
    pose proof (match_level_frame _ _ _ _ _ _ _ _ _ _ _ _ _ Hm) as Hf.
    apply match_level_account in Hm as (_ & _ & Hn & evs & Hev & Htr & Hsum).
    split; [|exists evs; auto].
    cbn [book set_book]. rewrite side_levels_store.
    rewrite (same_ladders_side s _ _ Hf).
    rewrite (ladder_open_qty_store _ _ _ _ Hl).
    change (nodes_qty []) with 0 in Hn.
    change (level_open_qty l') with (nodes_qty (nodes l')).
    change (level_open_qty l) with (nodes_qty (nodes l)). lia.
  - intros fuel qty filled w i l l' qty' filled' w1 w3 r w'
           _ _ Hl _ _ Hm _ Hr [IH1 (evs2 & Hev2 & Htr2 & Hsum2)].
    pose proof (match_level_frame _ _ _ _ _ _ _ _ _ _ _ _ _ Hm) as Hf.
    apply match_level_account in Hm as (_ & _ & Hn & evs & Hev & Htr & Hsum).
    apply refresh_open_qty in Hr as (Hq & Hev3 & Hcb3).
    cbn [book set_book events] in Hq, Hev3, Hcb3.
    rewrite side_levels_store in Hq.
    rewrite (same_ladders_side s _ _ Hf) in Hq.
    rewrite (ladder_open_qty_store _ _ _ _ Hl) in Hq.
    change (nodes_qty []) with 0 in Hn.
    change (level_open_qty l') with (nodes_qty (nodes l')) in Hq.
    change (level_open_qty l) with (nodes_qty (nodes l)) in Hq.
    split; [lia|].
    exists (evs ++ evs2). rewrite Hev2, Hev3, Hev, app_assoc.
    split; [reflexivity|]. split.
    + rewrite forallb_app, Htr, Htr2. reflexivity.
    + intros Hcb. rewrite traded_qty_app, Hsum by exact Hcb.
      rewrite Hsum2; [lia|].
      rewrite Hcb3. unfold store_level. destruct Hf as (_ & _ & Ht & _).
      destruct s; cbn; congruence.
Qed.


(** ** The phases of [submit_limit_side] *)

(** The crossing test and the matching call. *)
Definition cross_and_match (is_bid : bool) (cmd : OrderCommand.t)
  : M Quantity :=
  crosses <-
    (if is_bid then
       best_ask <- gets best_ask ;;
       ret (negb (best_ask =? Sentinel.EMPTY_ASK)
            && (best_ask <=? OrderCommand.price_ticks cmd))
     else
       best_bid <- gets best_bid ;;
       ret (negb (best_bid =? Sentinel.EMPTY_BID)
            && (best_bid >=? OrderCommand.price_ticks cmd))) ;;
  if crosses then
    match_against_side (if is_bid then Ask else Bid)
                       (OrderCommand.qty cmd) (OrderCommand.price_ticks cmd)
                       (OrderCommand.order_id cmd) (OrderCommand.user_id cmd)
                       (OrderCommand.recv_ts cmd)
                       (stp_enabled (OrderCommand.flags cmd))
  else ret 0.

(** The block that rests the residual of a GTC or GTD order. *)
Definition rest_residual (is_bid : bool) (cmd : OrderCommand.t)
           (remaining : Quantity) : M unit :=
  let taker_side := if is_bid then Bid else Ask in
  levels <- gets (side_levels taker_side) ;;
  i <- lift AssertionFailure (PLA.idx levels (OrderCommand.price_ticks cmd)) ;;
  level <- lift BadHandle (levels_ levels !! i) ;;
  h <- alloc_node ;;
  let node :=
    OrderNode.mk (OrderCommand.order_id cmd) (OrderCommand.user_id cmd)
                 remaining (OrderCommand.recv_ts cmd)
                 (OrderCommand.flags cmd) in
  update_book
    (fun b => with_side_levels taker_side
                (PLA.store (side_levels taker_side b) i
                           (Level.enqueue level h node)) b) ;;;
  (if is_bid then
     bids <- gets bids_ ;;
     if OrderCommand.price_ticks cmd >? best_bid_ bids then
       bids' <- lift AssertionFailure
                     (PLA.set_best_bid bids (OrderCommand.price_ticks cmd)) ;;
       update_book (with_bids bids')
     else ret tt
   else
     asks <- gets asks_ ;;
     if OrderCommand.price_ticks cmd <? best_ask_ asks then
       asks' <- lift AssertionFailure
                     (PLA.set_best_ask asks (OrderCommand.price_ticks cmd)) ;;
       update_book (with_asks asks')
     else ret tt) ;;;
  index_insert (OrderCommand.order_id cmd)
               (OrderEntry.mk taker_side (OrderCommand.price_ticks cmd) h).

Definition fok_gate (is_bid : bool) (cmd : OrderCommand.t) : M bool :=
  if TimeInForce_eqb (OrderCommand.tif cmd) FOK then
    b <- get_book ;;
    lift AssertionFailure
         (check_fok_liquidity is_bid b (OrderCommand.qty cmd)
                              (OrderCommand.price_ticks cmd))
  else ret true.

Definition never_rests (tif : TimeInForce) : bool :=
  TimeInForce_eqb tif IOC || TimeInForce_eqb tif FOK.

Definition submit_limit_phases (now : nat -> Timestamp) (is_bid : bool)
           (cmd : OrderCommand.t) : M ExecResult.t :=
  can_fill <- fok_gate is_bid cmd ;;
  if negb can_fill then emit_book_update now ;;; ret (ExecResult.make 0 0)
  else
    filled <- cross_and_match is_bid cmd ;;
    let remaining := OrderCommand.qty cmd - filled in
    if remaining >? 0 then
      if never_rests (OrderCommand.tif cmd) then
        emit_book_update now ;;; ret (ExecResult.make filled 0)
      else
        rest_residual is_bid cmd remaining ;;;
        emit_book_update now ;;;
        ret (ExecResult.make filled remaining)
    else emit_book_update now ;;; ret (ExecResult.make filled remaining).

Ltac case_outcomes :=
  repeat match goal with
    | |- context [match ?x with Done _ _ => _ | Crash _ _ => _ end] =>
        lazymatch x with
        | Done _ _ => fail
        | Crash _ _ => fail
        | _ => destruct x eqn:?
        end
    | |- context [match ?x with Some _ => _ | None => _ end] =>
        destruct x eqn:?
    | |- context [let '(_, _) := ?x in _] => destruct x eqn:?
    | |- context [if ?c then _ else _] => destruct c eqn:?
    end; try reflexivity; try discriminate.

Lemma submit_limit_side_phases now is_bid cmd w :
  submit_limit_side now is_bid cmd w = submit_limit_phases now is_bid cmd w.
Proof.
  unfold submit_limit_side, submit_limit_phases, fok_gate, cross_and_match,
    rest_residual, never_rests.
  destruct (TimeInForce_eqb (OrderCommand.tif cmd) FOK) eqn:Hfok;
    destruct (TimeInForce_eqb (OrderCommand.tif cmd) IOC) eqn:Hioc;
    destruct is_bid; cbn [orb];
    unfold bind, ret, gets, get_book, lift, crash; cbn [negb];
    case_outcomes.
Qed.

(** ** Matching only takes nodes away *)

Definition handles (l : LevelFIFO) : list Handle := map fst (nodes l).

(** Level by level, the handles of [ls'] are among those of [ls], in the
    same order. *)
Definition no_new_nodes (ls' ls : list LevelFIFO) : Prop :=
  Forall2 (fun l' l => sublist (handles l') (handles l)) ls' ls.

Lemma no_new_nodes_refl ls : no_new_nodes ls ls.
Proof. apply Forall2_same_length_lookup_2; [reflexivity|]. intros i x y H1 H2. rewrite H1 in H2. now injection H2 as ->. Qed.

Lemma no_new_nodes_trans ls1 ls2 ls3 :
  no_new_nodes ls1 ls2 -> no_new_nodes ls2 ls3 -> no_new_nodes ls1 ls3.
Proof.
  unfold no_new_nodes. intros H12 H23.
  eapply Forall2_trans; [|exact H12|exact H23].
  cbn. intros x y z Hxy Hyz. now transitivity (handles y).
Qed.

Lemma match_level_handles tid tu ts stp bp makers kept total qty filled w
      r w' :
  match_level tid tu ts stp bp makers kept total qty filled w = Done r w' ->
  sublist (map fst (nodes (fst (fst r)))) (map fst (kept ++ makers)).
Proof.
  revert makers kept total qty filled w r w'.
  apply (match_level_ind tid tu ts stp bp
           (fun makers kept _ _ _ _ r _ =>
              sublist (map fst (nodes (fst (fst r))))
                      (map fst (kept ++ makers)))).
  - intros. cbn. now rewrite app_nil_r.
  - intros. reflexivity.
  - intros h maker rest kept total qty filled w r w' _ _ _ IH.
    now rewrite <- app_assoc in IH.
  - intros h maker rest kept total qty filled w ix' r w' _ _ _ w1 _ w3 IH.
    etransitivity; [exact IH|].
    rewrite !map_app. apply sublist_app; [reflexivity|].
    cbn. apply sublist_cons. reflexivity.
  - intros h maker rest kept total qty filled w r w' _ _ _ w1 IH.
    rewrite <- app_assoc in IH. rewrite !map_app in *. exact IH.
Qed.

Lemma match_loop_handles s px tid tu ts stp fuel qty filled w r w' :
  match_loop s px tid tu ts stp fuel qty filled w = Done r w' ->
  no_new_nodes (levels_ (side_levels s (book w')))
               (levels_ (side_levels s (book w))).
Proof.
  revert fuel qty filled w r w'.
  assert (Hstore : forall w i l l' w1,
    levels_ (side_levels s (book w)) !! i = Some l ->
    same_ladders w w1 ->
    sublist (map fst (nodes l')) (map fst (nodes l)) ->
    no_new_nodes
      (levels_ (side_levels s
                  (book (set_book (store_level s i l' (book w1)) w1))))
      (levels_ (side_levels s (book w)))).
  { intros w i l l' w1 Hl Hf Hsub. cbn [book set_book].
    rewrite side_levels_store, (same_ladders_side s _ _ Hf). cbn [PLA.store levels_].
    rewrite <- (list_insert_id _ _ _ Hl) at 2.
    apply Forall2_insert; [apply no_new_nodes_refl|exact Hsub]. }
  apply (match_loop_ind s px tid tu ts stp
           (fun _ _ _ w _ w' =>
              no_new_nodes (levels_ (side_levels s (book w')))
                           (levels_ (side_levels s (book w)))));
    intros; try apply no_new_nodes_refl.
  - eapply Hstore; eauto using match_level_frame.
    match goal with H : match_level _ _ _ _ _ _ _ _ _ _ _ = _ |- _ =>
      apply match_level_handles in H; exact H end.
  - eapply no_new_nodes_trans; [eassumption|].
    match goal with H : refresh_best_after_depletion _ _ = _ |- _ =>
      apply refresh_done in H as (pl' & Hr & ->);
      apply refresh_ladder_levels in Hr as [Hr _] end.
    replace (levels_ (side_levels s (book (set_book (with_side_levels s pl'
               (book (set_book (store_level s i l' (book w1)) w1)))
               (set_book (store_level s i l' (book w1)) w1)))))
      with (levels_ pl') by (destruct s; reflexivity).
    rewrite Hr.
    eapply Hstore; eauto using match_level_frame.
    match goal with H : match_level _ _ _ _ _ _ _ _ _ _ _ = _ |- _ =>
      apply match_level_handles in H; exact H end.
Qed.

(** ** Erasing from the index adds no entry *)

Lemma elem_of_insert_inv {A} (l : list A) i x y :
  y ∈ <[i := x]> l -> y = x \/ y ∈ l.
Proof.
  intros H. apply list_elem_of_lookup_1 in H as [j Hj].
  destruct (decide (i = j)) as [->|Hne].
  - destruct (decide (j < length l)%nat) as [Hlt|Hge].
    + rewrite list_lookup_insert_eq in Hj by exact Hlt. injection Hj as <-. now left.
    + rewrite list_insert_ge in Hj by lia. right. eapply list_elem_of_lookup_2, Hj.
  - rewrite list_lookup_insert_ne in Hj by exact Hne.
    right. eapply list_elem_of_lookup_2, Hj.
Qed.

Section IndexSub.
Context {V : Type} (zero : V).

(** Every keyed entry of [es'] is an entry of [es]. *)
Definition entries_sub (es' es : list (FlatMap.Entry V)) : Prop :=
  forall e, e ∈ es' -> FlatMap.key e <> 0 -> e ∈ es.

Lemma at_keyed_elem es i :
  FlatMap.key (FlatMap.at_ zero es i) <> 0 -> FlatMap.at_ zero es i ∈ es.
Proof.
  unfold FlatMap.at_. destruct (es !! Z.to_nat i) eqn:E; cbn.
  - intros _. eapply list_elem_of_lookup_2, E.
  - congruence.
Qed.

Lemma shift_loop_sub fuel : forall es mask idx probe es',
  FlatMap.shift_loop zero es mask idx probe fuel = Some es' ->
  entries_sub es' es.
Proof.
  induction fuel as [|fuel IH]; intros es mask idx probe es' H;
    [discriminate|].
  cbn [FlatMap.shift_loop] in H.
  destruct (FlatMap.key (FlatMap.at_ zero es probe) =? 0) eqn:Hk.
  { injection H as <-. intros e He _. exact He. }
  apply Z.eqb_neq in Hk.
  destruct (FlatMap.can_move _ _ _).
  - apply IH in H. intros e He Hne. specialize (H e He Hne).
    apply elem_of_insert_inv in H as [->|H]; [cbn in Hne; congruence|].
    apply elem_of_insert_inv in H as [->|H]; [|exact H].
    now apply at_keyed_elem.
  - now apply IH in H.
Qed.

Lemma erase_loop_sub fuel : forall m mask k idx m',
  FlatMap.erase_loop zero m mask k idx fuel = Some m' ->
  entries_sub (FlatMap.entries_ m') (FlatMap.entries_ m).
Proof.
  induction fuel as [|fuel IH]; intros m mask k idx m' H; [discriminate|].
  cbn [FlatMap.erase_loop] in H.
  destruct (FlatMap.key (FlatMap.at_ zero (FlatMap.entries_ m) idx) =? 0).
  { injection H as <-. intros e He _. exact He. }
  destruct (FlatMap.key (FlatMap.at_ zero (FlatMap.entries_ m) idx) =? k).
  - destruct (FlatMap.shift_loop _ _ _ _ _ _) as [es'|] eqn:Hs;
      [|discriminate].
    injection H as <-. cbn. apply shift_loop_sub in Hs.
    intros e He Hne. specialize (Hs e He Hne).
    apply elem_of_insert_inv in Hs as [->|Hs]; [cbn in Hne; congruence|].
    exact Hs.
  - now apply IH in H.
Qed.

Lemma erase_sub m k m' :
  FlatMap.erase zero m k = Some m' ->
  entries_sub (FlatMap.entries_ m') (FlatMap.entries_ m).
Proof. apply erase_loop_sub. Qed.
End IndexSub.

Definition index_sub (w' w : World) : Prop :=
  entries_sub (FlatMap.entries_ (id_index_ (book w')))
              (FlatMap.entries_ (id_index_ (book w))).

Lemma index_sub_refl w : index_sub w w.
Proof. intros e He _. exact He. Qed.

Lemma index_sub_trans w1 w2 w3 :
  index_sub w3 w2 -> index_sub w2 w1 -> index_sub w3 w1.
Proof. intros H32 H21 e He Hne. apply H21; auto. Qed.

Lemma match_level_index tid tu ts stp bp makers kept total qty filled w r w' :
  match_level tid tu ts stp bp makers kept total qty filled w = Done r w' ->
  index_sub w' w.
Proof.
  revert makers kept total qty filled w r w'.
  apply (match_level_ind tid tu ts stp bp
           (fun _ _ _ _ _ w _ w' => index_sub w' w)).
  - intros. apply index_sub_refl.
  - intros. apply index_sub_refl.
  - auto.
  - intros h maker rest kept total qty filled w ix' r w' _ _ _ w1 He w3 IH.
    eapply index_sub_trans; [exact IH|].
    subst w3 w1. unfold index_sub, after_free, set_book, after_trade in *.
    apply erase_sub in He.
    destruct (on_trade_ (book w)); cbn in *; exact He.
  - intros h maker rest kept total qty filled w r w' _ _ _ w1 IH.
    eapply index_sub_trans; [exact IH|].
    subst w1. unfold index_sub, after_trade.
    destruct (on_trade_ (book w)); cbn; intros e He _; exact He.
Qed.

Lemma match_loop_index s px tid tu ts stp fuel qty filled w r w' :
  match_loop s px tid tu ts stp fuel qty filled w = Done r w' ->
  index_sub w' w.
Proof.
  revert fuel qty filled w r w'.
  assert (Hstore : forall i l w1,
             index_sub (set_book (store_level s i l (book w1)) w1) w1).
  { intros. unfold index_sub, set_book, store_level.
    destruct s; cbn; intros e He _; exact He. }
  apply (match_loop_ind s px tid tu ts stp
           (fun _ _ _ w _ w' => index_sub w' w));
    intros; try apply index_sub_refl.
  - eapply index_sub_trans; [apply Hstore|].
    eapply match_level_index; eauto.
  - eapply index_sub_trans; [eassumption|].
    match goal with H : refresh_best_after_depletion _ _ = _ |- _ =>
      apply refresh_done in H as (pl' & Hr & ->) end.
    eapply index_sub_trans; [|eapply match_level_index; eauto].
    unfold index_sub, set_book, store_level.
    destruct s; cbn; intros e He _; exact He.
Qed.

Definition taker_side (is_bid : bool) : Side := if is_bid then Bid else Ask.

Lemma cross_and_match_done is_bid cmd w filled w1 :
  cross_and_match is_bid cmd w = Done filled w1 ->
  (filled = 0 /\ w1 = w) \/
  exists fuel,
    match_loop (opposite (taker_side is_bid)) (OrderCommand.price_ticks cmd)
               (OrderCommand.order_id cmd) (OrderCommand.user_id cmd)
               (OrderCommand.recv_ts cmd)
               (stp_enabled (OrderCommand.flags cmd))
               fuel (OrderCommand.qty cmd) 0 w
    = Done filled w1.
Proof.
  unfold cross_and_match, match_against_side.
  destruct is_bid; unfold bind, gets, ret; cbn [taker_side opposite];
    match goal with |- context [if ?c then _ else _] => destruct c end;
    try (intros [= <- <-]; now left);
    intros H; right; eauto.
Qed.

(** The effect of the matching phase, gathered. *)
Lemma cross_and_match_effect is_bid cmd w filled w1 :
  cross_and_match is_bid cmd w = Done filled w1 ->
  let s := opposite (taker_side is_bid) in
  matched_frame s w w1 /\
  no_new_nodes (levels_ (side_levels s (book w1)))
               (levels_ (side_levels s (book w))) /\
  index_sub w1 w /\
  ladder_open_qty (side_levels s (book w1))
  = ladder_open_qty (side_levels s (book w)) - filled /\
  exists evs,
    events w1 = events w ++ evs /\
    forallb is_trade evs = true /\
    (on_trade_ (book w) = true -> traded_qty evs = filled).
Proof.
  intros H s. apply cross_and_match_done in H as [[-> ->]|[fuel H]].
  - split; [apply matched_frame_refl|].
    split; [apply no_new_nodes_refl|].
    split; [apply index_sub_refl|].
    split; [lia|].
    exists []. rewrite app_nil_r. split; [reflexivity|].
    split; [reflexivity|]. intros _. reflexivity.
  - fold s in H.
    split; [eapply match_loop_frame; eauto|].
    split; [eapply match_loop_handles; eauto|].
    split; [eapply match_loop_index; eauto|].
    apply match_loop_account in H as [Hq (evs & Hev & Htr & Hsum)].
    split; [lia|].
    exists evs. split; [exact Hev|]. split; [exact Htr|].
    intros Hcb. rewrite Hsum by exact Hcb. lia.
Qed.

Lemma opposite_taker_side s : opposite (opposite s) = s.
Proof. now destruct s. Qed.

(** * Resting outside the band *)

(** X26.  In a build that keeps the bounds assertion of the ladder, a GTC
    or GTD order whose limit lies outside the band and that is left with a
    residual after matching does not complete: the assertion fails before
    any node is allocated, enqueued or indexed.  At that point the order's
    own side is as it was, the opposite side and the index have only lost
    what was matched, and the trades of the command are in the log. *)
Theorem out_of_band_rest_aborts now cmd w filled w1 :
  let is_bid := is_bid_side (OrderCommand.side cmd) in
  let own := OrderCommand.side cmd in
  never_rests (OrderCommand.tif cmd) = false ->
  PLA.is_valid_price (side_levels own (book w)) (OrderCommand.price_ticks cmd)
  = false ->
  cross_and_match is_bid cmd w = Done filled w1 ->
  0 < OrderCommand.qty cmd - filled ->
  submit_limit now cmd w = Crash AssertionFailure w1 /\
  side_levels own (book w1) = side_levels own (book w) /\
  no_new_nodes (levels_ (side_levels (opposite own) (book w1)))
               (levels_ (side_levels (opposite own) (book w))) /\
  index_sub w1 w /\
  exists evs,
    events w1 = events w ++ evs /\
    forallb is_trade evs = true /\
    (on_trade_ (book w) = true -> traded_qty evs = filled).
Proof.
  intros is_bid own Htif Hinv Hm Hrem.
  assert (Hside : taker_side is_bid = own)
    by (subst is_bid own; now destruct (OrderCommand.side cmd)).
  destruct (cross_and_match_effect _ _ _ _ _ Hm)
    as (Hframe & Hnodes & Hidx & _ & Hev).
  rewrite Hside in Hframe, Hnodes.
  assert (Hown : side_levels own (book w1) = side_levels own (book w)).
  { destruct Hframe as (H & _). now rewrite opposite_taker_side in H. }
  split; [|auto 10].
  replace (submit_limit now cmd w) with (submit_limit_side now is_bid cmd w)
    by (unfold submit_limit; subst is_bid;
        now destruct (OrderCommand.side cmd)).
  rewrite submit_limit_side_phases. unfold submit_limit_phases, fok_gate.
  assert (Hfok : TimeInForce_eqb (OrderCommand.tif cmd) FOK = false).
  { unfold never_rests in Htif. now apply orb_false_iff in Htif. }
  rewrite Hfok. unfold bind at 1. unfold ret at 1. cbn [negb].
  unfold bind at 1. rewrite Hm.
  replace (OrderCommand.qty cmd - filled >? 0) with true
    by (symmetry; apply Z.gtb_lt; lia).
  rewrite Htif. unfold bind at 1.
  unfold rest_residual. unfold bind at 1. unfold gets at 1.
  fold (taker_side is_bid). rewrite Hside, Hown.
  unfold bind at 1. rewrite (idx_invalid _ _ Hinv). reflexivity.
Qed.

Definition out_of_band_bid : OrderCommand.t :=
  limit_order 2 101 Bid 300 15 GTC 0.

Lemma out_of_band_rest_aborts_witness :
  let w1 := final_world (cross_and_match true out_of_band_bid ten_ask_world) in
  submit_limit counting_clock out_of_band_bid ten_ask_world
  = Crash AssertionFailure w1 /\
  traded_qty (events w1) = 10 /\
  resting_qty (book w1) = 0.
Proof.
  intros w1.
  destruct (out_of_band_rest_aborts counting_clock out_of_band_bid
              ten_ask_world 10 w1) as (H & _).
  - reflexivity.
  - vm_compute. reflexivity.
  - subst w1. vm_compute. reflexivity.
  - cbn. lia.
  - split; [exact H|]. split; vm_compute; reflexivity.
Defined.

(** C9 (fails on the code).  With an ask of 10 resting at 150 and the band
    100..200, a GTC bid of 15 at 300 trades 10 and goes on to rest its
    residual of 5: [submit_limit_side] calls [get_level(300)] without the
    [is_valid_price] test that the other walks over the ladder make.  In a
    build that keeps the assertion of [idx] the command stops there, with no
    book update after the trade; in a build with [NDEBUG] the index is 200,
    past the 101 levels of the ladder, and the node is enqueued through a
    reference outside the vector.  In neither build is the residual
    discarded before the enqueue with the command completing. *)
Theorem out_of_band_rest_breaks_the_bounds :
  let o := submit_limit counting_clock out_of_band_bid ten_ask_world in
  let bids := bids_ (book ten_ask_world) in
  PLA.is_valid_price bids 300 = false /\
  completed o = false /\
  traded_qty (events (final_world o)) = 10 /\
  List.filter is_update (events (final_world o))
  = List.filter is_update (events ten_ask_world) /\
  PLA.idx_unchecked bids 300 = 200 /\
  length (levels_ bids) = 101%nat.
Proof.
  cbv zeta.
  split; [vm_compute; reflexivity|].
  split; [vm_compute; reflexivity|].
  split; [vm_compute; reflexivity|].
  split; [vm_compute; reflexivity|].
  split; vm_compute; reflexivity.
Qed.

(** * The other operations, step by step *)

(** The ladder after the residual was enqueued at level [i] and the cached
    best was raised (lowered) to the limit when the limit is better. *)
Definition rested_ladder (is_bid : bool) (pl : PriceLevelsArray) (i : nat)
           (l : LevelFIFO) (px : Tick) : option PriceLevelsArray :=
  let pl1 := PLA.store pl i l in
  if is_bid then
    if px >? best_bid_ pl1 then PLA.set_best_bid pl1 px else Some pl1
  else
    if px <? best_ask_ pl1 then PLA.set_best_ask pl1 px else Some pl1.

Lemma rest_residual_done is_bid cmd remaining w w' :
  rest_residual is_bid cmd remaining w = Done tt w' ->
  let own := taker_side is_bid in
  let px := OrderCommand.price_ticks cmd in
  exists i level h pool' pl' ix',
    PLA.idx (side_levels own (book w)) px = Some i /\
    levels_ (side_levels own (book w)) !! i = Some level /\
    Pool.alloc (order_pool_ (book w)) = (h, pool') /\
    rested_ladder is_bid (side_levels own (book w)) i
      (Level.enqueue level h
         (OrderNode.mk (OrderCommand.order_id cmd) (OrderCommand.user_id cmd)
                       remaining (OrderCommand.recv_ts cmd)
                       (OrderCommand.flags cmd)))
      px = Some pl' /\
    FlatMap.insert OrderEntry.zero (id_index_ (book w))
                   (OrderCommand.order_id cmd) (OrderEntry.mk own px h)
    = Some ix' /\
    w' = set_book (with_index ix'
                     (with_side_levels own pl' (with_pool pool' (book w)))) w.
Proof.
  intros H own px. unfold rest_residual in H.
  fold (taker_side is_bid) in H. fold own px in H.
  unfold bind at 1, gets at 1 in H.
  apply bind_done in H as (i & w1 & Hi & H). apply lift_done in Hi as [Hi ->].
  apply bind_done in H as (level & w1 & Hl & H). apply lift_done in Hl as [Hl ->].
  unfold bind at 1, alloc_node at 1 in H. unfold bind at 1, gets at 1 in H.
  destruct (Pool.alloc (order_pool_ (book w))) as [h pool'] eqn:Ha.
  unfold bind at 1, update_book at 1, ret at 1 in H.
  unfold bind at 1, update_book at 1 in H.
  apply bind_done in H as ([] & w2 & Hb & H).
  apply index_insert_done in H as (ix' & Hins & ->).
  exists i, level, h, pool'.
  unfold rested_ladder. subst own.
  destruct is_bid; cbn [taker_side side_levels with_side_levels] in *;
    unfold bind at 1, gets at 1 in Hb; cbn in Hb.
  - destruct (px >? best_bid_ (bids_ (book w))) eqn:Hgt.
    + apply bind_done in Hb as (pl' & w3 & Hs & Hb).
      apply lift_done in Hs as [Hs ->]. injection Hb as <-.
      exists pl', ix'. cbn in *. rewrite Hgt. auto 10.
    + injection Hb as <-. eexists _, ix'. cbn in *. rewrite Hgt.
      split; [exact Hi|]. split; [exact Hl|]. split; [reflexivity|].
      split; [reflexivity|]. split; [exact Hins|]. reflexivity.
  - destruct (px <? best_ask_ (asks_ (book w))) eqn:Hlt.
    + apply bind_done in Hb as (pl' & w3 & Hs & Hb).
      apply lift_done in Hs as [Hs ->]. injection Hb as <-.
      exists pl', ix'. cbn in *. rewrite Hlt. auto 10.
    + injection Hb as <-. eexists _, ix'. cbn in *. rewrite Hlt.
      split; [exact Hi|]. split; [exact Hl|]. split; [reflexivity|].
      split; [reflexivity|]. split; [exact Hins|]. reflexivity.
Qed.

Lemma emit_book_update_inv now w w' :
  emit_book_update now w = Done tt w' ->
  book w' = book w /\
  if on_book_update_ (book w)
  then exists u,
         events w' = events w ++ [Update u] /\
         clock_reads w' = S (clock_reads w) /\
         BookUpdate.ts u = now (clock_reads w) /\
         BookUpdate.symbol_id u = symbol_id_ (book w) /\
         BookUpdate.best_bid u = best_bid (book w) /\
         BookUpdate.best_ask u = best_ask (book w)
  else w' = w.
Proof.
  unfold emit_book_update. unfold bind at 1, gets at 1.
  destruct (on_book_update_ (book w)); [|intros [= <-]; auto].
  unfold bind at 1, gets at 1. unfold bind at 1, gets at 1.
  intros H. apply bind_done in H as (bq & w1 & Hb & H).
  assert (w1 = w) as ->.
  { destruct (negb _); [|now injection Hb].
    unfold bind at 1, gets at 1 in Hb.
    apply bind_done in Hb as (l & w2 & Hl & Hb).
    apply lift_done in Hl as [_ ->]. now injection Hb. }
  apply bind_done in H as (aq & w1 & Ha & H).
  assert (w1 = w) as ->.
  { destruct (negb _); [|now injection Ha].
    unfold bind at 1, gets at 1 in Ha.
    apply bind_done in Ha as (l & w2 & Hl & Ha).
    apply lift_done in Hl as [_ ->]. now injection Ha. }
  unfold bind, now_ns, gets, log in H. cbn in H. injection H as <-.
  split; [reflexivity|]. eexists. cbn. repeat split.
Qed.

(** [cancel], step by step. *)
Lemma cancel_done now id w ok w' :
  cancel now id w = Done ok w' ->
  (ok = false /\ w' = w /\
   FlatMap.find OrderEntry.zero (id_index_ (book w)) id = None) \/
  (ok = true /\
   exists entry i level level' w3 ix',
     FlatMap.find OrderEntry.zero (id_index_ (book w)) id = Some entry /\
     entry_level (book w) entry = Some (i, level) /\
     Level.erase level (OrderEntry.node entry) = Some level' /\
     let w2 := after_free (OrderEntry.node entry)
                 (set_book (store_level (OrderEntry.side entry) i level'
                                        (book w)) w) in
     (if Level.empty level'
      then refresh_best_after_depletion (OrderEntry.side entry) w2 = Done tt w3
      else w3 = w2) /\
     FlatMap.erase OrderEntry.zero (id_index_ (book w3)) id = Some ix' /\
     emit_book_update now (set_book (with_index ix' (book w3)) w3)
     = Done tt w').
Proof.
  unfold cancel. unfold bind at 1, gets at 1.
  destruct (FlatMap.find _ _ _) as [entry|] eqn:Hfind.
  2:{ intros [= <- <-]. left. auto. }
  intros H. right.
  unfold bind at 1, get_book, gets at 1 in H.
  apply bind_done in H as ([i level] & w1 & Hl & H).
  apply lift_done in Hl as [Hl ->].
  apply bind_done in H as (level' & w1 & He & H).
  apply lift_done in He as [He ->].
  unfold bind at 1, update_book at 1 in H.
  apply bind_done in H as ([] & w2 & Hfree & H).
  apply free_node_done in Hfree as (-> & _).
  apply bind_done in H as ([] & w3 & Hr & H).
  apply bind_done in H as ([] & w4 & Hx & H).
  apply index_erase_done in Hx as (ix' & Hx & ->).
  apply bind_done in H as ([] & w5 & Hu & H).
  injection H as <- <-.
  split; [reflexivity|].
  exists entry, i, level, level', w3, ix'.
  split; [reflexivity|]. split; [exact Hl|]. split; [exact He|].
  split; [|split; [exact Hx|exact Hu]].
  cbv zeta. destruct (Level.empty level'); [exact Hr|].
  now injection Hr.
Qed.

(** [submit_limit_side], step by step. *)
Lemma submit_limit_side_done now is_bid cmd w r w' :
  submit_limit_side now is_bid cmd w = Done r w' ->
  (OrderCommand.tif cmd = FOK /\
   check_fok_liquidity is_bid (book w) (OrderCommand.qty cmd)
                       (OrderCommand.price_ticks cmd) = Some false /\
   emit_book_update now w = Done tt w' /\ r = ExecResult.make 0 0) \/
  (exists filled w1 w2,
     cross_and_match is_bid cmd w = Done filled w1 /\
     emit_book_update now w2 = Done tt w' /\
     let remaining := OrderCommand.qty cmd - filled in
     ((0 < remaining /\ never_rests (OrderCommand.tif cmd) = false /\
       rest_residual is_bid cmd remaining w1 = Done tt w2 /\
       r = ExecResult.make filled remaining) \/
      (w2 = w1 /\
       ((remaining <= 0 /\ r = ExecResult.make filled remaining) \/
        (0 < remaining /\ never_rests (OrderCommand.tif cmd) = true /\
         r = ExecResult.make filled 0))))).
Proof.
  rewrite submit_limit_side_phases. unfold submit_limit_phases.
  intros H. apply bind_done in H as (can_fill & w0 & Hg & H).
  assert (Hw0 : w0 = w /\
                (can_fill = false ->
                 OrderCommand.tif cmd = FOK /\
                 check_fok_liquidity is_bid (book w) (OrderCommand.qty cmd)
                   (OrderCommand.price_ticks cmd) = Some false)).
  { unfold fok_gate in Hg.
    destruct (TimeInForce_eqb (OrderCommand.tif cmd) FOK) eqn:Hf.
    - unfold bind at 1, get_book, gets at 1 in Hg.
      apply lift_done in Hg as [Hc ->]. split; [reflexivity|].
      intros ->. split; [|exact Hc].
      destruct (OrderCommand.tif cmd); try discriminate; reflexivity.
    - injection Hg as <- <-. split; [reflexivity|discriminate]. }
  destruct Hw0 as [-> Hrej].
  destruct can_fill; cbn [negb] in H.
  2:{ left. destruct (Hrej eq_refl) as [Ht Hc].
      apply bind_done in H as ([] & w1 & He & H). injection H as <- <-.
      auto. }
  right. apply bind_done in H as (filled & w1 & Hm & H).
  cbv zeta in H.
  destruct (OrderCommand.qty cmd - filled >? 0) eqn:Hrem.
  - destruct (never_rests (OrderCommand.tif cmd)) eqn:Hnr.
    + apply bind_done in H as ([] & w2 & He & H). injection H as <- <-.
      exists filled, w1, w1. split; [exact Hm|]. split; [exact He|].
      right. split; [reflexivity|]. right. split; [lia|]. auto.
    + apply bind_done in H as ([] & w2 & Hr & H).
      apply bind_done in H as ([] & w3 & He & H). injection H as <- <-.
      exists filled, w1, w2. split; [exact Hm|]. split; [exact He|].
      left. split; [lia|]. auto.
  - apply bind_done in H as ([] & w2 & He & H). injection H as <- <-.
    exists filled, w1, w1. split; [exact Hm|]. split; [exact He|].
    right. split; [reflexivity|]. left. split; [lia|]. reflexivity.
Qed.

Lemma submit_limit_is_side now cmd w :
  submit_limit now cmd w
  = submit_limit_side now (is_bid_side (OrderCommand.side cmd)) cmd w.
Proof. unfold submit_limit. now destruct (OrderCommand.side cmd). Qed.

(** [submit_market], step by step. *)
Lemma submit_market_done now cmd w r w' :
  submit_market now cmd w = Done r w' ->
  exists fuel filled w1,
    match_loop (opposite (OrderCommand.side cmd))
               (match OrderCommand.side cmd with
                | Bid => Sentinel.EMPTY_ASK
                | Ask => Sentinel.EMPTY_BID
                end)
               (OrderCommand.order_id cmd) (OrderCommand.user_id cmd)
               (OrderCommand.recv_ts cmd)
               (stp_enabled (OrderCommand.flags cmd))
               fuel (OrderCommand.qty cmd) 0 w
    = Done filled w1 /\
    emit_book_update now w1 = Done tt w' /\
    r = ExecResult.make filled (OrderCommand.qty cmd - filled).
Proof.
  unfold submit_market. intros H.
  apply bind_done in H as (filled & w1 & Hm & H).
  apply bind_done in H as ([] & w2 & He & H). injection H as <- <-.
  destruct (OrderCommand.side cmd); unfold match_against_side in Hm;
    unfold bind at 1, gets at 1 in Hm; cbn [opposite]; eauto 10.
Qed.

Definition tick_clock (w : World) : World :=
  mkWorld (book w) (events w) (S (clock_reads w)).

(** The order [modify] submits after the cancel. *)
Definition replacement (now : nat -> Timestamp) (w : World) (id : OrderId)
           (entry : OrderEntry.t) (n : OrderNode.t) (new_price : Tick)
           (new_qty : Quantity) : OrderCommand.t :=
  OrderCommand.mk NewOrder (now (clock_reads w)) id 0 (OrderNode.user n)
                  new_price new_qty (OrderEntry.side entry) Limit GTC
                  (OrderNode.flags n) 0 0 0.

Definition is_shrink (entry : OrderEntry.t) (n : OrderNode.t)
           (new_price : Tick) (new_qty : Quantity) : bool :=
  (new_price =? OrderEntry.price entry) && (new_qty <? OrderNode.qty n).

(** [modify], step by step. *)
Lemma modify_done now id new_price new_qty w r w' :
  modify now id new_price new_qty w = Done r w' ->
  (FlatMap.find OrderEntry.zero (id_index_ (book w)) id = None /\
   w' = w /\ r = ExecResult.make 0 0) \/
  (exists entry n,
     FlatMap.find OrderEntry.zero (id_index_ (book w)) id = Some entry /\
     entry_node (book w) entry = Some n /\
     ((is_shrink entry n new_price new_qty = true /\
       exists i level level',
         entry_level (book w) entry = Some (i, level) /\
         Level.reduce_qty level (OrderEntry.node entry)
                          (OrderNode.qty n - new_qty) = Some level' /\
         emit_book_update now
           (set_book (store_level (OrderEntry.side entry) i level' (book w)) w)
         = Done tt w' /\
         r = ExecResult.make 0 new_qty) \/
      (is_shrink entry n new_price new_qty = false /\
       exists w2,
         cancel now id (tick_clock w) = Done true w2 /\
         submit_limit now (replacement now w id entry n new_price new_qty) w2
         = Done r w'))).
Proof.
  unfold modify. unfold bind at 1, gets at 1.
  destruct (FlatMap.find _ _ _) as [entry|] eqn:Hfind.
  2:{ intros [= <- <-]. left. auto. }
  intros H. right. exists entry.
  unfold bind at 1, get_book, gets at 1 in H.
  apply bind_done in H as (shrink & w1 & Hs & H).
  destruct shrink.
  - destruct (new_price =? OrderEntry.price entry) eqn:Hp;
      [|discriminate].
    apply bind_done in Hs as (n & w0 & Hn & Hs).
    apply lift_done in Hn as [Hn ->]. injection Hs as Hq <-.
    exists n. split; [reflexivity|]. split; [exact Hn|]. left.
    split; [unfold is_shrink; now rewrite Hp, Hq|].
    apply bind_done in H as ([i level] & w0 & Hl & H).
    apply lift_done in Hl as [Hl ->].
    apply bind_done in H as (n' & w0 & Hn' & H).
    apply lift_done in Hn' as [Hn' ->].
    rewrite Hn in Hn'. injection Hn' as <-.
    apply bind_done in H as (level' & w0 & Hr & H).
    apply lift_done in Hr as [Hr ->].
    unfold bind at 1, update_book at 1 in H.
    apply bind_done in H as ([] & w2 & He & H). injection H as <- <-.
    exists i, level, level'. auto.
  - apply bind_done in H as (n & w0 & Hn & H).
    apply lift_done in Hn as [Hn ->].
    assert (w1 = w /\ is_shrink entry n new_price new_qty = false)
      as [-> Hsh].
    { unfold is_shrink.
      destruct (new_price =? OrderEntry.price entry); [|now injection Hs].
      apply bind_done in Hs as (n' & w0 & Hn' & Hs).
      apply lift_done in Hn' as [Hn' ->]. rewrite Hn in Hn'.
      injection Hn' as <-. injection Hs as Hq <-. auto. }
    exists n. split; [reflexivity|]. split; [exact Hn|]. right.
    split; [exact Hsh|].
    unfold bind at 1, now_ns at 1 in H.
    fold (tick_clock w) in H.
    apply bind_done in H as (cancelled & w2 & Hc & H).
    destruct cancelled; cbn [negb] in H.
    + exists w2. split; [exact Hc|exact H].
    + apply cancel_done in Hc as [(_ & _ & Hnone)|(Hfalse & _)];
        [|discriminate].
      cbn in Hnone. congruence.
Qed.

(** * Book updates per command *)

Definition callbacks_kept (w w' : World) : Prop :=
  on_trade_ (book w') = on_trade_ (book w) /\
  on_book_update_ (book w') = on_book_update_ (book w).

Lemma cross_and_match_log is_bid cmd w filled w1 :
  cross_and_match is_bid cmd w = Done filled w1 ->
  callbacks_kept w w1 /\
  exists trades,
    events w1 = events w ++ trades /\ forallb is_trade trades = true.
Proof.
  intros H. apply cross_and_match_effect in H
    as ((_ & _ & _ & H1 & H2 & _) & _ & _ & _ & evs & Hev & Htr & _).
  split; [split; assumption|]. eauto.
Qed.

Lemma rest_residual_log is_bid cmd remaining w w' :
  rest_residual is_bid cmd remaining w = Done tt w' ->
  callbacks_kept w w' /\ events w' = events w.
Proof.
  intros H. apply rest_residual_done in H
    as (i & level & h & pool' & pl' & ix' & _ & _ & _ & _ & _ & ->).
  unfold callbacks_kept, set_book. destruct is_bid; cbn; auto.
Qed.

Lemma emit_book_update_log now w w' :
  emit_book_update now w = Done tt w' ->
  on_book_update_ (book w) = true ->
  callbacks_kept w w' /\ exists u, events w' = events w ++ [Update u].
Proof.
  intros H Hcb. apply emit_book_update_inv in H as [Hb H].
  rewrite Hcb in H. destruct H as (u & Hev & _).
  unfold callbacks_kept. rewrite Hb. eauto.
Qed.

Lemma submit_limit_log now cmd w r w' :
  submit_limit now cmd w = Done r w' ->
  on_book_update_ (book w) = true ->
  callbacks_kept w w' /\
  exists trades u,
    events w' = events w ++ trades ++ [Update u] /\
    forallb is_trade trades = true.
Proof.
  rewrite submit_limit_is_side. intros H Hcb.
  apply submit_limit_side_done in H
    as [(_ & _ & He & _)|(filled & w1 & w2 & Hm & He & Hcase)].
  - apply emit_book_update_log in He as [Hk [u Hu]]; [|exact Hcb].
    split; [exact Hk|]. exists [], u. auto.
  - apply cross_and_match_log in Hm as [[Ht1 Hb1] (trades & Hev1 & Htr)].
    assert (Hw2 : callbacks_kept w1 w2 /\ events w2 = events w1).
    { destruct Hcase as [(_ & _ & Hr & _)|(-> & _)].
      - now apply rest_residual_log in Hr.
      - split; [split|]; reflexivity. }
    destruct Hw2 as [[Ht2 Hb2] Hev2].
    apply emit_book_update_log in He as [[Ht3 Hb3] [u Hu]];
      [|congruence].
    split; [split; congruence|].
    exists trades, u. rewrite Hu, Hev2, Hev1, app_assoc. auto.
Qed.

Lemma submit_market_log now cmd w r w' :
  submit_market now cmd w = Done r w' ->
  on_book_update_ (book w) = true ->
  callbacks_kept w w' /\
  exists trades u,
    events w' = events w ++ trades ++ [Update u] /\
    forallb is_trade trades = true.
Proof.
  intros H Hcb. apply submit_market_done in H
    as (fuel & filled & w1 & Hm & He & _).
  pose proof (match_loop_frame _ _ _ _ _ _ _ _ _ _ _ _ Hm)
    as (_ & _ & _ & Ht1 & Hb1 & _).
  apply match_loop_account in Hm as [_ (trades & Hev1 & Htr & _)].
  apply emit_book_update_log in He as [[Ht3 Hb3] [u Hu]]; [|congruence].
  split; [split; congruence|].
  exists trades, u. rewrite Hu, Hev1, app_assoc. auto.
Qed.

Lemma refresh_log s w w' :
  refresh_best_after_depletion s w = Done tt w' ->
  callbacks_kept w w' /\ events w' = events w /\
  clock_reads w' = clock_reads w /\
  id_index_ (book w') = id_index_ (book w).
Proof.
  intros H. apply refresh_done in H as (pl' & _ & ->).
  unfold callbacks_kept, set_book. destruct s; cbn; auto.
Qed.

Lemma cancel_log now id w w' :
  cancel now id w = Done true w' ->
  on_book_update_ (book w) = true ->
  callbacks_kept w w' /\ exists u, events w' = events w ++ [Update u].
Proof.
  intros H Hcb. apply cancel_done in H as [(Hf & _)|(_ & H)]; [discriminate|].
  destruct H as (entry & i & level & level' & w3 & ix' & _ & _ & _ & Hr & _ & He).
  cbv zeta in Hr.
  assert (H3 : callbacks_kept w w3 /\ events w3 = events w).
  { destruct (Level.empty level').
    - apply refresh_log in Hr as ([Ht Hb] & Hev & _). cbn in *.
      unfold callbacks_kept, store_level in *.
      destruct (OrderEntry.side entry); cbn in *; auto.
    - subst w3. unfold callbacks_kept, after_free, set_book, store_level.
      destruct (OrderEntry.side entry); cbn; auto. }
  destruct H3 as [[Ht3 Hb3] Hev3].
  apply emit_book_update_log in He as [[Ht Hb] [u Hu]];
    [|cbn; congruence].
  cbn in *. split; [split; congruence|].
  exists u. congruence.
Qed.

(** What a command appends to the log. *)
Inductive LogShape :=
| Silent                 (* nothing *)
| UpdateOnly             (* one book update *)
| TradesThenUpdate       (* the command's trades, then one book update *)
| UpdateTradesUpdate.    (* an update, the trades, a second update *)

Definition has_shape (sh : LogShape) (evs : list AnyEvent) : Prop :=
  match sh with
  | Silent => evs = []
  | UpdateOnly => exists u, evs = [Update u]
  | TradesThenUpdate =>
      exists trades u,
        evs = trades ++ [Update u] /\ forallb is_trade trades = true
  | UpdateTradesUpdate =>
      exists u1 trades u2,
        evs = Update u1 :: trades ++ [Update u2] /\
        forallb is_trade trades = true
  end.

Definition book_updates (evs : list AnyEvent) : nat :=
  length (List.filter is_update evs).

Definition expected_shape (cmd : OrderCommand.t) (b : OrderBook) : LogShape :=
  match OrderCommand.type cmd with
  | NewOrder => TradesThenUpdate
  | CancelOrder =>
      match FlatMap.find OrderEntry.zero (id_index_ b)
                         (OrderCommand.order_id cmd) with
      | None => Silent
      | Some _ => UpdateOnly
      end
  | ModifyOrder =>
      match FlatMap.find OrderEntry.zero (id_index_ b)
                         (OrderCommand.order_id cmd) with
      | None => Silent
      | Some entry =>
          match entry_node b entry with
          | None => Silent
          | Some n =>
              if is_shrink entry n (OrderCommand.price_ticks cmd)
                           (OrderCommand.qty cmd)
              then UpdateOnly
              else UpdateTradesUpdate
          end
      end
  end.

Definition shape_updates (sh : LogShape) : nat :=
  match sh with
  | Silent => 0
  | UpdateOnly | TradesThenUpdate => 1
  | UpdateTradesUpdate => 2
  end.

Lemma book_updates_trades trades :
  forallb is_trade trades = true -> book_updates trades = 0%nat.
Proof.
  unfold book_updates. induction trades as [|[t|u] ts IH]; cbn;
    [reflexivity|exact IH|discriminate].
Qed.

Lemma book_updates_app a b :
  book_updates (a ++ b) = (book_updates a + book_updates b)%nat.
Proof. unfold book_updates. now rewrite List.filter_app, length_app. Qed.

Lemma has_shape_updates sh evs :
  has_shape sh evs -> book_updates evs = shape_updates sh.
Proof.
  destruct sh; cbn.
  - now intros ->.
  - now intros [u ->].
  - intros (trades & u & -> & Htr).
    rewrite book_updates_app, (book_updates_trades _ Htr). reflexivity.
  - intros (u1 & trades & u2 & -> & Htr).
    change (Update u1 :: trades ++ [Update u2])
      with ([Update u1] ++ trades ++ [Update u2]).
    rewrite !book_updates_app, (book_updates_trades _ Htr). reflexivity.
Qed.

(** C2 (amended).  With a book-update callback registered, a command that
    completes appends to the log:
    - a NewOrder (limit with any TIF, a rejected FOK included, or market):
      its trades followed by exactly one book update;
    - a Cancel of an identifier the index holds: exactly one book update;
    - a Modify that shrinks in place: exactly one book update;
    - a Modify that cancels and replaces: one book update (from the cancel),
      then the trades of the resubmission, then a second book update;
    - a Cancel or Modify of an identifier the index does not hold: nothing. *)
Theorem book_updates_per_command now cmd w reply w' :
  on_book_update_ (book w) = true ->
  step now cmd w = Done reply w' ->
  exists evs,
    events w' = events w ++ evs /\
    has_shape (expected_shape cmd (book w)) evs /\
    book_updates evs = shape_updates (expected_shape cmd (book w)).
Proof.
  intros Hcb Hstep.
  enough (exists evs, events w' = events w ++ evs /\
                      has_shape (expected_shape cmd (book w)) evs)
    as (evs & Hev & Hsh)
    by (exists evs; auto using has_shape_updates).
  unfold step, expected_shape in *.
  destruct (OrderCommand.type cmd).
  - assert (exists r, submit_limit now cmd w = Done r w' \/
                      submit_market now cmd w = Done r w') as [r [H|H]].
    { destruct (OrderCommand.order_type cmd);
        apply bind_done in Hstep as (r & w1 & H & Hr);
        injection Hr as <- <-; eauto. }
    + apply submit_limit_log in H as [_ (trades & u & Hev & Htr)]; eauto.
      exists (trades ++ [Update u]). split; [exact Hev|]. cbn. eauto.
    + apply submit_market_log in H as [_ (trades & u & Hev & Htr)]; eauto.
      exists (trades ++ [Update u]). split; [exact Hev|]. cbn. eauto.
  - apply bind_done in Hstep as (ok & w1 & H & Hr). injection Hr as <- <-.
    pose proof H as H0.
    apply cancel_done in H as [(-> & -> & Hf)|(-> & entry & H)].
    + rewrite Hf. exists []. rewrite app_nil_r. split; reflexivity.
    + destruct H as (i & level & level' & w3 & ix' & -> & _).
      apply cancel_log in H0 as [_ [u Hu]]; [|exact Hcb].
      exists [Update u]. cbn. eauto.
  - apply bind_done in Hstep as (r & w1 & H & Hr). injection Hr as <- <-.
    apply modify_done in H as [(-> & -> & _)|(entry & n & -> & -> & H)].
    + exists []. rewrite app_nil_r. split; reflexivity.
    + destruct H as [(-> & i & level & level' & _ & _ & He & _)
                    |(-> & w2 & Hc & Hs)].
      * apply emit_book_update_log in He as [_ [u Hu]];
          [|unfold store_level; destruct (OrderEntry.side entry); exact Hcb].
        exists [Update u]. cbn in *. eauto.
      * apply cancel_log in Hc as [[_ Hb] [u1 Hu1]]; [|exact Hcb].
        apply submit_limit_log in Hs as [_ (trades & u2 & Hev & Htr)];
          [|cbn in Hb; congruence].
        exists (Update u1 :: trades ++ [Update u2]).
        split; [|cbn; eauto].
        rewrite Hev, Hu1. cbn. rewrite <- app_assoc. reflexivity.
Qed.

Lemma book_updates_per_command_witness :
  let cmd := modify_order 1 150 15 in
  expected_shape cmd (book two_bids_world) = UpdateTradesUpdate /\
  exists evs,
    events (final_world (step counting_clock cmd two_bids_world))
    = events two_bids_world ++ evs /\
    has_shape (expected_shape cmd (book two_bids_world)) evs /\
    book_updates evs
    = shape_updates (expected_shape cmd (book two_bids_world)).
Proof.
  intros cmd. split; [vm_compute; reflexivity|].
  destruct (step counting_clock cmd two_bids_world) as [reply w'|f w'] eqn:E.
  - apply (book_updates_per_command counting_clock cmd two_bids_world
             reply w'); [vm_compute; reflexivity|exact E].
  - vm_compute in E. discriminate E.
Defined.

(** C2 as stated fails twice: a cancel of an unknown identifier completes
    without any book update, and a modify that grows an order emits two. *)
Lemma book_update_count_varies :
  let silent := step counting_clock (cancel_order 99)
                     (new_engine 1 band_100_200) in
  let twice := step counting_clock (modify_order 1 150 15) two_bids_world in
  (completed silent = true /\
   reply_of silent = Some (Cancelled false) /\
   book_updates (events (final_world silent)) = 0%nat) /\
  (completed twice = true /\
   book_updates (events (final_world twice))
   = (book_updates (events two_bids_world) + 2)%nat).
Proof. cbv zeta. split; split; vm_compute; auto. Qed.

(** * Fill conservation *)

Lemma match_level_residual tid tu ts stp bp makers kept total qty filled w
      r w' :
  match_level tid tu ts stp bp makers kept total qty filled w = Done r w' ->
  0 <= qty -> 0 <= snd (fst r).
Proof.
  revert makers kept total qty filled w r w'.
  apply (match_level_ind tid tu ts stp bp
           (fun _ _ _ qty _ _ r _ => 0 <= qty -> 0 <= snd (fst r)));
    cbn; intros; auto; try lia.
Qed.

Lemma match_loop_residual s px tid tu ts stp fuel qty filled w r w' :
  match_loop s px tid tu ts stp fuel qty filled w = Done r w' ->
  0 <= qty -> r - filled <= qty.
Proof.
  revert fuel qty filled w r w'.
  apply (match_loop_ind s px tid tu ts stp
           (fun _ qty filled _ r _ => 0 <= qty -> r - filled <= qty));
    intros; try lia.
  - match goal with H : match_level _ _ _ _ _ _ _ _ _ _ _ = _ |- _ =>
      pose proof (match_level_residual _ _ _ _ _ _ _ _ _ _ _ _ _ H) as Hres;
      apply match_level_account in H as (Hq & _) end.
    cbn in Hres. lia.
  - match goal with H : match_level _ _ _ _ _ _ _ _ _ _ _ = _ |- _ =>
      pose proof (match_level_residual _ _ _ _ _ _ _ _ _ _ _ _ _ H) as Hres;
      apply match_level_account in H as (Hq & _) end.
    cbn in Hres. lia.
Qed.

Lemma resting_qty_sides s b :
  resting_qty b
  = ladder_open_qty (side_levels s b)
    + ladder_open_qty (side_levels (opposite s) b).
Proof. unfold resting_qty. destruct s; cbn; lia. Qed.

(** Matching against side [s]: the book loses what was filled, the log
    gains trades worth the same. *)
Lemma match_loop_conserves s px tid tu ts stp fuel qty w r w' :
  match_loop s px tid tu ts stp fuel qty 0 w = Done r w' ->
  on_trade_ (book w) = true ->
  resting_qty (book w') = resting_qty (book w) - r /\
  traded_qty (events w') = traded_qty (events w) + r /\
  on_trade_ (book w') = true /\
  (0 <= qty -> r <= qty).
Proof.
  intros H Hcb.
  pose proof (match_loop_frame _ _ _ _ _ _ _ _ _ _ _ _ H)
    as (Hopp & _ & _ & Ht & _).
  pose proof (match_loop_residual _ _ _ _ _ _ _ _ _ _ _ _ H) as Hres.
  apply match_loop_account in H as [Hq (evs & Hev & _ & Hsum)].
  rewrite (resting_qty_sides s (book w')), (resting_qty_sides s (book w)).
  rewrite Hopp, Hq, Hev, traded_qty_app, Hsum by exact Hcb.
  split; [lia|]. split; [lia|]. split; [congruence|]. intros; lia.
Qed.

Lemma cross_and_match_conserves is_bid cmd w filled w1 :
  cross_and_match is_bid cmd w = Done filled w1 ->
  on_trade_ (book w) = true ->
  resting_qty (book w1) = resting_qty (book w) - filled /\
  traded_qty (events w1) = traded_qty (events w) + filled /\
  on_trade_ (book w1) = true /\
  (0 <= OrderCommand.qty cmd -> filled <= OrderCommand.qty cmd).
Proof.
  intros H Hcb. apply cross_and_match_done in H as [[-> ->]|[fuel H]].
  - split; [lia|]. split; [lia|]. split; [exact Hcb|]. auto.
  - eapply match_loop_conserves; eauto.
Qed.

Lemma set_best_levels :
  forall pl px pl',
    (PLA.set_best_bid pl px = Some pl' \/ PLA.set_best_ask pl px = Some pl') ->
    levels_ pl' = levels_ pl /\ band_ pl' = band_ pl.
Proof.
  intros pl px pl'. unfold PLA.set_best_bid, PLA.set_best_ask.
  intros [H|H];
    repeat match type of H with
      | context [if ?c then _ else _] => destruct c
      | context [match PLA.idx ?a ?b with _ => _ end] => destruct (PLA.idx a b)
      end; try discriminate; injection H as <-; auto.
Qed.

Lemma rested_ladder_levels is_bid pl i l px pl' :
  rested_ladder is_bid pl i l px = Some pl' ->
  levels_ pl' = <[i := l]> (levels_ pl) /\ band_ pl' = band_ pl.
Proof.
  unfold rested_ladder.
  destruct is_bid;
    match goal with |- context [if ?c then _ else _] => destruct c end;
    intros H; try (injection H as <-; auto; fail);
    change (<[i:=l]> (levels_ pl)) with (levels_ (PLA.store pl i l));
    change (band_ pl) with (band_ (PLA.store pl i l));
    eapply set_best_levels; eauto.
Qed.

Lemma level_open_qty_enqueue l h n :
  level_open_qty (Level.enqueue l h n) = level_open_qty l + OrderNode.qty n.
Proof.
  change (level_open_qty (Level.enqueue l h n))
    with (nodes_qty (nodes l ++ [(h, n)])).
  rewrite nodes_qty_app. change (nodes_qty (nodes l)) with (level_open_qty l).
  cbn. lia.
Qed.

Lemma rest_residual_conserves is_bid cmd remaining w w' :
  rest_residual is_bid cmd remaining w = Done tt w' ->
  resting_qty (book w') = resting_qty (book w) + remaining /\
  events w' = events w /\ on_trade_ (book w') = on_trade_ (book w).
Proof.
  intros H. apply rest_residual_done in H
    as (i & level & h & pool' & pl' & ix' & _ & Hl & _ & Hr & _ & ->).
  apply rested_ladder_levels in Hr as [Hlv _].
  split; [|destruct is_bid; cbn; auto].
  rewrite (resting_qty_sides (taker_side is_bid)).
  rewrite (resting_qty_sides (taker_side is_bid) (book w)).
  assert (Hown : ladder_open_qty
                   (side_levels (taker_side is_bid)
                      (book (set_book
                         (with_index ix'
                            (with_side_levels (taker_side is_bid) pl'
                               (with_pool pool' (book w)))) w)))
                 = ladder_open_qty (side_levels (taker_side is_bid) (book w))
                   + remaining).
  { replace (side_levels (taker_side is_bid) _) with pl'
      by (destruct is_bid; reflexivity).
    unfold ladder_open_qty at 1. rewrite Hlv.
    rewrite (ladder_open_qty_insert _ _ _ _ Hl), level_open_qty_enqueue.
    cbn [OrderNode.qty]. unfold ladder_open_qty. lia. }
  rewrite Hown.
  replace (side_levels (opposite (taker_side is_bid))
             (book (set_book
                (with_index ix'
                   (with_side_levels (taker_side is_bid) pl'
                      (with_pool pool' (book w)))) w)))
    with (side_levels (opposite (taker_side is_bid)) (book w))
    by (destruct is_bid; reflexivity).
  lia.
Qed.

Lemma emit_conserves now w w' :
  emit_book_update now w = Done tt w' ->
  book w' = book w /\ traded_qty (events w') = traded_qty (events w).
Proof.
  intros H. apply emit_book_update_inv in H as [Hb H].
  split; [exact Hb|].
  destruct (on_book_update_ (book w)); [|now subst].
  destruct H as (u & -> & _). rewrite traded_qty_app. cbn. lia.
Qed.

(** The balance: every trade takes its quantity from the taker and from a
    resting maker. *)
Definition balance (w : World) : Quantity :=
  2 * traded_qty (events w) + resting_qty (book w).

Lemma submit_limit_conserves now cmd w r w' :
  0 <= OrderCommand.qty cmd ->
  submit_limit now cmd w = Done r w' ->
  on_trade_ (book w) = true ->
  balance w'
  = balance w + (if never_rests (OrderCommand.tif cmd) then ExecResult.filled r
                 else OrderCommand.qty cmd) /\
  on_trade_ (book w') = true.
Proof.
  intros Hq H Hcb. rewrite submit_limit_is_side in H. unfold balance.
  apply submit_limit_side_done in H
    as [(Ht & _ & He & ->)|(filled & w1 & w2 & Hm & He & Hcase)].
  - apply emit_conserves in He as [-> ->].
    rewrite Ht. cbn. split; [lia|exact Hcb].
  - apply cross_and_match_conserves in Hm as (Hr1 & Ht1 & Hcb1 & Hle);
      [|exact Hcb].
    apply emit_conserves in He as [-> ->].
    cbv zeta in Hcase.
    destruct Hcase as [(Hrem & Hnr & Hr & ->)|(-> & Hcase)].
    + apply rest_residual_conserves in Hr as (Hr2 & -> & ->).
      rewrite Hnr, Hr2, Hr1, Ht1. split; [lia|exact Hcb1].
    + destruct Hcase as [(Hrem & ->)|(Hrem & -> & ->)];
        rewrite Hr1, Ht1; (split; [|exact Hcb1]).
      * destruct (never_rests _); cbn; lia.
      * cbn. lia.
Qed.

Lemma submit_market_conserves now cmd w r w' :
  submit_market now cmd w = Done r w' ->
  on_trade_ (book w) = true ->
  balance w' = balance w + ExecResult.filled r /\
  on_trade_ (book w') = true.
Proof.
  intros H Hcb. unfold balance.
  apply submit_market_done in H as (fuel & filled & w1 & Hm & He & ->).
  apply match_loop_conserves in Hm as (Hr1 & Ht1 & Hcb1 & _); [|exact Hcb].
  apply emit_conserves in He as [-> ->].
  rewrite Hr1, Ht1. cbn. split; [lia|exact Hcb1].
Qed.

(** * The cached bests are not crossed, unless self-trade prevention skips *)

Definition sentinel (s : Side) : Tick :=
  match s with Bid => Sentinel.EMPTY_BID | Ask => Sentinel.EMPTY_ASK end.

(** The cached best of side [s] and its level pointer agree, and the best
    level holds a node. *)
Definition ladder_ok (s : Side) (pl : PriceLevelsArray) : Prop :=
  match PLA.best_level_ptr pl s with
  | None => side_best s pl = sentinel s
  | Some i =>
      side_best s pl <> sentinel s /\
      PLA.idx pl (side_best s pl) = Some i /\
      exists l, levels_ pl !! i = Some l /\ Level.empty l = false
  end.

(** [px'] is no better a price for side [s] than [px]. *)
Definition not_better (s : Side) (px' px : Tick) : Prop :=
  px' = px \/ px' = sentinel s \/
  match s with
  | Bid => Sentinel.EMPTY_BID < px' < px
  | Ask => px < px' < Sentinel.EMPTY_ASK
  end.

(** The best of side [s] is out of reach of a taker with limit [px]. *)
Definition beyond (s : Side) (pl : PriceLevelsArray) (px : Tick) : Prop :=
  match s with
  | Bid => best_bid_ pl = Sentinel.EMPTY_BID \/ best_bid_ pl < px
  | Ask => best_ask_ pl = Sentinel.EMPTY_ASK \/ px < best_ask_ pl
  end.

Definition uncrossed (b : OrderBook) : Prop :=
  best_bid b = Sentinel.EMPTY_BID \/ best_ask b = Sentinel.EMPTY_ASK \/
  best_bid b < best_ask b.

Definition node_no_stp (hn : Handle * OrderNode.t) : Prop :=
  stp_enabled (OrderNode.flags (snd hn)) = false.

Definition no_stp_nodes (pl : PriceLevelsArray) : Prop :=
  Forall (fun l => Forall node_no_stp (nodes l)) (levels_ pl).

Lemma search_down_found pl cb n : forall i px,
  search_down pl cb i n = Some (Some px) ->
  0 < i ->
  Sentinel.EMPTY_BID < px < cb /\
  PLA.is_valid_price pl px = true /\ PLA.has_level pl px = Some true.
Proof.
  induction n as [|n IH]; intros i px H Hi; [discriminate|].
  cbn [search_down] in H.
  destruct (cb - i <=? Sentinel.EMPTY_BID) eqn:E1; [discriminate|].
  destruct (PLA.is_valid_price pl (cb - i)) eqn:E2; [|discriminate].
  cbn [negb] in H.
  destruct (PLA.has_level pl (cb - i)) as [[|]|] eqn:E3; try discriminate.
  - injection H as <-. repeat split; auto; lia.
  - apply IH in H; [exact H|lia].
Qed.

Lemma search_up_found pl cb n : forall i px,
  search_up pl cb i n = Some (Some px) ->
  0 < i ->
  cb < px < Sentinel.EMPTY_ASK /\
  PLA.is_valid_price pl px = true /\ PLA.has_level pl px = Some true.
Proof.
  induction n as [|n IH]; intros i px H Hi; [discriminate|].
  cbn [search_up] in H.
  destruct (cb + i >=? Sentinel.EMPTY_ASK) eqn:E1; [discriminate|].
  destruct (PLA.is_valid_price pl (cb + i)) eqn:E2; [|discriminate].
  cbn [negb] in H.
  destruct (PLA.has_level pl (cb + i)) as [[|]|] eqn:E3; try discriminate.
  - injection H as <-. repeat split; auto; lia.
  - apply IH in H; [exact H|lia].
Qed.

Lemma has_level_nonempty pl px :
  PLA.has_level pl px = Some true ->
  exists i l,
    PLA.idx pl px = Some i /\ levels_ pl !! i = Some l /\
    Level.empty l = false.
Proof.
  unfold PLA.has_level, PLA.get_level.
  destruct (PLA.idx pl px) as [i|]; [|discriminate].
  destruct (levels_ pl !! i) as [l|] eqn:El; [|discriminate].
  destruct (Level.empty l) eqn:E; [discriminate|].
  intros _. exists i, l. auto.
Qed.

(** After a refresh the cached best of the side is consistent again and has
    moved away from the other side. *)
Lemma refresh_ladder_ok s pl pl' :
  refresh_ladder s pl = Some pl' ->
  side_best s pl <> sentinel s \/ PLA.best_level_ptr pl s = None ->
  ladder_ok s pl' /\ not_better s (side_best s pl') (side_best s pl).
Proof.
  destruct s; cbn [refresh_ladder side_best sentinel].
  - unfold refresh_bids.
    destruct (best_bid_ pl =? Sentinel.EMPTY_BID) eqn:E.
    { intros [= <-] [H|H]; [lia|].
      apply Z.eqb_eq in E.
      unfold ladder_ok, not_better, PLA.best_level_ptr in *. cbn.
      rewrite H. auto. }
    intros H _.
    destruct (search_down pl (best_bid_ pl) 1 _) as [[px|]|] eqn:Hs;
      [| |discriminate].
    + apply search_down_found in Hs as (Hlt & Hv & Hh); [|lia].
      apply has_level_nonempty in Hh as (i & l & Hi & Hl & He).
      unfold PLA.set_best_bid in H.
      replace (px =? Sentinel.EMPTY_BID) with false in H
        by (symmetry; apply Z.eqb_neq; lia).
      rewrite Hi in H. injection H as <-.
      unfold ladder_ok, not_better. cbn.
      split; [|lia]. split; [lia|]. eauto.
    + unfold PLA.set_best_bid in H. rewrite Z.eqb_refl in H.
      injection H as <-. unfold ladder_ok, not_better. cbn. auto.
  - unfold refresh_asks.
    destruct (best_ask_ pl =? Sentinel.EMPTY_ASK) eqn:E.
    { intros [= <-] [H|H]; [lia|].
      apply Z.eqb_eq in E.
      unfold ladder_ok, not_better, PLA.best_level_ptr in *. cbn.
      rewrite H. auto. }
    intros H _.
    destruct (search_up pl (best_ask_ pl) 1 _) as [[px|]|] eqn:Hs;
      [| |discriminate].
    + apply search_up_found in Hs as (Hlt & Hv & Hh); [|lia].
      apply has_level_nonempty in Hh as (i & l & Hi & Hl & He).
      unfold PLA.set_best_ask in H.
      replace (px =? Sentinel.EMPTY_ASK) with false in H
        by (symmetry; apply Z.eqb_neq; lia).
      rewrite Hi in H. injection H as <-.
      unfold ladder_ok, not_better. cbn.
      split; [|lia]. split; [lia|]. eauto.
    + unfold PLA.set_best_ask in H. rewrite Z.eqb_refl in H.
      injection H as <-. unfold ladder_ok, not_better. cbn. auto.
Qed.

Lemma not_better_refl s px : not_better s px px.
Proof. now left. Qed.

Lemma not_better_trans s a b c :
  not_better s c b -> not_better s b a -> not_better s c a.
Proof.
  unfold not_better. destruct s; cbn; intros [->|[->|H1]] [->|[->|H2]];
    auto; try lia; right; right; lia.
Qed.

(** Without self-trade prevention one level walk either empties what is
    ahead of it or uses up the taker. *)
Lemma match_level_no_stp tid tu ts bp makers kept total qty filled w r w' :
  match_level tid tu ts false bp makers kept total qty filled w = Done r w' ->
  (qty <= 0 -> snd (fst r) = qty) /\
  (nodes (fst (fst r)) = kept \/ snd (fst r) <= 0).
Proof.
  revert makers kept total qty filled w r w'.
  apply (match_level_ind tid tu ts false bp
           (fun _ kept _ qty _ _ r _ =>
              (qty <= 0 -> snd (fst r) = qty) /\
              (nodes (fst (fst r)) = kept \/ snd (fst r) <= 0))); cbn.
  - auto.
  - auto.
  - discriminate.
  - intros h maker rest kept total qty filled w ix' r w' Hq _ _ _ [_ IH].
    split; [lia|exact IH].
  - intros h maker rest kept total qty filled w r w' Hq _ _ [IH _].
    split; [lia|]. right. rewrite IH; lia.
Qed.

(** The nodes a level walk leaves carry the flags they had. *)
Lemma match_level_flags tid tu ts stp bp makers kept total qty filled w r w' :
  match_level tid tu ts stp bp makers kept total qty filled w = Done r w' ->
  Forall node_no_stp kept -> Forall node_no_stp makers ->
  Forall node_no_stp (nodes (fst (fst r))).
Proof.
  revert makers kept total qty filled w r w'.
  apply (match_level_ind tid tu ts stp bp
           (fun makers kept _ _ _ _ r _ =>
              Forall node_no_stp kept -> Forall node_no_stp makers ->
              Forall node_no_stp (nodes (fst (fst r))))); cbn.
  - auto.
  - intros. apply Forall_app. auto.
  - intros h maker rest kept total qty filled w r w' _ _ _ IH Hk Hm.
    inversion Hm; subst. apply IH; [apply Forall_app|]; auto.
  - intros h maker rest kept total qty filled w ix' r w' _ _ _ _ IH Hk Hm.
    inversion Hm; subst. auto.
  - intros h maker rest kept total qty filled w r w' _ _ _ IH Hk Hm.
    inversion Hm; subst. apply IH; [apply Forall_app|]; auto.
Qed.

Lemma ladder_ok_store s pl i l l' :
  ladder_ok s pl -> levels_ pl !! i = Some l -> Level.empty l' = false ->
  ladder_ok s (PLA.store pl i l').
Proof.
  unfold ladder_ok. intros H Hl He.
  replace (PLA.best_level_ptr (PLA.store pl i l') s)
    with (PLA.best_level_ptr pl s) by (destruct s; reflexivity).
  replace (side_best s (PLA.store pl i l')) with (side_best s pl)
    by (destruct s; reflexivity).
  destruct (PLA.best_level_ptr pl s) as [i0|]; [|exact H].
  destruct H as (Hne & Hi & l0 & Hl0 & He0).
  split; [exact Hne|]. split; [exact Hi|]. cbn.
  destruct (decide (i = i0)) as [->|Hn].
  - exists l'. split; [|exact He].
    apply list_lookup_insert_eq. eapply lookup_lt_Some, Hl.
  - exists l0. split; [|exact He0]. now rewrite list_lookup_insert_ne.
Qed.

Lemma no_stp_nodes_store pl i l' :
  no_stp_nodes pl -> Forall node_no_stp (nodes l') ->
  no_stp_nodes (PLA.store pl i l').
Proof. unfold no_stp_nodes. cbn. intros. now apply Forall_insert. Qed.

Lemma no_stp_nodes_lookup pl i l :
  no_stp_nodes pl -> levels_ pl !! i = Some l -> Forall node_no_stp (nodes l).
Proof.
  unfold no_stp_nodes. intros H Hl.
  exact (Forall_lookup_1 _ _ _ _ H Hl).
Qed.

Lemma no_cross_beyond s pl px :
  no_cross s pl px = true -> beyond s pl px.
Proof. destruct s; cbn; intros H; right; lia. Qed.

Lemma no_stp_nodes_levels pl pl' :
  levels_ pl' = levels_ pl -> no_stp_nodes pl -> no_stp_nodes pl'.
Proof. unfold no_stp_nodes. now intros ->. Qed.

(** The outer loop without self-trade prevention: it stops with the taker
    used up, or with the best of the side out of the taker's reach. *)
Lemma match_loop_inv s px tid tu ts fuel qty filled w r w' :
  match_loop s px tid tu ts false fuel qty filled w = Done r w' ->
  ladder_ok s (side_levels s (book w)) ->
  no_stp_nodes (side_levels s (book w)) ->
  ladder_ok s (side_levels s (book w')) /\
  no_stp_nodes (side_levels s (book w')) /\
  not_better s (side_best s (side_levels s (book w')))
             (side_best s (side_levels s (book w))) /\
  (qty - (r - filled) <= 0 \/ beyond s (side_levels s (book w')) px).
Proof.
  revert fuel qty filled w r w'.
  apply (match_loop_ind s px tid tu ts false
    (fun _ qty filled w r w' =>
       ladder_ok s (side_levels s (book w)) ->
       no_stp_nodes (side_levels s (book w)) ->
       ladder_ok s (side_levels s (book w')) /\
       no_stp_nodes (side_levels s (book w')) /\
       not_better s (side_best s (side_levels s (book w')))
                  (side_best s (side_levels s (book w))) /\
       (qty - (r - filled) <= 0 \/ beyond s (side_levels s (book w')) px))).
  - intros fuel qty filled w Hq Hok Hns.
    split; [exact Hok|]. split; [exact Hns|].
    split; [apply not_better_refl|left; lia].
  - intros fuel qty filled w Hq Hp Hok Hns.
    split; [exact Hok|]. split; [exact Hns|].
    split; [apply not_better_refl|right].
    unfold ladder_ok in Hok. rewrite Hp in Hok.
    destruct s; cbn in *; auto.
  - intros fuel qty filled w i l Hq Hp Hl He Hok Hns. exfalso.
    unfold ladder_ok in Hok. rewrite Hp in Hok.
    destruct Hok as (_ & _ & l0 & Hl0 & He0). congruence.
  - intros fuel qty filled w i l Hq Hp Hl He Hnc Hok Hns.
    split; [exact Hok|]. split; [exact Hns|].
    split; [apply not_better_refl|right; now apply no_cross_beyond].
  - intros fuel qty filled w i l l' qty' filled' w1 Hq Hp Hl He Hnc Hm He'
           Hok Hns.
    pose proof (match_level_frame _ _ _ _ _ _ _ _ _ _ _ _ _ Hm) as Hf.
    pose proof (match_level_no_stp _ _ _ _ _ _ _ _ _ _ _ _ Hm) as [_ Hx].
    pose proof (match_level_flags _ _ _ _ _ _ _ _ _ _ _ _ _ Hm) as Hfl.
    apply match_level_account in Hm as (Hqq & _).
    cbn [fst snd] in *. cbn [book set_book].
    rewrite side_levels_store, (same_ladders_side s _ _ Hf).
    split; [eapply ladder_ok_store; eauto|].
    split; [apply no_stp_nodes_store;
            [exact Hns|apply Hfl; [constructor|]];
            eapply no_stp_nodes_lookup; eauto|].
    split; [destruct s; apply not_better_refl|].
    left. destruct Hx as [Hx|Hx]; [|lia].
    unfold Level.empty in He'. rewrite Hx in He'. discriminate.
  - intros fuel qty filled w i l l' qty' filled' w1 w3 r w'
           Hq Hp Hl He Hnc Hm He' Hr IH Hok Hns.
    pose proof (match_level_frame _ _ _ _ _ _ _ _ _ _ _ _ _ Hm) as Hf.
    pose proof (match_level_flags _ _ _ _ _ _ _ _ _ _ _ _ _ Hm) as Hfl.
    apply match_level_account in Hm as (Hqq & _).
    cbn [fst snd] in *.
    apply refresh_done in Hr as (pl' & Hr & ->).
    cbn [book set_book] in Hr. rewrite side_levels_store in Hr.
    rewrite (same_ladders_side s _ _ Hf) in Hr.
    pose proof (refresh_ladder_levels _ _ _ Hr) as [Hlv _].
    apply refresh_ladder_ok in Hr as [Hok' Hnb].
    2:{ left. unfold ladder_ok in Hok. rewrite Hp in Hok.
        destruct Hok as (Hne & _). destruct s; exact Hne. }
    assert (Hside : side_levels s
              (book (set_book
                 (with_side_levels s pl'
                    (book (set_book (store_level s i l' (book w1)) w1)))
                 (set_book (store_level s i l' (book w1)) w1))) = pl')
      by (destruct s; reflexivity).
    rewrite Hside in IH.
    destruct IH as (Hok'' & Hns'' & Hnb'' & Hex).
    + exact Hok'.
    + eapply no_stp_nodes_levels; [exact Hlv|].
      apply no_stp_nodes_store;
        [exact Hns|apply Hfl; [constructor|]].
      eapply no_stp_nodes_lookup; eauto.
    + split; [exact Hok''|]. split; [exact Hns''|].
      split.
      * eapply not_better_trans; [exact Hnb''|].
        replace (side_best s (side_levels s (book w)))
          with (side_best s (PLA.store (side_levels s (book w)) i l'))
          by (destruct s; reflexivity).
        exact Hnb.
      * destruct Hex as [Hex|Hex]; [left; lia|right; exact Hex].
Qed.

(** The invariant of a book no self-trade-preventing order has touched. *)
Definition book_inv (b : OrderBook) : Prop :=
  ladder_ok Bid (bids_ b) /\ ladder_ok Ask (asks_ b) /\ uncrossed b /\
  no_stp_nodes (bids_ b) /\ no_stp_nodes (asks_ b).

Lemma uncrossed_move s b b' :
  uncrossed b ->
  side_best (opposite s) (side_levels (opposite s) b')
  = side_best (opposite s) (side_levels (opposite s) b) ->
  not_better s (side_best s (side_levels s b'))
             (side_best s (side_levels s b)) ->
  uncrossed b'.
Proof.
  unfold uncrossed, not_better, best_bid, best_ask.
  destruct s; cbn; intros Hu -> [->|[->|H]]; auto; lia.
Qed.

Lemma book_inv_sides s b :
  book_inv b <->
  ladder_ok s (side_levels s b) /\
  ladder_ok (opposite s) (side_levels (opposite s) b) /\
  uncrossed b /\
  no_stp_nodes (side_levels s b) /\
  no_stp_nodes (side_levels (opposite s) b).
Proof. unfold book_inv. destruct s; cbn; tauto. Qed.

Lemma crossing_test_beyond (is_bid : bool) cmd w :
  (if is_bid
   then negb (best_ask (book w) =? Sentinel.EMPTY_ASK)
        && (best_ask (book w) <=? OrderCommand.price_ticks cmd)
   else negb (best_bid (book w) =? Sentinel.EMPTY_BID)
        && (best_bid (book w) >=? OrderCommand.price_ticks cmd)) = false ->
  beyond (opposite (taker_side is_bid))
         (side_levels (opposite (taker_side is_bid)) (book w))
         (OrderCommand.price_ticks cmd).
Proof.
  unfold best_ask, best_bid.
  destruct is_bid; cbn; intros H; apply andb_false_iff in H as [H|H];
    try (apply negb_false_iff, Z.eqb_eq in H; now left); right; lia.
Qed.

Lemma cross_and_match_inv (is_bid : bool) cmd w filled w1 :
  cross_and_match is_bid cmd w = Done filled w1 ->
  stp_enabled (OrderCommand.flags cmd) = false ->
  book_inv (book w) ->
  book_inv (book w1) /\
  (OrderCommand.qty cmd - filled <= 0 \/
   beyond (opposite (taker_side is_bid))
          (side_levels (opposite (taker_side is_bid)) (book w1))
          (OrderCommand.price_ticks cmd)).
Proof.
  intros H Hstp Hinv.
  set (s := opposite (taker_side is_bid)).
  assert (Hcases :
    (w1 = w /\ beyond s (side_levels s (book w)) (OrderCommand.price_ticks cmd))
    \/ exists fuel,
         match_loop s (OrderCommand.price_ticks cmd)
           (OrderCommand.order_id cmd) (OrderCommand.user_id cmd)
           (OrderCommand.recv_ts cmd) false fuel (OrderCommand.qty cmd) 0 w
         = Done filled w1).
  { unfold cross_and_match in H. rewrite Hstp in H.
    apply bind_done in H as (crosses & w0 & Hc & H).
    assert (w0 = w /\
            crosses = (if is_bid
              then negb (best_ask (book w) =? Sentinel.EMPTY_ASK)
                   && (best_ask (book w) <=? OrderCommand.price_ticks cmd)
              else negb (best_bid (book w) =? Sentinel.EMPTY_BID)
                   && (best_bid (book w) >=? OrderCommand.price_ticks cmd)))
      as [-> Hcr].
    { destruct is_bid; unfold bind, gets, ret in Hc;
        injection Hc as <- <-; auto. }
    destruct crosses.
    - right. unfold match_against_side in H.
      unfold bind at 1, gets at 1 in H. subst s.
      destruct is_bid; cbn [taker_side opposite]; eauto.
    - left. injection H as <- <-. split; [reflexivity|].
      apply crossing_test_beyond. now rewrite <- Hcr. }
  destruct Hcases as [[-> Hb]|[fuel Hm]]; [auto|].
  destruct (proj1 (book_inv_sides s _) Hinv)
    as (Hok & Hok' & Hun & Hns & Hns').
  pose proof (match_loop_frame _ _ _ _ _ _ _ _ _ _ _ _ Hm) as (Hopp & _).
  apply match_loop_inv in Hm as (Hok1 & Hns1 & Hnb & Hex); auto.
  split; [|replace (OrderCommand.qty cmd - filled)
             with (OrderCommand.qty cmd - (filled - 0)) by lia; exact Hex].
  apply (book_inv_sides s). rewrite Hopp.
  split; [exact Hok1|]. split; [exact Hok'|].
  split; [|auto].
  eapply (uncrossed_move s); eauto. now rewrite Hopp.
Qed.

Lemma idx_store pl i l px : PLA.idx (PLA.store pl i l) px = PLA.idx pl px.
Proof. reflexivity. Qed.

Lemma rested_ladder_ok is_bid pl i l0 l px pl' :
  rested_ladder is_bid pl i l px = Some pl' ->
  PLA.idx pl px = Some i -> levels_ pl !! i = Some l0 ->
  Level.empty l = false ->
  ladder_ok (taker_side is_bid) pl ->
  ladder_ok (taker_side is_bid) pl' /\
  (side_best (taker_side is_bid) pl' = side_best (taker_side is_bid) pl \/
   side_best (taker_side is_bid) pl' = px).
Proof.
  intros H Hi Hl He Hok. unfold rested_ladder in H.
  pose proof (ladder_ok_store _ _ _ _ _ Hok Hl He) as Hok1.
  assert (Hlt : (i < length (levels_ pl))%nat) by (eapply lookup_lt_Some, Hl).
  destruct is_bid; cbn [taker_side] in *.
  - destruct (px >? best_bid_ (PLA.store pl i l)); [|injection H as <-; auto].
    unfold PLA.set_best_bid in H. rewrite idx_store, Hi in H.
    destruct (px =? Sentinel.EMPTY_BID) eqn:E; injection H as <-;
      unfold ladder_ok; cbn.
    + apply Z.eqb_eq in E. auto.
    + apply Z.eqb_neq in E. split; [|auto]. split; [exact E|].
      split; [exact Hi|]. exists l. split; [|exact He].
      now apply list_lookup_insert_eq.
  - destruct (px <? best_ask_ (PLA.store pl i l)); [|injection H as <-; auto].
    unfold PLA.set_best_ask in H. rewrite idx_store, Hi in H.
    destruct (px =? Sentinel.EMPTY_ASK) eqn:E; injection H as <-;
      unfold ladder_ok; cbn.
    + apply Z.eqb_eq in E. auto.
    + apply Z.eqb_neq in E. split; [|auto]. split; [exact E|].
      split; [exact Hi|]. exists l. split; [|exact He].
      now apply list_lookup_insert_eq.
Qed.

Lemma enqueue_nonempty l h n : Level.empty (Level.enqueue l h n) = false.
Proof. unfold Level.empty, Level.enqueue. cbn. now destruct (nodes l). Qed.

Lemma uncrossed_rest s b b' px :
  uncrossed b ->
  side_levels (opposite s) b' = side_levels (opposite s) b ->
  (side_best s (side_levels s b') = side_best s (side_levels s b) \/
   side_best s (side_levels s b') = px) ->
  beyond (opposite s) (side_levels (opposite s) b) px ->
  uncrossed b'.
Proof.
  unfold uncrossed, beyond, best_bid, best_ask.
  destruct s; cbn; intros Hu -> [->| ->] Hb; auto; lia.
Qed.

Lemma rest_residual_inv is_bid cmd remaining w w' :
  rest_residual is_bid cmd remaining w = Done tt w' ->
  stp_enabled (OrderCommand.flags cmd) = false ->
  book_inv (book w) ->
  beyond (opposite (taker_side is_bid))
         (side_levels (opposite (taker_side is_bid)) (book w))
         (OrderCommand.price_ticks cmd) ->
  book_inv (book w').
Proof.
  intros H Hstp Hinv Hb.
  set (s := taker_side is_bid) in *.
  apply rest_residual_done in H
    as (i & level & h & pool' & pl' & ix' & Hi & Hl & _ & Hr & _ & ->).
  fold s in Hi, Hl, Hr.
  destruct (proj1 (book_inv_sides s _) Hinv)
    as (Hok & Hok' & Hun & Hns & Hns').
  pose proof (rested_ladder_levels _ _ _ _ _ _ Hr) as [Hlv _].
  eapply rested_ladder_ok in Hr as [Hok1 Hbest]; eauto using enqueue_nonempty.
  fold s in Hok1, Hbest.
  set (b' := with_index ix' (with_side_levels s pl' (with_pool pool' (book w)))).
  assert (Hs : side_levels s b' = pl') by (subst b' s; destruct is_bid; reflexivity).
  assert (Ho : side_levels (opposite s) b' = side_levels (opposite s) (book w))
    by (subst b' s; destruct is_bid; reflexivity).
  apply (book_inv_sides s). cbn [book set_book].
  change (with_index ix' (with_side_levels (taker_side is_bid) pl'
                            (with_pool pool' (book w)))) with b'.
  rewrite Hs, Ho.
  split; [exact Hok1|]. split; [exact Hok'|].
  split; [|split; [|exact Hns']].
  - apply (uncrossed_rest s (book w) b' (OrderCommand.price_ticks cmd));
      auto. now rewrite Hs.
  - unfold no_stp_nodes. rewrite Hlv. apply Forall_insert; [exact Hns|].
    cbn. apply Forall_app. split; [exact (no_stp_nodes_lookup _ _ _ Hns Hl)|].
    constructor; [exact Hstp|constructor].
Qed.

Lemma emit_book_update_book now w w' :
  emit_book_update now w = Done tt w' -> book w' = book w.
Proof. intros H. now apply emit_book_update_inv in H. Qed.

Lemma submit_limit_inv now cmd w r w' :
  submit_limit now cmd w = Done r w' ->
  stp_enabled (OrderCommand.flags cmd) = false ->
  book_inv (book w) -> book_inv (book w').
Proof.
  rewrite submit_limit_is_side. intros H Hstp Hinv.
  apply submit_limit_side_done in H
    as [(_ & _ & He & _)|(filled & w1 & w2 & Hm & He & Hcase)];
    apply emit_book_update_book in He; rewrite He; [exact Hinv|].
  apply cross_and_match_inv in Hm as [Hinv1 Hex]; auto.
  cbv zeta in Hcase.
  destruct Hcase as [(Hrem & _ & Hr & _)|(-> & _)]; [|exact Hinv1].
  eapply rest_residual_inv; eauto.
  destruct Hex as [Hex|Hex]; [lia|exact Hex].
Qed.

Lemma submit_market_inv now cmd w r w' :
  submit_market now cmd w = Done r w' ->
  stp_enabled (OrderCommand.flags cmd) = false ->
  book_inv (book w) -> book_inv (book w').
Proof.
  intros H Hstp Hinv.
  apply submit_market_done in H as (fuel & filled & w1 & Hm & He & _).
  apply emit_book_update_book in He. rewrite He. rewrite Hstp in Hm.
  set (s := opposite (OrderCommand.side cmd)) in *.
  destruct (proj1 (book_inv_sides s _) Hinv)
    as (Hok & Hok' & Hun & Hns & Hns').
  pose proof (match_loop_frame _ _ _ _ _ _ _ _ _ _ _ _ Hm) as (Hopp & _).
  apply match_loop_inv in Hm as (Hok1 & Hns1 & Hnb & _); auto.
  apply (book_inv_sides s). rewrite Hopp.
  split; [exact Hok1|]. split; [exact Hok'|]. split; [|auto].
  eapply (uncrossed_move s); eauto. now rewrite Hopp.
Qed.

Lemma unlink_forall (P : Handle * OrderNode.t -> Prop) h ns :
  Forall P ns -> Forall P (Level.unlink h ns).
Proof.
  induction 1 as [|[h' n] ns Hx Hns IH]; cbn; [constructor|].
  destruct (Nat.eqb h' h); [exact Hns|constructor; auto].
Qed.

Lemma update_forall (P : Handle * OrderNode.t -> Prop) h f ns :
  (forall h' n, P (h', n) -> P (h', f n)) ->
  Forall P ns -> Forall P (Level.update h f ns).
Proof.
  intros Hf. induction 1 as [|[h' n] ns Hx Hns IH]; cbn; [constructor|].
  destruct (Nat.eqb h' h); constructor; auto.
Qed.

Lemma update_nonempty h f ns n :
  Level.lookup h ns = Some n -> Level.update h f ns <> [].
Proof.
  destruct ns as [|[h' n'] ns]; cbn; [discriminate|].
  destruct (Nat.eqb h' h); discriminate.
Qed.

Lemma ladder_ok_ptr s pl :
  ladder_ok s pl ->
  side_best s pl <> sentinel s \/ PLA.best_level_ptr pl s = None.
Proof.
  unfold ladder_ok. destruct (PLA.best_level_ptr pl s); [|auto].
  intros (H & _). now left.
Qed.

Lemma entry_level_lookup b e i l :
  entry_level b e = Some (i, l) ->
  levels_ (side_levels (OrderEntry.side e) b) !! i = Some l.
Proof.
  unfold entry_level.
  destruct (PLA.idx _ _) as [j|]; [|discriminate].
  destruct (levels_ _ !! j) as [l'|] eqn:E; [|discriminate].
  now intros [= <- <-].
Qed.

(** Taking a node out of level [i] of side [s], then refreshing the cached
    best when the level became empty, keeps the invariant. *)
Lemma remove_node_inv s i level level' b w2 w3 :
  book_inv b ->
  levels_ (side_levels s b) !! i = Some level ->
  Forall node_no_stp (nodes level') ->
  side_levels s (book w2) = PLA.store (side_levels s b) i level' ->
  side_levels (opposite s) (book w2) = side_levels (opposite s) b ->
  (if Level.empty level'
   then refresh_best_after_depletion s w2 = Done tt w3
   else w3 = w2) ->
  book_inv (book w3).
Proof.
  intros Hinv Hl Hfl Hs Ho Hr.
  destruct (proj1 (book_inv_sides s _) Hinv)
    as (Hok & Hok' & Hun & Hns & Hns').
  assert (Hns2 : no_stp_nodes (PLA.store (side_levels s b) i level'))
    by (now apply no_stp_nodes_store).
  destruct (Level.empty level') eqn:He.
  - apply refresh_done in Hr as (pl' & Hr & ->).
    rewrite Hs in Hr.
    pose proof (refresh_ladder_levels _ _ _ Hr) as [Hlv _].
    apply refresh_ladder_ok in Hr as [Hok1 Hnb].
    2:{ apply ladder_ok_ptr in Hok. destruct s; exact Hok. }
    apply (book_inv_sides s). cbn [book set_book].
    replace (side_levels s (with_side_levels s pl' (book w2))) with pl'
      by (destruct s; reflexivity).
    replace (side_levels (opposite s) (with_side_levels s pl' (book w2)))
      with (side_levels (opposite s) (book w2)) by (destruct s; reflexivity).
    rewrite Ho.
    split; [exact Hok1|]. split; [exact Hok'|].
    split; [|split; [eapply no_stp_nodes_levels; eauto|exact Hns']].
    apply (uncrossed_move s b); [exact Hun| |].
    + replace (side_levels (opposite s) (with_side_levels s pl' (book w2)))
        with (side_levels (opposite s) (book w2)) by (destruct s; reflexivity).
      now rewrite Ho.
    + replace (side_levels s (with_side_levels s pl' (book w2))) with pl'
        by (destruct s; reflexivity).
      replace (side_best s (side_levels s b))
        with (side_best s (PLA.store (side_levels s b) i level'))
        by (destruct s; reflexivity).
      exact Hnb.
  - subst w3. apply (book_inv_sides s). rewrite Hs, Ho.
    split; [eapply ladder_ok_store; eauto|]. split; [exact Hok'|].
    split; [|auto].
    apply (uncrossed_move s b); [exact Hun|now rewrite Ho|].
    rewrite Hs. destruct s; apply not_better_refl.
Qed.

Lemma cancel_inv now id w ok w' :
  cancel now id w = Done ok w' -> book_inv (book w) -> book_inv (book w').
Proof.
  intros H Hinv. apply cancel_done in H as [(_ & -> & _)|(_ & H)];
    [exact Hinv|].
  destruct H as (entry & i & level & level' & w3 & ix' & _ & Hl & He & Hr
                 & _ & Hu).
  apply emit_book_update_book in Hu. rewrite Hu. cbn [book set_book].
  set (s := OrderEntry.side entry) in *.
  apply entry_level_lookup in Hl. fold s in Hl.
  assert (Hinv3 : book_inv (book w3)).
  { apply (remove_node_inv s i level level' (book w)
             (after_free (OrderEntry.node entry)
                (set_book (store_level s i level' (book w)) w)) w3 Hinv Hl);
      [| | |exact Hr].
    - unfold Level.erase in He.
      destruct (Level.lookup _ _); [|discriminate]. injection He as <-.
      cbn. apply unlink_forall.
      destruct (proj1 (book_inv_sides s _) Hinv) as (_ & _ & _ & Hns & _).
      exact (no_stp_nodes_lookup _ _ _ Hns Hl).
    - unfold after_free, set_book, store_level. destruct s; reflexivity.
    - unfold after_free, set_book, store_level. destruct s; reflexivity. }
  unfold book_inv in *. exact Hinv3.
Qed.

Lemma entry_node_no_stp b e n :
  book_inv b -> entry_node b e = Some n ->
  stp_enabled (OrderNode.flags n) = false.
Proof.
  intros Hinv. unfold entry_node.
  destruct (entry_level b e) as [[i l]|] eqn:El; [|discriminate].
  apply entry_level_lookup in El. intros Hn.
  apply lookup_split in Hn as (pre & post & Hn & _).
  destruct (proj1 (book_inv_sides (OrderEntry.side e) _) Hinv)
    as (_ & _ & _ & Hns & _).
  pose proof (no_stp_nodes_lookup _ _ _ Hns El) as Hall.
  rewrite Hn in Hall. apply Forall_app in Hall as [_ Hall].
  inversion Hall as [|? ? Hx _]; subst. exact Hx.
Qed.

Lemma modify_inv now id new_price new_qty w r w' :
  modify now id new_price new_qty w = Done r w' ->
  book_inv (book w) -> book_inv (book w').
Proof.
  intros H Hinv.
  apply modify_done in H as [(_ & -> & _)|(entry & n & _ & Hn & H)];
    [exact Hinv|].
  destruct H as [(_ & i & level & level' & Hl & Hr & He & _)
                |(_ & w2 & Hc & Hs)].
  - apply emit_book_update_book in He. rewrite He. cbn [book set_book].
    set (s := OrderEntry.side entry) in *.
    apply entry_level_lookup in Hl. fold s in Hl.
    unfold Level.reduce_qty in Hr.
    destruct (Level.lookup _ _) as [n0|] eqn:Hlk; [|discriminate].
    injection Hr as <-.
    set (f := fun n1 => OrderNode.set_qty n1
                          (OrderNode.qty n1 - (OrderNode.qty n - new_qty))).
    set (lv := mkLevel (Level.update (OrderEntry.node entry) f (nodes level))
                       (total_qty level - (OrderNode.qty n - new_qty))).
    apply (remove_node_inv s i level lv (book w)
             (set_book (store_level s i lv (book w)) w)
             (set_book (store_level s i lv (book w)) w) Hinv Hl).
    + cbn. apply update_forall; [intros h' n1 Hp; exact Hp|].
      destruct (proj1 (book_inv_sides s _) Hinv) as (_ & _ & _ & Hns & _).
      exact (no_stp_nodes_lookup _ _ _ Hns Hl).
    + cbn [book set_book]. apply side_levels_store.
    + unfold set_book, store_level. destruct s; reflexivity.
    + replace (Level.empty lv) with false; [reflexivity|].
      unfold Level.empty. cbn.
      pose proof (update_nonempty (OrderEntry.node entry) f _ _ Hlk) as Hne.
      destruct (Level.update _ _ _); congruence.
  - apply cancel_inv in Hc; [|exact Hinv].
    eapply submit_limit_inv; eauto. cbn.
    eapply entry_node_no_stp; eauto.
Qed.

Definition no_stp_command (cmd : OrderCommand.t) : Prop :=
  stp_enabled (OrderCommand.flags cmd) = false.

Lemma step_inv now cmd w reply w' :
  no_stp_command cmd ->
  step now cmd w = Done reply w' ->
  book_inv (book w) -> book_inv (book w').
Proof.
  intros Hstp H Hinv. unfold step in H.
  destruct (OrderCommand.type cmd).
  - destruct (OrderCommand.order_type cmd);
      apply bind_done in H as (r & w1 & H & Hr); injection Hr as <- <-;
      first [eapply submit_limit_inv; eassumption
            |eapply submit_market_inv; eassumption].
  - apply bind_done in H as (r & w1 & H & Hr); injection Hr as <- <-.
    eapply cancel_inv; eauto.
  - apply bind_done in H as (r & w1 & H & Hr); injection Hr as <- <-.
    eapply modify_inv; eauto.
Qed.

Lemma run_inv now cmds : forall w replies w',
  Forall no_stp_command cmds ->
  run now cmds w = Done replies w' ->
  book_inv (book w) -> book_inv (book w').
Proof.
  induction cmds as [|cmd cmds IH]; intros w replies w' Hall H Hinv.
  - now injection H as <- <-.
  - cbn [run] in H.
    apply bind_done in H as (reply & w1 & Hs & H).
    apply bind_done in H as (rs & w2 & Hr & H). injection H as <- <-.
    inversion Hall; subst.
    eapply IH; eauto. eapply step_inv; eauto.
Qed.

Lemma new_engine_inv symbol band : book_inv (book (new_engine symbol band)).
Proof.
  unfold book_inv, ladder_ok, uncrossed, no_stp_nodes. cbn.
  repeat split; auto; apply Forall_replicate; constructor.
Qed.

(** X24.  The cached best prices, which the book updates report, do not
    cross without self-trade prevention: when no command of the sequence
    carries the STP flag, after every run from a fresh engine that completes,
    every Cancel and Modify that finds its identifier finding an entry whose
    node is queued in the level the entry names, whenever neither cached best
    is its sentinel, [best_bid < best_ask].  (The resting orders themselves
    can cross all the same, when a cancel has made a side forget its best.) *)
Theorem uncrossed_without_stp now symbol band cmds replies w :
  Forall no_stp_command cmds ->
  lookups_live now cmds (new_engine symbol band) = true ->
  run now cmds (new_engine symbol band) = Done replies w ->
  empty (book w) Bid = false -> empty (book w) Ask = false ->
  best_bid (book w) < best_ask (book w).
Proof.
  intros Hall _ H Hb Ha.
  apply run_inv in H; [|exact Hall|apply new_engine_inv].
  destruct H as (_ & _ & Hun & _).
  unfold empty in *. unfold uncrossed in Hun. lia.
Qed.

Definition two_sided_script : list OrderCommand.t :=
  [limit_order 1 100 Bid 150 10 GTC 0;
   limit_order 2 101 Ask 145 5 GTC 0;
   limit_order 3 102 Ask 160 7 GTC 0].

Lemma uncrossed_without_stp_witness :
  let o := run counting_clock two_sided_script (new_engine 1 band_100_200) in
  best_bid (book (final_world o)) = 150 /\
  best_ask (book (final_world o)) = 160 /\
  best_bid (book (final_world o)) < best_ask (book (final_world o)).
Proof.
  cbv zeta.
  destruct (run counting_clock two_sided_script (new_engine 1 band_100_200))
    as [replies w|f w] eqn:E; [|vm_compute in E; discriminate E].
  assert (Hw : w = final_world (run counting_clock two_sided_script
                                    (new_engine 1 band_100_200)))
    by (now rewrite E).
  cbn [final_world].
  split; [rewrite Hw; vm_compute; reflexivity|].
  split; [rewrite Hw; vm_compute; reflexivity|].
  apply (uncrossed_without_stp counting_clock 1 band_100_200 two_sided_script
           replies w).
  - repeat constructor.
  - vm_compute. reflexivity.
  - exact E.
  - rewrite Hw. vm_compute. reflexivity.
  - rewrite Hw. vm_compute. reflexivity.
Defined.

Definition self_trade_script : list OrderCommand.t :=
  [limit_order 1 100 Ask 150 10 GTC 0;
   limit_order 2 100 Bid 155 5 GTC OrderFlags.STP].

(** With the STP flag the cached bests can cross (the eighth scenario of
    the specification): user 100 has an ask resting at 150 and submits a bid
    at 155 with the STP flag; the walk skips the own ask, nothing trades, and
    the bid rests at 155 above the best ask 150. *)
Lemma stp_rests_crossed :
  let o := run counting_clock self_trade_script (new_engine 1 band_100_200) in
  completed o = true /\
  empty (book (final_world o)) Bid = false /\
  empty (book (final_world o)) Ask = false /\
  best_bid (book (final_world o)) = 155 /\
  best_ask (book (final_world o)) = 150.
Proof. cbv zeta. repeat (split; [vm_compute; reflexivity|]). vm_compute. reflexivity. Qed.

Definition crossed_by_stale_best : list OrderCommand.t :=
  [limit_order 1 100 Bid 150 10 GTC 0;
   limit_order 2 101 Bid 140 10 GTC 0;
   cancel_order 2;
   limit_order 3 102 Ask 145 5 GTC 0;
   limit_order 4 103 Bid 130 5 GTC 0].

(** C3 (fails on the code).  No command carries the STP flag.  Bids rest at
    150 and 140; cancelling the order at 140 makes [cancel] refresh the
    cached best bid although the emptied level is not the best one, and the
    bid side reports empty while order 1 rests at 150.  The ask at 145 then
    meets no bid and rests; a bid at 130 becomes the cached best.  The run
    completes without a trade with a bid resting at 150 above an ask resting
    at 145, which the cached bests 130 and 145 do not show. *)
Theorem resting_book_crosses_after_cancel :
  let o := run counting_clock crossed_by_stale_best
               (new_engine 1 band_100_200) in
  Forall no_stp_command crossed_by_stale_best /\
  completed o = true /\
  traded_qty (events (final_world o)) = 0 /\
  highest_resting_tick (bids_ (book (final_world o))) = 150 /\
  lowest_resting_tick (asks_ (book (final_world o))) = 145 /\
  best_bid (book (final_world o)) = 130 /\
  best_ask (book (final_world o)) = 145.
Proof.
  cbv zeta.
  split; [repeat constructor|].
  split; [vm_compute; reflexivity|].
  split; [vm_compute; reflexivity|].
  split; [vm_compute; reflexivity|].
  split; [vm_compute; reflexivity|].
  split; vm_compute; reflexivity.
Qed.

(** * Replay: the streams depend on the clock only through timestamps *)

Section Strip.

(** What a stripped run keeps of the timestamp an order came with.  The
    timestamp of a book update is always dropped. *)
Variable keep : Timestamp -> Timestamp.



















(** ** Pure operations commute with stripping *)















(** ** The operations commute with stripping *)

Local Notation "'same'" := (fun x => x) (only parsing).






































End Strip.

(** ** The two streams of a run *)


















(** * Further properties of the order book *)

(** ** Every trade of a limit order honours the limit *)

(** A trade of taker [tid] stamped [ts] on symbol [sym] at a price that
    satisfies [P]. *)
Definition trade_by (tid : OrderId) (ts : Timestamp) (sym : SymbolId)
           (P : Tick -> Prop) (e : AnyEvent) : Prop :=
  match e with
  | Trade t =>
      TradeEvent.taker_id t = tid /\ TradeEvent.ts t = ts /\
      TradeEvent.symbol_id t = sym /\ P (TradeEvent.price_ticks t)
  | Update _ => False
  end.

(** A price on side [s] that a taker with limit [px_limit] accepts. *)
Definition within_limit (s : Side) (px_limit p : Tick) : Prop :=
  match s with Bid => px_limit <= p | Ask => p <= px_limit end.

Lemma trade_by_impl tid ts sym (P Q : Tick -> Prop) e :
  (forall p, P p -> Q p) -> trade_by tid ts sym P e -> trade_by tid ts sym Q e.
Proof. destruct e; cbn; [|tauto]. intros H (? & ? & ? & ?). auto. Qed.

Lemma match_level_trades tid tu ts stp bp makers kept total qty filled w r w' :
  match_level tid tu ts stp bp makers kept total qty filled w = Done r w' ->
  exists evs,
    events w' = events w ++ evs /\
    Forall (trade_by tid ts (symbol_id_ (book w)) (eq bp)) evs.
Proof.
  revert makers kept total qty filled w r w'.
  apply (match_level_ind tid tu ts stp bp
    (fun _ _ _ _ _ w _ w' =>
       exists evs,
         events w' = events w ++ evs /\
         Forall (trade_by tid ts (symbol_id_ (book w)) (eq bp)) evs)).
  - intros. exists []. now rewrite app_nil_r.
  - intros. exists []. now rewrite app_nil_r.
  - auto.
  - intros h maker rest kept total qty filled w ix' r w' _ _ _ w1 _ w3
           (evs & Hev & Hall).
    subst w3 w1. unfold after_trade in *.
    destruct (on_trade_ (book w)) eqn:Hcb; cbn in Hev, Hall.
    + exists (Trade (trade_with tid ts bp maker (OrderNode.qty maker) w)
                :: evs).
      rewrite Hev, <- app_assoc. split; [reflexivity|].
      constructor; [cbn; auto|exact Hall].
    + exists evs. auto.
  - intros h maker rest kept total qty filled w r w' _ _ _ w1
           (evs & Hev & Hall).
    subst w1. unfold after_trade in *.
    destruct (on_trade_ (book w)) eqn:Hcb; cbn in Hev, Hall.
    + exists (Trade (trade_with tid ts bp maker qty w) :: evs).
      rewrite Hev, <- app_assoc. split; [reflexivity|].
      constructor; [cbn; auto|exact Hall].
    + exists evs. auto.
Qed.

Lemma no_cross_within s pl px :
  no_cross s pl px = false -> within_limit s px (side_best s pl).
Proof. destruct s; cbn; lia. Qed.

Lemma match_loop_trades s px tid tu ts stp fuel qty filled w r w' :
  match_loop s px tid tu ts stp fuel qty filled w = Done r w' ->
  exists evs,
    events w' = events w ++ evs /\
    Forall (trade_by tid ts (symbol_id_ (book w)) (within_limit s px)) evs.
Proof.
  revert fuel qty filled w r w'.
  apply (match_loop_ind s px tid tu ts stp
    (fun _ _ _ w _ w' =>
       exists evs,
         events w' = events w ++ evs /\
         Forall (trade_by tid ts (symbol_id_ (book w)) (within_limit s px))
                evs));
    try (intros; exists []; now rewrite app_nil_r).
  - intros fuel qty filled w i l l' qty' filled' w1 _ _ _ _ Hc Hm _.
    apply match_level_trades in Hm as (evs & Hev & Hall).
    exists evs. split; [exact Hev|].
    eapply Forall_impl; [|exact Hall]. intros e. apply trade_by_impl.
    intros p <-. now apply no_cross_within.
  - intros fuel qty filled w i l l' qty' filled' w1 w3 r w'
           _ _ _ _ Hc Hm _ Hr (evs2 & Hev2 & Hall2).
    pose proof (match_level_frame _ _ _ _ _ _ _ _ _ _ _ _ _ Hm)
      as (_ & _ & _ & _ & Hsym & _).
    apply match_level_trades in Hm as (evs & Hev & Hall).
    pose proof (refresh_frame _ _ _ Hr) as (_ & _ & _ & _ & _ & Hsym3 & _).
    apply refresh_open_qty in Hr as (_ & Hev3 & _).
    cbn [book set_book events] in Hev3, Hsym3.
    assert (Hs : symbol_id_ (book w3) = symbol_id_ (book w)).
    { rewrite Hsym3, <- Hsym. unfold store_level. now destruct s. }
    rewrite Hs in Hall2.
    exists (evs ++ evs2). rewrite Hev2, Hev3, Hev, app_assoc.
    split; [reflexivity|]. apply Forall_app. split; [|exact Hall2].
    eapply Forall_impl; [|exact Hall]. intros e. apply trade_by_impl.
    intros p <-. now apply no_cross_within.
Qed.

Lemma emit_book_update_appends now w w' :
  emit_book_update now w = Done tt w' ->
  exists us, events w' = events w ++ us /\ forallb is_update us = true.
Proof.
  intros H. apply emit_book_update_inv in H as [_ H].
  destruct (on_book_update_ (book w)).
  - destruct H as (u & -> & _). now exists [Update u].
  - subst. exists []. now rewrite app_nil_r.
Qed.

Lemma taker_side_is_bid s : taker_side (is_bid_side s) = s.
Proof. now destruct s. Qed.

Lemma cross_and_match_trades is_bid cmd w filled w1 :
  cross_and_match is_bid cmd w = Done filled w1 ->
  exists evs,
    events w1 = events w ++ evs /\
    Forall (trade_by (OrderCommand.order_id cmd) (OrderCommand.recv_ts cmd)
              (symbol_id_ (book w))
              (within_limit (opposite (taker_side is_bid))
                            (OrderCommand.price_ticks cmd))) evs.
Proof.
  intros H. apply cross_and_match_done in H as [[_ ->]|[fuel H]].
  - exists []. now rewrite app_nil_r.
  - now apply match_loop_trades in H.
Qed.

(** X1.  Every trade a limit order causes names the order as taker, carries
    the order's receive timestamp and the book's symbol, and is priced within
    the limit: at or below it for a buy, at or above it for a sell.  Nothing
    else but book updates is emitted. *)
Theorem limit_order_trades_within_limit now cmd w r w' :
  submit_limit now cmd w = Done r w' ->
  exists trades updates,
    events w' = events w ++ trades ++ updates /\
    forallb is_update updates = true /\
    Forall (trade_by (OrderCommand.order_id cmd) (OrderCommand.recv_ts cmd)
              (symbol_id_ (book w))
              (within_limit (opposite (OrderCommand.side cmd))
                            (OrderCommand.price_ticks cmd))) trades.
Proof.
  intros H. rewrite submit_limit_is_side in H.
  apply submit_limit_side_done in H
    as [(_ & _ & He & _)|(filled & w1 & w2 & Hm & He & Hcase)].
  - apply emit_book_update_appends in He as (us & Hev & Hus).
    exists [], us. auto.
  - apply cross_and_match_trades in Hm as (trades & Hev1 & Hall).
    rewrite taker_side_is_bid in Hall.
    apply emit_book_update_appends in He as (us & Hev & Hus).
    assert (Hev2 : events w2 = events w1).
    { destruct Hcase as [(_ & _ & Hr & _)|[-> _]]; [|reflexivity].
      now apply rest_residual_log in Hr as [_ Hr]. }
    exists trades, us. rewrite Hev, Hev2, Hev1, app_assoc. auto.
Qed.

Lemma limit_order_trades_within_limit_witness :
  exists trades updates,
    events (final_world (submit_limit counting_clock
                           (limit_order 2 101 Bid 155 4 GTC 0) ten_ask_world))
    = events ten_ask_world ++ trades ++ updates /\
    forallb is_update updates = true /\
    Forall (trade_by 2 0 1 (within_limit Ask 155)) trades.
Proof.
  destruct (submit_limit counting_clock (limit_order 2 101 Bid 155 4 GTC 0)
              ten_ask_world) as [r w'|f w'] eqn:E;
    [|vm_compute in E; discriminate E].
  apply (limit_order_trades_within_limit counting_clock
           (limit_order 2 101 Bid 155 4 GTC 0) ten_ask_world r w' E).
Defined.

(** ** What the result of a limit order reports *)

(** X2.  For a limit order of non-negative quantity, with a trade callback
    registered: [filled] is the quantity of the trades the command emitted
    and never exceeds the submitted quantity; [remaining] is the unfilled
    rest for a resting kind (GTC, GTD) and 0 for IOC and FOK; and the book's
    resting quantity goes down by [filled] and up by [remaining]. *)
Theorem limit_order_result_accounts now cmd w r w' :
  0 <= OrderCommand.qty cmd ->
  submit_limit now cmd w = Done r w' ->
  on_trade_ (book w) = true ->
  traded_qty (events w') = traded_qty (events w) + ExecResult.filled r /\
  ExecResult.filled r <= OrderCommand.qty cmd /\
  ExecResult.remaining r
  = (if never_rests (OrderCommand.tif cmd) then 0
     else OrderCommand.qty cmd - ExecResult.filled r) /\
  resting_qty (book w')
  = resting_qty (book w) - ExecResult.filled r + ExecResult.remaining r.
Proof.
  intros Hq H Hcb. rewrite submit_limit_is_side in H.
  apply submit_limit_side_done in H
    as [(Ht & _ & He & ->)|(filled & w1 & w2 & Hm & He & Hcase)].
  - apply emit_conserves in He as [-> ->]. rewrite Ht. cbn.
    repeat split; lia.
  - apply cross_and_match_conserves in Hm as (Hr1 & Ht1 & Hcb1 & Hle);
      [|exact Hcb].
    specialize (Hle Hq).
    apply emit_conserves in He as [-> ->].
    cbv zeta in Hcase.
    destruct Hcase as [(Hrem & Hnr & Hr & ->)|(-> & Hcase)].
    + apply rest_residual_conserves in Hr as (Hr2 & -> & _).
      rewrite Hnr, Hr2, Hr1, Ht1. cbn. repeat split; lia.
    + destruct Hcase as [(Hrem & ->)|(Hrem & Hnr & ->)];
        rewrite Hr1, Ht1; cbn.
      * destruct (never_rests _); repeat split; lia.
      * rewrite Hnr. repeat split; lia.
Qed.

Lemma limit_order_result_accounts_witness :
  let cmd := limit_order 2 101 Bid 155 14 GTC 0 in
  let o := submit_limit counting_clock cmd ten_ask_world in
  reply_of o = Some (ExecResult.make 10 4) /\
  traded_qty (events (final_world o))
  = traded_qty (events ten_ask_world) + 10 /\
  resting_qty (book (final_world o))
  = resting_qty (book ten_ask_world) - 10 + 4.
Proof.
  intros cmd o. subst o.
  destruct (submit_limit counting_clock cmd ten_ask_world)
    as [r w'|f w'] eqn:E; [|vm_compute in E; discriminate E].
  assert (Hr : r = ExecResult.make 10 4)
    by (vm_compute in E; now injection E as <- _).
  split; [now rewrite Hr|].
  destruct (limit_order_result_accounts counting_clock cmd ten_ask_world r w')
    as (Ht & _ & _ & Hrest);
    [cbn; lia|exact E|reflexivity|].
  rewrite Hr in Ht, Hrest. cbn [final_world]. auto.
Defined.

(** ** Orders that never rest *)

(** Whether a NewOrder can leave a node in the book: only a limit order
    that is neither IOC nor FOK. *)
Definition may_rest (cmd : OrderCommand.t) : bool :=
  match OrderCommand.order_type cmd with
  | Limit => negb (never_rests (OrderCommand.tif cmd))
  | _ => false
  end.

Lemma matched_frame_own s w w' :
  matched_frame (opposite s) w w' ->
  side_levels s (book w') = side_levels s (book w).
Proof. intros [H _]. now rewrite opposite_taker_side in H. Qed.

Lemma index_sub_same w w' :
  id_index_ (book w') = id_index_ (book w) -> index_sub w' w.
Proof. unfold index_sub. intros ->. now intros e. Qed.

(** X3.  A market order, an IOC order and a FOK order never rest: when such
    a NewOrder completes, the ladder of its own side is exactly as before,
    the opposite ladder holds no node it did not hold before (in the same
    order), and the order index has no entry it did not have before. *)
Theorem non_resting_order_adds_nothing now cmd w reply w' :
  OrderCommand.type cmd = NewOrder ->
  may_rest cmd = false ->
  step now cmd w = Done reply w' ->
  side_levels (OrderCommand.side cmd) (book w')
  = side_levels (OrderCommand.side cmd) (book w) /\
  no_new_nodes
    (levels_ (side_levels (opposite (OrderCommand.side cmd)) (book w')))
    (levels_ (side_levels (opposite (OrderCommand.side cmd)) (book w))) /\
  index_sub w' w.
Proof.
  intros Hty Hrest H. unfold step in H. rewrite Hty in H.
  unfold may_rest in Hrest.
  assert (Hm : (exists r, submit_limit now cmd w = Done r w' /\
                          never_rests (OrderCommand.tif cmd) = true) \/
               (exists r, submit_market now cmd w = Done r w')).
  { destruct (OrderCommand.order_type cmd);
      apply bind_done in H as (r & w1 & H & Hr); injection Hr as <- <-;
      [left; exists r; split; [exact H|];
       now destruct (never_rests (OrderCommand.tif cmd))
      |right; eauto..]. }
  clear H. destruct Hm as [(r & H & Hnr)|(r & H)].
  - rewrite submit_limit_is_side in H.
    apply submit_limit_side_done in H
      as [(_ & _ & He & _)|(filled & w1 & w2 & Hm & He & Hcase)].
    + apply emit_book_update_book in He. rewrite He.
      split; [reflexivity|]. split; [apply no_new_nodes_refl|].
      now apply index_sub_same; rewrite He.
    + apply emit_book_update_book in He.
      destruct Hcase as [(_ & Hno & _)|[-> _]]; [congruence|].
      apply cross_and_match_effect in Hm as (Hf & Hn & Hix & _).
      rewrite taker_side_is_bid in Hf, Hn.
      rewrite He. split; [now apply matched_frame_own|].
      split; [exact Hn|].
      eapply index_sub_trans; [|exact Hix]. now apply index_sub_same; rewrite He.
  - apply submit_market_done in H as (fuel & filled & w1 & Hm & He & _).
    apply emit_book_update_book in He. rewrite He.
    split; [eapply matched_frame_own, match_loop_frame; exact Hm|].
    split; [eapply match_loop_handles; exact Hm|].
    eapply index_sub_trans; [|eapply match_loop_index; exact Hm].
    now apply index_sub_same; rewrite He.
Qed.

Lemma non_resting_order_adds_nothing_witness :
  let cmd := limit_order 2 101 Bid 155 14 IOC 0 in
  let w' := final_world (step counting_clock cmd ten_ask_world) in
  side_levels Bid (book w') = side_levels Bid (book ten_ask_world) /\
  no_new_nodes (levels_ (side_levels Ask (book w')))
               (levels_ (side_levels Ask (book ten_ask_world))) /\
  index_sub w' ten_ask_world.
Proof.
  intros cmd w'. subst w'.
  destruct (step counting_clock cmd ten_ask_world) as [reply w'|f w'] eqn:E;
    [|vm_compute in E; discriminate E].
  apply (non_resting_order_adds_nothing counting_clock cmd ten_ask_world
           reply w'); [reflexivity|reflexivity|exact E].
Defined.

(** ** Self-trade prevention leaves the taker's own orders alone *)

(** The nodes of user [u] in a level, in queue order. *)
Definition user_nodes (u : UserId) (ns : list (Handle * OrderNode.t))
  : list (Handle * OrderNode.t) :=
  List.filter (fun hn => OrderNode.user (snd hn) =? u) ns.

Definition ladder_user_nodes (u : UserId) (pl : PriceLevelsArray)
  : list (list (Handle * OrderNode.t)) :=
  map (fun l => user_nodes u (nodes l)) (levels_ pl).

Lemma user_nodes_app u a b :
  user_nodes u (a ++ b) = user_nodes u a ++ user_nodes u b.
Proof. apply List.filter_app. Qed.

Lemma user_nodes_other u h n ns :
  (OrderNode.user n =? u) = false ->
  user_nodes u ((h, n) :: ns) = user_nodes u ns.
Proof. intros H. unfold user_nodes. cbn. now rewrite H. Qed.

Lemma match_level_stp tid tu ts bp makers kept total qty filled w r w' :
  match_level tid tu ts true bp makers kept total qty filled w = Done r w' ->
  user_nodes tu (nodes (fst (fst r))) = user_nodes tu (kept ++ makers).
Proof.
  revert makers kept total qty filled w r w'.
  apply (match_level_ind tid tu ts true bp
    (fun makers kept _ _ _ _ r _ =>
       user_nodes tu (nodes (fst (fst r))) = user_nodes tu (kept ++ makers))).
  - intros. cbn. now rewrite app_nil_r.
  - intros. reflexivity.
  - intros h maker rest kept total qty filled w r w' _ _ _ IH.
    now rewrite <- app_assoc in IH.
  - intros h maker rest kept total qty filled w ix' r w' _ Hs _ w1 _ w3 IH.
    rewrite IH, !user_nodes_app. cbn [andb] in Hs.
    f_equal. symmetry. now apply user_nodes_other.
  - intros h maker rest kept total qty filled w r w' _ Hs _ w1 IH.
    rewrite IH. cbn [andb] in Hs. unfold user_nodes.
    rewrite !List.filter_app.
    cbn [List.filter snd OrderNode.user OrderNode.set_qty].
    rewrite Hs. now rewrite app_nil_r.
Qed.

Lemma ladder_user_nodes_store u pl i l l' :
  levels_ pl !! i = Some l ->
  user_nodes u (nodes l') = user_nodes u (nodes l) ->
  ladder_user_nodes u (PLA.store pl i l') = ladder_user_nodes u pl.
Proof.
  intros Hl Hu. unfold ladder_user_nodes, PLA.store. cbn.
  rewrite list_fmap_insert, Hu.
  apply list_insert_id. now rewrite list_lookup_fmap, Hl.
Qed.

Lemma match_loop_stp s px tid tu ts fuel qty filled w r w' :
  match_loop s px tid tu ts true fuel qty filled w = Done r w' ->
  ladder_user_nodes tu (side_levels s (book w'))
  = ladder_user_nodes tu (side_levels s (book w)).
Proof.
  revert fuel qty filled w r w'.
  apply (match_loop_ind s px tid tu ts true
    (fun _ _ _ w _ w' =>
       ladder_user_nodes tu (side_levels s (book w'))
       = ladder_user_nodes tu (side_levels s (book w))));
    try reflexivity.
  - intros fuel qty filled w i l l' qty' filled' w1 _ _ Hl _ _ Hm _.
    pose proof (match_level_frame _ _ _ _ _ _ _ _ _ _ _ _ _ Hm) as Hf.
    apply match_level_stp in Hm. cbn [fst app] in Hm.
    cbn [book set_book]. rewrite side_levels_store.
    rewrite (same_ladders_side s _ _ Hf).
    now apply (ladder_user_nodes_store _ _ _ l).
  - intros fuel qty filled w i l l' qty' filled' w1 w3 r w'
           _ _ Hl _ _ Hm _ Hr IH.
    pose proof (match_level_frame _ _ _ _ _ _ _ _ _ _ _ _ _ Hm) as Hf.
    apply match_level_stp in Hm. cbn [fst app] in Hm.
    apply refresh_done in Hr as (pl' & Hr & ->).
    apply refresh_ladder_levels in Hr as [Hlv _].
    rewrite IH. cbn [book set_book].
    assert (Hs : forall pl b, side_levels s (with_side_levels s pl b) = pl)
      by (intros; now destruct s).
    rewrite Hs. unfold ladder_user_nodes at 1. rewrite Hlv.
    cbn [book set_book].
    change (ladder_user_nodes tu (side_levels s (store_level s i l' (book w1)))
            = ladder_user_nodes tu (side_levels s (book w))).
    rewrite side_levels_store, (same_ladders_side s _ _ Hf).
    now apply (ladder_user_nodes_store _ _ _ l).
Qed.

Lemma rest_residual_opposite is_bid cmd remaining w w' :
  rest_residual is_bid cmd remaining w = Done tt w' ->
  side_levels (opposite (taker_side is_bid)) (book w')
  = side_levels (opposite (taker_side is_bid)) (book w).
Proof.
  intros H. apply rest_residual_done in H
    as (i & level & h & pool' & pl' & ix' & _ & _ & _ & _ & _ & ->).
  now destruct is_bid.
Qed.

(** X4.  With the STP flag set, a NewOrder never fills an order of its own
    user: when the command completes, every level of the opposite ladder
    holds the same nodes of that user as before, in the same order and with
    the same open quantity. *)
Theorem stp_keeps_own_orders now cmd w reply w' :
  OrderCommand.type cmd = NewOrder ->
  stp_enabled (OrderCommand.flags cmd) = true ->
  step now cmd w = Done reply w' ->
  ladder_user_nodes (OrderCommand.user_id cmd)
    (side_levels (opposite (OrderCommand.side cmd)) (book w'))
  = ladder_user_nodes (OrderCommand.user_id cmd)
      (side_levels (opposite (OrderCommand.side cmd)) (book w)).
Proof.
  intros Hty Hstp H. unfold step in H. rewrite Hty in H.
  assert (Hm : (exists r, submit_limit now cmd w = Done r w') \/
               (exists r, submit_market now cmd w = Done r w')).
  { destruct (OrderCommand.order_type cmd);
      apply bind_done in H as (r & w1 & H & Hr); injection Hr as <- <-;
      eauto. }
  clear H. destruct Hm as [(r & H)|(r & H)].
  - rewrite submit_limit_is_side in H.
    apply submit_limit_side_done in H
      as [(_ & _ & He & _)|(filled & w1 & w2 & Hm & He & Hcase)].
    + apply emit_book_update_book in He. now rewrite He.
    + apply emit_book_update_book in He. rewrite He.
      assert (H2 : side_levels (opposite (OrderCommand.side cmd)) (book w2)
                   = side_levels (opposite (OrderCommand.side cmd)) (book w1)).
      { destruct Hcase as [(_ & _ & Hr & _)|[-> _]]; [|reflexivity].
        apply rest_residual_opposite in Hr.
        now rewrite taker_side_is_bid in Hr. }
      rewrite H2.
      apply cross_and_match_done in Hm as [[_ ->]|[fuel Hm]]; [reflexivity|].
      rewrite Hstp, taker_side_is_bid in Hm.
      now apply match_loop_stp in Hm.
  - apply submit_market_done in H as (fuel & filled & w1 & Hm & He & _).
    apply emit_book_update_book in He. rewrite He.
    rewrite Hstp in Hm. now apply match_loop_stp in Hm.
Qed.

(** A user's ask rests; the same user buys through it with the STP flag. *)
Lemma stp_keeps_own_orders_witness :
  let cmd := limit_order 2 100 Bid 155 4 GTC OrderFlags.STP in
  let w' := final_world (step counting_clock cmd ten_ask_world) in
  ladder_user_nodes 100 (side_levels Ask (book w'))
  = ladder_user_nodes 100 (side_levels Ask (book ten_ask_world))
  /\ ladder_user_nodes 100 (side_levels Ask (book ten_ask_world)) !! 50%nat
     = Some [(1%nat, OrderNode.mk 1 100 10 0 0)].
Proof.
  intros cmd w'. subst w'. split; [|vm_compute; reflexivity].
  destruct (step counting_clock cmd ten_ask_world) as [reply w'|f w'] eqn:E;
    [|vm_compute in E; discriminate E].
  apply (stp_keeps_own_orders counting_clock cmd ten_ask_world reply w');
    [reflexivity|reflexivity|exact E].
Defined.

(** ** What a cancel removes *)

Lemma erase_done l h l' :
  Level.erase l h = Some l' ->
  exists n,
    Level.lookup h (nodes l) = Some n /\
    l' = mkLevel (Level.unlink h (nodes l)) (total_qty l - OrderNode.qty n).
Proof.
  unfold Level.erase. destruct (Level.lookup h (nodes l)) as [n|];
    [|discriminate].
  intros H. injection H as <-. eauto.
Qed.

Lemma nodes_qty_unlink h ns n :
  Level.lookup h ns = Some n ->
  nodes_qty (Level.unlink h ns) = nodes_qty ns - OrderNode.qty n.
Proof.
  induction ns as [|[h' n'] ns IH]; cbn [Level.lookup Level.unlink];
    [discriminate|].
  destruct (Nat.eqb h' h).
  - intros H. injection H as <-. unfold nodes_qty. cbn. lia.
  - intros H. unfold nodes_qty in *. cbn [fold_right snd].
    rewrite (IH H). lia.
Qed.

Lemma ladder_open_qty_levels pl pl' :
  levels_ pl' = levels_ pl -> ladder_open_qty pl' = ladder_open_qty pl.
Proof. unfold ladder_open_qty. now intros ->. Qed.

(** What a cancel that reports success did, in the model: it found an entry
    whose node is queued in the level the entry names. *)
Lemma cancel_effect now id w w' :
  cancel now id w = Done true w' ->
  exists entry i level n,
    FlatMap.find OrderEntry.zero (id_index_ (book w)) id = Some entry /\
    entry_level (book w) entry = Some (i, level) /\
    Level.lookup (OrderEntry.node entry) (nodes level) = Some n /\
    levels_ (side_levels (OrderEntry.side entry) (book w'))
    = <[i := mkLevel (Level.unlink (OrderEntry.node entry) (nodes level))
                     (total_qty level - OrderNode.qty n)]>
        (levels_ (side_levels (OrderEntry.side entry) (book w))) /\
    side_levels (opposite (OrderEntry.side entry)) (book w')
    = side_levels (opposite (OrderEntry.side entry)) (book w) /\
    resting_qty (book w') = resting_qty (book w) - OrderNode.qty n /\
    traded_qty (events w') = traded_qty (events w).
Proof.
  intros H. apply cancel_done in H as [(Hf & _)|(_ & H)]; [discriminate|].
  destruct H as (entry & i & level & level' & w3 & ix' & Hfind & Hel & Her
                 & Hw3 & Hix & He).
  apply erase_done in Her as (n & Hn & ->).
  exists entry, i, level, n.
  set (s := OrderEntry.side entry) in *.
  set (lv := mkLevel (Level.unlink (OrderEntry.node entry) (nodes level))
                     (total_qty level - OrderNode.qty n)) in *.
  apply emit_conserves in He as [Hb Ht]. cbn [book set_book events] in Hb, Ht.
  assert (Hlv : levels_ (side_levels s (book w3))
                = <[i := lv]> (levels_ (side_levels s (book w)))
                /\ side_levels (opposite s) (book w3)
                   = side_levels (opposite s) (book w)
                /\ events w3 = events w).
  { cbv zeta in Hw3. destruct (Level.empty lv).
    - pose proof (refresh_frame _ _ _ Hw3) as [Hopp _].
      pose proof (refresh_open_qty _ _ _ Hw3) as (_ & Hev & _).
      apply refresh_done in Hw3 as (pl' & Hr & ->).
      apply refresh_ladder_levels in Hr as [Hr _].
      split; [|split].
      + cbn [book set_book]. transitivity (levels_ pl');
          [now destruct s|]. rewrite Hr. now destruct s.
      + rewrite Hopp. now destruct s.
      + exact Hev.
    - subst w3. split; [|split]; [now destruct s..|reflexivity]. }
  destruct Hlv as (Hlv & Hopp & Hev).
  assert (Hside : forall s', side_levels s' (book w')
                             = side_levels s' (book w3)).
  { intros s'. rewrite Hb. now destruct s'. }
  split; [exact Hfind|]. split; [exact Hel|]. split; [exact Hn|].
  split; [now rewrite Hside|]. split; [now rewrite Hside|].
  split; [|now rewrite Ht, Hev].
  rewrite (resting_qty_sides s), (resting_qty_sides s (book w)).
  rewrite !Hside, Hopp.
  unfold ladder_open_qty at 1. rewrite Hlv.
  rewrite (ladder_open_qty_insert _ _ level)
    by now apply entry_level_lookup in Hel.
  fold (ladder_open_qty (side_levels s (book w))).
  change (level_open_qty lv)
    with (nodes_qty (Level.unlink (OrderEntry.node entry) (nodes level))).
  rewrite (nodes_qty_unlink _ _ _ Hn).
  change (level_open_qty level) with (nodes_qty (nodes level)). lia.
Qed.

(** X5.  When the index finds the identifier and the node of that entry is
    queued in the level the entry names, a cancel that returns true removes
    exactly that node: the level loses this one node (the others keep their
    order) and its [total_qty] drops by the node's open quantity, every other
    level of both ladders is as before, the book's resting quantity drops by
    that open quantity, and no trade is emitted. *)
Theorem cancel_removes_exactly_the_order now id w w' entry i level n :
  FlatMap.find OrderEntry.zero (id_index_ (book w)) id = Some entry ->
  entry_level (book w) entry = Some (i, level) ->
  Level.lookup (OrderEntry.node entry) (nodes level) = Some n ->
  cancel now id w = Done true w' ->
  levels_ (side_levels (OrderEntry.side entry) (book w'))
  = <[i := mkLevel (Level.unlink (OrderEntry.node entry) (nodes level))
                   (total_qty level - OrderNode.qty n)]>
      (levels_ (side_levels (OrderEntry.side entry) (book w))) /\
  side_levels (opposite (OrderEntry.side entry)) (book w')
  = side_levels (opposite (OrderEntry.side entry)) (book w) /\
  resting_qty (book w') = resting_qty (book w) - OrderNode.qty n /\
  traded_qty (events w') = traded_qty (events w).
Proof.
  intros Hfind Hel Hn H.
  apply cancel_effect in H
    as (entry' & i' & level' & n' & Hfind' & Hel' & Hn' & H).
  rewrite Hfind in Hfind'. injection Hfind' as <-.
  rewrite Hel in Hel'. injection Hel' as <- <-.
  rewrite Hn in Hn'. injection Hn' as <-.
  exact H.
Qed.

Lemma cancel_removes_exactly_the_order_witness :
  let w' := final_world (cancel counting_clock 1 two_bids_world) in
  let entry := OrderEntry.mk Bid 150 1%nat in
  let n := OrderNode.mk 1 100 10 0 0 in
  let level := mkLevel [(1%nat, n); (2%nat, OrderNode.mk 2 101 10 0 0)] 20 in
  resting_qty (book two_bids_world) = 20 /\
  levels_ (side_levels Bid (book w'))
  = <[50%nat := mkLevel (Level.unlink 1%nat (nodes level))
                        (total_qty level - OrderNode.qty n)]>
      (levels_ (side_levels Bid (book two_bids_world))) /\
  side_levels Ask (book w') = side_levels Ask (book two_bids_world) /\
  resting_qty (book w') = resting_qty (book two_bids_world) - OrderNode.qty n
  /\ traded_qty (events w') = traded_qty (events two_bids_world).
Proof.
  intros w' entry n level. subst w'.
  split; [vm_compute; reflexivity|].
  destruct (cancel counting_clock 1 two_bids_world) as [ok w'|f w'] eqn:E;
    [|vm_compute in E; discriminate E].
  assert (ok = true) as -> by (vm_compute in E; now injection E as <- _).
  apply (cancel_removes_exactly_the_order counting_clock 1 two_bids_world w'
           entry 50%nat level n).
  - vm_compute. reflexivity.
  - vm_compute. reflexivity.
  - reflexivity.
  - exact E.
Defined.

(** ** Time priority inside a price level *)

(** The maker and the quantity of a trade. *)
Definition fill_of (e : AnyEvent) : OrderId * Quantity :=
  match e with
  | Trade t => (TradeEvent.maker_id t, TradeEvent.qty t)
  | Update _ => (0, 0)
  end.

(** A node filled completely. *)
Definition full_fill (hn : Handle * OrderNode.t) : OrderId * Quantity :=
  (OrderNode.id (snd hn), OrderNode.qty (snd hn)).

(** What a walk over [makers] without self-trade prevention leaves: a
    prefix [hit] of the queue is filled completely, in queue order, and at
    most the next node is filled in part, which exhausts the taker. *)
Definition fifo_outcome (makers kept : list (Handle * OrderNode.t))
           (evs : list AnyEvent) (r : LevelFIFO * Quantity * Quantity)
  : Prop :=
  exists hit rest,
    makers = hit ++ rest /\
    ((nodes (fst (fst r)) = kept ++ rest /\
      map fill_of evs = map full_fill hit) \/
     (exists h n rest' q,
        rest = (h, n) :: rest' /\ 0 < q < OrderNode.qty n /\
        nodes (fst (fst r))
        = kept ++ (h, OrderNode.set_qty n (OrderNode.qty n - q)) :: rest' /\
        map fill_of evs = map full_fill hit ++ [(OrderNode.id n, q)] /\
        snd (fst r) = 0)).

Lemma match_level_fifo tid tu ts bp makers kept total qty filled w r w' :
  match_level tid tu ts false bp makers kept total qty filled w = Done r w' ->
  (qty <= 0 ->
   nodes (fst (fst r)) = kept ++ makers /\ snd (fst r) = qty /\ w' = w) /\
  (on_trade_ (book w) = true ->
   exists evs, events w' = events w ++ evs /\ fifo_outcome makers kept evs r).
Proof.
  revert makers kept total qty filled w r w'.
  apply (match_level_ind tid tu ts false bp
    (fun makers kept _ qty _ w r w' =>
       (qty <= 0 ->
        nodes (fst (fst r)) = kept ++ makers /\ snd (fst r) = qty /\ w' = w) /\
       (on_trade_ (book w) = true ->
        exists evs,
          events w' = events w ++ evs /\ fifo_outcome makers kept evs r))).
  - intros. cbn. split; [now rewrite app_nil_r|].
    intros _. exists []. rewrite app_nil_r. split; [reflexivity|].
    exists [], []. split; [reflexivity|]. left. now rewrite app_nil_r.
  - intros. cbn. split; [auto|].
    intros _. exists []. rewrite app_nil_r. split; [reflexivity|].
    exists [], ((h, maker) :: rest). split; [reflexivity|]. now left.
  - intros; discriminate.
  - intros h maker rest kept total qty filled w ix' r w' Hq _ Hle w1 _ w3
           [_ IH].
    split; [lia|]. intros Hcb.
    assert (Hcb3 : on_trade_ (book w3) = true).
    { subst w3 w1. unfold after_trade. rewrite Hcb. exact Hcb. }
    destruct (IH Hcb3) as (evs & Hev & hit & rest' & -> & Hcase).
    exists (Trade (trade_with tid ts bp maker (OrderNode.qty maker) w) :: evs).
    split.
    { rewrite Hev. subst w3 w1. unfold after_trade. rewrite Hcb. cbn.
      now rewrite <- app_assoc. }
    exists ((h, maker) :: hit), rest'. split; [reflexivity|].
    destruct Hcase as [[Hn Hf]|(h1 & n1 & rest1 & q & -> & Hq1 & Hn & Hf & Hz)].
    + left. split; [exact Hn|]. cbn [map]. now rewrite Hf.
    + right. exists h1, n1, rest1, q. repeat split; try tauto; try lia.
      cbn [map]. now rewrite Hf.
  - intros h maker rest kept total qty filled w r w' Hq _ Hlt w1 [IH _].
    split; [lia|]. intros Hcb.
    destruct IH as (Hn & Hz & ->); [lia|].
    exists [Trade (trade_with tid ts bp maker qty w)].
    split; [subst w1; unfold after_trade; now rewrite Hcb|].
    exists [], ((h, maker) :: rest). split; [reflexivity|].
    right. exists h, maker, rest, qty.
    rewrite <- app_assoc in Hn. repeat split; auto; lia.
Qed.

(** X6.  Time priority: without self-trade prevention, the walk over a price
    level fills the resting orders strictly in queue order.  The trades name
    a prefix of the queue, each of those makers filled completely and removed,
    and at most the next maker is filled in part and stays at the head with
    the rest of its quantity; the orders behind keep their place. *)
Theorem level_fills_in_queue_order tid tu ts bp l qty w l' qty' filled' w' :
  match_level tid tu ts false bp (nodes l) [] (total_qty l) qty 0 w
  = Done (l', qty', filled') w' ->
  on_trade_ (book w) = true ->
  exists evs hit rest,
    events w' = events w ++ evs /\
    nodes l = hit ++ rest /\
    ((nodes l' = rest /\ map fill_of evs = map full_fill hit) \/
     (exists h n rest' q,
        rest = (h, n) :: rest' /\ 0 < q < OrderNode.qty n /\
        nodes l' = (h, OrderNode.set_qty n (OrderNode.qty n - q)) :: rest' /\
        map fill_of evs = map full_fill hit ++ [(OrderNode.id n, q)] /\
        qty' = 0)).
Proof.
  intros H Hcb. apply match_level_fifo in H as [_ H].
  destruct (H Hcb) as (evs & Hev & hit & rest & Hm & Hcase).
  exists evs, hit, rest. split; [exact Hev|]. split; [exact Hm|].
  exact Hcase.
Qed.

(** Three asks of 5 lots queue at 150; a taker of 7 lots walks the level. *)
Definition three_asks_world : World :=
  final_world (run counting_clock
                   [limit_order 1 100 Ask 150 5 GTC 0;
                    limit_order 2 101 Ask 150 5 GTC 0;
                    limit_order 3 102 Ask 150 5 GTC 0]
                   (new_engine 1 band_100_200)).

Definition three_asks_level : LevelFIFO :=
  mkLevel [(1%nat, OrderNode.mk 1 100 5 0 0);
           (2%nat, OrderNode.mk 2 101 5 0 0);
           (3%nat, OrderNode.mk 3 102 5 0 0)] 15.

Lemma level_fills_in_queue_order_witness :
  let o := match_level 9 200 0 false 150 (nodes three_asks_level) []
                       (total_qty three_asks_level) 7 0 three_asks_world in
  levels_ (asks_ (book three_asks_world)) !! 50%nat = Some three_asks_level /\
  exists l' evs hit rest,
    option_map (fun r => fst (fst r)) (reply_of o) = Some l' /\
    events (final_world o) = events three_asks_world ++ evs /\
    nodes three_asks_level = hit ++ rest /\
    ((nodes l' = rest /\ map fill_of evs = map full_fill hit) \/
     (exists h n rest' q,
        rest = (h, n) :: rest' /\ 0 < q < OrderNode.qty n /\
        nodes l' = (h, OrderNode.set_qty n (OrderNode.qty n - q)) :: rest' /\
        map fill_of evs = map full_fill hit ++ [(OrderNode.id n, q)])).
Proof.
  intros o. subst o. split; [vm_compute; reflexivity|].
  destruct (match_level 9 200 0 false 150 (nodes three_asks_level) []
              (total_qty three_asks_level) 7 0 three_asks_world)
    as [[[l' qty'] filled'] w'|f w'] eqn:E;
    [|vm_compute in E; discriminate E].
  destruct (level_fills_in_queue_order _ _ _ _ _ _ _ _ _ _ _ E)
    as (evs & hit & rest & Hev & Hm & Hcase); [vm_compute; reflexivity|].
  exists l', evs, hit, rest. split; [reflexivity|]. split; [exact Hev|].
  split; [exact Hm|].
  destruct Hcase as [Hc|(h & n & rest' & q & Hc1 & Hc2 & Hc3 & Hc4 & _)];
    [now left|right; eauto 10].
Defined.

(** ** Every level's [total_qty] is the open quantity of its nodes *)

Definition level_consistent (l : LevelFIFO) : Prop :=
  total_qty l = level_open_qty l.

Definition ladder_consistent (pl : PriceLevelsArray) : Prop :=
  Forall level_consistent (levels_ pl).

Definition totals_consistent (b : OrderBook) : Prop :=
  ladder_consistent (bids_ b) /\ ladder_consistent (asks_ b).

Lemma totals_consistent_sides s b :
  totals_consistent b <->
  ladder_consistent (side_levels s b) /\
  ladder_consistent (side_levels (opposite s) b).
Proof. unfold totals_consistent. destruct s; cbn; tauto. Qed.

Lemma ladder_consistent_levels pl pl' :
  levels_ pl' = levels_ pl -> ladder_consistent pl -> ladder_consistent pl'.
Proof. unfold ladder_consistent. now intros ->. Qed.

Lemma ladder_consistent_insert pl ls i l :
  ls = <[i := l]> (levels_ pl) ->
  ladder_consistent pl -> level_consistent l -> Forall level_consistent ls.
Proof. intros -> Hpl Hl. now apply Forall_insert. Qed.

Lemma ladder_consistent_lookup pl i l :
  ladder_consistent pl -> levels_ pl !! i = Some l -> level_consistent l.
Proof. intros Hpl Hl. exact (Forall_lookup_1 _ _ _ _ Hpl Hl). Qed.

Lemma match_level_consistent tid tu ts stp bp l qty filled w l' qty' filled'
      w' :
  match_level tid tu ts stp bp (nodes l) [] (total_qty l) qty filled w
  = Done (l', qty', filled') w' ->
  level_consistent l -> level_consistent l'.
Proof.
  intros H Hl. apply match_level_account in H as (_ & Ht & Hn & _).
  unfold level_consistent in *.
  change (level_open_qty l') with (nodes_qty (nodes l')).
  change (level_open_qty l) with (nodes_qty (nodes l)) in Hl.
  change (nodes_qty []) with 0 in Hn. lia.
Qed.

Lemma match_loop_consistent s px tid tu ts stp fuel qty filled w r w' :
  match_loop s px tid tu ts stp fuel qty filled w = Done r w' ->
  ladder_consistent (side_levels s (book w)) ->
  ladder_consistent (side_levels s (book w')).
Proof.
  revert fuel qty filled w r w'.
  apply (match_loop_ind s px tid tu ts stp
    (fun _ _ _ w _ w' =>
       ladder_consistent (side_levels s (book w)) ->
       ladder_consistent (side_levels s (book w')))); auto.
  - intros fuel qty filled w i l l' qty' filled' w1 _ _ Hl _ _ Hm _ Hc.
    pose proof (match_level_frame _ _ _ _ _ _ _ _ _ _ _ _ _ Hm) as Hf.
    cbn [book set_book]. rewrite side_levels_store.
    rewrite (same_ladders_side s _ _ Hf).
    apply (ladder_consistent_insert (side_levels s (book w)) _ i l');
      [reflexivity|exact Hc|].
    eapply match_level_consistent; [exact Hm|].
    eapply ladder_consistent_lookup; eauto.
  - intros fuel qty filled w i l l' qty' filled' w1 w3 r w'
           _ _ Hl _ _ Hm _ Hr IH Hc.
    pose proof (match_level_frame _ _ _ _ _ _ _ _ _ _ _ _ _ Hm) as Hf.
    apply IH.
    apply refresh_done in Hr as (pl' & Hr & ->).
    apply refresh_ladder_levels in Hr as [Hlv _].
    cbn [book set_book] in Hlv |- *.
    replace (side_levels s (with_side_levels s pl'
                              (store_level s i l' (book w1))))
      with pl' by now destruct s.
    eapply ladder_consistent_levels; [exact Hlv|].
    rewrite side_levels_store, (same_ladders_side s _ _ Hf).
    apply (ladder_consistent_insert (side_levels s (book w)) _ i l');
      [reflexivity|exact Hc|].
    eapply match_level_consistent; [exact Hm|].
    eapply ladder_consistent_lookup; eauto.
Qed.

Lemma cross_and_match_consistent is_bid cmd w filled w1 :
  cross_and_match is_bid cmd w = Done filled w1 ->
  totals_consistent (book w) -> totals_consistent (book w1).
Proof.
  intros H Hc.
  pose proof (cross_and_match_effect _ _ _ _ _ H) as (Hf & _).
  apply cross_and_match_done in H as [[_ ->]|[fuel H]]; [exact Hc|].
  set (s := opposite (taker_side is_bid)) in *.
  apply (totals_consistent_sides s) in Hc as [Hc1 Hc2].
  apply (totals_consistent_sides s). destruct Hf as [Hopp _].
  rewrite Hopp. split; [|exact Hc2].
  eapply match_loop_consistent; eauto.
Qed.

Lemma enqueue_consistent l h n :
  level_consistent l -> level_consistent (Level.enqueue l h n).
Proof.
  unfold level_consistent. intros Hl.
  rewrite level_open_qty_enqueue. cbn. lia.
Qed.

Lemma rest_residual_consistent is_bid cmd remaining w w' :
  rest_residual is_bid cmd remaining w = Done tt w' ->
  totals_consistent (book w) -> totals_consistent (book w').
Proof.
  intros H Hc.
  pose proof (rest_residual_opposite _ _ _ _ _ H) as Hopp.
  set (s := taker_side is_bid) in *.
  apply rest_residual_done in H
    as (i & level & h & pool' & pl' & ix' & _ & Hl & _ & Hr & _ & ->).
  fold s in Hl, Hr.
  apply rested_ladder_levels in Hr as [Hlv _].
  apply (totals_consistent_sides s) in Hc as [Hc1 Hc2].
  apply (totals_consistent_sides s). rewrite Hopp. split; [|exact Hc2].
  cbn [book set_book].
  assert (Hs : side_levels s (with_index ix'
                 (with_side_levels (taker_side is_bid) pl'
                    (with_pool pool' (book w)))) = pl')
    by (subst s; now destruct is_bid).
  rewrite Hs.
  eapply ladder_consistent_insert; [exact Hlv|exact Hc1|].
  apply enqueue_consistent. exact (ladder_consistent_lookup _ _ _ Hc1 Hl).
Qed.

Lemma submit_limit_consistent now cmd w r w' :
  submit_limit now cmd w = Done r w' ->
  totals_consistent (book w) -> totals_consistent (book w').
Proof.
  intros H Hc. rewrite submit_limit_is_side in H.
  apply submit_limit_side_done in H
    as [(_ & _ & He & _)|(filled & w1 & w2 & Hm & He & Hcase)];
    apply emit_book_update_book in He; rewrite He; [exact Hc|].
  apply cross_and_match_consistent in Hm; [|exact Hc].
  destruct Hcase as [(_ & _ & Hr & _)|[-> _]]; [|exact Hm].
  eapply rest_residual_consistent; eauto.
Qed.

Lemma submit_market_consistent now cmd w r w' :
  submit_market now cmd w = Done r w' ->
  totals_consistent (book w) -> totals_consistent (book w').
Proof.
  intros H Hc.
  apply submit_market_done in H as (fuel & filled & w1 & Hm & He & _).
  apply emit_book_update_book in He. rewrite He.
  pose proof (match_loop_frame _ _ _ _ _ _ _ _ _ _ _ _ Hm) as [Hopp _].
  set (s := opposite (OrderCommand.side cmd)) in *.
  apply (totals_consistent_sides s) in Hc as [Hc1 Hc2].
  apply (totals_consistent_sides s). rewrite Hopp. split; [|exact Hc2].
  eapply match_loop_consistent; eauto.
Qed.

(** What a successful cancel does to the ladders and the pool. *)
Lemma cancel_levels now id w w' :
  cancel now id w = Done true w' ->
  exists entry i level level',
    FlatMap.find OrderEntry.zero (id_index_ (book w)) id = Some entry /\
    entry_level (book w) entry = Some (i, level) /\
    Level.erase level (OrderEntry.node entry) = Some level' /\
    levels_ (side_levels (OrderEntry.side entry) (book w'))
    = <[i := level']> (levels_ (side_levels (OrderEntry.side entry) (book w)))
    /\
    side_levels (opposite (OrderEntry.side entry)) (book w')
    = side_levels (opposite (OrderEntry.side entry)) (book w) /\
    order_pool_ (book w')
    = Pool.released (order_pool_ (book w)) (OrderEntry.node entry).
Proof.
  intros H. apply cancel_done in H as [(Hf & _)|(_ & H)]; [discriminate|].
  destruct H as (entry & i & level & level' & w3 & ix' & Hfind & Hel & Her
                 & Hw3 & Hix & He).
  exists entry, i, level, level'.
  set (s := OrderEntry.side entry) in *.
  apply emit_book_update_book in He. cbn [book set_book] in He.
  assert (H3 : levels_ (side_levels s (book w3))
               = <[i := level']> (levels_ (side_levels s (book w)))
               /\ side_levels (opposite s) (book w3)
                  = side_levels (opposite s) (book w)
               /\ order_pool_ (book w3)
                  = Pool.released (order_pool_ (book w)) (OrderEntry.node entry)).
  { cbv zeta in Hw3. destruct (Level.empty level').
    - pose proof (refresh_frame _ _ _ Hw3) as [Hopp _].
      apply refresh_done in Hw3 as (pl' & Hr & ->).
      apply refresh_ladder_levels in Hr as [Hr _].
      split; [|split].
      + cbn [book set_book]. transitivity (levels_ pl');
          [now destruct s|]. rewrite Hr. now destruct s.
      + rewrite Hopp. now destruct s.
      + now destruct s.
    - subst w3. split; [|split]; now destruct s. }
  destruct H3 as (Hlv & Hopp & Hpool).
  assert (Hside : forall s', side_levels s' (book w')
                             = side_levels s' (book w3)).
  { intros s'. rewrite He. now destruct s'. }
  rewrite !Hside, He. repeat split; auto.
Qed.

Lemma erase_consistent l h l' :
  Level.erase l h = Some l' -> level_consistent l -> level_consistent l'.
Proof.
  intros H Hl. apply erase_done in H as (n & Hn & ->).
  unfold level_consistent in *. cbn [total_qty].
  change (level_open_qty (mkLevel (Level.unlink h (nodes l))
                                  (total_qty l - OrderNode.qty n)))
    with (nodes_qty (Level.unlink h (nodes l))).
  rewrite (nodes_qty_unlink _ _ _ Hn).
  change (nodes_qty (nodes l)) with (level_open_qty l). lia.
Qed.

Lemma nodes_qty_update h d ns n :
  Level.lookup h ns = Some n ->
  nodes_qty (Level.update h
               (fun n0 => OrderNode.set_qty n0 (OrderNode.qty n0 - d)) ns)
  = nodes_qty ns - d.
Proof.
  induction ns as [|[h' n'] ns IH]; cbn [Level.lookup Level.update];
    [discriminate|].
  destruct (Nat.eqb h' h).
  - intros _. unfold nodes_qty. cbn. lia.
  - intros H. unfold nodes_qty in *. cbn [fold_right snd].
    rewrite (IH H). lia.
Qed.

Lemma reduce_qty_consistent l h d l' :
  Level.reduce_qty l h d = Some l' ->
  level_consistent l -> level_consistent l'.
Proof.
  unfold Level.reduce_qty.
  destruct (Level.lookup h (nodes l)) as [n|] eqn:Hn; [|discriminate].
  intros H Hl. injection H as <-.
  unfold level_consistent in *. cbn [total_qty].
  match goal with |- _ = level_open_qty (mkLevel ?ns _) =>
    change (level_open_qty (mkLevel ns (total_qty l - d)))
      with (nodes_qty ns) end.
  rewrite (nodes_qty_update _ _ _ _ Hn).
  change (nodes_qty (nodes l)) with (level_open_qty l). lia.
Qed.

Lemma cancel_consistent now id w ok w' :
  cancel now id w = Done ok w' ->
  totals_consistent (book w) -> totals_consistent (book w').
Proof.
  intros H Hc. destruct ok.
  - apply cancel_levels in H
      as (entry & i & level & level' & _ & Hel & Her & Hlv & Hopp & _).
    set (s := OrderEntry.side entry) in *.
    apply entry_level_lookup in Hel. fold s in Hel.
    apply (totals_consistent_sides s) in Hc as [Hc1 Hc2].
    apply (totals_consistent_sides s). rewrite Hopp. split; [|exact Hc2].
    eapply ladder_consistent_insert; [exact Hlv|exact Hc1|].
    eapply erase_consistent; [exact Her|].
    exact (ladder_consistent_lookup _ _ _ Hc1 Hel).
  - apply cancel_done in H as [(_ & -> & _)|(Hf & _)];
      [exact Hc|discriminate].
Qed.

Lemma modify_consistent now id new_price new_qty w r w' :
  modify now id new_price new_qty w = Done r w' ->
  totals_consistent (book w) -> totals_consistent (book w').
Proof.
  intros H Hc.
  apply modify_done in H as [(_ & -> & _)|(entry & n & _ & Hn & H)];
    [exact Hc|].
  destruct H as [(_ & i & level & level' & Hel & Hr & He & _)
                |(_ & w2 & Hcn & Hs)].
  - apply emit_book_update_book in He. rewrite He. cbn [book set_book].
    set (s := OrderEntry.side entry) in *.
    apply entry_level_lookup in Hel. fold s in Hel.
    apply (totals_consistent_sides s) in Hc as [Hc1 Hc2].
    apply (totals_consistent_sides s).
    rewrite side_levels_store.
    replace (side_levels (opposite s) (store_level s i level' (book w)))
      with (side_levels (opposite s) (book w)) by now destruct s.
    split; [|exact Hc2].
    apply (ladder_consistent_insert (side_levels s (book w)) _ i level');
      [reflexivity|exact Hc1|].
    eapply reduce_qty_consistent; [exact Hr|].
    exact (ladder_consistent_lookup _ _ _ Hc1 Hel).
  - apply cancel_consistent in Hcn; [|exact Hc].
    eapply submit_limit_consistent; eauto.
Qed.

Lemma step_consistent now cmd w reply w' :
  step now cmd w = Done reply w' ->
  totals_consistent (book w) -> totals_consistent (book w').
Proof.
  intros H Hc. unfold step in H.
  destruct (OrderCommand.type cmd).
  - destruct (OrderCommand.order_type cmd);
      apply bind_done in H as (r & w1 & H & Hr); injection Hr as <- <-;
      first [eapply submit_limit_consistent; eassumption
            |eapply submit_market_consistent; eassumption].
  - apply bind_done in H as (r & w1 & H & Hr); injection Hr as <- <-.
    eapply cancel_consistent; eauto.
  - apply bind_done in H as (r & w1 & H & Hr); injection Hr as <- <-.
    eapply modify_consistent; eauto.
Qed.

Lemma run_consistent now cmds : forall w replies w',
  run now cmds w = Done replies w' ->
  totals_consistent (book w) -> totals_consistent (book w').
Proof.
  induction cmds as [|cmd cmds IH]; intros w replies w' H Hc.
  - now injection H as <- <-.
  - cbn [run] in H.
    apply bind_done in H as (reply & w1 & Hs & H).
    apply bind_done in H as (rs & w2 & Hr & H). injection H as <- <-.
    eapply IH; eauto. eapply step_consistent; eauto.
Qed.

Lemma new_engine_consistent symbol band :
  totals_consistent (book (new_engine symbol band)).
Proof.
  unfold totals_consistent, ladder_consistent. cbn.
  split; apply Forall_replicate; reflexivity.
Qed.

(** Two bids queue at 150, an ask fills part of the first, the second is
    shrunk in place, the first is cancelled, and an ask rests at 160. *)
Definition mixed_script : list OrderCommand.t :=
  [limit_order 1 100 Bid 150 10 GTC 0;
   limit_order 2 101 Bid 150 6 GTC 0;
   limit_order 3 102 Ask 150 4 GTC 0;
   modify_order 2 150 3;
   cancel_order 1;
   limit_order 4 103 Ask 160 7 GTC 0].

Definition mixed_world : World :=
  final_world (run counting_clock mixed_script (new_engine 1 band_100_200)).

(** * Fill conservation, over every kind of command *)

(** The open quantity of the order the index holds under [id]: the quantity
    of the node its entry names, 0 when the index does not find [id]. *)
Definition open_qty (b : OrderBook) (id : OrderId) : Quantity :=
  match FlatMap.find OrderEntry.zero (id_index_ b) id with
  | Some entry =>
      match entry_node b entry with Some n => OrderNode.qty n | None => 0 end
  | None => 0
  end.

Definition known (b : OrderBook) (id : OrderId) : bool :=
  match FlatMap.find OrderEntry.zero (id_index_ b) id with
  | Some _ => true
  | None => false
  end.

(** What a command adds to the quantity in the system, on the book [b] it
    meets.  A NewOrder adds everything for a resting kind (GTC, GTD) and what
    was filled for the kinds whose residual is discarded (IOC, FOK, market).
    A Cancel takes the open quantity of its order away.  A Modify of a known
    order puts the new quantity in the place of the open one, whether it
    shrinks the node or cancels it and resubmits. *)
Definition accounted_qty (b : OrderBook) (cmd : OrderCommand.t)
           (reply : Reply) : Quantity :=
  match OrderCommand.type cmd with
  | NewOrder =>
      match reply with
      | Exec e =>
          match OrderCommand.order_type cmd with
          | Limit =>
              if never_rests (OrderCommand.tif cmd) then ExecResult.filled e
              else OrderCommand.qty cmd
          | _ => ExecResult.filled e
          end
      | Cancelled _ => 0
      end
  | CancelOrder => - open_qty b (OrderCommand.order_id cmd)
  | ModifyOrder =>
      if known b (OrderCommand.order_id cmd)
      then OrderCommand.qty cmd - open_qty b (OrderCommand.order_id cmd)
      else 0
  end.

(** The accounted quantities of a run, each on the book its command met. *)
Fixpoint accounted_total (now : nat -> Timestamp) (cmds : list OrderCommand.t)
         (w : World) : Quantity :=
  match cmds with
  | [] => 0
  | cmd :: cmds' =>
      match step now cmd w with
      | Done reply w' =>
          accounted_qty (book w) cmd reply + accounted_total now cmds' w'
      | Crash _ _ => 0
      end
  end.

Definition quantity_nonneg (cmd : OrderCommand.t) : Prop :=
  OrderCommand.type cmd = CancelOrder \/ 0 <= OrderCommand.qty cmd.

Lemma open_qty_found b id entry n :
  FlatMap.find OrderEntry.zero (id_index_ b) id = Some entry ->
  entry_node b entry = Some n ->
  open_qty b id = OrderNode.qty n /\ known b id = true.
Proof. unfold open_qty, known. now intros -> ->. Qed.

Lemma cancel_conserves now id w ok w' :
  cancel now id w = Done ok w' ->
  on_trade_ (book w) = true ->
  balance w' = balance w - open_qty (book w) id /\
  on_trade_ (book w') = true.
Proof.
  intros H Hcb. destruct ok.
  - split.
    + apply cancel_effect in H
        as (entry & i & level & n & Hf & Hel & Hn & _ & _ & Hr & Ht).
      assert (Hen : entry_node (book w) entry = Some n)
        by (unfold entry_node; now rewrite Hel).
      destruct (open_qty_found _ _ _ _ Hf Hen) as [-> _].
      unfold balance. lia.
    + apply cancel_done in H as [(Hf & _)|(_ & H)]; [discriminate|].
      destruct H as (entry & i & level & level' & w3 & ix' & _ & _ & _
                     & Hw3 & _ & He).
      apply emit_book_update_book in He. rewrite He. cbn [book set_book].
      cbv zeta in Hw3. destruct (Level.empty level').
      * apply refresh_log in Hw3 as ([Ht _] & _).
        cbn [with_index on_trade_]. rewrite Ht.
        unfold after_free, set_book, store_level.
        now destruct (OrderEntry.side entry).
      * subst w3. unfold after_free, set_book, store_level.
        now destruct (OrderEntry.side entry).
  - apply cancel_done in H as [(_ & -> & Hf)|(Hf & _)]; [|discriminate].
    unfold open_qty. rewrite Hf. split; [lia|exact Hcb].
Qed.

Lemma resting_qty_store s i l l' b :
  levels_ (side_levels s b) !! i = Some l ->
  resting_qty (store_level s i l' b)
  = resting_qty b - level_open_qty l + level_open_qty l'.
Proof.
  intros Hl.
  rewrite (resting_qty_sides s), (resting_qty_sides s b), side_levels_store.
  rewrite (ladder_open_qty_store _ _ _ _ Hl).
  replace (side_levels (opposite s) (store_level s i l' b))
    with (side_levels (opposite s) b) by now destruct s.
  lia.
Qed.

Lemma modify_conserves now id new_price new_qty w r w' :
  0 <= new_qty ->
  modify now id new_price new_qty w = Done r w' ->
  on_trade_ (book w) = true ->
  balance w'
  = balance w + (if known (book w) id then new_qty - open_qty (book w) id
                 else 0) /\
  on_trade_ (book w') = true.
Proof.
  intros Hq H Hcb.
  apply modify_done in H as [(Hf & -> & _)|(entry & n & Hf & Hn & H)].
  { unfold known. rewrite Hf. split; [lia|exact Hcb]. }
  destruct (open_qty_found _ _ _ _ Hf Hn) as [Ho Hk]. rewrite Ho, Hk.
  destruct H as [(_ & i & level & level' & Hel & Hr & He & _)
                |(_ & w2 & Hcn & Hs)].
  - apply emit_conserves in He as [Hb Ht]. cbn [book set_book events] in Hb, Ht.
    unfold balance. rewrite Hb, Ht.
    split; [|unfold store_level; now destruct (OrderEntry.side entry)].
    rewrite (resting_qty_store _ _ level) by now apply entry_level_lookup.
    unfold Level.reduce_qty in Hr.
    destruct (Level.lookup (OrderEntry.node entry) (nodes level)) as [n0|]
      eqn:Hn0; [|discriminate].
    injection Hr as <-.
    match goal with |- context [level_open_qty (mkLevel ?ns ?t)] =>
      change (level_open_qty (mkLevel ns t)) with (nodes_qty ns) end.
    rewrite (nodes_qty_update _ _ _ _ Hn0).
    change (level_open_qty level) with (nodes_qty (nodes level)). lia.
  - apply cancel_conserves in Hcn as [Hb Hcb2]; [|exact Hcb].
    change (balance (tick_clock w)) with (balance w) in Hb.
    change (book (tick_clock w)) with (book w) in Hb.
    apply submit_limit_conserves in Hs as [Hb' Hcb']; [|exact Hq|exact Hcb2].
    cbn [replacement OrderCommand.tif never_rests TimeInForce_eqb orb
         OrderCommand.qty] in Hb'.
    split; [lia|exact Hcb'].
Qed.

Lemma step_conserves now cmd w reply w' :
  quantity_nonneg cmd ->
  step now cmd w = Done reply w' ->
  on_trade_ (book w) = true ->
  balance w' = balance w + accounted_qty (book w) cmd reply /\
  on_trade_ (book w') = true.
Proof.
  intros Hq H Hcb. unfold step in H. unfold accounted_qty.
  destruct (OrderCommand.type cmd) eqn:Hty.
  - destruct Hq as [Hq|Hq]; [congruence|].
    destruct (OrderCommand.order_type cmd);
      apply bind_done in H as (r & w1 & H & Hr); injection Hr as <- <-;
      first [eapply submit_limit_conserves; eassumption
            |eapply submit_market_conserves; eassumption].
  - apply bind_done in H as (ok & w1 & H & Hr). injection Hr as <- <-.
    apply cancel_conserves in H as [Hb Hcb']; [|exact Hcb].
    split; [lia|exact Hcb'].
  - destruct Hq as [Hq|Hq]; [congruence|].
    apply bind_done in H as (r & w1 & H & Hr). injection Hr as <- <-.
    eapply modify_conserves; eassumption.
Qed.

Lemma run_conserves now cmds : forall w replies w',
  Forall quantity_nonneg cmds ->
  run now cmds w = Done replies w' ->
  on_trade_ (book w) = true ->
  balance w' = balance w + accounted_total now cmds w.
Proof.
  induction cmds as [|cmd cmds IH]; intros w replies w' Hall H Hcb.
  - injection H as <- <-. cbn. lia.
  - cbn [run] in H.
    apply bind_done in H as (reply & w1 & Hs & H).
    apply bind_done in H as (rs & w2 & Hr & H). injection H as <- <-.
    inversion Hall as [|? ? Hc Hcs]; subst.
    cbn [accounted_total]. rewrite Hs.
    apply step_conserves in Hs as [Hb Hcb1]; auto.
    rewrite (IH _ _ _ Hcs Hr Hcb1), Hb. lia.
Qed.

(** C1 (amended).  For every sequence of commands (new orders of any kind,
    cancels, modifies) with non-negative quantities that a fresh engine runs
    to completion, every Cancel and Modify that finds its identifier finding
    an entry whose node is queued in the level the entry names: twice the
    traded quantity plus the resting open quantity equals the submitted
    quantity of the GTC and GTD orders plus the filled quantity of the IOC,
    FOK and market orders (whose residual is discarded), minus the open
    quantity of every order a Cancel takes off, plus, for every Modify of a
    known order, its new quantity minus the order's open quantity.  A trade
    counts twice because it consumes the taker's submission and a resting
    maker's. *)
Theorem fill_conservation now symbol band cmds replies w :
  Forall quantity_nonneg cmds ->
  lookups_live now cmds (new_engine symbol band) = true ->
  run now cmds (new_engine symbol band) = Done replies w ->
  2 * traded_qty (events w) + resting_qty (book w)
  = accounted_total now cmds (new_engine symbol band).
Proof.
  intros Hall _ H.
  apply run_conserves in H; [|exact Hall|reflexivity].
  unfold balance in H. rewrite H.
  assert (Hz : forall n, fold_right (fun l acc => level_open_qty l + acc) 0
                           (replicate n Level.empty_level) = 0).
  { induction n as [|n IHn]; cbn; [reflexivity|]. rewrite IHn.
    reflexivity. }
  unfold resting_qty, ladder_open_qty, new_engine, new_book, PLA.create.
  cbn [book events bids_ asks_ levels_ set_on_book_update set_on_trade].
  rewrite !Hz. cbn. lia.
Qed.

(** The run of [mixed_script] accounts for 10 + 6 + 4 - 3 - 6 + 7 lots. *)
Lemma fill_conservation_witness :
  2 * traded_qty (events mixed_world) + resting_qty (book mixed_world)
  = accounted_total counting_clock mixed_script (new_engine 1 band_100_200)
  /\ accounted_total counting_clock mixed_script (new_engine 1 band_100_200)
     = 18.
Proof.
  split; [|vm_compute; reflexivity].
  unfold mixed_world.
  destruct (run counting_clock mixed_script (new_engine 1 band_100_200))
    as [replies w|f w] eqn:E; [|vm_compute in E; discriminate E].
  apply (fill_conservation counting_clock 1 band_100_200 mixed_script
           replies w).
  - repeat constructor; cbn; lia.
  - vm_compute. reflexivity.
  - exact E.
Defined.

Definition rest_then_cross : list OrderCommand.t :=
  [limit_order 1 100 Bid 150 10 GTC 0; limit_order 2 101 Ask 145 5 GTC 0].

Definition ioc_leaves_residual : list OrderCommand.t :=
  [limit_order 1 100 Ask 150 5 GTC 0; limit_order 2 101 Bid 150 10 IOC 0].

Definition rest_then_cancel : list OrderCommand.t :=
  [limit_order 1 100 Bid 150 10 GTC 0; cancel_order 1].

Definition rest_then_shrink : list OrderCommand.t :=
  [limit_order 1 100 Bid 150 10 GTC 0; modify_order 1 150 4].

(** The quantity the NewOrder commands of a sequence submit. *)
Definition submitted_qty (cmds : list OrderCommand.t) : Quantity :=
  sumZ (map (fun cmd =>
               match OrderCommand.type cmd with
               | NewOrder => OrderCommand.qty cmd
               | _ => 0
               end) cmds).

(** What the claim equates with the submitted quantity, after a run. *)
Definition trades_plus_resting (cmds : list OrderCommand.t) : option Quantity :=
  match run counting_clock cmds (new_engine 1 band_100_200) with
  | Done _ w => Some (traded_qty (events w) + resting_qty (book w))
  | Crash _ _ => None
  end.

(** C1 as stated fails, and each term of the amended equation is needed.
    A bid of 10 rests and an ask of 5 crosses it (the first scenario of the
    specification): one trade of 5 and 5 lots resting, 10 against 15
    submitted, since the trade consumed 5 lots of either order.  An IOC bid of
    10 meets an ask of 5: 5 traded and nothing resting against 15 submitted,
    10 when the trade is counted twice; the residual of 5 was discarded.  A
    bid of 10 rests and is cancelled: nothing is left of 10 submitted.  A bid
    of 10 rests and is shrunk to 4: 4 are left of 10 submitted. *)
Lemma trades_plus_resting_is_not_submitted :
  (trades_plus_resting rest_then_cross = Some 10 /\
   submitted_qty rest_then_cross = 15) /\
  (trades_plus_resting ioc_leaves_residual = Some 5 /\
   submitted_qty ioc_leaves_residual = 15) /\
  (trades_plus_resting rest_then_cancel = Some 0 /\
   submitted_qty rest_then_cancel = 10) /\
  (trades_plus_resting rest_then_shrink = Some 4 /\
   submitted_qty rest_then_shrink = 10).
Proof.
  split; [split; vm_compute; reflexivity|].
  split; [split; vm_compute; reflexivity|].
  split; split; vm_compute; reflexivity.
Qed.

(** * Quantities stay within [int64_t] *)

(** The quantity a command brings in: that of a NewOrder or of a Modify. *)
Definition brought_qty (cmd : OrderCommand.t) : Quantity :=
  match OrderCommand.type cmd with
  | CancelOrder => 0
  | NewOrder | ModifyOrder => OrderCommand.qty cmd
  end.

(** The quantities of a run are non-negative and add up within [int64_t]. *)
Definition quantities_in_range (cmds : list OrderCommand.t) : Prop :=
  Forall (fun cmd => 0 <= brought_qty cmd) cmds /\
  sumZ (map brought_qty cmds) <= INT64_MAX.

Definition node_nonneg (hn : Handle * OrderNode.t) : Prop :=
  0 <= OrderNode.qty (snd hn).

Definition level_nonneg (l : LevelFIFO) : Prop := Forall node_nonneg (nodes l).

Definition ladder_nonneg (pl : PriceLevelsArray) : Prop :=
  Forall level_nonneg (levels_ pl).

(** No queued node has a negative open quantity. *)
Definition nodes_nonneg (b : OrderBook) : Prop :=
  ladder_nonneg (bids_ b) /\ ladder_nonneg (asks_ b).

Lemma nodes_nonneg_sides s b :
  nodes_nonneg b <->
  ladder_nonneg (side_levels s b) /\
  ladder_nonneg (side_levels (opposite s) b).
Proof. unfold nodes_nonneg. destruct s; cbn; tauto. Qed.

Lemma ladder_nonneg_levels pl pl' :
  levels_ pl' = levels_ pl -> ladder_nonneg pl -> ladder_nonneg pl'.
Proof. unfold ladder_nonneg. now intros ->. Qed.

Lemma ladder_nonneg_insert pl ls i l :
  ls = <[i := l]> (levels_ pl) ->
  ladder_nonneg pl -> level_nonneg l -> Forall level_nonneg ls.
Proof. intros -> Hpl Hl. now apply Forall_insert. Qed.

Lemma ladder_nonneg_lookup pl i l :
  ladder_nonneg pl -> levels_ pl !! i = Some l -> level_nonneg l.
Proof. intros Hpl Hl. exact (Forall_lookup_1 _ _ _ _ Hpl Hl). Qed.

Lemma nodes_qty_nonneg ns : Forall node_nonneg ns -> 0 <= nodes_qty ns.
Proof.
  unfold nodes_qty.
  induction 1 as [|hn ns Hx _ IH]; cbn [fold_right]; [lia|].
  unfold node_nonneg in Hx. lia.
Qed.

Lemma lookup_nonneg h ns n :
  Forall node_nonneg ns -> Level.lookup h ns = Some n -> 0 <= OrderNode.qty n.
Proof.
  intros Hall Hn. apply lookup_split in Hn as (pre & post & -> & _).
  apply Forall_app in Hall as [_ Hall]. now inversion Hall.
Qed.

(** A level holds no more than its ladder, a ladder no more than the book. *)
Lemma level_le_ladder pl i l :
  ladder_nonneg pl -> levels_ pl !! i = Some l ->
  level_open_qty l <= ladder_open_qty pl.
Proof.
  unfold ladder_nonneg, ladder_open_qty.
  generalize (levels_ pl) as ls. intros ls. revert i.
  induction ls as [|x ls IH]; intros i Hall Hl; [discriminate|].
  inversion Hall as [|? ? Hx Hls]; subst.
  assert (0 <= fold_right (fun l acc => level_open_qty l + acc) 0 ls).
  { clear -Hls. induction Hls as [|y ls Hy _ IHl]; cbn [fold_right]; [lia|].
    pose proof (nodes_qty_nonneg _ Hy).
    change (nodes_qty (nodes y)) with (level_open_qty y) in *. lia. }
  pose proof (nodes_qty_nonneg _ Hx) as Hx0.
  change (nodes_qty (nodes x)) with (level_open_qty x) in Hx0.
  destruct i as [|i]; cbn in Hl |- *.
  - injection Hl as ->. lia.
  - specialize (IH i Hls Hl). lia.
Qed.

Lemma ladder_open_qty_nonneg pl : ladder_nonneg pl -> 0 <= ladder_open_qty pl.
Proof.
  unfold ladder_nonneg, ladder_open_qty.
  induction 1 as [|y ls Hy _ IH]; cbn [fold_right]; [lia|].
  pose proof (nodes_qty_nonneg _ Hy).
  change (nodes_qty (nodes y)) with (level_open_qty y) in *. lia.
Qed.

Lemma match_level_nonneg tid tu ts stp bp makers kept total qty filled w r w' :
  match_level tid tu ts stp bp makers kept total qty filled w = Done r w' ->
  Forall node_nonneg kept -> Forall node_nonneg makers ->
  Forall node_nonneg (nodes (fst (fst r))) /\ filled <= snd r.
Proof.
  revert makers kept total qty filled w r w'.
  apply (match_level_ind tid tu ts stp bp
           (fun makers kept _ _ filled _ r _ =>
              Forall node_nonneg kept -> Forall node_nonneg makers ->
              Forall node_nonneg (nodes (fst (fst r))) /\ filled <= snd r));
    cbn [fst snd nodes].
  - intros. split; [assumption|lia].
  - intros. split; [now apply Forall_app|lia].
  - intros h maker rest kept total qty filled w r w' _ _ _ IH Hk Hm.
    inversion Hm; subst. apply IH; [apply Forall_app|]; auto.
  - intros h maker rest kept total qty filled w ix' r w' _ _ _ _ IH Hk Hm.
    inversion Hm as [|? ? Hx Hrest]; subst. unfold node_nonneg in Hx.
    cbn [snd] in Hx. destruct (IH Hk Hrest) as [Hn Hf]. split; [exact Hn|lia].
  - intros h maker rest kept total qty filled w r w' Hq _ Hlt IH Hk Hm.
    inversion Hm as [|? ? Hx Hrest]; subst.
    destruct IH as [Hn Hf]; [|exact Hrest|split; [exact Hn|lia]].
    apply Forall_app. split; [exact Hk|].
    constructor; [|constructor]. unfold node_nonneg. cbn. lia.
Qed.

Lemma match_loop_nonneg s px tid tu ts stp fuel qty filled w r w' :
  match_loop s px tid tu ts stp fuel qty filled w = Done r w' ->
  ladder_nonneg (side_levels s (book w)) ->
  ladder_nonneg (side_levels s (book w')) /\ filled <= r.
Proof.
  revert fuel qty filled w r w'.
  apply (match_loop_ind s px tid tu ts stp
    (fun _ _ filled w r w' =>
       ladder_nonneg (side_levels s (book w)) ->
       ladder_nonneg (side_levels s (book w')) /\ filled <= r));
    try (intros; split; [assumption|lia]).
  - intros fuel qty filled w i l l' qty' filled' w1 _ _ Hl _ _ Hm _ Hc.
    pose proof (match_level_frame _ _ _ _ _ _ _ _ _ _ _ _ _ Hm) as Hf.
    apply match_level_nonneg in Hm as [Hn Hle];
      [|constructor|exact (ladder_nonneg_lookup _ _ _ Hc Hl)].
    split; [|exact Hle].
    cbn [book set_book]. rewrite side_levels_store.
    rewrite (same_ladders_side s _ _ Hf).
    apply (ladder_nonneg_insert (side_levels s (book w)) _ i l');
      [reflexivity|exact Hc|exact Hn].
  - intros fuel qty filled w i l l' qty' filled' w1 w3 r w'
           _ _ Hl _ _ Hm _ Hr IH Hc.
    pose proof (match_level_frame _ _ _ _ _ _ _ _ _ _ _ _ _ Hm) as Hf.
    apply match_level_nonneg in Hm as [Hn Hle];
      [|constructor|exact (ladder_nonneg_lookup _ _ _ Hc Hl)].
    destruct IH as [IH1 IH2]; [|split; [exact IH1|cbn [snd] in Hle; lia]].
    apply refresh_done in Hr as (pl' & Hr & ->).
    apply refresh_ladder_levels in Hr as [Hlv _].
    cbn [book set_book] in Hlv |- *.
    replace (side_levels s (with_side_levels s pl'
                              (store_level s i l' (book w1))))
      with pl' by now destruct s.
    eapply ladder_nonneg_levels; [exact Hlv|].
    rewrite side_levels_store, (same_ladders_side s _ _ Hf).
    apply (ladder_nonneg_insert (side_levels s (book w)) _ i l');
      [reflexivity|exact Hc|exact Hn].
Qed.

Lemma cross_and_match_nonneg is_bid cmd w filled w1 :
  cross_and_match is_bid cmd w = Done filled w1 ->
  nodes_nonneg (book w) -> nodes_nonneg (book w1) /\ 0 <= filled.
Proof.
  intros H Hc.
  pose proof (cross_and_match_effect _ _ _ _ _ H) as (Hf & _).
  apply cross_and_match_done in H as [[-> ->]|[fuel H]];
    [split; [exact Hc|lia]|].
  set (s := opposite (taker_side is_bid)) in *.
  apply (nodes_nonneg_sides s) in Hc as [Hc1 Hc2].
  apply match_loop_nonneg in H as [Hn Hle]; [|exact Hc1].
  split; [|exact Hle].
  apply (nodes_nonneg_sides s). destruct Hf as [Hopp _].
  rewrite Hopp. split; [exact Hn|exact Hc2].
Qed.

Lemma rest_residual_nonneg is_bid cmd remaining w w' :
  rest_residual is_bid cmd remaining w = Done tt w' ->
  0 <= remaining ->
  nodes_nonneg (book w) -> nodes_nonneg (book w').
Proof.
  intros H Hrem Hc.
  pose proof (rest_residual_opposite _ _ _ _ _ H) as Hopp.
  set (s := taker_side is_bid) in *.
  apply rest_residual_done in H
    as (i & level & h & pool' & pl' & ix' & _ & Hl & _ & Hr & _ & ->).
  fold s in Hl, Hr.
  apply rested_ladder_levels in Hr as [Hlv _].
  apply (nodes_nonneg_sides s) in Hc as [Hc1 Hc2].
  apply (nodes_nonneg_sides s). rewrite Hopp. split; [|exact Hc2].
  cbn [book set_book].
  assert (Hs : side_levels s (with_index ix'
                 (with_side_levels (taker_side is_bid) pl'
                    (with_pool pool' (book w)))) = pl')
    by (subst s; now destruct is_bid).
  rewrite Hs.
  eapply ladder_nonneg_insert; [exact Hlv|exact Hc1|].
  unfold level_nonneg. cbn [Level.enqueue nodes]. apply Forall_app.
  split; [exact (ladder_nonneg_lookup _ _ _ Hc1 Hl)|].
  constructor; [exact Hrem|constructor].
Qed.

(** A limit order leaves non-negative nodes and adds at most its quantity
    to what rests. *)
Lemma submit_limit_in_range now cmd w r w' :
  0 <= OrderCommand.qty cmd ->
  submit_limit now cmd w = Done r w' ->
  on_trade_ (book w) = true ->
  nodes_nonneg (book w) ->
  nodes_nonneg (book w') /\
  resting_qty (book w') <= resting_qty (book w) + OrderCommand.qty cmd /\
  on_trade_ (book w') = true.
Proof.
  intros Hq H Hcb Hc. rewrite submit_limit_is_side in H.
  apply submit_limit_side_done in H
    as [(_ & _ & He & _)|(filled & w1 & w2 & Hm & He & Hcase)];
    apply emit_book_update_book in He; rewrite He.
  { split; [exact Hc|]. split; [lia|exact Hcb]. }
  pose proof (cross_and_match_nonneg _ _ _ _ _ Hm Hc) as [Hn1 Hf].
  apply cross_and_match_conserves in Hm as (Hr1 & _ & Hcb1 & _); [|exact Hcb].
  cbv zeta in Hcase.
  destruct Hcase as [(Hrem & _ & Hr & _)|[-> _]].
  - pose proof (rest_residual_nonneg _ _ _ _ _ Hr ltac:(lia) Hn1) as Hn2.
    apply rest_residual_conserves in Hr as (Hr2 & _ & Hcb2).
    split; [exact Hn2|]. split; [lia|congruence].
  - split; [exact Hn1|]. split; [lia|exact Hcb1].
Qed.

Lemma submit_market_in_range now cmd w r w' :
  submit_market now cmd w = Done r w' ->
  on_trade_ (book w) = true ->
  nodes_nonneg (book w) ->
  nodes_nonneg (book w') /\
  resting_qty (book w') <= resting_qty (book w) /\
  on_trade_ (book w') = true.
Proof.
  intros H Hcb Hc.
  apply submit_market_done in H as (fuel & filled & w1 & Hm & He & _).
  apply emit_book_update_book in He. rewrite He.
  pose proof (match_loop_frame _ _ _ _ _ _ _ _ _ _ _ _ Hm) as [Hopp _].
  set (s := opposite (OrderCommand.side cmd)) in *.
  apply (nodes_nonneg_sides s) in Hc as [Hc1 Hc2].
  pose proof (match_loop_nonneg _ _ _ _ _ _ _ _ _ _ _ _ Hm Hc1) as [Hn Hle].
  apply match_loop_conserves in Hm as (Hr1 & _ & Hcb1 & _); [|exact Hcb].
  split; [|split; [lia|exact Hcb1]].
  apply (nodes_nonneg_sides s). rewrite Hopp. split; [exact Hn|exact Hc2].
Qed.

Lemma cancel_in_range now id w ok w' :
  cancel now id w = Done ok w' ->
  on_trade_ (book w) = true ->
  nodes_nonneg (book w) ->
  nodes_nonneg (book w') /\
  resting_qty (book w') <= resting_qty (book w) /\
  on_trade_ (book w') = true.
Proof.
  intros H Hcb Hc.
  pose proof (cancel_conserves _ _ _ _ _ H Hcb) as [_ Hcb'].
  destruct ok.
  - pose proof (cancel_effect _ _ _ _ H)
      as (entry & i & level & n & _ & Hel & Hn & Hlv & Hopp & Hr & _).
    set (s := OrderEntry.side entry) in *.
    apply entry_level_lookup in Hel. fold s in Hel.
    apply (nodes_nonneg_sides s) in Hc as [Hc1 Hc2].
    pose proof (ladder_nonneg_lookup _ _ _ Hc1 Hel) as Hl.
    pose proof (lookup_nonneg _ _ _ Hl Hn) as Hq.
    split; [|split; [lia|exact Hcb']].
    apply (nodes_nonneg_sides s). rewrite Hopp. split; [|exact Hc2].
    eapply ladder_nonneg_insert; [exact Hlv|exact Hc1|].
    unfold level_nonneg. cbn [nodes]. now apply unlink_forall.
  - apply cancel_done in H as [(_ & -> & _)|(Hf & _)]; [|discriminate].
    split; [exact Hc|]. split; [lia|exact Hcb].
Qed.

Lemma modify_in_range now id new_price new_qty w r w' :
  0 <= new_qty ->
  modify now id new_price new_qty w = Done r w' ->
  on_trade_ (book w) = true ->
  nodes_nonneg (book w) ->
  nodes_nonneg (book w') /\
  resting_qty (book w') <= resting_qty (book w) + new_qty /\
  on_trade_ (book w') = true.
Proof.
  intros Hq H Hcb Hc.
  apply modify_done in H as [(_ & -> & _)|(entry & n & _ & Hn & H)].
  { split; [exact Hc|]. split; [lia|exact Hcb]. }
  destruct H as [(_ & i & level & level' & Hel & Hr & He & _)
                |(_ & w2 & Hcn & Hs)].
  - apply emit_book_update_book in He. rewrite He. cbn [book set_book].
    set (s := OrderEntry.side entry) in *.
    pose proof (entry_level_lookup _ _ _ _ Hel) as Hl. fold s in Hl.
    pose proof Hc as Hc0.
    apply (nodes_nonneg_sides s) in Hc as [Hc1 Hc2].
    pose proof (ladder_nonneg_lookup _ _ _ Hc1 Hl) as Hln.
    unfold Level.reduce_qty in Hr.
    destruct (Level.lookup (OrderEntry.node entry) (nodes level)) as [n0|]
      eqn:Hn0; [|discriminate].
    injection Hr as <-.
    assert (Hnn : n0 = n).
    { unfold entry_node in Hn. rewrite Hel in Hn. congruence. }
    subst n0.
    pose proof (lookup_nonneg _ _ _ Hln Hn0) as Hq0.
    split; [|split; [|unfold store_level; now destruct s]].
    + apply (nodes_nonneg_sides s).
      rewrite side_levels_store.
      replace (side_levels (opposite s) (store_level s i _ (book w)))
        with (side_levels (opposite s) (book w)) by now destruct s.
      split; [|exact Hc2].
      match goal with |- ladder_nonneg (PLA.store _ _ ?l) =>
        apply (ladder_nonneg_insert (side_levels s (book w)) _ i l);
          [reflexivity|exact Hc1|] end.
      unfold level_nonneg in *. cbn [nodes].
      pose proof (lookup_split _ _ _ Hn0) as (pre & post & Hns & Hpre).
      rewrite Hns in Hln |- *. rewrite (update_here _ _ _ _ _ Hpre).
      apply Forall_app in Hln as [Hp Hrest].
      inversion Hrest as [|? ? _ Hpost]; subst.
      apply Forall_app. split; [exact Hp|].
      constructor; [unfold node_nonneg; cbn; lia|exact Hpost].
    + rewrite (resting_qty_store _ _ level) by exact Hl.
      match goal with |- context [level_open_qty (mkLevel ?ns ?t)] =>
        change (level_open_qty (mkLevel ns t)) with (nodes_qty ns) end.
      rewrite (nodes_qty_update _ _ _ _ Hn0).
      change (level_open_qty level) with (nodes_qty (nodes level)). lia.
  - apply cancel_in_range in Hcn as (Hn2 & Hr2 & Hcb2); [|exact Hcb|exact Hc].
    change (book (tick_clock w)) with (book w) in Hr2.
    apply submit_limit_in_range in Hs as (Hn3 & Hr3 & Hcb3);
      [|exact Hq|exact Hcb2|exact Hn2].
    cbn [replacement OrderCommand.qty] in Hr3.
    split; [exact Hn3|]. split; [lia|exact Hcb3].
Qed.

Lemma step_in_range now cmd w reply w' :
  0 <= brought_qty cmd ->
  step now cmd w = Done reply w' ->
  on_trade_ (book w) = true ->
  nodes_nonneg (book w) ->
  nodes_nonneg (book w') /\
  resting_qty (book w') <= resting_qty (book w) + brought_qty cmd /\
  on_trade_ (book w') = true.
Proof.
  unfold brought_qty, step. intros Hq H Hcb Hc.
  destruct (OrderCommand.type cmd).
  - destruct (OrderCommand.order_type cmd);
      apply bind_done in H as (r & w1 & H & Hr); injection Hr as <- <-.
    + eapply submit_limit_in_range; eassumption.
    + apply submit_market_in_range in H as (? & ? & ?); auto.
      split; [assumption|]. split; [lia|assumption].
    + apply submit_market_in_range in H as (? & ? & ?); auto.
      split; [assumption|]. split; [lia|assumption].
    + apply submit_market_in_range in H as (? & ? & ?); auto.
      split; [assumption|]. split; [lia|assumption].
  - apply bind_done in H as (r & w1 & H & Hr). injection Hr as <- <-.
    apply cancel_in_range in H as (? & ? & ?); auto.
    split; [assumption|]. split; [lia|assumption].
  - apply bind_done in H as (r & w1 & H & Hr). injection Hr as <- <-.
    eapply modify_in_range; eassumption.
Qed.

Lemma run_in_range now cmds : forall w replies w',
  Forall (fun cmd => 0 <= brought_qty cmd) cmds ->
  run now cmds w = Done replies w' ->
  on_trade_ (book w) = true ->
  nodes_nonneg (book w) ->
  nodes_nonneg (book w') /\
  resting_qty (book w') <= resting_qty (book w) + sumZ (map brought_qty cmds).
Proof.
  induction cmds as [|cmd cmds IH]; intros w replies w' Hall H Hcb Hc.
  - injection H as <- <-. cbn. split; [exact Hc|lia].
  - cbn [run] in H.
    apply bind_done in H as (reply & w1 & Hs & H).
    apply bind_done in H as (rs & w2 & Hr & H). injection H as <- <-.
    inversion Hall as [|? ? Hq Hqs]; subst.
    apply step_in_range in Hs as (Hn1 & Hr1 & Hcb1); auto.
    destruct (IH _ _ _ Hqs Hr Hcb1 Hn1) as [Hn2 Hr2].
    split; [exact Hn2|]. cbn [map sumZ fold_right].
    unfold sumZ in Hr2. lia.
Qed.

Lemma new_engine_nonneg symbol band :
  nodes_nonneg (book (new_engine symbol band)) /\
  resting_qty (book (new_engine symbol band)) = 0.
Proof.
  split.
  - unfold nodes_nonneg, ladder_nonneg. cbn.
    split; apply Forall_replicate; constructor.
  - assert (Hz : forall n, fold_right (fun l acc => level_open_qty l + acc) 0
                             (replicate n Level.empty_level) = 0).
    { induction n as [|n IHn]; cbn; [reflexivity|]. rewrite IHn.
      reflexivity. }
    unfold resting_qty, ladder_open_qty, new_engine, new_book, PLA.create.
    cbn [book bids_ asks_ levels_ set_on_book_update set_on_trade].
    rewrite !Hz. reflexivity.
Qed.

(** A level total that is the sum of non-negative nodes of a book resting
    at most [bound] lies between 0 and [bound]. *)
Lemma level_total_in_range b bound s i l :
  nodes_nonneg b -> resting_qty b <= bound ->
  levels_ (side_levels s b) !! i = Some l ->
  total_qty l = level_open_qty l ->
  0 <= total_qty l <= bound.
Proof.
  intros Hn Hb Hl ->.
  apply (nodes_nonneg_sides s) in Hn as [Hn1 Hn2].
  pose proof (level_le_ladder _ _ _ Hn1 Hl) as Hle.
  pose proof (ladder_open_qty_nonneg _ Hn2) as Hopp.
  pose proof (nodes_qty_nonneg _ (ladder_nonneg_lookup _ _ _ Hn1 Hl)) as Hl0.
  change (nodes_qty (nodes l)) with (level_open_qty l) in Hl0.
  rewrite (resting_qty_sides s) in Hb. lia.
Qed.

(** X7.  After every command sequence, whatever the commands and their
    flags, whose quantities are non-negative and add up within [int64_t] and
    that a fresh engine runs to completion, every Cancel and Modify that
    finds its identifier finding an entry whose node is queued in the level
    the entry names: the [total_qty] of every price level of both ladders
    equals the sum of the open quantities of the nodes queued in it, and
    lies within [int64_t], between 0 and [INT64_MAX]. *)
Theorem level_totals_match_their_nodes now symbol band cmds replies w s :
  quantities_in_range cmds ->
  lookups_live now cmds (new_engine symbol band) = true ->
  run now cmds (new_engine symbol band) = Done replies w ->
  Forall (fun l => total_qty l = level_open_qty l
                   /\ 0 <= total_qty l <= INT64_MAX)
         (levels_ (side_levels s (book w))).
Proof.
  intros [Hq Hsum] _ H.
  pose proof (run_consistent _ _ _ _ _ H (new_engine_consistent symbol band))
    as Hc.
  destruct (new_engine_nonneg symbol band) as [Hn0 Hr0].
  destruct (run_in_range _ _ _ _ _ Hq H eq_refl Hn0) as [Hn Hr].
  rewrite Hr0 in Hr.
  apply Forall_lookup. intros i l Hl.
  assert (Hcl : total_qty l = level_open_qty l).
  { apply (totals_consistent_sides s) in Hc as [Hc _].
    exact (ladder_consistent_lookup _ _ _ Hc Hl). }
  split; [exact Hcl|].
  eapply level_total_in_range; eauto. lia.
Qed.

Lemma level_totals_match_their_nodes_witness :
  resting_qty (book mixed_world) = 10 /\
  forall s,
    Forall (fun l => total_qty l = level_open_qty l
                     /\ 0 <= total_qty l <= INT64_MAX)
           (levels_ (side_levels s (book mixed_world))).
Proof.
  split; [vm_compute; reflexivity|]. intros s. unfold mixed_world.
  destruct (run counting_clock mixed_script (new_engine 1 band_100_200))
    as [replies w|f w] eqn:E; [|vm_compute in E; discriminate E].
  apply (level_totals_match_their_nodes counting_clock 1 band_100_200
           mixed_script replies w s); [| |exact E].
  - split; [repeat constructor; cbn; lia|vm_compute; discriminate].
  - vm_compute. reflexivity.
Defined.

(** ** What a book update reports *)

(** The [total_qty] of the level at the cached best of side [s]; 0 when the
    side reports empty. *)
Definition top_qty (s : Side) (b : OrderBook) : option Quantity :=
  let pl := side_levels s b in
  if side_best s pl =? sentinel s then Some 0
  else option_map total_qty (PLA.get_level pl (side_best s pl)).

Definition snapshot_of (b : OrderBook) (u : BookUpdate.t) : Prop :=
  BookUpdate.symbol_id u = symbol_id_ b /\
  BookUpdate.best_bid u = best_bid b /\
  BookUpdate.best_ask u = best_ask b /\
  top_qty Bid b = Some (BookUpdate.bid_qty u) /\
  top_qty Ask b = Some (BookUpdate.ask_qty u).

Lemma emit_book_update_snapshot now w w' :
  emit_book_update now w = Done tt w' ->
  on_book_update_ (book w) = true ->
  book w' = book w /\
  exists u, events w' = events w ++ [Update u] /\ snapshot_of (book w) u.
Proof.
  unfold emit_book_update. unfold bind at 1, gets at 1.
  intros H Hcb. rewrite Hcb in H.
  unfold bind at 1, gets at 1 in H. unfold bind at 1, gets at 1 in H.
  apply bind_done in H as (bq & w1 & Hb & H).
  assert (w1 = w /\ top_qty Bid (book w) = Some bq) as [-> Hbq].
  { unfold top_qty. cbn [side_levels side_best sentinel].
    fold (best_bid (book w)).
    destruct (best_bid (book w) =? Sentinel.EMPTY_BID);
      cbn [negb] in Hb |- *; [now injection Hb as <- <-|].
    unfold bind at 1, gets at 1 in Hb.
    apply bind_done in Hb as (l & w2 & Hl & Hb).
    apply lift_done in Hl as [Hl ->]. injection Hb as <- <-.
    unfold best_bid in *. now rewrite Hl. }
  apply bind_done in H as (aq & w1 & Ha & H).
  assert (w1 = w /\ top_qty Ask (book w) = Some aq) as [-> Haq].
  { unfold top_qty. cbn [side_levels side_best sentinel].
    fold (best_ask (book w)).
    destruct (best_ask (book w) =? Sentinel.EMPTY_ASK);
      cbn [negb] in Ha |- *; [now injection Ha as <- <-|].
    unfold bind at 1, gets at 1 in Ha.
    apply bind_done in Ha as (l & w2 & Hl & Ha).
    apply lift_done in Hl as [Hl ->]. injection Ha as <- <-.
    unfold best_ask in *. now rewrite Hl. }
  unfold bind, now_ns, gets, log in H. cbn in H. injection H as <-.
  split; [reflexivity|]. eexists. split; [reflexivity|].
  unfold snapshot_of. cbn. auto.
Qed.

Lemma submit_limit_snapshot now cmd w r w' :
  submit_limit now cmd w = Done r w' ->
  on_book_update_ (book w) = true ->
  exists pre u,
    events w' = events w ++ pre ++ [Update u] /\ snapshot_of (book w') u.
Proof.
  intros H Hcb. rewrite submit_limit_is_side in H.
  apply submit_limit_side_done in H
    as [(_ & _ & He & _)|(filled & w1 & w2 & Hm & He & Hcase)].
  - apply emit_book_update_snapshot in He as (Hb & u & Hev & Hs);
      [|exact Hcb].
    exists [], u. rewrite Hb. auto.
  - apply cross_and_match_log in Hm as [[_ Hk1] (trades & Hev1 & _)].
    assert (H2 : on_book_update_ (book w2) = true /\ events w2 = events w1).
    { destruct Hcase as [(_ & _ & Hr & _)|[-> _]]; [|split; congruence].
      apply rest_residual_log in Hr as [[_ Hk2] Hr]. split; congruence. }
    destruct H2 as [Hcb2 Hev2].
    apply emit_book_update_snapshot in He as (Hb & u & Hev & Hs);
      [|exact Hcb2].
    exists trades, u. rewrite Hb, Hev, Hev2, Hev1, <- app_assoc. auto.
Qed.

(** X8.  With a book-update callback registered, every command that emits
    anything ends its events with a book update taken from the book as the
    command left it: the book's symbol, the cached best bid and best ask, and
    for each side the [total_qty] of the level at that best price (0 when the
    side reports empty). *)
Theorem book_update_reports_top_of_book now cmd w reply w' :
  on_book_update_ (book w) = true ->
  step now cmd w = Done reply w' ->
  events w' = events w \/
  exists pre u,
    events w' = events w ++ pre ++ [Update u] /\ snapshot_of (book w') u.
Proof.
  intros Hcb H. unfold step in H.
  destruct (OrderCommand.type cmd).
  - right. destruct (OrderCommand.order_type cmd);
      apply bind_done in H as (r & w1 & H & Hr); injection Hr as <- <-;
      try (eapply submit_limit_snapshot; eassumption);
      apply submit_market_done in H as (fuel & filled & w2 & Hm & He & _);
      pose proof (match_loop_frame _ _ _ _ _ _ _ _ _ _ _ _ Hm)
        as (_ & _ & _ & _ & Hk & _);
      apply match_loop_account in Hm as (_ & evs & Hev1 & _);
      (apply emit_book_update_snapshot in He as (Hb & u & Hev & Hs);
       [|congruence]);
      exists evs, u; rewrite Hb, Hev, Hev1, <- app_assoc; auto.
  - apply bind_done in H as (ok & w1 & H & Hr); injection Hr as <- <-.
    apply cancel_done in H as [(_ & -> & _)|(_ & H)]; [now left|right].
    destruct H as (entry & i & level & level' & w3 & ix' & _ & _ & _
                   & Hw3 & _ & He).
    assert (H3 : on_book_update_ (book w3) = true /\ events w3 = events w).
    { cbv zeta in Hw3. destruct (Level.empty level').
      - apply refresh_log in Hw3 as ([_ Hk] & Hev & _).
        cbn in Hk, Hev. split; [|exact Hev].
        rewrite Hk. unfold store_level.
        now destruct (OrderEntry.side entry).
      - subst w3. cbn. split; [|reflexivity]. unfold store_level.
        now destruct (OrderEntry.side entry). }
    destruct H3 as [Hcb3 Hev3].
    apply emit_book_update_snapshot in He as (Hb & u & Hev & Hs);
      [|exact Hcb3].
    exists [], u. rewrite Hb. cbn [events set_book book] in *.
    rewrite Hev, Hev3. auto.
  - apply bind_done in H as (r & w1 & H & Hr); injection Hr as <- <-.
    apply modify_done in H as [(_ & -> & _)|(entry & n & _ & _ & H)];
      [now left|right].
    destruct H as [(_ & i & level & level' & _ & _ & He & _)
                  |(_ & w2 & Hc & Hs)].
    + apply emit_book_update_snapshot in He as (Hb & u & Hev & Hs).
      * exists [], u. rewrite Hb. auto.
      * cbn. unfold store_level. now destruct (OrderEntry.side entry).
    + apply cancel_log in Hc as [[_ Hk] (u1 & Hev1)]; [|exact Hcb].
      apply submit_limit_snapshot in Hs as (pre & u & Hev & Hs);
        [|cbn in Hk; congruence].
      exists ([Update u1] ++ pre), u. split; [|exact Hs].
      rewrite Hev, Hev1. cbn. now rewrite <- !app_assoc.
Qed.

Lemma book_update_reports_top_of_book_witness :
  let cmd := limit_order 5 104 Bid 160 3 GTC 0 in
  let w' := final_world (step counting_clock cmd mixed_world) in
  top_qty Bid (book w') = Some 3 /\ top_qty Ask (book w') = Some 4 /\
  (events w' = events mixed_world \/
   exists pre u,
     events w' = events mixed_world ++ pre ++ [Update u] /\
     snapshot_of (book w') u).
Proof.
  intros cmd w'. subst w'.
  split; [vm_compute; reflexivity|]. split; [vm_compute; reflexivity|].
  destruct (step counting_clock cmd mixed_world) as [reply w'|f w'] eqn:E;
    [|vm_compute in E; discriminate E].
  apply (book_update_reports_top_of_book counting_clock cmd mixed_world
           reply w'); [vm_compute; reflexivity|exact E].
Defined.

(** ** What the refresh after a depletion finds *)

(** The tick [k] steps away from [px] on side [s]: below for bids, above for
    asks. *)
Definition away (s : Side) (px : Tick) (k : Z) : Tick :=
  match s with Bid => px - k | Ask => px + k end.

(** A tick the search does not stop at for being a sentinel. *)
Definition inside (s : Side) (px : Tick) : Prop :=
  match s with
  | Bid => Sentinel.EMPTY_BID < px
  | Ask => px < Sentinel.EMPTY_ASK
  end.

Lemma search_down_nearest pl cb n : forall i px,
  search_down pl cb i n = Some (Some px) ->
  exists k,
    i <= k < i + Z.of_nat n /\ px = cb - k /\
    PLA.has_level pl px = Some true /\
    forall j, i <= j < k -> PLA.has_level pl (cb - j) = Some false.
Proof.
  induction n as [|n IH]; intros i px H; [discriminate|].
  cbn [search_down] in H.
  destruct (cb - i <=? Sentinel.EMPTY_BID) eqn:E1; [discriminate|].
  destruct (PLA.is_valid_price pl (cb - i)) eqn:E2; [|discriminate].
  cbn [negb] in H.
  destruct (PLA.has_level pl (cb - i)) as [[|]|] eqn:E3; try discriminate.
  - injection H as <-. exists i. repeat split; auto; lia.
  - apply IH in H as (k & Hk & -> & Hh & Hbelow).
    exists k. repeat split; auto; try lia.
    intros j Hj. destruct (Z.eq_dec j i) as [->|Hne]; [exact E3|].
    apply Hbelow. lia.
Qed.

Lemma search_up_nearest pl cb n : forall i px,
  search_up pl cb i n = Some (Some px) ->
  exists k,
    i <= k < i + Z.of_nat n /\ px = cb + k /\
    PLA.has_level pl px = Some true /\
    forall j, i <= j < k -> PLA.has_level pl (cb + j) = Some false.
Proof.
  induction n as [|n IH]; intros i px H; [discriminate|].
  cbn [search_up] in H.
  destruct (cb + i >=? Sentinel.EMPTY_ASK) eqn:E1; [discriminate|].
  destruct (PLA.is_valid_price pl (cb + i)) eqn:E2; [|discriminate].
  cbn [negb] in H.
  destruct (PLA.has_level pl (cb + i)) as [[|]|] eqn:E3; try discriminate.
  - injection H as <-. exists i. repeat split; auto; lia.
  - apply IH in H as (k & Hk & -> & Hh & Hbelow).
    exists k. repeat split; auto; try lia.
    intros j Hj. destruct (Z.eq_dec j i) as [->|Hne]; [exact E3|].
    apply Hbelow. lia.
Qed.

Lemma search_down_none pl cb n : forall i,
  search_down pl cb i n = Some None ->
  0 <= i -> cb <= max_tick (band_ pl) ->
  forall j, i <= j < i + Z.of_nat n ->
    PLA.is_valid_price pl (cb - j) = true -> Sentinel.EMPTY_BID < cb - j ->
    PLA.has_level pl (cb - j) = Some false.
Proof.
  induction n as [|n IH]; intros i H Hi Hmax j Hj Hv Hs; [lia|].
  cbn [search_down] in H.
  destruct (cb - i <=? Sentinel.EMPTY_BID) eqn:E1; [lia|].
  destruct (PLA.is_valid_price pl (cb - i)) eqn:E2.
  - cbn [negb] in H.
    destruct (PLA.has_level pl (cb - i)) as [[|]|] eqn:E3; try discriminate.
    destruct (Z.eq_dec j i) as [->|Hne]; [exact E3|].
    apply (IH (i + 1)); auto; lia.
  - unfold PLA.is_valid_price in *. lia.
Qed.

Lemma search_up_none pl cb n : forall i,
  search_up pl cb i n = Some None ->
  0 <= i -> min_tick (band_ pl) <= cb ->
  forall j, i <= j < i + Z.of_nat n ->
    PLA.is_valid_price pl (cb + j) = true -> cb + j < Sentinel.EMPTY_ASK ->
    PLA.has_level pl (cb + j) = Some false.
Proof.
  induction n as [|n IH]; intros i H Hi Hmin j Hj Hv Hs; [lia|].
  cbn [search_up] in H.
  destruct (cb + i >=? Sentinel.EMPTY_ASK) eqn:E1; [lia|].
  destruct (PLA.is_valid_price pl (cb + i)) eqn:E2.
  - cbn [negb] in H.
    destruct (PLA.has_level pl (cb + i)) as [[|]|] eqn:E3; try discriminate.
    destruct (Z.eq_dec j i) as [->|Hne]; [exact E3|].
    apply (IH (i + 1)); auto; lia.
  - unfold PLA.is_valid_price in *. lia.
Qed.

(** What [refresh_best_after_depletion] leaves on side [s], in terms of the
    ladder before ([pl]) and after ([pl']). *)
Definition refreshed (s : Side) (pl pl' : PriceLevelsArray) : Prop :=
  levels_ pl' = levels_ pl /\
  ((exists k,
      1 <= k <= MAX_SEARCH /\
      side_best s pl' = away s (side_best s pl) k /\
      PLA.has_level pl (side_best s pl') = Some true /\
      PLA.best_level_ptr pl' s = PLA.idx pl (side_best s pl') /\
      forall j, 1 <= j < k ->
                PLA.has_level pl (away s (side_best s pl) j) = Some false)
   \/
   (side_best s pl' = sentinel s /\ PLA.best_level_ptr pl' s = None /\
    forall j, 1 <= j <= MAX_SEARCH ->
              PLA.is_valid_price pl (away s (side_best s pl) j) = true ->
              inside s (away s (side_best s pl) j) ->
              PLA.has_level pl (away s (side_best s pl) j) = Some false)).

Lemma refresh_ladder_nearest s pl pl' :
  refresh_ladder s pl = Some pl' ->
  side_best s pl <> sentinel s ->
  PLA.is_valid_price pl (side_best s pl) = true ->
  refreshed s pl pl'.
Proof.
  intros H Hne Hv.
  pose proof (refresh_ladder_levels _ _ _ H) as [Hlv _].
  split; [exact Hlv|].
  assert (Hb : min_tick (band_ pl) <= side_best s pl <= max_tick (band_ pl))
    by (unfold PLA.is_valid_price in Hv; lia).
  destruct s; cbn [refresh_ladder side_best sentinel away inside] in *.
  - unfold refresh_bids in H.
    destruct (best_bid_ pl =? Sentinel.EMPTY_BID) eqn:E; [lia|].
    destruct (search_down pl (best_bid_ pl) 1 _) as [[px|]|] eqn:Hs;
      [| |discriminate].
    + pose proof (search_down_found _ _ _ _ _ Hs ltac:(lia)) as (Hlt & _).
      apply search_down_nearest in Hs as (k & Hk & -> & Hh & Hbelow).
      left. exists k.
      unfold PLA.set_best_bid in H.
      replace (best_bid_ pl - k =? Sentinel.EMPTY_BID) with false in H
        by (symmetry; apply Z.eqb_neq; lia).
      destruct (PLA.idx pl (best_bid_ pl - k)) as [i|] eqn:Hi;
        [|discriminate].
      injection H as <-. cbn. rewrite Hi.
      unfold MAX_SEARCH in *. repeat split; auto; lia.
    + right. unfold PLA.set_best_bid in H. rewrite Z.eqb_refl in H.
      injection H as <-. cbn. split; [reflexivity|]. split; [reflexivity|].
      intros j Hj. apply (search_down_none _ _ _ _ Hs); unfold MAX_SEARCH in *;
        lia.
  - unfold refresh_asks in H.
    destruct (best_ask_ pl =? Sentinel.EMPTY_ASK) eqn:E; [lia|].
    destruct (search_up pl (best_ask_ pl) 1 _) as [[px|]|] eqn:Hs;
      [| |discriminate].
    + pose proof (search_up_found _ _ _ _ _ Hs ltac:(lia)) as (Hlt & _).
      apply search_up_nearest in Hs as (k & Hk & -> & Hh & Hbelow).
      left. exists k.
      unfold PLA.set_best_ask in H.
      replace (best_ask_ pl + k =? Sentinel.EMPTY_ASK) with false in H
        by (symmetry; apply Z.eqb_neq; lia).
      destruct (PLA.idx pl (best_ask_ pl + k)) as [i|] eqn:Hi;
        [|discriminate].
      injection H as <-. cbn. rewrite Hi.
      unfold MAX_SEARCH in *. repeat split; auto; lia.
    + right. unfold PLA.set_best_ask in H. rewrite Z.eqb_refl in H.
      injection H as <-. cbn. split; [reflexivity|]. split; [reflexivity|].
      intros j Hj. apply (search_up_none _ _ _ _ Hs); unfold MAX_SEARCH in *;
        lia.
Qed.

(** X9.  [refresh_best_after_depletion] on a side whose cached best is a
    tick of the band: the levels are untouched and the other side is as
    before; the new best is the nearest tick beyond the old best (below for
    bids, above for asks) whose level is non-empty, at most 10 000 ticks
    away, with the level pointer set to it; when the search meets no
    non-empty level within 10 000 ticks of the band, the side is marked empty
    (sentinel, null pointer). *)
Theorem refresh_finds_the_nearest_level s w w' :
  refresh_best_after_depletion s w = Done tt w' ->
  side_best s (side_levels s (book w)) <> sentinel s ->
  PLA.is_valid_price (side_levels s (book w))
                     (side_best s (side_levels s (book w))) = true ->
  refreshed s (side_levels s (book w)) (side_levels s (book w')) /\
  side_levels (opposite s) (book w') = side_levels (opposite s) (book w) /\
  events w' = events w.
Proof.
  intros H Hne Hv.
  pose proof (refresh_frame _ _ _ H) as [Hopp _].
  pose proof (refresh_log _ _ _ H) as (_ & Hev & _).
  apply refresh_done in H as (pl' & Hr & ->).
  split; [|auto]. cbn [book set_book].
  replace (side_levels s (with_side_levels s pl' (book w))) with pl'
    by now destruct s.
  now apply refresh_ladder_nearest.
Qed.

(** Bids rest at 150 and at 140. *)
Definition bids_150_140_world : World :=
  final_world (run counting_clock
                   [limit_order 1 100 Bid 150 10 GTC 0;
                    limit_order 2 101 Bid 140 10 GTC 0]
                   (new_engine 1 band_100_200)).

Lemma refresh_finds_the_nearest_level_witness :
  let w := bids_150_140_world in
  let w' := final_world (refresh_best_after_depletion Bid w) in
  best_bid (book w) = 150 /\ best_bid (book w') = 140 /\
  refreshed Bid (side_levels Bid (book w)) (side_levels Bid (book w')) /\
  side_levels Ask (book w') = side_levels Ask (book w) /\
  events w' = events w.
Proof.
  intros w w'. subst w w'.
  split; [vm_compute; reflexivity|]. split; [vm_compute; reflexivity|].
  destruct (refresh_best_after_depletion Bid bids_150_140_world)
    as [[] w'|f w'] eqn:E; [|vm_compute in E; discriminate E].
  apply (refresh_finds_the_nearest_level Bid bids_150_140_world w' E);
    vm_compute; [discriminate|reflexivity].
Defined.

(** ** The fill-or-kill precheck decides on the crossing liquidity *)

Lemma fok_walk_bid_enough opp qty px_limit n : forall available current_px,
  ladder_shape opp -> totals_nonneg opp ->
  max_tick (band_ opp) <= Sentinel.EMPTY_ASK ->
  min_tick (band_ opp) <= current_px ->
  let count :=
    Z.min px_limit (Z.min (max_tick (band_ opp)) (Sentinel.EMPTY_ASK - 1))
    - current_px + 1 in
  let ticks :=
    map (fun k => current_px + Z.of_nat k)
        (seq 0 (Z.to_nat (Z.min (Z.of_nat n) count))) in
  qty <= available + sumZ (map (level_liquidity opp) ticks) ->
  exists a,
    fok_walk true opp qty px_limit available current_px n = Some a /\
    qty <= a <= available + sumZ (map (level_liquidity opp) ticks).
Proof.
  induction n as [|n IH];
    intros available current_px Hs Hn Hmax Hmin count ticks Hge.
  - subst ticks. replace (Z.to_nat _) with 0%nat in Hge |- * by lia.
    cbn in Hge |- *. exists available. split; [reflexivity|lia].
  - pose proof (sumZ_liquidity_nonneg opp ticks Hn) as Hpos.
    cbn [fok_walk].
    destruct (available <? qty) eqn:Hav;
      [|exists available; split; [reflexivity|lia]].
    destruct (Z_le_gt_dec count 0) as [Hc|Hc].
    { subst ticks. replace (Z.to_nat _) with 0%nat in Hge by lia.
      cbn in Hge. lia. }
    clear Hpos.
    replace ((current_px >? px_limit) || (current_px =? Sentinel.EMPTY_ASK))
      with false by (symmetry; apply orb_false_iff; subst count; lia).
    assert (Hv : PLA.is_valid_price opp current_px = true)
      by (apply valid_range; subst count; lia).
    rewrite Hv. cbn [negb].
    destruct (get_level_valid opp current_px Hs Hv) as [l Hl].
    destruct (has_level_liquidity opp current_px l Hl) as [Hh Hq].
    rewrite Hh, Hl.
    assert (Hticks :
      sumZ (map (level_liquidity opp) ticks)
      = level_liquidity opp current_px
        + sumZ (map (level_liquidity opp)
                    (map (fun k => current_px + 1 + Z.of_nat k)
                         (seq 0 (Z.to_nat
                            (Z.min (Z.of_nat n)
                               (Z.min px_limit
                                  (Z.min (max_tick (band_ opp))
                                         (Sentinel.EMPTY_ASK - 1))
                                - (current_px + 1) + 1))))))).
    { subst ticks.
      replace (Z.to_nat (Z.min (Z.of_nat (S n)) count))
        with (S (Z.to_nat (Z.min (Z.of_nat n) (count - 1)))) by lia.
      rewrite seq_ticks. cbn [map sumZ fold_right].
      rewrite Z.add_0_r. f_equal.
      replace (count - 1)
        with (Z.min px_limit
                (Z.min (max_tick (band_ opp)) (Sentinel.EMPTY_ASK - 1))
              - (current_px + 1) + 1) by (subst count; lia).
      f_equal. f_equal. apply map_ext. intros k. lia. }
    rewrite Hticks in Hge |- *.
    replace (if negb (Level.empty l) then available + total_qty l
             else available)
      with (available + level_liquidity opp current_px)
      by (rewrite Hq; destruct (Level.empty l); cbn; lia).
    match goal with |- context [fok_walk _ _ _ _ ?a ?px n] =>
      destruct (IH a px Hs Hn) as (r & Hr & Hb); [lia..|] end.
    exists r. split; [exact Hr|lia].
Qed.

Lemma fok_walk_ask_enough opp qty px_limit n : forall available current_px,
  ladder_shape opp -> totals_nonneg opp ->
  Sentinel.EMPTY_BID <= min_tick (band_ opp) ->
  current_px <= max_tick (band_ opp) ->
  let count :=
    current_px
    - Z.max px_limit (Z.max (min_tick (band_ opp)) (Sentinel.EMPTY_BID + 1))
    + 1 in
  let ticks :=
    map (fun k => current_px - Z.of_nat k)
        (seq 0 (Z.to_nat (Z.min (Z.of_nat n) count))) in
  qty <= available + sumZ (map (level_liquidity opp) ticks) ->
  exists a,
    fok_walk false opp qty px_limit available current_px n = Some a /\
    qty <= a <= available + sumZ (map (level_liquidity opp) ticks).
Proof.
  induction n as [|n IH];
    intros available current_px Hs Hn Hmin Hmax count ticks Hge.
  - subst ticks. replace (Z.to_nat _) with 0%nat in Hge |- * by lia.
    cbn in Hge |- *. exists available. split; [reflexivity|lia].
  - pose proof (sumZ_liquidity_nonneg opp ticks Hn) as Hpos.
    cbn [fok_walk].
    destruct (available <? qty) eqn:Hav;
      [|exists available; split; [reflexivity|lia]].
    destruct (Z_le_gt_dec count 0) as [Hc|Hc].
    { subst ticks. replace (Z.to_nat _) with 0%nat in Hge by lia.
      cbn in Hge. lia. }
    clear Hpos.
    replace ((current_px <? px_limit) || (current_px =? Sentinel.EMPTY_BID))
      with false by (symmetry; apply orb_false_iff; subst count; lia).
    assert (Hv : PLA.is_valid_price opp current_px = true)
      by (apply valid_range; subst count; lia).
    rewrite Hv. cbn [negb].
    destruct (get_level_valid opp current_px Hs Hv) as [l Hl].
    destruct (has_level_liquidity opp current_px l Hl) as [Hh Hq].
    rewrite Hh, Hl.
    assert (Hticks :
      sumZ (map (level_liquidity opp) ticks)
      = level_liquidity opp current_px
        + sumZ (map (level_liquidity opp)
                    (map (fun k => current_px - 1 - Z.of_nat k)
                         (seq 0 (Z.to_nat
                            (Z.min (Z.of_nat n)
                               (current_px - 1
                                - Z.max px_limit
                                    (Z.max (min_tick (band_ opp))
                                           (Sentinel.EMPTY_BID + 1))
                                + 1))))))).
    { subst ticks.
      replace (Z.to_nat (Z.min (Z.of_nat (S n)) count))
        with (S (Z.to_nat (Z.min (Z.of_nat n) (count - 1)))) by lia.
      rewrite seq_ticks. cbn [map sumZ fold_right].
      rewrite Z.sub_0_r. f_equal.
      replace (count - 1)
        with (current_px - 1
              - Z.max px_limit
                  (Z.max (min_tick (band_ opp)) (Sentinel.EMPTY_BID + 1))
              + 1) by (subst count; lia).
      f_equal. f_equal. apply map_ext. intros k. lia. }
    rewrite Hticks in Hge |- *.
    replace (if negb (Level.empty l) then available + total_qty l
             else available)
      with (available + level_liquidity opp current_px)
      by (rewrite Hq; destruct (Level.empty l); cbn; lia).
    match goal with |- context [fok_walk _ _ _ _ ?a ?px n] =>
      destruct (IH a px Hs Hn) as (r & Hr & Hb); [lia..|] end.
    exists r. split; [exact Hr|lia].
Qed.

Lemma check_fok_sufficient (is_bid : bool) b qty px_limit :
  let opp := if is_bid then asks_ b else bids_ b in
  ladder_shape opp -> totals_nonneg opp -> ticks_in_range opp ->
  bests_ok b ->
  0 < qty ->
  qty <= crossing_liquidity is_bid b px_limit ->
  check_fok_liquidity is_bid b qty px_limit = Some true.
Proof.
  intros opp Hs Hn [Hlo Hhi] [Hbb Hba] Hq Hge.
  unfold check_fok_liquidity, crossing_liquidity, crossing_ticks in *.
  fold opp in Hge.
  destruct is_bid; subst opp.
  - assert (Hcount : 0 < Z.min px_limit
                           (Z.min (max_tick (band_ (asks_ b)))
                                  (Sentinel.EMPTY_ASK - 1))
                         - best_ask_ (asks_ b) + 1).
    { destruct (Z_le_gt_dec
        (Z.min px_limit (Z.min (max_tick (band_ (asks_ b)))
                               (Sentinel.EMPTY_ASK - 1))
         - best_ask_ (asks_ b) + 1) 0) as [Hc|Hc]; [|lia].
      replace (Z.to_nat _) with 0%nat in Hge by (unfold MAX_STEPS; lia).
      cbn in Hge. lia. }
    unfold best_ask in *.
    replace ((best_ask_ (asks_ b) =? Sentinel.EMPTY_ASK)
             || (best_ask_ (asks_ b) >? px_limit)) with false
      by (symmetry; apply orb_false_iff; lia).
    destruct Hba as [Hba|Hba]; [lia|].
    apply valid_range in Hba.
    destruct (fok_walk_bid_enough (asks_ b) qty px_limit (Z.to_nat MAX_STEPS) 0
                (best_ask_ (asks_ b)) Hs Hn Hhi (proj1 Hba)) as (a & Hw & Ha).
    { cbv zeta.
      replace (Z.of_nat (Z.to_nat MAX_STEPS)) with MAX_STEPS
        by (unfold MAX_STEPS; lia).
      rewrite Z.add_0_l. exact Hge. }
    rewrite Hw. f_equal. lia.
  - assert (Hcount : 0 < best_bid_ (bids_ b)
                         - Z.max px_limit
                             (Z.max (min_tick (band_ (bids_ b)))
                                    (Sentinel.EMPTY_BID + 1)) + 1).
    { destruct (Z_le_gt_dec
        (best_bid_ (bids_ b)
         - Z.max px_limit (Z.max (min_tick (band_ (bids_ b)))
                                 (Sentinel.EMPTY_BID + 1)) + 1) 0)
        as [Hc|Hc]; [|lia].
      replace (Z.to_nat _) with 0%nat in Hge by (unfold MAX_STEPS; lia).
      cbn in Hge. lia. }
    unfold best_bid in *.
    replace ((best_bid_ (bids_ b) =? Sentinel.EMPTY_BID)
             || (best_bid_ (bids_ b) <? px_limit)) with false
      by (symmetry; apply orb_false_iff; lia).
    destruct Hbb as [Hbb|Hbb]; [lia|].
    apply valid_range in Hbb.
    destruct (fok_walk_ask_enough (bids_ b) qty px_limit (Z.to_nat MAX_STEPS) 0
                (best_bid_ (bids_ b)) Hs Hn Hlo (proj2 Hbb)) as (a & Hw & Ha).
    { cbv zeta.
      replace (Z.of_nat (Z.to_nat MAX_STEPS)) with MAX_STEPS
        by (unfold MAX_STEPS; lia).
      rewrite Z.add_0_l. exact Hge. }
    rewrite Hw. f_equal. lia.
Qed.

(** The sum the walk of the precheck returns lies between 0 and the
    crossing liquidity. *)
Lemma fok_walk_sum (is_bid : bool) b qty px_limit :
  let opp := if is_bid then asks_ b else bids_ b in
  let best := if is_bid then best_ask b else best_bid b in
  ladder_shape opp -> totals_nonneg opp -> ticks_in_range opp ->
  bests_ok b ->
  0 < qty ->
  exists available,
    fok_walk is_bid opp qty px_limit 0 best (Z.to_nat MAX_STEPS)
    = Some available /\
    0 <= available <= crossing_liquidity is_bid b px_limit.
Proof.
  intros opp best Hs Hn [Hlo Hhi] [Hbb Hba] Hq.
  assert (Hpos : 0 <= crossing_liquidity is_bid b px_limit).
  { unfold crossing_liquidity. fold opp. now apply sumZ_liquidity_nonneg. }
  assert (Hsteps : Z.to_nat MAX_STEPS = S (Z.to_nat (MAX_STEPS - 1)))
    by (unfold MAX_STEPS; lia).
  assert (HM : Z.of_nat (Z.to_nat MAX_STEPS) = MAX_STEPS)
    by (unfold MAX_STEPS; lia).
  unfold crossing_liquidity, crossing_ticks in *. fold opp in Hpos |- *.
  destruct is_bid; subst opp best; unfold best_ask, best_bid in *.
  - destruct Hba as [Hba|Hba].
    { exists 0. split; [|lia]. rewrite Hsteps, Hba. cbn [fok_walk].
      replace (0 <? qty) with true by (symmetry; apply Z.ltb_lt; lia).
      rewrite Z.eqb_refl, orb_true_r. reflexivity. }
    apply valid_range in Hba.
    match type of Hpos with _ <= ?sum =>
      destruct (Z_lt_le_dec sum qty) as [Hlt|Hge] end.
    + pose proof (fok_walk_bid (asks_ b) qty px_limit (Z.to_nat MAX_STEPS) 0
                    (best_ask_ (asks_ b)) Hs Hn Hhi (proj1 Hba)) as Hw.
      cbv zeta in Hw. rewrite Z.add_0_l, HM in Hw.
      eexists. split; [apply Hw; exact Hlt|]. lia.
    + destruct (fok_walk_bid_enough (asks_ b) qty px_limit
                  (Z.to_nat MAX_STEPS) 0 (best_ask_ (asks_ b)) Hs Hn Hhi
                  (proj1 Hba)) as (a & Hw & Ha).
      { cbv zeta. rewrite Z.add_0_l, HM. exact Hge. }
      exists a. split; [exact Hw|]. rewrite Z.add_0_l, HM in Ha. lia.
  - destruct Hbb as [Hbb|Hbb].
    { exists 0. split; [|lia]. rewrite Hsteps, Hbb. cbn [fok_walk].
      replace (0 <? qty) with true by (symmetry; apply Z.ltb_lt; lia).
      rewrite Z.eqb_refl, orb_true_r. reflexivity. }
    apply valid_range in Hbb.
    match type of Hpos with _ <= ?sum =>
      destruct (Z_lt_le_dec sum qty) as [Hlt|Hge] end.
    + pose proof (fok_walk_ask (bids_ b) qty px_limit (Z.to_nat MAX_STEPS) 0
                    (best_bid_ (bids_ b)) Hs Hn Hlo (proj2 Hbb)) as Hw.
      cbv zeta in Hw. rewrite Z.add_0_l, HM in Hw.
      eexists. split; [apply Hw; exact Hlt|]. lia.
    + destruct (fok_walk_ask_enough (bids_ b) qty px_limit
                  (Z.to_nat MAX_STEPS) 0 (best_bid_ (bids_ b)) Hs Hn Hlo
                  (proj2 Hbb)) as (a & Hw & Ha).
      { cbv zeta. rewrite Z.add_0_l, HM. exact Hge. }
      exists a. split; [exact Hw|]. rewrite Z.add_0_l, HM in Ha. lia.
Qed.

(** X10.  For a positive quantity, on a well-shaped book with non-negative
    level totals whose crossing liquidity is within [int64_t],
    [check_fok_liquidity] answers exactly whether the resting quantity of
    the non-empty levels that cross the limit, counted from the opposite
    cached best over at most 10 000 ticks of the band, reaches the quantity;
    and the sum the walk forms from the cached best stays within [int64_t],
    between 0 and [INT64_MAX]. *)
Theorem fok_precheck_decides_on_liquidity (is_bid : bool) b qty px_limit :
  let opp := if is_bid then asks_ b else bids_ b in
  let best := if is_bid then best_ask b else best_bid b in
  book_shape b -> bests_ok b ->
  totals_nonneg opp ->
  crossing_liquidity is_bid b px_limit <= INT64_MAX ->
  0 < qty ->
  check_fok_liquidity is_bid b qty px_limit
  = Some (qty <=? crossing_liquidity is_bid b px_limit) /\
  exists available,
    fok_walk is_bid opp qty px_limit 0 best (Z.to_nat MAX_STEPS)
    = Some available /\
    0 <= available <= INT64_MAX.
Proof.
  intros opp best [[Hsb Hrb] [Hsa Hra]] Hbests Hn Hmax Hq.
  assert (Hopp : ladder_shape opp /\ ticks_in_range opp)
    by (subst opp; destruct is_bid; auto).
  destruct Hopp as [Hs Hr].
  split.
  - destruct (qty <=? crossing_liquidity is_bid b px_limit) eqn:E.
    + apply check_fok_sufficient; auto. lia.
    + apply check_fok_insufficient; auto. lia.
  - destruct (fok_walk_sum is_bid b qty px_limit Hs Hn Hr Hbests Hq)
      as (available & Hw & Ha).
    exists available. split; [exact Hw|lia].
Qed.

Lemma fok_precheck_decides_on_liquidity_witness :
  crossing_liquidity true (book ten_ask_world) 150 = 10 /\
  (check_fok_liquidity true (book ten_ask_world) 10 150 = Some true /\
   fok_walk true (asks_ (book ten_ask_world)) 10 150 0 150
            (Z.to_nat MAX_STEPS) = Some 10) /\
  (check_fok_liquidity true (book ten_ask_world) 11 150 = Some false /\
   fok_walk true (asks_ (book ten_ask_world)) 11 150 0 150
            (Z.to_nat MAX_STEPS) = Some 10).
Proof.
  assert (Hl : crossing_liquidity true (book ten_ask_world) 150 = 10)
    by (vm_compute; reflexivity).
  assert (Hready :
    book_shape (book ten_ask_world) /\ bests_ok (book ten_ask_world) /\
    totals_nonneg (asks_ (book ten_ask_world)) /\
    crossing_liquidity true (book ten_ask_world) 150 <= INT64_MAX).
  { split; [repeat split; vm_compute; congruence|].
    split; [split; [left|right]; vm_compute; reflexivity|].
    split; [apply totals_nonneg_check; vm_compute; reflexivity|].
    rewrite Hl. vm_compute. discriminate. }
  destruct Hready as (Hshape & Hbests & Hnn & Hmax).
  split; [exact Hl|]. split.
  - pose proof (fok_precheck_decides_on_liquidity true (book ten_ask_world)
                  10 150 Hshape Hbests Hnn Hmax ltac:(lia)) as Hx.
    destruct Hx as [Hc _]. rewrite Hl in Hc.
    split; [exact Hc|vm_compute; reflexivity].
  - pose proof (fok_precheck_decides_on_liquidity true (book ten_ask_world)
                  11 150 Hshape Hbests Hnn Hmax ltac:(lia)) as Hx.
    destruct Hx as [Hc _]. rewrite Hl in Hc.
    split; [exact Hc|vm_compute; reflexivity].
Defined.

(** * The order index as a map *)

Section FlatMapFacts.
Context {V : Type}.
Variable zero : V.

(** A table as the constructor and [resize] build it: a power-of-two
    capacity and one slot per index. *)
Definition table_shape (m : FlatMap.t V) : Prop :=
  exists n,
    0 <= n /\ FlatMap.capacity_ m = 2 ^ n /\
    length (FlatMap.entries_ m) = Z.to_nat (FlatMap.capacity_ m).

(** The slot probed [j] steps after slot [h]. *)
Definition probe (cap h j : Z) : Z := (h + j) mod cap.

Lemma mask_mod n x : 0 <= n -> Z.land x (2 ^ n - 1) = x mod 2 ^ n.
Proof.
  intros Hn. rewrite <- Z.land_ones by exact Hn.
  now rewrite Z.ones_equiv, <- Z.sub_1_r.
Qed.

Lemma probe_next n h j :
  0 <= n ->
  Z.land (probe (2 ^ n) h j + 1) (2 ^ n - 1) = probe (2 ^ n) h (j + 1).
Proof.
  intros Hn. rewrite mask_mod by exact Hn. unfold probe.
  rewrite Zplus_mod_idemp_l. f_equal. lia.
Qed.

Lemma probe_range cap h j : 0 < cap -> 0 <= probe cap h j < cap.
Proof. intros. now apply Z.mod_pos_bound. Qed.

Lemma probe_0 cap h : 0 <= h < cap -> probe cap h 0 = h.
Proof. intros. unfold probe. rewrite Z.add_0_r. now apply Z.mod_small. Qed.

Lemma probe_inj cap h i j :
  0 < cap -> 0 <= j - i < cap -> probe cap h i = probe cap h j -> i = j.
Proof.
  unfold probe. intros Hc Hd He.
  assert (H0 : (j - i) mod cap = 0).
  { replace (j - i) with ((h + j) - (h + i)) by lia.
    rewrite Zminus_mod, He, Z.sub_diag. now apply Z.mod_0_l, Z.neq_sym, Z.lt_neq. }
  rewrite Z.mod_small in H0 by lia. lia.
Qed.

Lemma probe_inj_range cap h i j :
  0 <= i < cap -> 0 <= j < cap -> probe cap h i = probe cap h j -> i = j.
Proof.
  intros Hi Hj He. destruct (Z_le_gt_dec i j).
  - apply (probe_inj cap h); auto; lia.
  - symmetry. apply (probe_inj cap h); auto; lia.
Qed.

Lemma home_range n k :
  0 <= n -> 0 <= FlatMap.home (2 ^ n - 1) k < 2 ^ n.
Proof.
  intros Hn. unfold FlatMap.home. rewrite mask_mod by exact Hn.
  apply Z.mod_pos_bound. lia.
Qed.

Lemma at_insert_eq (es : list (FlatMap.Entry V)) p e :
  0 <= p -> (Z.to_nat p < length es)%nat ->
  FlatMap.at_ zero (<[Z.to_nat p := e]> es) p = e.
Proof.
  intros Hp Hl. unfold FlatMap.at_.
  now rewrite list_lookup_insert_eq.
Qed.

Lemma at_insert_ne (es : list (FlatMap.Entry V)) p q e :
  0 <= p -> 0 <= q -> p <> q ->
  FlatMap.at_ zero (<[Z.to_nat p := e]> es) q = FlatMap.at_ zero es q.
Proof.
  intros Hp Hq Hne. unfold FlatMap.at_.
  rewrite list_lookup_insert_ne by lia. reflexivity.
Qed.

(** ** The probe loops, by the first slot at which they stop *)

Section Loops.
Variable n : Z.
Hypothesis Hn : 0 <= n.
Local Notation "'cap'" := (2 ^ n) (only parsing).
Local Notation "'mask'" := (2 ^ n - 1) (only parsing).
Variable es : list (FlatMap.Entry V).
Variable k : Z.
Variable h : Z.

(** No slot probed from step [j0] up to step [j] (exclusive) is empty or
    holds [k]. *)
Definition passes (j0 j : Z) : Prop :=
  forall i, j0 <= i < j ->
    FlatMap.key (FlatMap.at_ zero es (probe cap h i)) <> 0 /\
    FlatMap.key (FlatMap.at_ zero es (probe cap h i)) <> k.

Lemma passes_next j0 j :
  FlatMap.key (FlatMap.at_ zero es (probe cap h j0)) <> 0 ->
  FlatMap.key (FlatMap.at_ zero es (probe cap h j0)) <> k ->
  passes (j0 + 1) j -> passes j0 j.
Proof.
  intros H0 Hk Hp i Hi. destruct (Z.eq_dec i j0) as [->|Hne]; [auto|].
  apply Hp. lia.
Qed.

Lemma find_loop_hit fuel : forall j0 j,
  passes j0 j ->
  FlatMap.key (FlatMap.at_ zero es (probe cap h j)) = k -> k <> 0 ->
  j0 <= j < j0 + Z.of_nat fuel ->
  FlatMap.find_loop zero es mask k (probe cap h j0) fuel
  = Some (FlatMap.value (FlatMap.at_ zero es (probe cap h j))).
Proof.
  induction fuel as [|fuel IH]; intros j0 j Hp Hk Hk0 Hj; [lia|].
  cbn [FlatMap.find_loop]. cbv zeta.
  destruct (Z.eq_dec j j0) as [->|Hne].
  - rewrite Hk. replace (k =? 0) with false by (symmetry; now apply Z.eqb_neq).
    now rewrite Z.eqb_refl.
  - destruct (Hp j0) as [H0 H1]; [lia|].
    apply Z.eqb_neq in H0, H1. rewrite H0, H1.
    rewrite probe_next by exact Hn.
    apply IH; auto; [|lia].
    intros i Hi. apply Hp. lia.
Qed.

Lemma find_loop_miss fuel : forall j0 j,
  passes j0 j ->
  FlatMap.key (FlatMap.at_ zero es (probe cap h j)) = 0 ->
  j0 <= j ->
  FlatMap.find_loop zero es mask k (probe cap h j0) fuel = None.
Proof.
  induction fuel as [|fuel IH]; intros j0 j Hp Hk Hj; [reflexivity|].
  cbn [FlatMap.find_loop]. cbv zeta.
  destruct (Z.eq_dec j j0) as [->|Hne].
  - now rewrite Hk.
  - destruct (Hp j0) as [H0 H1]; [lia|].
    apply Z.eqb_neq in H0, H1. rewrite H0, H1.
    rewrite probe_next by exact Hn.
    apply (IH _ j); auto; [|lia].
    intros i Hi. apply Hp. lia.
Qed.

Lemma find_loop_absent fuel : forall idx,
  (forall i, FlatMap.key (FlatMap.at_ zero es i) <> k) ->
  FlatMap.find_loop zero es mask k idx fuel = None.
Proof.
  induction fuel as [|fuel IH]; intros idx Ha; [reflexivity|].
  cbn [FlatMap.find_loop]. cbv zeta.
  destruct (FlatMap.key (FlatMap.at_ zero es idx) =? 0); [reflexivity|].
  specialize (Ha idx) as Hk. apply Z.eqb_neq in Hk. rewrite Hk.
  now apply IH.
Qed.

(** [insert_loop] stops at the first slot that is empty or holds [k]. *)
Lemma insert_loop_stop v fuel : forall j0 es' fresh,
  FlatMap.insert_loop zero es mask k v (probe cap h j0) fuel
  = Some (es', fresh) ->
  exists j,
    j0 <= j < j0 + Z.of_nat fuel /\ passes j0 j /\
    es' = <[Z.to_nat (probe cap h j) := FlatMap.mkEntry k v]> es /\
    FlatMap.key (FlatMap.at_ zero es (probe cap h j))
    = (if fresh then 0 else k) /\
    (fresh = false -> k <> 0).
Proof.
  induction fuel as [|fuel IH]; intros j0 es' fresh H; [discriminate|].
  cbn [FlatMap.insert_loop] in H. cbv zeta in H.
  destruct (FlatMap.key (FlatMap.at_ zero es (probe cap h j0)) =? 0) eqn:E0.
  { injection H as <- <-. exists j0. apply Z.eqb_eq in E0.
    split; [lia|]. split; [intros i Hi; lia|]. split; [reflexivity|].
    split; [exact E0|discriminate]. }
  destruct (FlatMap.key (FlatMap.at_ zero es (probe cap h j0)) =? k) eqn:Ek.
  { injection H as <- <-. exists j0. apply Z.eqb_eq in Ek.
    apply Z.eqb_neq in E0.
    split; [lia|]. split; [intros i Hi; lia|].
    split; [now rewrite Ek|]. split; [exact Ek|]. intros _. congruence. }
  rewrite probe_next in H by exact Hn.
  apply IH in H as (j & Hj & Hp & -> & Hk & Hf).
  exists j. apply Z.eqb_neq in E0, Ek.
  split; [lia|]. split; [now apply passes_next|]. auto.
Qed.

(** [insert_loop] returns when a slot that is empty or holds [k] is within
    reach. *)
Lemma insert_loop_returns v fuel : forall j0 j,
  j0 <= j < j0 + Z.of_nat fuel ->
  FlatMap.key (FlatMap.at_ zero es (probe cap h j)) = 0 \/
  FlatMap.key (FlatMap.at_ zero es (probe cap h j)) = k ->
  exists r, FlatMap.insert_loop zero es mask k v (probe cap h j0) fuel = Some r.
Proof.
  induction fuel as [|fuel IH]; intros j0 j Hj Hk; [lia|].
  cbn [FlatMap.insert_loop]. cbv zeta.
  destruct (FlatMap.key (FlatMap.at_ zero es (probe cap h j0)) =? 0) eqn:E0;
    [eauto|].
  destruct (FlatMap.key (FlatMap.at_ zero es (probe cap h j0)) =? k) eqn:Ek;
    [eauto|].
  rewrite probe_next by exact Hn.
  apply (IH _ j); [|exact Hk].
  destruct (Z.eq_dec j j0) as [->|Hne]; [|lia].
  apply Z.eqb_neq in E0, Ek. destruct Hk; congruence.
Qed.

End Loops.

(** ** Shape *)

Lemma insert_loop_length mask es k v idx fuel es' fresh :
  FlatMap.insert_loop zero es mask k v idx fuel = Some (es', fresh) ->
  length es' = length es.
Proof.
  revert idx. induction fuel as [|fuel IH]; intros idx H; [discriminate|].
  cbn [FlatMap.insert_loop] in H. cbv zeta in H.
  destruct (_ =? 0); [injection H as <- _; apply length_insert|].
  destruct (_ =? k); [injection H as <- _; apply length_insert|].
  eauto.
Qed.

Lemma insert_internal_shape m k v m' :
  table_shape m ->
  FlatMap.insert_internal zero m k v = Some m' ->
  table_shape m' /\ FlatMap.capacity_ m' = FlatMap.capacity_ m.
Proof.
  intros (n & Hn & Hcap & Hlen). unfold FlatMap.insert_internal.
  cbv zeta.
  destruct (FlatMap.insert_loop _ _ _ _ _ _ _) as [[es' fresh]|] eqn:E;
    [|discriminate].
  intros H. injection H as <-. cbn. split; [|reflexivity].
  exists n. cbn. rewrite (insert_loop_length _ _ _ _ _ _ _ _ E). auto.
Qed.

Lemma reinsert_shape es : forall acc m',
  (forall a, acc = Some a -> table_shape a) ->
  fold_left (FlatMap.reinsert zero) es acc = Some m' ->
  table_shape m'.
Proof.
  induction es as [|e es IH]; intros acc m' Hacc H; cbn in H; [auto|].
  apply (IH _ _) in H; [exact H|].
  intros a Ha. destruct acc as [a0|]; [|discriminate].
  cbn in Ha. destruct (FlatMap.key e =? 0); [injection Ha as <-; auto|].
  eapply insert_internal_shape; eauto.
Qed.

Lemma fresh_shape n :
  0 <= n ->
  table_shape (FlatMap.mk (replicate (Z.to_nat (2 ^ n)) (FlatMap.mkEntry 0 zero))
                          (2 ^ n) 0).
Proof. intros Hn. exists n. cbn. now rewrite length_replicate. Qed.

Lemma resize_shape m n m' :
  0 <= n -> FlatMap.resize zero m (2 ^ n) = Some m' -> table_shape m'.
Proof.
  intros Hn H. unfold FlatMap.resize in H.
  eapply reinsert_shape; [|exact H].
  intros a Ha. injection Ha as <-. now apply fresh_shape.
Qed.

(** ** Insert, then find *)

Lemma insert_internal_find m k v m' :
  table_shape m -> k <> 0 ->
  FlatMap.insert_internal zero m k v = Some m' ->
  FlatMap.find zero m' k = Some v.
Proof.
  intros (n & Hn & Hcap & Hlen) Hk. unfold FlatMap.insert_internal.
  cbv zeta. rewrite Hcap.
  pose proof (home_range n k Hn) as Hh.
  rewrite <- (probe_0 (2 ^ n) (FlatMap.home (2 ^ n - 1) k)) at 1 by exact Hh.
  destruct (FlatMap.insert_loop _ _ _ _ _ _ _) as [[es' fresh]|] eqn:E;
    [|discriminate].
  intros H. injection H as <-.
  apply (insert_loop_stop n Hn) in E as (j & Hj & Hp & -> & _).
  unfold FlatMap.find. cbn [FlatMap.capacity_ FlatMap.entries_].
  replace (k =? 0) with false by (symmetry; now apply Z.eqb_neq).
  cbv zeta.
  set (h := FlatMap.home (2 ^ n - 1) k) in *.
  assert (Hc : 0 < 2 ^ n) by lia.
  pose proof (probe_range (2 ^ n) h j Hc) as Hpj.
  rewrite <- (probe_0 (2 ^ n) h) at 2 by exact Hh.
  rewrite (find_loop_hit n Hn _ k h _ 0 j).
  - f_equal. rewrite at_insert_eq; [reflexivity|lia|]. rewrite Hlen, Hcap. lia.
  - intros i Hi.
    pose proof (probe_range (2 ^ n) h i Hc) as Hpi.
    rewrite at_insert_ne; [now apply Hp|lia|lia|].
    intros He. symmetry in He. apply probe_inj in He; lia.
  - rewrite at_insert_eq; [reflexivity|lia|]. rewrite Hlen, Hcap. lia.
  - exact Hk.
  - lia.
Qed.

(** [insert] resizes at most once before it stores the key. *)
Lemma insert_finds_key m k v m' :
  table_shape m -> k <> 0 ->
  FlatMap.insert zero m k v = Some m' ->
  FlatMap.find zero m' k = Some v.
Proof.
  intros Hs Hk. unfold FlatMap.insert.
  destruct (10 * FlatMap.size_ m >=? 7 * FlatMap.capacity_ m);
    [|now apply (insert_internal_find m)].
  destruct (FlatMap.resize zero m (FlatMap.capacity_ m * 2)) as [m1|] eqn:Hr;
    [|discriminate].
  apply (insert_internal_find m1); [|exact Hk].
  destruct Hs as (n & Hn & Hcap & _). rewrite Hcap in Hr.
  replace (2 ^ n * 2) with (2 ^ (n + 1)) in Hr by (rewrite Z.pow_add_r; lia).
  eapply resize_shape; [|exact Hr]. lia.
Qed.

(** X11.  Insert, then find: on any table of power-of-two capacity with
    one slot per index, whatever its slots hold (also after an [erase] that
    broke a probe chain), an [insert] of a non-zero key that returns leaves a
    table of that shape in which [find] of the key returns the value just
    inserted; this holds across the resize that [insert] may trigger. *)
Theorem insert_then_find m k v m' :
  table_shape m -> k <> 0 ->
  FlatMap.insert zero m k v = Some m' ->
  FlatMap.find zero m' k = Some v /\ table_shape m'.
Proof.
  intros Hs Hk. unfold FlatMap.insert.
  destruct (10 * FlatMap.size_ m >=? 7 * FlatMap.capacity_ m).
  - destruct (FlatMap.resize zero m (FlatMap.capacity_ m * 2)) as [m1|] eqn:Hr;
      [|discriminate].
    intros H.
    assert (Hs1 : table_shape m1).
    { destruct Hs as (n & Hn & Hcap & _). rewrite Hcap in Hr.
      replace (2 ^ n * 2) with (2 ^ (n + 1)) in Hr
        by (rewrite Z.pow_add_r; lia).
      eapply resize_shape; [|exact Hr]. lia. }
    split; [now apply (insert_internal_find m1)|].
    now apply (insert_internal_shape m1 k v).
  - intros H. split; [now apply (insert_internal_find m)|].
    now apply (insert_internal_shape m k v).
Qed.

(** ** Tables whose probe chains are intact *)

Definition keyed_count (es : list (FlatMap.Entry V)) : nat :=
  length (List.filter (fun e => negb (FlatMap.key e =? 0)) es).

(** Every key sits at the end of a run of occupied slots that starts at its
    home slot. *)
Definition chain_ok (n : Z) (es : list (FlatMap.Entry V)) : Prop :=
  forall k j,
    0 <= j < 2 ^ n -> k <> 0 ->
    FlatMap.key
      (FlatMap.at_ zero es (probe (2 ^ n) (FlatMap.home (2 ^ n - 1) k) j)) = k ->
    forall t, 0 <= t < j ->
      FlatMap.key
        (FlatMap.at_ zero es (probe (2 ^ n) (FlatMap.home (2 ^ n - 1) k) t))
      <> 0.

Definition keys_distinct (n : Z) (es : list (FlatMap.Entry V)) : Prop :=
  forall i i',
    0 <= i < 2 ^ n -> 0 <= i' < 2 ^ n ->
    FlatMap.key (FlatMap.at_ zero es i) <> 0 ->
    FlatMap.key (FlatMap.at_ zero es i) = FlatMap.key (FlatMap.at_ zero es i') ->
    i = i'.

(** The table is a well-formed linear-probing table of capacity [2 ^ n]. *)
Definition table_ok (n : Z) (m : FlatMap.t V) : Prop :=
  0 <= n /\ FlatMap.capacity_ m = 2 ^ n /\
  length (FlatMap.entries_ m) = Z.to_nat (2 ^ n) /\
  chain_ok n (FlatMap.entries_ m) /\ keys_distinct n (FlatMap.entries_ m) /\
  FlatMap.size_ m = Z.of_nat (keyed_count (FlatMap.entries_ m)).

Lemma table_ok_shape n m : table_ok n m -> table_shape m.
Proof. intros (Hn & Hcap & Hlen & _). exists n. rewrite Hcap. auto. Qed.

(** Slot [i] is reached from any start slot [h] within [2 ^ n] probes. *)
Lemma probe_reaches n h i :
  0 <= n -> 0 <= i < 2 ^ n ->
  exists j, 0 <= j < 2 ^ n /\ probe (2 ^ n) h j = i.
Proof.
  intros Hn Hi. exists ((i - h) mod 2 ^ n).
  split; [apply Z.mod_pos_bound; lia|].
  unfold probe. rewrite Zplus_mod_idemp_r.
  replace (h + (i - h)) with i by lia. now apply Z.mod_small.
Qed.

Lemma find_present n m k i :
  table_ok n m -> k <> 0 -> 0 <= i < 2 ^ n ->
  FlatMap.key (FlatMap.at_ zero (FlatMap.entries_ m) i) = k ->
  FlatMap.find zero m k
  = Some (FlatMap.value (FlatMap.at_ zero (FlatMap.entries_ m) i)).
Proof.
  intros (Hn & Hcap & Hlen & Hchain & Hdist & _) Hk Hi Hkey.
  unfold FlatMap.find.
  replace (k =? 0) with false by (symmetry; now apply Z.eqb_neq).
  cbv zeta. rewrite Hcap.
  set (h := FlatMap.home (2 ^ n - 1) k).
  pose proof (home_range n k Hn) as Hh. fold h in Hh.
  destruct (probe_reaches n h i Hn Hi) as (j & Hj & Hpj).
  rewrite <- (probe_0 (2 ^ n) h) at 1 by exact Hh.
  rewrite <- Hpj.
  apply (find_loop_hit n Hn); [|now rewrite Hpj|exact Hk|lia].
  intros t Ht. split.
  - apply (Hchain k j Hj Hk); [fold h; now rewrite Hpj|lia].
  - intros Hkt.
    assert (Hc : 0 < 2 ^ n) by lia.
    pose proof (probe_range (2 ^ n) h t Hc) as Hpt.
    assert (He : probe (2 ^ n) h t = i).
    { apply Hdist; auto; [now rewrite Hkt|]. now rewrite Hkt, Hkey. }
    rewrite <- Hpj in He. apply probe_inj in He; lia.
Qed.

Lemma find_loop_none n (Hn : 0 <= n) es k h fuel : forall j0,
  (forall j, FlatMap.key (FlatMap.at_ zero es (probe (2 ^ n) h j)) <> k) ->
  FlatMap.find_loop zero es (2 ^ n - 1) k (probe (2 ^ n) h j0) fuel = None.
Proof.
  induction fuel as [|fuel IH]; intros j0 Ha; [reflexivity|].
  cbn [FlatMap.find_loop]. cbv zeta.
  destruct (FlatMap.key (FlatMap.at_ zero es (probe (2 ^ n) h j0)) =? 0);
    [reflexivity|].
  specialize (Ha j0) as Hk. apply Z.eqb_neq in Hk. rewrite Hk.
  rewrite probe_next by exact Hn. now apply IH.
Qed.

Lemma find_absent n m k :
  table_ok n m ->
  (forall i, 0 <= i < 2 ^ n ->
             FlatMap.key (FlatMap.at_ zero (FlatMap.entries_ m) i) <> k) ->
  FlatMap.find zero m k = None.
Proof.
  intros (Hn & Hcap & _) Ha. unfold FlatMap.find.
  destruct (k =? 0); [reflexivity|]. cbv zeta. rewrite Hcap.
  set (h := FlatMap.home (2 ^ n - 1) k).
  pose proof (home_range n k Hn) as Hh. fold h in Hh.
  rewrite <- (probe_0 (2 ^ n) h) at 1 by exact Hh.
  apply (find_loop_none n Hn). intros j. apply Ha, probe_range. lia.
Qed.

Lemma slot_search (es : list (FlatMap.Entry V)) k (b : nat) :
  (exists i, 0 <= i < Z.of_nat b /\ FlatMap.key (FlatMap.at_ zero es i) = k) \/
  (forall i, 0 <= i < Z.of_nat b -> FlatMap.key (FlatMap.at_ zero es i) <> k).
Proof.
  induction b as [|b [(i & Hi & Hk)|Hno]].
  - right. intros i Hi. lia.
  - left. exists i. split; [lia|exact Hk].
  - destruct (Z.eq_dec (FlatMap.key (FlatMap.at_ zero es (Z.of_nat b))) k)
      as [He|Hne].
    + left. exists (Z.of_nat b). split; [lia|exact He].
    + right. intros i Hi.
      destruct (Z.eq_dec i (Z.of_nat b)) as [->|Hd]; [exact Hne|].
      apply Hno. lia.
Qed.

Lemma classic_slot n (m : FlatMap.t V) k :
  0 <= n ->
  (exists i, 0 <= i < 2 ^ n /\
             FlatMap.key (FlatMap.at_ zero (FlatMap.entries_ m) i) = k) \/
  (forall i, 0 <= i < 2 ^ n ->
             FlatMap.key (FlatMap.at_ zero (FlatMap.entries_ m) i) <> k).
Proof.
  intros Hn.
  pose proof (slot_search (FlatMap.entries_ m) k (Z.to_nat (2 ^ n))) as H.
  rewrite Z2Nat.id in H by lia. exact H.
Qed.

(** [find] returns exactly what a slot of the table holds for the key. *)
Lemma find_some_iff n m k v :
  table_ok n m -> k <> 0 ->
  FlatMap.find zero m k = Some v <->
  exists i, 0 <= i < 2 ^ n /\
            FlatMap.at_ zero (FlatMap.entries_ m) i = FlatMap.mkEntry k v.
Proof.
  intros Hok Hk. split.
  - intros Hf.
    destruct (classic_slot n m k (proj1 Hok)) as [(i & Hi & Hkey)|Hno].
    + rewrite (find_present n m k i Hok Hk Hi Hkey) in Hf.
      injection Hf as <-. exists i. split; [exact Hi|].
      rewrite <- Hkey. now destruct (FlatMap.at_ _ _ _).
    + rewrite (find_absent n m k Hok Hno) in Hf. discriminate.
  - intros (i & Hi & He).
    rewrite (find_present n m k i Hok Hk Hi); now rewrite He.
Qed.

Lemma keyed_count_insert (es : list (FlatMap.Entry V)) : forall p e0 e,
  es !! p = Some e0 ->
  (keyed_count (<[p := e]> es) + (if (FlatMap.key e0 =? 0)%Z then 0 else 1)
   = keyed_count es + (if (FlatMap.key e =? 0)%Z then 0 else 1))%nat.
Proof.
  unfold keyed_count.
  induction es as [|x es IH]; intros p e0 e Hp; [discriminate|].
  destruct p as [|p]; simpl in Hp |- *.
  - injection Hp as ->.
    destruct (FlatMap.key e0 =? 0), (FlatMap.key e =? 0); simpl; lia.
  - specialize (IH p e0 e Hp).
    destruct (FlatMap.key x =? 0); simpl; lia.
Qed.

Lemma at_lookup (es : list (FlatMap.Entry V)) i e :
  es !! Z.to_nat i = Some e -> FlatMap.at_ zero es i = e.
Proof. unfold FlatMap.at_. now intros ->. Qed.

Lemma lookup_at (es : list (FlatMap.Entry V)) i :
  (Z.to_nat i < length es)%nat ->
  es !! Z.to_nat i = Some (FlatMap.at_ zero es i).
Proof.
  intros Hi. unfold FlatMap.at_.
  destruct (lookup_lt_is_Some_2 es (Z.to_nat i) Hi) as [e ->]. reflexivity.
Qed.

Lemma has_room (es : list (FlatMap.Entry V)) :
  (keyed_count es < length es)%nat ->
  exists p, (p < length es)%nat /\
            FlatMap.key (FlatMap.at_ zero es (Z.of_nat p)) = 0.
Proof.
  unfold keyed_count.
  induction es as [|x es IH]; cbn [length List.filter]; [lia|].
  destruct (FlatMap.key x =? 0) eqn:E; cbn [negb length].
  - intros _. exists 0%nat. split; [lia|]. now apply Z.eqb_eq in E.
  - intros H. destruct IH as (p & Hp & Hk); [lia|].
    exists (S p). split; [lia|].
    unfold FlatMap.at_ in *. rewrite Nat2Z.id in *. exact Hk.
Qed.

Lemma at_insert (es : list (FlatMap.Entry V)) p e i :
  0 <= p -> 0 <= i -> (Z.to_nat p < length es)%nat ->
  FlatMap.at_ zero (<[Z.to_nat p := e]> es) i
  = if Z.eq_dec i p then e else FlatMap.at_ zero es i.
Proof.
  intros Hp Hi Hl. destruct (Z.eq_dec i p) as [->|Hne].
  - now apply at_insert_eq.
  - apply at_insert_ne; auto.
Qed.

(** On a well-formed table with a free slot, [insert_internal] returns a
    well-formed table that maps [k] to [v] and every other key as before. *)
Lemma insert_internal_ok n m k v :
  table_ok n m -> k <> 0 -> FlatMap.size_ m < 2 ^ n ->
  exists m',
    FlatMap.insert_internal zero m k v = Some m' /\
    table_ok n m' /\
    FlatMap.size_ m <= FlatMap.size_ m' <= FlatMap.size_ m + 1 /\
    forall k', k' <> 0 ->
      FlatMap.find zero m' k'
      = if k' =? k then Some v else FlatMap.find zero m k'.
Proof.
  intros Hok Hk Hsize.
  pose proof Hok as (Hn & Hcap & Hlen & Hchain & Hdist & Hsz).
  set (es := FlatMap.entries_ m) in *.
  set (h := FlatMap.home (2 ^ n - 1) k).
  pose proof (home_range n k Hn) as Hh. fold h in Hh.
  assert (Hc : 0 < 2 ^ n) by lia.
  (* the loop returns *)
  assert (Hret : exists r,
    FlatMap.insert_loop zero es (2 ^ n - 1) k v (probe (2 ^ n) h 0)
                        (Z.to_nat (2 ^ n)) = Some r).
  { destruct (has_room es) as (p0 & Hp0 & Hz); [lia|].
    destruct (probe_reaches n h (Z.of_nat p0) Hn) as (j & Hj & Hpj); [lia|].
    apply (insert_loop_returns n Hn es k h v _ 0 j); [lia|].
    left. now rewrite Hpj. }
  destruct Hret as ([es' fresh] & Hloop).
  pose proof (insert_loop_stop n Hn es k h v _ _ _ _ Hloop)
    as (j & Hj & Hp & Hes' & Hkey & _).
  set (p := probe (2 ^ n) h j) in *.
  pose proof (probe_range (2 ^ n) h j Hc) as Hpr. fold p in Hpr.
  assert (Hpl : (Z.to_nat p < length es)%nat) by lia.
  assert (Hat : forall i, 0 <= i ->
    FlatMap.at_ zero es' i
    = if Z.eq_dec i p then FlatMap.mkEntry k v else FlatMap.at_ zero es i).
  { intros i Hi. rewrite Hes'. apply at_insert; auto; lia. }
  assert (Hkeyp : FlatMap.key (FlatMap.at_ zero es p) = 0 \/
                  FlatMap.key (FlatMap.at_ zero es p) = k)
    by (destruct fresh; auto).
  (* a slot other than [p] that holds [k] cannot exist *)
  assert (Honly : forall i, 0 <= i < 2 ^ n ->
            FlatMap.key (FlatMap.at_ zero es i) = k -> i = p).
  { intros i Hi Hki.
    destruct Hkeyp as [Hz|Hkp].
    - destruct (probe_reaches n h i Hn Hi) as (j1 & Hj1 & Hpj1).
      destruct (Z.lt_trichotomy j1 j) as [Hlt|[->|Hgt]].
      + destruct (Hp j1) as [_ Hne]; [lia|]. rewrite Hpj1 in Hne. congruence.
      + exact (eq_sym Hpj1).
      + exfalso. apply (Hchain k j1 Hj1 Hk) with (t := j);
          [fold h; now rewrite Hpj1|lia|exact Hz].
    - symmetry. apply Hdist; auto; congruence. }
  exists (FlatMap.mk es' (2 ^ n)
            (if fresh then FlatMap.size_ m + 1 else FlatMap.size_ m)).
  assert (Hrun : FlatMap.insert_internal zero m k v
                 = Some (FlatMap.mk es' (2 ^ n)
                           (if fresh then FlatMap.size_ m + 1
                            else FlatMap.size_ m))).
  { unfold FlatMap.insert_internal. cbv zeta. rewrite Hcap.
    fold es. rewrite <- (probe_0 (2 ^ n) (FlatMap.home (2 ^ n - 1) k)) at 1
      by exact Hh.
    fold h. now rewrite Hloop. }
  assert (Hok' : table_ok n (FlatMap.mk es' (2 ^ n)
                   (if fresh then FlatMap.size_ m + 1 else FlatMap.size_ m))).
  { split; [exact Hn|]. split; [reflexivity|]. cbn.
    split; [rewrite Hes', length_insert; exact Hlen|].
    split; [|split].
    - intros k0 j0 Hj0 Hk0 Hkey0 t Ht.
      set (h0 := FlatMap.home (2 ^ n - 1) k0) in *.
      pose proof (probe_range (2 ^ n) h0 j0 Hc) as Hq.
      pose proof (probe_range (2 ^ n) h0 t Hc) as Hqt.
      rewrite Hat in Hkey0 |- * by lia.
      destruct (Z.eq_dec (probe (2 ^ n) h0 t) p) as [_|Hnt]; [exact Hk|].
      destruct (Z.eq_dec (probe (2 ^ n) h0 j0) p) as [Hqp|Hnq].
      + cbn in Hkey0. subst k0. fold h in h0. subst h0.
        apply probe_inj_range in Hqp; [|lia|lia]. subst j0.
        now apply Hp.
      + now apply (Hchain k0 j0 Hj0 Hk0 Hkey0 t).
    - intros i i' Hi Hi' Hnz Heq.
      rewrite (Hat i) in Hnz, Heq by lia. rewrite (Hat i') in Heq by lia.
      destruct (Z.eq_dec i p) as [->|Hip], (Z.eq_dec i' p) as [->|Hip'];
        cbn in Heq; auto;
        first [symmetry; apply Honly; now auto|apply Honly; now auto].
    - assert (Hl : es !! Z.to_nat p = Some (FlatMap.at_ zero es p))
        by now apply lookup_at.
      pose proof (keyed_count_insert es (Z.to_nat p) _
                    (FlatMap.mkEntry k v) Hl) as Hcnt.
      rewrite <- Hes' in Hcnt. cbn [FlatMap.key] in Hcnt.
      replace (k =? 0) with false in Hcnt
        by (symmetry; now apply Z.eqb_neq).
      unfold keyed_count in Hcnt, Hsz |- *.
      destruct fresh; rewrite Hkey in Hcnt.
      + rewrite Z.eqb_refl in Hcnt. lia.
      + replace (k =? 0) with false in Hcnt
          by (symmetry; now apply Z.eqb_neq). lia. }
  split; [exact Hrun|]. split; [exact Hok'|].
  split; [cbn; destruct fresh; lia|].
  intros k' Hk'. destruct (k' =? k) eqn:Ekk.
  - apply Z.eqb_eq in Ekk. subst k'.
    apply (insert_internal_find m); auto. now apply (table_ok_shape n).
  - apply Z.eqb_neq in Ekk.
    destruct (classic_slot n m k' Hn) as [(i & Hi & Hki)|Hno].
    + fold es in Hki.
      rewrite (find_present n m k' i Hok Hk' Hi Hki).
      assert (Hip : i <> p).
      { intros ->. destruct Hkeyp; congruence. }
      rewrite (find_present n _ k' i Hok' Hk' Hi); cbn [FlatMap.entries_].
      * rewrite Hat by lia. now destruct (Z.eq_dec i p).
      * rewrite Hat by lia. now destruct (Z.eq_dec i p).
    + rewrite (find_absent n m k' Hok Hno).
      apply (find_absent n _ k' Hok'). cbn [FlatMap.entries_].
      intros i Hi. rewrite Hat by lia.
      destruct (Z.eq_dec i p); [cbn; congruence|now apply Hno].
Qed.

(** ** Growing the table *)

(** The value the entries of [l] give key [k] when they are inserted in
    order: that of the last entry with this key, [cur] when there is none. *)
Fixpoint last_entry (l : list (FlatMap.Entry V)) (k : Z) (cur : option V)
  : option V :=
  match l with
  | [] => cur
  | e :: l' =>
      last_entry l' k
        (if negb (FlatMap.key e =? 0) && (FlatMap.key e =? k)
         then Some (FlatMap.value e) else cur)
  end.

Lemma last_entry_some l k : forall cur v,
  last_entry l k cur = Some v ->
  cur = Some v \/
  exists e, In e l /\ FlatMap.key e = k /\ FlatMap.value e = v.
Proof.
  induction l as [|e l IH]; intros cur v H; cbn in H; [auto|].
  apply IH in H as [H|(e' & Hin & Hk & Hv)].
  - destruct (negb (FlatMap.key e =? 0) && (FlatMap.key e =? k)) eqn:E;
      [|auto].
    apply andb_true_iff in E as [_ E%Z.eqb_eq]. injection H as <-.
    right. exists e. cbn. auto.
  - right. exists e'. cbn. auto.
Qed.

Lemma last_entry_keeps l k : forall v0,
  exists v, last_entry l k (Some v0) = Some v.
Proof.
  induction l as [|e l IH]; intros v0; cbn; [eauto|].
  destruct (negb (FlatMap.key e =? 0) && (FlatMap.key e =? k)); apply IH.
Qed.

Lemma last_entry_in l k : forall cur e,
  In e l -> FlatMap.key e = k -> k <> 0 ->
  exists v, last_entry l k cur = Some v.
Proof.
  induction l as [|e0 l IH]; intros cur e Hin Hk Hk0; [destruct Hin|].
  cbn. destruct Hin as [->|Hin]; [|eauto].
  rewrite Hk. replace (k =? 0) with false by (symmetry; now apply Z.eqb_neq).
  rewrite Z.eqb_refl. cbn. apply last_entry_keeps.
Qed.

Lemma in_slot n (es : list (FlatMap.Entry V)) e :
  0 <= n -> length es = Z.to_nat (2 ^ n) -> In e es ->
  exists i, 0 <= i < 2 ^ n /\ FlatMap.at_ zero es i = e.
Proof.
  intros Hn Hlen Hin. apply list_elem_of_In, list_elem_of_lookup_1 in Hin
    as [p Hp].
  pose proof (lookup_lt_Some _ _ _ Hp) as Hlt.
  exists (Z.of_nat p). split; [lia|].
  apply at_lookup. now rewrite Nat2Z.id.
Qed.

Lemma slot_in n (es : list (FlatMap.Entry V)) i :
  length es = Z.to_nat (2 ^ n) -> 0 <= i < 2 ^ n ->
  In (FlatMap.at_ zero es i) es.
Proof.
  intros Hlen Hi. apply list_elem_of_In.
  apply (list_elem_of_lookup_2 _ (Z.to_nat i)). apply lookup_at. lia.
Qed.

(** On a well-formed table, the entries list gives every key the value
    [find] returns for it. *)
Lemma last_entry_find n m k :
  table_ok n m -> k <> 0 ->
  last_entry (FlatMap.entries_ m) k None = FlatMap.find zero m k.
Proof.
  intros Hok Hk.
  pose proof Hok as (Hn & Hcap & Hlen & Hchain & Hdist & Hsz).
  destruct (classic_slot n m k Hn) as [(i & Hi & Hki)|Hno].
  - rewrite (find_present n m k i Hok Hk Hi Hki).
    destruct (last_entry_in (FlatMap.entries_ m) k None _
                (slot_in n _ i Hlen Hi) Hki Hk) as [v Hv].
    rewrite Hv. f_equal.
    apply last_entry_some in Hv as [Hv|(e & Hin & Hke & Hve)];
      [discriminate|].
    apply (in_slot n _ e Hn Hlen) in Hin as (i' & Hi' & He).
    assert (i = i') as <-.
    { apply Hdist; auto; [congruence|]. rewrite He. congruence. }
    rewrite He. now symmetry.
  - rewrite (find_absent n m k Hok Hno).
    destruct (last_entry (FlatMap.entries_ m) k None) as [v|] eqn:Hv;
      [|reflexivity].
    apply last_entry_some in Hv as [Hv|(e & Hin & Hke & Hve)];
      [discriminate|].
    apply (in_slot n _ e Hn Hlen) in Hin as (i' & Hi' & He).
    exfalso. apply (Hno i' Hi'). now rewrite He.
Qed.

Lemma keyed_count_fresh c :
  keyed_count (replicate c (FlatMap.mkEntry 0 zero)) = 0%nat.
Proof. induction c as [|c IH]; [reflexivity|exact IH]. Qed.

Lemma at_fresh c i :
  FlatMap.key (FlatMap.at_ zero (replicate c (FlatMap.mkEntry 0 zero)) i) = 0.
Proof.
  unfold FlatMap.at_.
  destruct (replicate c _ !! Z.to_nat i) as [e|] eqn:E; [|reflexivity].
  apply lookup_replicate in E as [-> _]. reflexivity.
Qed.

Lemma fresh_ok n :
  0 <= n ->
  table_ok n (FlatMap.mk (replicate (Z.to_nat (2 ^ n)) (FlatMap.mkEntry 0 zero))
                         (2 ^ n) 0).
Proof.
  intros Hn. split; [exact Hn|]. split; [reflexivity|].
  cbn [FlatMap.entries_ FlatMap.capacity_ FlatMap.size_].
  split; [apply length_replicate|]. split; [|split].
  - intros k j _ Hk Hkey. rewrite at_fresh in Hkey. congruence.
  - intros i i' _ _ Hnz. now rewrite at_fresh in Hnz.
  - now rewrite keyed_count_fresh.
Qed.

Lemma find_fresh n k :
  0 <= n ->
  FlatMap.find zero
    (FlatMap.mk (replicate (Z.to_nat (2 ^ n)) (FlatMap.mkEntry 0 zero))
                (2 ^ n) 0) k = None.
Proof.
  intros Hn. destruct (Z.eq_dec k 0) as [->|Hk]; [reflexivity|].
  apply (find_absent n); [now apply fresh_ok|].
  intros i _. cbn. rewrite at_fresh. congruence.
Qed.

Lemma reinsert_all_ok n l : forall a lim,
  table_ok n a ->
  FlatMap.size_ a + Z.of_nat (length l) <= lim -> lim < 2 ^ n ->
  exists a',
    fold_left (FlatMap.reinsert zero) l (Some a) = Some a' /\
    table_ok n a' /\ FlatMap.size_ a' <= lim /\
    forall k, k <> 0 ->
      FlatMap.find zero a' k = last_entry l k (FlatMap.find zero a k).
Proof.
  induction l as [|e l IH]; intros a lim Hok Hsz Hlim; cbn [fold_left].
  - exists a. cbn [length] in Hsz. split; [reflexivity|].
    split; [exact Hok|]. split; [lia|]. intros; reflexivity.
  - cbn [length] in Hsz. cbn [FlatMap.reinsert last_entry].
    destruct (FlatMap.key e =? 0) eqn:E0.
    + destruct (IH a lim Hok) as (a' & Hf & Hok' & Hs' & Hfind); [lia|lia|].
      exists a'. auto.
    + apply Z.eqb_neq in E0.
      destruct (insert_internal_ok n a (FlatMap.key e) (FlatMap.value e)
                  Hok E0) as (a1 & -> & Hok1 & Hs1 & Hf1); [lia|].
      destruct (IH a1 lim Hok1) as (a' & Hf & Hok' & Hs' & Hfind);
        [lia|lia|].
      exists a'. split; [exact Hf|]. split; [exact Hok'|].
      split; [exact Hs'|].
      intros k Hk. rewrite (Hfind k Hk), (Hf1 k Hk).
      cbn [negb andb]. now rewrite (Z.eqb_sym k).
Qed.

Lemma resize_ok n m :
  table_ok n m ->
  exists m',
    FlatMap.resize zero m (2 ^ (n + 1)) = Some m' /\
    table_ok (n + 1) m' /\ FlatMap.size_ m' <= 2 ^ n /\
    forall k, k <> 0 -> FlatMap.find zero m' k = FlatMap.find zero m k.
Proof.
  intros Hok. pose proof Hok as (Hn & Hcap & Hlen & _).
  assert (Hn1 : 0 <= n + 1) by lia.
  assert (Hpow : 2 ^ (n + 1) = 2 * 2 ^ n) by (rewrite Z.pow_add_r; lia).
  destruct (reinsert_all_ok (n + 1) (FlatMap.entries_ m) _ (2 ^ n)
              (fresh_ok (n + 1) Hn1)) as (m' & Hf & Hok' & Hs' & Hfind);
    [cbn; lia|lia|].
  exists m'. split; [exact Hf|]. split; [exact Hok'|]. split; [exact Hs'|].
  intros k Hk. rewrite (Hfind k Hk), (find_fresh (n + 1) k Hn1).
  now apply (last_entry_find n).
Qed.

(** [insert] on a well-formed table: it returns, the table stays
    well-formed, [k] maps to [v] and every other key is as before. *)
Lemma insert_ok n m k v :
  table_ok n m -> k <> 0 ->
  exists m' n',
    FlatMap.insert zero m k v = Some m' /\ table_ok n' m' /\
    forall k', k' <> 0 ->
      FlatMap.find zero m' k'
      = if k' =? k then Some v else FlatMap.find zero m k'.
Proof.
  intros Hok Hk. pose proof Hok as (Hn & Hcap & _).
  unfold FlatMap.insert.
  destruct (10 * FlatMap.size_ m >=? 7 * FlatMap.capacity_ m) eqn:Eload.
  - destruct (resize_ok n m Hok) as (m1 & Hr & Hok1 & Hs1 & Hf1).
    rewrite Hcap. replace (2 ^ n * 2) with (2 ^ (n + 1))
      by (rewrite Z.pow_add_r; lia).
    rewrite Hr.
    destruct (insert_internal_ok (n + 1) m1 k v Hok1 Hk)
      as (m' & Hi & Hok' & _ & Hf').
    { rewrite Z.pow_add_r by lia. lia. }
    exists m', (n + 1). split; [exact Hi|]. split; [exact Hok'|].
    intros k' Hk'. rewrite (Hf' k' Hk'), (Hf1 k' Hk'). reflexivity.
  - destruct (insert_internal_ok n m k v Hok Hk) as (m' & Hi & Hok' & _ & Hf').
    { rewrite Hcap in Eload. lia. }
    exists m', n. auto.
Qed.

Lemma erase_loop_shape fuel : forall (m : FlatMap.t V) mask k idx m',
  FlatMap.erase_loop zero m mask k idx fuel = Some m' ->
  FlatMap.capacity_ m' = FlatMap.capacity_ m /\
  length (FlatMap.entries_ m') = length (FlatMap.entries_ m).
Proof.
  induction fuel as [|fuel IH]; intros m mask k idx m' H; [discriminate|].
  cbn [FlatMap.erase_loop] in H. cbv zeta in H.
  destruct (_ =? 0); [now injection H as <-|].
  destruct (_ =? k); [|eauto].
  destruct (FlatMap.shift_loop _ _ _ _ _ _) as [es'|] eqn:Hs; [|discriminate].
  injection H as <-. cbn. split; [reflexivity|].
  assert (Hlen : forall fuel' es mask' i p es1,
    FlatMap.shift_loop zero es mask' i p fuel' = Some es1 ->
    length es1 = length es).
  { clear. induction fuel' as [|fuel' IH]; intros es mask' i p es1 H;
      [discriminate|].
    cbn [FlatMap.shift_loop] in H. cbv zeta in H.
    destruct (_ =? 0); [now injection H as <-|].
    destruct (FlatMap.can_move _ _ _); apply IH in H;
      [now rewrite H, !length_insert|exact H]. }
  rewrite (Hlen _ _ _ _ _ _ Hs). apply length_insert.
Qed.

Lemma erase_shape m k m' :
  table_shape m -> FlatMap.erase zero m k = Some m' -> table_shape m'.
Proof.
  intros (n & Hn & Hcap & Hlen) H. unfold FlatMap.erase in H.
  apply erase_loop_shape in H as [Hc Hl].
  exists n. rewrite Hc, Hl. auto.
Qed.

End FlatMapFacts.

(** ** Scripts that only insert *)

Definition insert_only (ops : list MapOp) : bool :=
  forallb (fun op => match op with
                     | MInsert k _ => negb (k =? 0)
                     | MErase _ => false
                     end) ops.

Lemma last_bound_zero ops : forall cur,
  insert_only ops = true -> last_bound ops 0 cur = cur.
Proof.
  induction ops as [|[k v|k] ops IH]; intros cur H; cbn in H |- *;
    [reflexivity| |discriminate].
  apply andb_true_iff in H as [Hk H]. rewrite (IH _ H).
  now destruct (k =? 0).
Qed.

Lemma run_insert_only ops : forall n m,
  table_ok 0 n m -> insert_only ops = true ->
  exists m' n',
    fold_left map_step ops (Some m) = Some m' /\ table_ok 0 n' m' /\
    forall k, k <> 0 ->
      FlatMap.find 0 m' k = last_bound ops k (FlatMap.find 0 m k).
Proof.
  induction ops as [|[k v|k] ops IH]; intros n m Hok H; cbn in H;
    [|apply andb_true_iff in H as [Hk H]|discriminate].
  - exists m, n. cbn. auto.
  - apply negb_true_iff, Z.eqb_neq in Hk.
    destruct (insert_ok 0 n m k v Hok Hk) as (m1 & n1 & Hi & Hok1 & Hf1).
    destruct (IH n1 m1 Hok1 H) as (m' & n' & Hrun & Hok' & Hf').
    exists m', n'. cbn [fold_left map_step last_bound]. rewrite Hi.
    split; [exact Hrun|]. split; [exact Hok'|].
    intros k' Hk'. rewrite (Hf' k' Hk'), (Hf1 k' Hk').
    now rewrite (Z.eqb_sym k').
Qed.

(** X12.  As long as a script only inserts non-zero keys, the index is a
    map: every operation returns, across every resize, and [find] returns for
    each key the value most recently inserted for it, and null for a key that
    was never inserted. *)
Theorem insert_only_scripts_are_maps ops :
  insert_only ops = true ->
  exists m,
    run_map ops = Some m /\
    forall k, FlatMap.find 0 m k = last_bound ops k None.
Proof.
  intros H. unfold run_map.
  assert (Hfresh : table_ok 0 4 (FlatMap.create 0 16)) by exact (fresh_ok 0 4 ltac:(lia)).
  destruct (run_insert_only ops 4 _ Hfresh H) as (m & n & Hrun & Hok & Hf).
  exists m. split; [exact Hrun|].
  intros k. destruct (Z.eq_dec k 0) as [->|Hk].
  - now rewrite last_bound_zero.
  - rewrite (Hf k Hk). f_equal. exact (find_fresh 0 4 k ltac:(lia)).
Qed.

(** Thirteen keys, one of them inserted twice; the thirteenth insert finds
    the load at 12 of 16 and doubles the table. *)
Definition growing_script : list MapOp :=
  [MInsert 29 1; MInsert 30 2; MInsert 1 3; MInsert 2 4; MInsert 3 5;
   MInsert 4 6; MInsert 5 7; MInsert 6 8; MInsert 7 9; MInsert 8 10;
   MInsert 29 11; MInsert 9 12; MInsert 10 13; MInsert 11 14].

Lemma insert_only_scripts_are_maps_witness :
  option_map FlatMap.capacity_ (run_map growing_script) = Some 32 /\
  last_bound growing_script 29 None = Some 11 /\
  exists m,
    run_map growing_script = Some m /\
    forall k, FlatMap.find 0 m k = last_bound growing_script k None.
Proof.
  split; [vm_compute; reflexivity|]. split; [vm_compute; reflexivity|].
  apply insert_only_scripts_are_maps. reflexivity.
Defined.

(** The table the erase of C10 left, with key 30 moved out of its chain. *)
Lemma insert_then_find_witness :
  let broken := default (FlatMap.create 0 16) (run_map wrap_script) in
  let o := FlatMap.insert 0 broken 30 7 in
  FlatMap.find 0 broken 30 = None /\
  option_map (fun m => FlatMap.find 0 m 30) o = Some (Some 7).
Proof.
  intros broken o. subst o. split; [vm_compute; reflexivity|].
  destruct (FlatMap.insert 0 broken 30 7) as [m'|] eqn:E;
    [|vm_compute in E; discriminate E].
  cbn [option_map]. f_equal.
  apply (insert_then_find 0 broken 30 7 m'); [|lia|exact E].
  exists 4. vm_compute. repeat split; congruence.
Defined.

(** ** A resting order joins the queue and the index *)

Definition index_shape (b : OrderBook) : Prop := table_shape (id_index_ b).

Lemma match_level_shape tid tu ts stp bp makers kept total qty filled w r w' :
  match_level tid tu ts stp bp makers kept total qty filled w = Done r w' ->
  index_shape (book w) -> index_shape (book w').
Proof.
  revert makers kept total qty filled w r w'.
  apply (match_level_ind tid tu ts stp bp
           (fun _ _ _ _ _ w _ w' =>
              index_shape (book w) -> index_shape (book w'))); auto.
  - intros h maker rest kept total qty filled w ix' r w' _ _ _ w1 He w3 IH Hs.
    apply IH. subst w3 w1.
    unfold index_shape, after_free, set_book, after_trade in *.
    destruct (on_trade_ (book w)); cbn in *;
      exact (erase_shape OrderEntry.zero _ _ _ Hs He).
  - intros h maker rest kept total qty filled w r w' _ _ _ w1 IH Hs.
    apply IH. subst w1. unfold index_shape, after_trade in *.
    now destruct (on_trade_ (book w)).
Qed.

Lemma match_loop_shape s px tid tu ts stp fuel qty filled w r w' :
  match_loop s px tid tu ts stp fuel qty filled w = Done r w' ->
  index_shape (book w) -> index_shape (book w').
Proof.
  revert fuel qty filled w r w'.
  assert (Hstore : forall i l w1,
             index_shape (book w1) ->
             index_shape (book (set_book (store_level s i l (book w1)) w1))).
  { intros i l w1. unfold index_shape, set_book, store_level.
    now destruct s. }
  apply (match_loop_ind s px tid tu ts stp
           (fun _ _ _ w _ w' =>
              index_shape (book w) -> index_shape (book w'))); auto.
  - intros fuel qty filled w i l l' qty' filled' w1 _ _ _ _ _ Hm _ Hs.
    apply Hstore. eapply match_level_shape; eauto.
  - intros fuel qty filled w i l l' qty' filled' w1 w3 r w'
           _ _ _ _ _ Hm _ Hr IH Hs.
    apply IH. apply refresh_log in Hr as (_ & _ & _ & Hix).
    unfold index_shape. rewrite Hix. apply Hstore.
    eapply match_level_shape; eauto.
Qed.

Lemma cross_and_match_shape is_bid cmd w filled w1 :
  cross_and_match is_bid cmd w = Done filled w1 ->
  index_shape (book w) -> index_shape (book w1).
Proof.
  intros H Hs. apply cross_and_match_done in H as [[_ ->]|[fuel H]];
    [exact Hs|].
  eapply match_loop_shape; eauto.
Qed.





(** ** The pool accounts for the resting nodes *)

Definition live_levels (ls : list LevelFIFO) : nat :=
  fold_right (fun l acc => (length (nodes l) + acc)%nat) 0%nat ls.

(** The number of nodes queued in a ladder. *)
Definition live_nodes (pl : PriceLevelsArray) : nat := live_levels (levels_ pl).

Definition pool_accounts (b : OrderBook) : Prop :=
  in_use_ (order_pool_ b) = (live_nodes (bids_ b) + live_nodes (asks_ b))%nat.

Lemma pool_accounts_sides s b :
  pool_accounts b <->
  in_use_ (order_pool_ b)
  = (live_nodes (side_levels s b) + live_nodes (side_levels (opposite s) b))%nat.
Proof. unfold pool_accounts. destruct s; cbn; lia. Qed.

Lemma live_levels_insert ls : forall i l l',
  ls !! i = Some l ->
  (live_levels (<[i := l']> ls) + length (nodes l)
   = live_levels ls + length (nodes l'))%nat.
Proof.
  induction ls as [|x ls IH]; intros i l l' Hl; [discriminate|].
  destruct i as [|i]; simpl in Hl |- *.
  - injection Hl as ->. lia.
  - specialize (IH i l l' Hl). lia.
Qed.

Lemma live_levels_lookup ls : forall i l,
  ls !! i = Some l -> (length (nodes l) <= live_levels ls)%nat.
Proof.
  induction ls as [|x ls IH]; intros i l Hl; [discriminate|].
  destruct i as [|i]; simpl in Hl |- *.
  - injection Hl as ->. lia.
  - specialize (IH i l Hl). lia.
Qed.

Lemma match_level_pool tid tu ts stp bp makers kept total qty filled w r w' :
  match_level tid tu ts stp bp makers kept total qty filled w = Done r w' ->
  (length makers <= in_use_ (order_pool_ (book w)))%nat ->
  (in_use_ (order_pool_ (book w')) + length kept + length makers
   = in_use_ (order_pool_ (book w)) + length (nodes (fst (fst r))))%nat.
Proof.
  revert makers kept total qty filled w r w'.
  apply (match_level_ind tid tu ts stp bp
    (fun makers kept _ _ _ w r w' =>
       (length makers <= in_use_ (order_pool_ (book w)))%nat ->
       (in_use_ (order_pool_ (book w')) + length kept + length makers
        = in_use_ (order_pool_ (book w)) + length (nodes (fst (fst r))))%nat)).
  - intros. cbn. lia.
  - intros. cbn [fst nodes]. rewrite length_app. lia.
  - intros h maker rest kept total qty filled w r w' _ _ _ IH Hle.
    rewrite length_app in IH. cbn [length] in *. lia.
  - intros h maker rest kept total qty filled w ix' r w' _ _ _ w1 _ w3 IH Hle.
    assert (Hp : in_use_ (order_pool_ (book w3))
                 = (in_use_ (order_pool_ (book w)) - 1)%nat).
    { subst w3 w1. unfold after_free, set_book, after_trade.
      now destruct (on_trade_ (book w)). }
    cbn [length] in *. rewrite Hp in IH. lia.
  - intros h maker rest kept total qty filled w r w' _ _ _ w1 IH Hle.
    assert (Hp : in_use_ (order_pool_ (book w1))
                 = in_use_ (order_pool_ (book w))).
    { subst w1. unfold after_trade. now destruct (on_trade_ (book w)). }
    rewrite length_app in IH. cbn [length] in *. rewrite Hp in IH. lia.
Qed.

Lemma store_level_pool s i l b :
  order_pool_ (store_level s i l b) = order_pool_ b.
Proof. now destruct s. Qed.

Lemma refresh_pool s w w' :
  refresh_best_after_depletion s w = Done tt w' ->
  order_pool_ (book w') = order_pool_ (book w) /\
  levels_ (side_levels s (book w')) = levels_ (side_levels s (book w)) /\
  side_levels (opposite s) (book w') = side_levels (opposite s) (book w).
Proof.
  intros H. pose proof (refresh_frame _ _ _ H) as [Hopp _].
  apply refresh_done in H as (pl' & Hr & ->).
  apply refresh_ladder_levels in Hr as [Hlv _].
  split; [now destruct s|]. split; [|exact Hopp].
  cbn [book set_book]. rewrite <- Hlv. now destruct s.
Qed.

Lemma match_loop_pool s px tid tu ts stp fuel qty filled w r w' :
  match_loop s px tid tu ts stp fuel qty filled w = Done r w' ->
  pool_accounts (book w) -> pool_accounts (book w').
Proof.
  revert fuel qty filled w r w'.
  assert (Hround : forall w i l l' qty qty' filled filled' w1,
    levels_ (side_levels s (book w)) !! i = Some l ->
    match_level tid tu ts stp (side_best s (side_levels s (book w)))
                (nodes l) [] (total_qty l) qty filled w
    = Done (l', qty', filled') w1 ->
    pool_accounts (book w) ->
    pool_accounts (store_level s i l' (book w1))).
  { intros w i l l' qty qty' filled filled' w1 Hl Hm Hacc.
    pose proof (match_level_frame _ _ _ _ _ _ _ _ _ _ _ _ _ Hm) as Hf.
    apply (pool_accounts_sides s) in Hacc.
    pose proof (live_levels_lookup _ _ _ Hl) as Hle.
    apply match_level_pool in Hm; [|unfold live_nodes in Hacc; lia].
    cbn [fst length] in Hm.
    apply (pool_accounts_sides s).
    rewrite store_level_pool, side_levels_store.
    replace (side_levels (opposite s) (store_level s i l' (book w1)))
      with (side_levels (opposite s) (book w1)) by now destruct s.
    rewrite !(same_ladders_side _ _ _ Hf).
    pose proof (live_levels_insert _ _ _ l' Hl) as Hins.
    unfold live_nodes in *. cbn [PLA.store levels_]. lia. }
  apply (match_loop_ind s px tid tu ts stp
           (fun _ _ _ w _ w' =>
              pool_accounts (book w) -> pool_accounts (book w'))); auto.
  - intros fuel qty filled w i l l' qty' filled' w1 _ _ Hl _ _ Hm _ Hacc.
    cbn [book set_book]. eapply Hround; eauto.
  - intros fuel qty filled w i l l' qty' filled' w1 w3 r w'
           _ _ Hl _ _ Hm _ Hr IH Hacc.
    apply IH. apply refresh_pool in Hr as (Hp & Hlv & Hopp).
    pose proof (Hround _ _ _ _ _ _ _ _ _ Hl Hm Hacc) as H1.
    apply (pool_accounts_sides s) in H1. apply (pool_accounts_sides s).
    cbn [book set_book] in Hp, Hlv, Hopp.
    rewrite Hp, Hopp. unfold live_nodes at 1. rewrite Hlv. exact H1.
Qed.

Lemma cross_and_match_pool is_bid cmd w filled w1 :
  cross_and_match is_bid cmd w = Done filled w1 ->
  pool_accounts (book w) -> pool_accounts (book w1).
Proof.
  intros H Hacc. apply cross_and_match_done in H as [[_ ->]|[fuel H]];
    [exact Hacc|].
  eapply match_loop_pool; eauto.
Qed.

Lemma alloc_in_use p h p' :
  Pool.alloc p = (h, p') -> in_use_ p' = S (in_use_ p).
Proof.
  unfold Pool.alloc. destruct (free_list_ p); intros H; now injection H as _ <-.
Qed.

Lemma rest_residual_pool is_bid cmd remaining w w' :
  rest_residual is_bid cmd remaining w = Done tt w' ->
  pool_accounts (book w) -> pool_accounts (book w').
Proof.
  intros H Hacc.
  pose proof (rest_residual_opposite _ _ _ _ _ H) as Hopp.
  set (s := taker_side is_bid) in *.
  apply rest_residual_done in H
    as (i & level & h & pool' & pl' & ix' & _ & Hl & Ha & Hr & _ & ->).
  fold s in Hl, Hr.
  apply rested_ladder_levels in Hr as [Hlv _].
  apply alloc_in_use in Ha.
  apply (pool_accounts_sides s) in Hacc. apply (pool_accounts_sides s).
  rewrite Hopp. cbn [book set_book].
  assert (Hs : side_levels s (with_index ix'
                 (with_side_levels (taker_side is_bid) pl'
                    (with_pool pool' (book w)))) = pl')
    by (subst s; now destruct is_bid).
  assert (Hp : order_pool_ (with_index ix'
                 (with_side_levels (taker_side is_bid) pl'
                    (with_pool pool' (book w)))) = pool')
    by now destruct is_bid.
  rewrite Hs, Hp, Ha.
  pose proof (live_levels_insert _ _ _
                (Level.enqueue level h
                   (OrderNode.mk (OrderCommand.order_id cmd)
                      (OrderCommand.user_id cmd) remaining
                      (OrderCommand.recv_ts cmd) (OrderCommand.flags cmd)))
                Hl) as Hins.
  unfold live_nodes in *. rewrite Hlv.
  cbn [Level.enqueue nodes] in Hins. rewrite length_app in Hins.
  cbn [length] in Hins. lia.
Qed.

Lemma submit_limit_pool now cmd w r w' :
  submit_limit now cmd w = Done r w' ->
  pool_accounts (book w) -> pool_accounts (book w').
Proof.
  intros H Hacc. rewrite submit_limit_is_side in H.
  apply submit_limit_side_done in H
    as [(_ & _ & He & _)|(filled & w1 & w2 & Hm & He & Hcase)];
    apply emit_book_update_book in He; rewrite He; [exact Hacc|].
  apply cross_and_match_pool in Hm; [|exact Hacc].
  destruct Hcase as [(_ & _ & Hr & _)|[-> _]]; [|exact Hm].
  eapply rest_residual_pool; eauto.
Qed.

Lemma submit_market_pool now cmd w r w' :
  submit_market now cmd w = Done r w' ->
  pool_accounts (book w) -> pool_accounts (book w').
Proof.
  intros H Hacc.
  apply submit_market_done in H as (fuel & filled & w1 & Hm & He & _).
  apply emit_book_update_book in He. rewrite He.
  eapply match_loop_pool; eauto.
Qed.

Lemma length_unlink h ns n :
  Level.lookup h ns = Some n ->
  S (length (Level.unlink h ns)) = length ns.
Proof.
  induction ns as [|[h' n'] ns IH]; cbn [Level.lookup Level.unlink];
    [discriminate|].
  destruct (Nat.eqb h' h); [reflexivity|].
  intros H. cbn [length]. now rewrite (IH H).
Qed.

Lemma length_update h f ns : length (Level.update h f ns) = length ns.
Proof.
  induction ns as [|[h' n'] ns IH]; [reflexivity|].
  cbn [Level.update]. destruct (Nat.eqb h' h); cbn [length]; congruence.
Qed.

Lemma cancel_pool now id w ok w' :
  cancel now id w = Done ok w' ->
  pool_accounts (book w) -> pool_accounts (book w').
Proof.
  intros H Hacc. destruct ok.
  - apply cancel_levels in H
      as (entry & i & level & level' & _ & Hel & Her & Hlv & Hopp & Hp).
    set (s := OrderEntry.side entry) in *.
    apply entry_level_lookup in Hel. fold s in Hel.
    apply erase_done in Her as (n & Hn & ->).
    apply length_unlink in Hn.
    apply (pool_accounts_sides s) in Hacc. apply (pool_accounts_sides s).
    rewrite Hopp, Hp. unfold live_nodes in *. rewrite Hlv.
    pose proof (live_levels_insert _ _ _
                  (mkLevel (Level.unlink (OrderEntry.node entry) (nodes level))
                           (total_qty level - OrderNode.qty n)) Hel) as Hins.
    pose proof (live_levels_lookup _ _ _ Hel) as Hle.
    cbn [nodes Pool.released in_use_] in *. lia.
  - apply cancel_done in H as [(_ & -> & _)|(Hf & _)];
      [exact Hacc|discriminate].
Qed.

Lemma modify_pool now id new_price new_qty w r w' :
  modify now id new_price new_qty w = Done r w' ->
  pool_accounts (book w) -> pool_accounts (book w').
Proof.
  intros H Hacc.
  apply modify_done in H as [(_ & -> & _)|(entry & n & _ & Hn & H)];
    [exact Hacc|].
  destruct H as [(_ & i & level & level' & Hel & Hr & He & _)
                |(_ & w2 & Hcn & Hs)].
  - apply emit_book_update_book in He. rewrite He. cbn [book set_book].
    set (s := OrderEntry.side entry) in *.
    apply entry_level_lookup in Hel. fold s in Hel.
    unfold Level.reduce_qty in Hr.
    destruct (Level.lookup _ _); [|discriminate]. injection Hr as <-.
    apply (pool_accounts_sides s) in Hacc. apply (pool_accounts_sides s).
    rewrite store_level_pool, side_levels_store.
    replace (side_levels (opposite s) (store_level s i _ (book w)))
      with (side_levels (opposite s) (book w)) by now destruct s.
    match goal with |- context [PLA.store _ i ?l] =>
      pose proof (live_levels_insert _ _ _ l Hel) as Hins end.
    unfold live_nodes in *. cbn [PLA.store levels_ nodes] in *.
    rewrite length_update in Hins. lia.
  - apply cancel_pool in Hcn; [|exact Hacc].
    eapply submit_limit_pool; eauto.
Qed.

Lemma step_pool now cmd w reply w' :
  step now cmd w = Done reply w' ->
  pool_accounts (book w) -> pool_accounts (book w').
Proof.
  intros H Hacc. unfold step in H.
  destruct (OrderCommand.type cmd).
  - destruct (OrderCommand.order_type cmd);
      apply bind_done in H as (r & w1 & H & Hr); injection Hr as <- <-;
      first [eapply submit_limit_pool; eassumption
            |eapply submit_market_pool; eassumption].
  - apply bind_done in H as (r & w1 & H & Hr); injection Hr as <- <-.
    eapply cancel_pool; eauto.
  - apply bind_done in H as (r & w1 & H & Hr); injection Hr as <- <-.
    eapply modify_pool; eauto.
Qed.

Lemma run_pool now cmds : forall w replies w',
  run now cmds w = Done replies w' ->
  pool_accounts (book w) -> pool_accounts (book w').
Proof.
  induction cmds as [|cmd cmds IH]; intros w replies w' H Hacc.
  - now injection H as <- <-.
  - cbn [run] in H.
    apply bind_done in H as (reply & w1 & Hs & H).
    apply bind_done in H as (rs & w2 & Hr & H). injection H as <- <-.
    eapply IH; eauto. eapply step_pool; eauto.
Qed.

Lemma live_levels_fresh c : live_levels (replicate c Level.empty_level) = 0%nat.
Proof. induction c as [|c IH]; [reflexivity|exact IH]. Qed.

(** X14.  The pool's accounting follows the book: after every command
    sequence that a fresh engine runs to completion, every Cancel and Modify
    that finds its identifier finding an entry whose node is queued in the
    level the entry names, the pool's [in_use] count equals the number of
    nodes queued in the two ladders. *)
Theorem pool_in_use_counts_resting_nodes now symbol band cmds replies w :
  lookups_live now cmds (new_engine symbol band) = true ->
  run now cmds (new_engine symbol band) = Done replies w ->
  in_use_ (order_pool_ (book w))
  = (live_nodes (bids_ (book w)) + live_nodes (asks_ (book w)))%nat.
Proof.
  intros _ H. apply run_pool in H; [exact H|].
  unfold pool_accounts, live_nodes. cbn.
  now rewrite live_levels_fresh.
Qed.

Lemma pool_in_use_counts_resting_nodes_witness :
  in_use_ (order_pool_ (book mixed_world)) = 2%nat /\
  in_use_ (order_pool_ (book mixed_world))
  = (live_nodes (bids_ (book mixed_world))
     + live_nodes (asks_ (book mixed_world)))%nat.
Proof.
  split; [vm_compute; reflexivity|]. unfold mixed_world.
  destruct (run counting_clock mixed_script (new_engine 1 band_100_200))
    as [replies w|f w] eqn:E; [|vm_compute in E; discriminate E].
  apply (pool_in_use_counts_resting_nodes counting_clock 1 band_100_200
           mixed_script replies w); [vm_compute; reflexivity|exact E].
Defined.

(** * Erasing from the order index *)

Section FlatMapErase.
Context {V : Type}.
Variable zero : V.

Lemma find_loop_sound es mask k fuel : forall idx v,
  FlatMap.find_loop zero es mask k idx fuel = Some v ->
  k <> 0 /\ FlatMap.mkEntry k v ∈ es.
Proof.
  induction fuel as [|fuel IH]; intros idx v H; [discriminate|].
  cbn [FlatMap.find_loop] in H. cbv zeta in H.
  destruct (FlatMap.key (FlatMap.at_ zero es idx) =? 0) eqn:H0; [discriminate|].
  apply Z.eqb_neq in H0.
  destruct (FlatMap.key (FlatMap.at_ zero es idx) =? k) eqn:Hk; [|eauto].
  apply Z.eqb_eq in Hk. injection H as <-.
  split; [congruence|].
  pose proof (at_keyed_elem zero es idx H0) as Hin.
  rewrite <- Hk. now destruct (FlatMap.at_ zero es idx).
Qed.

Lemma find_sound (m : FlatMap.t V) k v :
  FlatMap.find zero m k = Some v ->
  k <> 0 /\ FlatMap.mkEntry k v ∈ FlatMap.entries_ m.
Proof.
  unfold FlatMap.find. destruct (k =? 0); [discriminate|].
  apply find_loop_sound.
Qed.

Lemma no_key_find (m : FlatMap.t V) k :
  (forall e, e ∈ FlatMap.entries_ m -> FlatMap.key e <> k) ->
  FlatMap.find zero m k = None.
Proof.
  intros Hno. unfold FlatMap.find.
  destruct (k =? 0) eqn:Hk; [reflexivity|]. apply Z.eqb_neq in Hk.
  cbv zeta.
  generalize (FlatMap.home (FlatMap.capacity_ m - 1) k) as idx.
  generalize (S (Z.to_nat (FlatMap.capacity_ m))) as fuel.
  induction fuel as [|fuel IH]; intros idx; [reflexivity|].
  cbn [FlatMap.find_loop]. cbv zeta.
  destruct (FlatMap.key (FlatMap.at_ zero (FlatMap.entries_ m) idx) =? 0) eqn:H0;
    [reflexivity|].
  apply Z.eqb_neq in H0.
  pose proof (Hno _ (at_keyed_elem zero _ idx H0)) as Hne.
  apply Z.eqb_neq in Hne. rewrite Hne. apply IH.
Qed.

(** The backward shift comes to an end when a second slot is empty. *)
Lemma shift_loop_returns n (Hn : 0 <= n) fuel : forall es idx p,
  (exists s, 0 <= s < Z.of_nat fuel /\ s < 2 ^ n /\
             FlatMap.key (FlatMap.at_ zero es (probe (2 ^ n) p s)) = 0 /\
             probe (2 ^ n) p s <> idx) ->
  0 <= idx < 2 ^ n -> 0 <= p < 2 ^ n ->
  length es = Z.to_nat (2 ^ n) ->
  exists es', FlatMap.shift_loop zero es (2 ^ n - 1) idx p fuel = Some es'.
Proof.
  induction fuel as [|fuel IH]; intros es idx p (s & Hs & Hsc & He & Hne) Hi Hp Hlen;
    [lia|].
  cbn [FlatMap.shift_loop]. cbv zeta.
  destruct (FlatMap.key (FlatMap.at_ zero es p) =? 0) eqn:H0; [eauto|].
  apply Z.eqb_neq in H0.
  assert (Hs0 : s <> 0).
  { intros ->. rewrite probe_0 in He by exact Hp. contradiction. }
  assert (Hnext : Z.land (p + 1) (2 ^ n - 1) = probe (2 ^ n) p 1).
  { rewrite <- (probe_0 (2 ^ n) p) at 1 by exact Hp.
    rewrite probe_next by exact Hn. reflexivity. }
  assert (Hpr : 0 <= probe (2 ^ n) p 1 < 2 ^ n) by (apply probe_range; lia).
  assert (Hstep : probe (2 ^ n) (probe (2 ^ n) p 1) (s - 1) = probe (2 ^ n) p s).
  { unfold probe. rewrite Zplus_mod_idemp_l. f_equal. lia. }
  assert (Hsp : probe (2 ^ n) p s <> p).
  { rewrite <- (probe_0 (2 ^ n) p) at 2 by exact Hp.
    intros Heq. apply probe_inj_range in Heq; lia. }
  assert (Hrs : 0 <= probe (2 ^ n) p s < 2 ^ n) by (apply probe_range; lia).
  rewrite Hnext.
  destruct (FlatMap.can_move _ _ _).
  - apply IH; [|exact Hp|exact Hpr|now rewrite !length_insert].
    exists (s - 1). rewrite Hstep.
    split; [lia|]. split; [lia|]. split; [|exact Hsp].
    rewrite at_insert_ne by lia.
    rewrite at_insert_ne by lia. exact He.
  - apply IH; [|exact Hi|exact Hpr|exact Hlen].
    exists (s - 1). rewrite Hstep. split; [lia|]. split; [lia|]. auto.
Qed.

(** What [erase] does, by the slot at which its search stops. *)
Lemma erase_loop_cases n (Hn : 0 <= n) (m : FlatMap.t V) k fuel : forall idx m',
  keys_distinct zero n (FlatMap.entries_ m) ->
  length (FlatMap.entries_ m) = Z.to_nat (2 ^ n) ->
  0 <= idx < 2 ^ n ->
  FlatMap.erase_loop zero m (2 ^ n - 1) k idx fuel = Some m' ->
  (m' = m /\
   forall fuel', FlatMap.find_loop zero (FlatMap.entries_ m) (2 ^ n - 1) k idx fuel'
                 = None) \/
  ((forall e, e ∈ FlatMap.entries_ m' -> FlatMap.key e <> k) /\
   FlatMap.size_ m' = FlatMap.size_ m - 1 /\
   exists i, 0 <= i < 2 ^ n /\ k <> 0 /\
             FlatMap.key (FlatMap.at_ zero (FlatMap.entries_ m) i) = k).
Proof.
  intros idx m' Hd Hlen. revert idx.
  induction fuel as [|fuel IH]; intros idx Hi H; [discriminate|].
  cbn [FlatMap.erase_loop] in H. cbv zeta in H.
  destruct (FlatMap.key (FlatMap.at_ zero (FlatMap.entries_ m) idx) =? 0) eqn:H0.
  { injection H as <-. left. split; [reflexivity|].
    intros [|fuel']; [reflexivity|]. cbn [FlatMap.find_loop]. cbv zeta.
    now rewrite H0. }
  destruct (FlatMap.key (FlatMap.at_ zero (FlatMap.entries_ m) idx) =? k) eqn:Hk.
  - apply Z.eqb_neq in H0. apply Z.eqb_eq in Hk.
    destruct (FlatMap.shift_loop _ _ _ _ _ _) as [es'|] eqn:Hs; [|discriminate].
    injection H as <-. cbn [FlatMap.entries_ FlatMap.size_]. right.
    split; [|split; [reflexivity|exists idx; split; [exact Hi|split; congruence]]].
    intros e He Hek.
    assert (Hk0 : FlatMap.key e <> 0) by congruence.
    pose proof (shift_loop_sub zero _ _ _ _ _ _ Hs e He Hk0) as Hin.
    apply list_elem_of_lookup_1 in Hin as [j Hj].
    pose proof (lookup_lt_Some _ _ _ Hj) as Hjl. rewrite length_insert in Hjl.
    destruct (decide (j = Z.to_nat idx)) as [->|Hne].
    + rewrite list_lookup_insert_eq in Hj by lia. injection Hj as <-.
      cbn in Hk0. congruence.
    + rewrite list_lookup_insert_ne in Hj by congruence.
      assert (Hat : FlatMap.at_ zero (FlatMap.entries_ m) (Z.of_nat j) = e).
      { apply at_lookup. now rewrite Nat2Z.id. }
      assert (idx = Z.of_nat j); [|lia].
      apply Hd; [exact Hi|lia|exact H0|]. rewrite Hat. congruence.
  - assert (Hr : 0 <= Z.land (idx + 1) (2 ^ n - 1) < 2 ^ n).
    { rewrite mask_mod by exact Hn. apply Z.mod_pos_bound. lia. }
    destruct (IH _ Hr H) as [[-> Hf]|Hfound]; [left|now right].
    split; [reflexivity|].
    intros [|fuel']; [reflexivity|]. cbn [FlatMap.find_loop]. cbv zeta.
    rewrite H0, Hk. apply Hf.
Qed.

Lemma erase_loop_returns n (Hn : 0 <= n) (m : FlatMap.t V) k h fuel : forall j0,
  FlatMap.capacity_ m = 2 ^ n ->
  length (FlatMap.entries_ m) = Z.to_nat (2 ^ n) ->
  0 <= h < 2 ^ n -> 0 <= j0 ->
  (exists s, j0 <= s < j0 + Z.of_nat fuel /\
             FlatMap.key (FlatMap.at_ zero (FlatMap.entries_ m)
                                      (probe (2 ^ n) h s)) = 0) ->
  (exists p, 0 <= p < 2 ^ n /\
             FlatMap.key (FlatMap.at_ zero (FlatMap.entries_ m) p) = 0) ->
  exists m',
    FlatMap.erase_loop zero m (2 ^ n - 1) k (probe (2 ^ n) h j0) fuel = Some m'.
Proof.
  intros j0 Hcap Hlen Hh. revert j0.
  induction fuel as [|fuel IH]; intros j0 Hj0 (s & Hs & He) Hroom; [lia|].
  cbn [FlatMap.erase_loop]. cbv zeta.
  set (idx := probe (2 ^ n) h j0).
  assert (Hi : 0 <= idx < 2 ^ n) by (apply probe_range; lia).
  destruct (FlatMap.key (FlatMap.at_ zero (FlatMap.entries_ m) idx) =? 0) eqn:H0;
    [eauto|].
  apply Z.eqb_neq in H0.
  destruct (FlatMap.key (FlatMap.at_ zero (FlatMap.entries_ m) idx) =? k) eqn:Hk.
  - destruct Hroom as (p & Hp & Hpe).
    assert (Hpi : p <> idx) by (intros ->; contradiction).
    assert (Hnext : Z.land (idx + 1) (2 ^ n - 1) = probe (2 ^ n) idx 1).
    { rewrite <- (probe_0 (2 ^ n) idx) at 1 by exact Hi.
      rewrite probe_next by exact Hn. reflexivity. }
    rewrite Hnext, Hcap.
    destruct (probe_reaches n (probe (2 ^ n) idx 1) p Hn Hp) as (t & Ht & Hpt).
    destruct (shift_loop_returns n Hn (Z.to_nat (2 ^ n))
                (<[Z.to_nat idx := FlatMap.set_key
                     (FlatMap.at_ zero (FlatMap.entries_ m) idx) 0]>
                   (FlatMap.entries_ m))
                idx (probe (2 ^ n) idx 1)) as [es' ->]; eauto.
    + exists t. rewrite Hpt. split; [lia|]. split; [lia|]. split; [|exact Hpi].
      rewrite at_insert_ne by lia. exact Hpe.
    + apply probe_range. lia.
    + now rewrite length_insert.
  - unfold idx. rewrite probe_next by exact Hn.
    apply IH; [lia| |exact Hroom].
    exists s. split; [|exact He].
    destruct (Z.eq_dec s j0) as [->|Hne]; [contradiction|lia].
Qed.

(** X15.  On a well-formed table that is not full, [erase] returns; the
    erased key is no longer found; whatever [find] returns afterwards for any
    key, it returned before; and erasing a key that is not in the table
    leaves the table as it is. *)
Theorem erase_forgets_the_key n (m : FlatMap.t V) k :
  table_ok zero n m -> FlatMap.size_ m < 2 ^ n ->
  exists m',
    FlatMap.erase zero m k = Some m' /\
    table_shape m' /\
    FlatMap.find zero m' k = None /\
    (forall k' v, FlatMap.find zero m' k' = Some v ->
                  FlatMap.find zero m k' = Some v) /\
    (FlatMap.find zero m k = None -> m' = m).
Proof.
  intros Hok Hsz. pose proof Hok as (Hn & Hcap & Hlen & Hchain & Hd & Hcnt).
  pose proof (home_range n k Hn) as Hh.
  destruct (has_room zero (FlatMap.entries_ m)) as (p & Hp & Hpe); [lia|].
  assert (Hpr : 0 <= Z.of_nat p < 2 ^ n) by lia.
  destruct (probe_reaches n (FlatMap.home (2 ^ n - 1) k) _ Hn Hpr)
    as (s & Hs & Hps).
  destruct (erase_loop_returns n Hn m k (FlatMap.home (2 ^ n - 1) k)
              (Z.to_nat (2 ^ n)) 0 Hcap Hlen Hh (Z.le_refl 0)) as [m' He].
  { exists s. rewrite Hps. split; [lia|exact Hpe]. }
  { exists (Z.of_nat p). auto. }
  rewrite probe_0 in He by exact Hh.
  assert (Herase : FlatMap.erase zero m k = Some m').
  { unfold FlatMap.erase. cbv zeta. rewrite Hcap. exact He. }
  exists m'. split; [exact Herase|].
  split; [eapply erase_shape; [eapply table_ok_shape, Hok|exact Herase]|].
  pose proof (erase_loop_cases n Hn m k _ _ m' Hd Hlen Hh He) as Hcases.
  split; [|split].
  - destruct Hcases as [[-> Hf]|(Hno & _)].
    + unfold FlatMap.find. destruct (k =? 0); [reflexivity|]. cbv zeta.
      rewrite Hcap. apply Hf.
    + now apply no_key_find.
  - intros k' v Hf. apply find_sound in Hf as [Hk' Hin].
    pose proof (erase_sub zero _ _ _ Herase _ Hin Hk') as Hin0.
    apply list_elem_of_lookup_1 in Hin0 as [j Hj].
    pose proof (lookup_lt_Some _ _ _ Hj) as Hjl.
    apply (find_some_iff zero n m k' v Hok Hk').
    exists (Z.of_nat j). split; [lia|].
    apply at_lookup. now rewrite Nat2Z.id.
  - intros Hnone. destruct Hcases as [[-> _]|(_ & _ & i & Hi & Hk0 & Hkey)];
      [reflexivity|].
    rewrite (find_present zero n m k i Hok Hk0 Hi Hkey) in Hnone. discriminate.
Qed.

End FlatMapErase.

(** Keys 29 and 30 in a fresh table; 29 is erased. *)
Definition two_key_table : FlatMap.t Z :=
  default (FlatMap.create 0 16) (run_map [MInsert 29 1; MInsert 30 2]).

Lemma erase_forgets_the_key_witness :
  FlatMap.find 0 two_key_table 29 = Some 1 /\
  exists m',
    FlatMap.erase 0 two_key_table 29 = Some m' /\
    table_shape m' /\
    FlatMap.find 0 m' 29 = None /\
    (forall k' v, FlatMap.find 0 m' k' = Some v ->
                  FlatMap.find 0 two_key_table k' = Some v) /\
    (FlatMap.find 0 two_key_table 29 = None -> m' = two_key_table).
Proof.
  split; [vm_compute; reflexivity|].
  destruct (run_insert_only [MInsert 29 1; MInsert 30 2] 4 _
              (fresh_ok 0 4 ltac:(lia)) eq_refl)
    as (m0 & n & Hrun & Hok & _).
  apply (f_equal (default (FlatMap.create 0 16))) in Hrun.
  change (two_key_table = m0) in Hrun. subst m0.
  apply (erase_forgets_the_key 0 n two_key_table 29 Hok).
  destruct Hok as (_ & Hcap & _). rewrite <- Hcap. vm_compute. reflexivity.
Defined.

(** * Modify: cancel and replace *)

(** A limit order that rests: where its node goes (the statement of the
    resting block of [submit_limit_side], with the matching before it). *)
Lemma submit_limit_rests now cmd w r w' :
  submit_limit now cmd w = Done r w' ->
  never_rests (OrderCommand.tif cmd) = false ->
  0 < ExecResult.remaining r ->
  OrderCommand.order_id cmd <> 0 ->
  index_shape (book w) ->
  let own := OrderCommand.side cmd in
  let px := OrderCommand.price_ticks cmd in
  exists i level h,
    PLA.idx (side_levels own (book w)) px = Some i /\
    levels_ (side_levels own (book w)) !! i = Some level /\
    levels_ (side_levels own (book w'))
    = <[i := Level.enqueue level h
                (OrderNode.mk (OrderCommand.order_id cmd)
                              (OrderCommand.user_id cmd)
                              (ExecResult.remaining r)
                              (OrderCommand.recv_ts cmd)
                              (OrderCommand.flags cmd))]>
        (levels_ (side_levels own (book w))) /\
    FlatMap.find OrderEntry.zero (id_index_ (book w'))
                 (OrderCommand.order_id cmd)
    = Some (OrderEntry.mk own px h) /\
    PLA.idx (side_levels own (book w')) px = Some i.
Proof.
  intros H Hnr Hrem Hid Hshape own px.
  rewrite submit_limit_is_side in H.
  apply submit_limit_side_done in H
    as [(_ & _ & _ & ->)|(filled & w1 & w2 & Hm & He & Hcase)];
    [cbn in Hrem; lia|].
  cbv zeta in Hcase.
  destruct Hcase as [(Hpos & _ & Hr & ->)|(_ & [(Hle & ->)|(_ & Hn & _)])];
    [|cbn in Hrem; lia|congruence].
  cbn [ExecResult.remaining ExecResult.make] in *.
  pose proof (cross_and_match_shape _ _ _ _ _ Hm Hshape) as Hshape1.
  apply cross_and_match_effect in Hm as (Hf & _).
  apply matched_frame_own in Hf. rewrite taker_side_is_bid in Hf.
  fold own in Hf.
  apply emit_book_update_book in He.
  apply rest_residual_done in Hr
    as (i & level & h & pool' & pl' & ix' & Hi & Hl & _ & Hrl & Hix & ->).
  rewrite taker_side_is_bid in Hi, Hl, Hrl, Hix. fold own px in Hi, Hl, Hrl, Hix.
  rewrite Hf in Hi, Hl, Hrl.
  exists i, level, h. split; [exact Hi|]. split; [exact Hl|].
  rewrite He. cbn [book set_book].
  assert (Hown : side_levels own
                   (with_index ix'
                      (with_side_levels
                         (taker_side (is_bid_side (OrderCommand.side cmd)))
                         pl' (with_pool pool' (book w1)))) = pl').
  { rewrite taker_side_is_bid. fold own. now destruct own. }
  rewrite Hown.
  pose proof (rested_ladder_levels _ _ _ _ _ _ Hrl) as [Hlv Hband].
  split; [exact Hlv|].
  split.
  - change (id_index_ (with_index ix' _)) with ix'.
    eapply insert_finds_key; eauto.
  - unfold PLA.idx in Hi |- *. now rewrite Hband.
Qed.

(** [cancel] keeps the bands of both ladders and the shape of the index. *)
Lemma cancel_band_shape now id w ok w' :
  cancel now id w = Done ok w' ->
  (forall s, band_ (side_levels s (book w')) = band_ (side_levels s (book w)))
  /\ (index_shape (book w) -> index_shape (book w')).
Proof.
  intros H. apply cancel_done in H as [(_ & -> & _)|(_ & H)]; [auto|].
  destruct H as (entry & i & level & level' & w3 & ix' & _ & _ & _
                 & Hw3 & Hix & He).
  apply emit_book_update_book in He. cbn [book set_book] in He.
  cbv zeta in Hw3.
  set (w2 := after_free (OrderEntry.node entry)
               (set_book (store_level (OrderEntry.side entry) i level'
                                      (book w)) w)) in *.
  assert (H2 : (forall s, band_ (side_levels s (book w2))
                          = band_ (side_levels s (book w)))
               /\ id_index_ (book w2) = id_index_ (book w)).
  { subst w2. unfold after_free, set_book, store_level.
    split; [|now destruct (OrderEntry.side entry)].
    intros s. now destruct s, (OrderEntry.side entry). }
  assert (H3 : (forall s, band_ (side_levels s (book w3))
                          = band_ (side_levels s (book w)))
               /\ id_index_ (book w3) = id_index_ (book w)).
  { destruct (Level.empty level'); [|now subst w3].
    destruct H2 as [Hb Hi].
    pose proof (refresh_frame _ _ _ Hw3) as (Hopp & Hband & _).
    apply refresh_done in Hw3 as (pl' & _ & ->).
    split.
    - intros s. rewrite <- Hb.
      destruct (OrderEntry.side entry), s; cbn in Hopp, Hband |- *;
        congruence.
    - rewrite <- Hi. unfold set_book.
      now destruct (OrderEntry.side entry). }
  destruct H3 as [Hb Hi]. rewrite He. split.
  - intros s. rewrite <- Hb. now destruct s.
  - unfold index_shape. cbn [id_index_ with_index]. rewrite <- Hi.
    intros Hs. exact (erase_shape OrderEntry.zero _ _ _ Hs Hix).
Qed.




(** * Walking a ladder *)

(** ** price_levels_array.h: [for_each_nonempty] and [for_each_order]

    The callback acts on an accumulator.  The loop
    [for (px = band_.min_tick; px <= band_.max_tick; ++px)] addresses each
    level through [idx]; [None] is a failed [assert] there, or the fuel, one
    more than the ticks of the band, running out. *)

Section Visitors.
Context {A : Type}.







End Visitors.





Section VisitorFacts.
Context {A : Type}.
Variable pl : PriceLevelsArray.
Hypothesis Hshape : ladder_shape pl.





End VisitorFacts.




(** * The ring buffer between the threads *)

(** ** spsc_queue.h

    [SPSCQueue<T, N>] as its calls follow one another: [head_] and [tail_]
    are indices of [size_t], [buffer_] holds [N] items whose content is
    unspecified at construction.  The model covers calls that do not
    overlap; the memory orders of the atomic accesses are out of its
    reach. *)

Module SPSC.
Record t (T : Type) := mk {
  head_ : Z;
  tail_ : Z;
  buffer_ : list T
}.
Arguments mk {T}.
Arguments head_ {T}.
Arguments tail_ {T}.
Arguments buffer_ {T}.

Section WithItem.
Context {T : Type}.
Variable N : Z.

Definition MASK : Z := N - 1.

(** The constructor; [raw] is what the storage happens to hold. *)
Definition create (raw : list T) : t T := mk 0 0 raw.

Definition push (q : t T) (item : T) : bool * t T :=
  let current_tail := tail_ q in
  let next_tail := Z.land (current_tail + 1) MASK in
  if next_tail =? head_ q then (false, q)
  else (true, mk (head_ q) next_tail
                 (<[Z.to_nat current_tail := item]> (buffer_ q))).

(** [pop(T &item)]: the item after the call, and the flag. *)
Definition pop (q : t T) (item : T) : bool * T * t T :=
  let current_head := head_ q in
  if current_head =? tail_ q then (false, item, q)
  else (true, default item (buffer_ q !! Z.to_nat current_head),
        mk (Z.land (current_head + 1) MASK) (tail_ q) (buffer_ q)).

Definition empty (q : t T) : bool := head_ q =? tail_ q.

(** The difference of two [size_t] wraps. *)
Definition size (q : t T) : Z :=
  Z.land ((tail_ q - head_ q) mod 2 ^ 64) MASK.

Definition capacity : Z := N - 1.

End WithItem.
End SPSC.

(** One call on the queue and what it answered. *)
Inductive QueueCall (T : Type) := QPush (item : T) | QPop.
Inductive QueueAnswer (T : Type) := Pushed (ok : bool) | Popped (item : option T).
Arguments QPush {T}.
Arguments QPop {T}.
Arguments Pushed {T}.
Arguments Popped {T}.

Definition queue_call {T} (N : Z) (dummy : T) (q : SPSC.t T) (c : QueueCall T)
  : QueueAnswer T * SPSC.t T :=
  match c with
  | QPush item => let '(ok, q') := SPSC.push N q item in (Pushed ok, q')
  | QPop =>
      let '(ok, item, q') := SPSC.pop N q dummy in
      (Popped (if ok then Some item else None), q')
  end.

Fixpoint queue_calls {T} (N : Z) (dummy : T) (q : SPSC.t T)
         (cs : list (QueueCall T)) : list (QueueAnswer T) * SPSC.t T :=
  match cs with
  | [] => ([], q)
  | c :: cs' =>
      let '(a, q1) := queue_call N dummy q c in
      let '(answers, q2) := queue_calls N dummy q1 cs' in
      (a :: answers, q2)
  end.

(** A first-in first-out list that holds at most [cap] items. *)
Definition fifo_call {T} (cap : Z) (l : list T) (c : QueueCall T)
  : QueueAnswer T * list T :=
  match c with
  | QPush item =>
      if Z.of_nat (length l) <? cap then (Pushed true, l ++ [item])
      else (Pushed false, l)
  | QPop =>
      match l with
      | [] => (Popped None, [])
      | item :: l' => (Popped (Some item), l')
      end
  end.

Fixpoint fifo_calls {T} (cap : Z) (l : list T) (cs : list (QueueCall T))
  : list (QueueAnswer T) * list T :=
  match cs with
  | [] => ([], l)
  | c :: cs' =>
      let '(a, l1) := fifo_call cap l c in
      let '(answers, l2) := fifo_calls cap l1 cs' in
      (a :: answers, l2)
  end.

Lemma omap_total {A B} (f : A -> option B) (l : list A) :
  (forall x, In x l -> is_Some (f x)) -> length (omap f l) = length l.
Proof.
  induction l as [|x l IH]; intros H; [reflexivity|].
  destruct (H x (or_introl eq_refl)) as [y Hy].
  cbn. rewrite Hy. cbn. f_equal. apply IH. intros z Hz. apply H. now right.
Qed.

Lemma omap_agree {A B} (f g : A -> option B) (l : list A) :
  (forall x, In x l -> f x = g x) -> omap f l = omap g l.
Proof.
  induction l as [|x l IH]; intros H; [reflexivity|].
  cbn. rewrite (H x (or_introl eq_refl)), IH; [reflexivity|].
  intros z Hz. apply H. now right.
Qed.

Lemma omap_map {A B C} (g : A -> B) (f : B -> option C) (l : list A) :
  omap f (map g l) = omap (fun x => f (g x)) l.
Proof.
  induction l as [|x l IH]; [reflexivity|].
  cbn. now rewrite IH.
Qed.

Section QueueFacts.
Context {T : Type}.
Variable n : Z.
Hypothesis Hn : 0 <= n <= 63.
Local Notation "'N'" := (2 ^ n) (only parsing).

(** The indices are in range and the storage has [N] slots. *)
Definition queue_ok (q : SPSC.t T) : Prop :=
  0 <= SPSC.head_ q < N /\ 0 <= SPSC.tail_ q < N /\
  length (SPSC.buffer_ q) = Z.to_nat N.

(** The items between [head_] and [tail_], oldest first. *)
Definition queued (q : SPSC.t T) : list T :=
  omap (fun i => SPSC.buffer_ q !! Z.to_nat ((SPSC.head_ q + Z.of_nat i) mod N))
       (seq 0 (Z.to_nat ((SPSC.tail_ q - SPSC.head_ q) mod N))).

Lemma ring_size_pos : 0 < N.
Proof. apply Z.pow_pos_nonneg; lia. Qed.

Lemma size_queued (q : SPSC.t T) :
  SPSC.size N q = (SPSC.tail_ q - SPSC.head_ q) mod N.
Proof.
  unfold SPSC.size, SPSC.MASK. rewrite mask_mod by lia.
  apply Z.mod_mod_divide. exists (2 ^ (64 - n)).
  rewrite <- Z.pow_add_r by lia. f_equal. lia.
Qed.

Lemma length_queued (q : SPSC.t T) :
  queue_ok q ->
  Z.of_nat (length (queued q)) = (SPSC.tail_ q - SPSC.head_ q) mod N.
Proof.
  intros (Hh & Ht & Hl). pose proof ring_size_pos as HN.
  pose proof (Z.mod_pos_bound (SPSC.tail_ q - SPSC.head_ q) N HN) as Hs.
  unfold queued. rewrite omap_total, length_seq; [lia|].
  intros i _. apply lookup_lt_is_Some_2.
  pose proof (Z.mod_pos_bound (SPSC.head_ q + Z.of_nat i) N HN). lia.
Qed.

Lemma next_index i : Z.land (i + 1) (SPSC.MASK N) = (i + 1) mod N.
Proof. unfold SPSC.MASK. apply mask_mod. lia. Qed.

(** [x mod N] for an [x] at most one lap away. *)
Lemma mod_lap x :
  - N <= x < 2 * N ->
  x mod N = if x <? 0 then x + N else if x <? N then x else x - N.
Proof.
  intros Hx. pose proof ring_size_pos as HN.
  destruct (x <? 0) eqn:E0; [apply Z.ltb_lt in E0|apply Z.ltb_ge in E0].
  - replace x with (x + N + (-1) * N) at 1 by lia.
    rewrite Z_mod_plus_full. apply Z.mod_small. lia.
  - destruct (x <? N) eqn:E1; [apply Z.ltb_lt in E1|apply Z.ltb_ge in E1].
    + apply Z.mod_small. lia.
    + replace x with (x - N + 1 * N) at 1 by lia.
      rewrite Z_mod_plus_full. apply Z.mod_small. lia.
Qed.

Ltac laps :=
  repeat first
    [ match goal with
      | |- context [?x mod 2 ^ n] => rewrite (mod_lap x) by lia
      | H : context [?x mod 2 ^ n] |- _ => rewrite (mod_lap x) in H by lia
      end
    | match goal with
      | |- context [?a <? ?b] => destruct (Z.ltb_spec a b)
      | H : context [?a <? ?b] |- _ => destruct (Z.ltb_spec a b)
      end ].

Lemma push_queued (q : SPSC.t T) item :
  queue_ok q ->
  queue_ok (snd (SPSC.push N q item)) /\
  (fst (SPSC.push N q item), queued (snd (SPSC.push N q item)))
  = (if Z.of_nat (length (queued q)) <? SPSC.capacity N
     then (true, queued q ++ [item]) else (false, queued q)).
Proof.
  intros Hok. pose proof Hok as (Hh & Ht & Hl). pose proof ring_size_pos as HN.
  pose proof (length_queued q Hok) as Hlen.
  unfold SPSC.push, SPSC.capacity. cbv zeta.
  rewrite next_index.
  set (h := SPSC.head_ q) in *. set (t := SPSC.tail_ q) in *.
  destruct ((t + 1) mod N =? h) eqn:E;
    [apply Z.eqb_eq in E|apply Z.eqb_neq in E]; cbn [fst snd].
  - split; [exact Hok|].
    replace (Z.of_nat (length (queued q)) <? N - 1) with false;
      [reflexivity|]. symmetry. apply Z.ltb_ge. rewrite Hlen.
    clear Hlen. laps; lia.
  - assert (Hlt : (t - h) mod N < N - 1) by (clear Hlen; laps; lia).
    split.
    { unfold queue_ok. cbn [SPSC.head_ SPSC.tail_ SPSC.buffer_].
      rewrite length_insert. fold h.
      split; [exact Hh|]. split; [|exact Hl].
      apply Z.mod_pos_bound. lia. }
    replace (Z.of_nat (length (queued q)) <? N - 1) with true
      by (symmetry; apply Z.ltb_lt; lia).
    f_equal. unfold queued. cbn [SPSC.head_ SPSC.tail_ SPSC.buffer_].
    fold h t.
    assert (Hs1 : ((t + 1) mod N - h) mod N = (t - h) mod N + 1)
      by (clear Hlen; laps; lia).
    rewrite Hs1.
    assert (Hs0 : 0 <= (t - h) mod N) by (apply Z.mod_pos_bound; lia).
    replace (Z.to_nat ((t - h) mod N + 1))
      with (S (Z.to_nat ((t - h) mod N))) by lia.
    rewrite seq_S, omap_app. cbn [Nat.add].
    assert (Hat : (h + Z.of_nat (Z.to_nat ((t - h) mod N))) mod N = t).
    { rewrite Z2Nat.id by lia. clear Hlen. laps; lia. }
    f_equal.
    + apply omap_agree. intros i Hi. apply in_seq in Hi.
      rewrite list_lookup_insert_ne; [reflexivity|].
      assert (Hi' : 0 <= Z.of_nat i < (t - h) mod N) by lia.
      pose proof (Z.mod_pos_bound (h + Z.of_nat i) N HN) as Hr.
      assert ((h + Z.of_nat i) mod N <> t); [|lia].
      clear Hlen Hat Hs1 Hlt Hr. laps; lia.
    + cbn. rewrite Hat, list_lookup_insert_eq by lia. reflexivity.
Qed.

Lemma pop_queued (q : SPSC.t T) item :
  queue_ok q ->
  queue_ok (snd (SPSC.pop N q item)) /\
  (fst (SPSC.pop N q item), queued (snd (SPSC.pop N q item)))
  = match queued q with
    | [] => ((false, item), [])
    | x :: l => ((true, x), l)
    end.
Proof.
  intros Hok. pose proof Hok as (Hh & Ht & Hl). pose proof ring_size_pos as HN.
  unfold SPSC.pop. cbv zeta. rewrite next_index.
  set (h := SPSC.head_ q) in *. set (t := SPSC.tail_ q) in *.
  destruct (h =? t) eqn:E; [apply Z.eqb_eq in E|apply Z.eqb_neq in E];
    cbn [fst snd].
  - split; [exact Hok|]. unfold queued. fold h t. rewrite E, Z.sub_diag.
    rewrite Z.mod_0_l by lia. reflexivity.
  - split.
    { unfold queue_ok. cbn [SPSC.head_ SPSC.tail_ SPSC.buffer_]. fold t.
      split; [apply Z.mod_pos_bound; lia|]. auto. }
    unfold queued. cbn [SPSC.head_ SPSC.tail_ SPSC.buffer_]. fold h t.
    assert (Hs : (t - h) mod N = (t - (h + 1) mod N) mod N + 1) by (laps; lia).
    assert (Hs0 : 0 <= (t - (h + 1) mod N) mod N)
      by (apply Z.mod_pos_bound; lia).
    rewrite Hs.
    replace (Z.to_nat ((t - (h + 1) mod N) mod N + 1))
      with (S (Z.to_nat ((t - (h + 1) mod N) mod N))) by lia.
    rewrite <- cons_seq, <- seq_shift.
    destruct (lookup_lt_is_Some_2 (SPSC.buffer_ q) (Z.to_nat h)) as [x Hx];
      [lia|].
    fold h in Hx. rewrite Hx.
    cbn [omap list_omap default from_option id].
    replace ((h + Z.of_nat 0) mod N) with h by (cbn; laps; lia).
    rewrite Hx. cbn. f_equal.
    rewrite omap_map. apply omap_agree. intros i Hi. apply in_seq in Hi.
    do 2 f_equal.
    assert (Hi' : 0 <= Z.of_nat i < (t - (h + 1) mod N) mod N) by lia.
    replace (Z.of_nat (S i)) with (Z.of_nat i + 1) by lia.
    clear Hs Hx. laps; lia.
Qed.

Lemma queue_call_fifo (q : SPSC.t T) dummy c :
  queue_ok q ->
  queue_ok (snd (queue_call N dummy q c)) /\
  (fst (queue_call N dummy q c), queued (snd (queue_call N dummy q c)))
  = fifo_call (SPSC.capacity N) (queued q) c.
Proof.
  intros Hok. destruct c as [item|]; cbn [queue_call fifo_call].
  - destruct (push_queued q item Hok) as [Hok' He].
    destruct (SPSC.push N q item) as [ok q']. cbn [fst snd] in *.
    split; [exact Hok'|].
    destruct (Z.of_nat (length (queued q)) <? SPSC.capacity N);
      now injection He as -> ->.
  - destruct (pop_queued q dummy Hok) as [Hok' He].
    destruct (SPSC.pop N q dummy) as [[ok item] q']. cbn [fst snd] in *.
    split; [exact Hok'|].
    destruct (queued q); now injection He as -> -> ->.
Qed.

Lemma observers_queued (q : SPSC.t T) :
  queue_ok q ->
  SPSC.size N q = Z.of_nat (length (queued q)) /\
  SPSC.empty q = match queued q with [] => true | _ :: _ => false end.
Proof.
  intros Hok. pose proof (length_queued q Hok) as Hlen.
  destruct Hok as (Hh & Ht & _).
  split; [now rewrite size_queued|].
  unfold SPSC.empty.
  destruct (queued q) as [|x l]; cbn [length] in Hlen.
  - apply Z.eqb_eq. laps; lia.
  - apply Z.eqb_neq. intros He. rewrite He, Z.sub_diag in Hlen.
    rewrite Z.mod_0_l in Hlen by (pose proof ring_size_pos; lia). lia.
Qed.

End QueueFacts.

(** X18.  Used by calls that do not overlap, the ring buffer is a
    first-in first-out queue of at most [N - 1] items: whatever sequence of
    [push] and [pop] calls is made on a queue whose indices are in range,
    every call answers as the same call on a bounded list does ([push]
    fails exactly when [N - 1] items are queued, [pop] hands out the oldest
    item and fails exactly when none is queued), and afterwards [size]
    is the number of queued items and [empty] tells whether there is none. *)
Theorem queue_is_a_bounded_fifo {T : Type} (n : Z) (dummy : T)
        (cs : list (QueueCall T)) :
  0 <= n <= 63 ->
  forall q : SPSC.t T,
    queue_ok n q ->
    let after := snd (queue_calls (2 ^ n) dummy q cs) in
    fst (queue_calls (2 ^ n) dummy q cs)
    = fst (fifo_calls (SPSC.capacity (2 ^ n)) (queued n q) cs) /\
    queued n after
    = snd (fifo_calls (SPSC.capacity (2 ^ n)) (queued n q) cs) /\
    queue_ok n after /\
    SPSC.size (2 ^ n) after = Z.of_nat (length (queued n after)) /\
    SPSC.empty after = match queued n after with [] => true | _ :: _ => false end.
Proof.
  intros Hn. induction cs as [|c cs IH]; intros q Hok; cbv zeta.
  - cbn [queue_calls fifo_calls fst snd].
    pose proof (observers_queued n Hn q Hok) as [Hs He]. auto.
  - cbn [queue_calls fifo_calls].
    destruct (queue_call_fifo n Hn q dummy c Hok) as [Hok1 Hc].
    destruct (queue_call (2 ^ n) dummy q c) as [a q1]. cbn [fst snd] in *.
    rewrite <- Hc. specialize (IH q1 Hok1). cbv zeta in IH.
    destruct (queue_calls (2 ^ n) dummy q1 cs) as [answers q2].
    destruct (fifo_calls (SPSC.capacity (2 ^ n)) (queued n q1) cs)
      as [answers' l2].
    cbn [fst snd] in *. destruct IH as (-> & IH). auto.
Qed.

(** A queue of four slots: the fourth push finds it full, the items come
    out in the order they went in, and the indices wrap. *)
Definition ring_calls : list (QueueCall Z) :=
  [QPush 10; QPush 20; QPush 30; QPush 40; QPop; QPop; QPush 50; QPush 60;
   QPop; QPop; QPop; QPop].

Lemma queue_is_a_bounded_fifo_witness :
  let q := SPSC.create [0; 0; 0; 0] in
  let after := snd (queue_calls 4 0 q ring_calls) in
  fst (queue_calls 4 0 q ring_calls)
  = [Pushed true; Pushed true; Pushed true; Pushed false;
     Popped (Some 10); Popped (Some 20); Pushed true; Pushed true;
     Popped (Some 30); Popped (Some 50); Popped (Some 60); Popped None] /\
  fst (queue_calls 4 0 q ring_calls)
  = fst (fifo_calls (SPSC.capacity 4) (queued 2 q) ring_calls) /\
  queued 2 after
  = snd (fifo_calls (SPSC.capacity 4) (queued 2 q) ring_calls) /\
  queue_ok 2 after /\
  SPSC.size 4 after = Z.of_nat (length (queued 2 after)) /\
  SPSC.empty after = match queued 2 after with [] => true | _ :: _ => false end.
Proof.
  intros q after. split; [vm_compute; reflexivity|].
  apply (queue_is_a_bounded_fifo 2 0 ring_calls); [lia|].
  unfold queue_ok. cbn. lia.
Defined.

(** * Who owns a pool node *)

Section Ownership.
Variable h : Handle.

(** How often handle [h] occurs in a queue, in a ladder, on the free list. *)
Definition held (ns : list (Handle * OrderNode.t)) : nat :=
  length (List.filter (fun hn => Nat.eqb (fst hn) h) ns).

Definition held_levels (ls : list LevelFIFO) : nat :=
  fold_right (fun l acc => (held (nodes l) + acc)%nat) 0%nat ls.

Definition held_ladder (pl : PriceLevelsArray) : nat := held_levels (levels_ pl).

Definition on_free_list (p : SlabPool) : nat :=
  length (List.filter (fun x => Nat.eqb x h) (free_list_ p)).

(** 1 for a handle the pool has handed out at some time, else 0. *)
Definition issued (p : SlabPool) : nat :=
  if (1 <=? h)%nat && (h <? next_fresh_ p)%nat then 1%nat else 0%nat.

Definition owned_once (b : OrderBook) : Prop :=
  (1 <= next_fresh_ (order_pool_ b))%nat /\
  (on_free_list (order_pool_ b) + held_ladder (bids_ b) + held_ladder (asks_ b)
   = issued (order_pool_ b))%nat.

Lemma owned_once_sides s b :
  owned_once b <->
  (1 <= next_fresh_ (order_pool_ b))%nat /\
  (on_free_list (order_pool_ b) + held_ladder (side_levels s b)
   + held_ladder (side_levels (opposite s) b)
   = issued (order_pool_ b))%nat.
Proof. unfold owned_once. destruct s; cbn; split; intros [? ?]; split; auto; lia. Qed.

Lemma held_nil : held [] = 0%nat.
Proof. reflexivity. Qed.

Lemma held_app ns1 ns2 : held (ns1 ++ ns2) = (held ns1 + held ns2)%nat.
Proof. unfold held. now rewrite List.filter_app, length_app. Qed.

Lemma held_cons h0 n ns :
  held ((h0, n) :: ns) = ((if Nat.eqb h0 h then 1 else 0) + held ns)%nat.
Proof. unfold held. cbn. now destruct (Nat.eqb h0 h). Qed.

Lemma held_levels_insert ls : forall i l l',
  ls !! i = Some l ->
  (held_levels (<[i := l']> ls) + held (nodes l)
   = held_levels ls + held (nodes l'))%nat.
Proof.
  induction ls as [|x ls IH]; intros i l l' Hl; [discriminate|].
  destruct i as [|i]; simpl in Hl |- *.
  - injection Hl as ->. lia.
  - specialize (IH i l l' Hl). lia.
Qed.

Lemma held_levels_lookup ls : forall i l,
  ls !! i = Some l -> (held (nodes l) <= held_levels ls)%nat.
Proof.
  induction ls as [|x ls IH]; intros i l Hl; [discriminate|].
  destruct i as [|i]; simpl in Hl |- *.
  - injection Hl as ->. lia.
  - specialize (IH i l Hl). lia.
Qed.

Lemma held_unlink h0 ns n :
  Level.lookup h0 ns = Some n ->
  ((if Nat.eqb h0 h then 1 else 0) + held (Level.unlink h0 ns) = held ns)%nat.
Proof.
  induction ns as [|[h' n'] ns IH]; cbn [Level.lookup Level.unlink];
    [discriminate|].
  destruct (Nat.eqb h' h0) eqn:E.
  - apply Nat.eqb_eq in E. subst h'. intros _. now rewrite held_cons.
  - intros H. rewrite !held_cons. specialize (IH H). lia.
Qed.

Lemma held_update h0 f ns : held (Level.update h0 f ns) = held ns.
Proof.
  induction ns as [|[h' n'] ns IH]; [reflexivity|].
  cbn [Level.update]. destruct (Nat.eqb h' h0); rewrite !held_cons; congruence.
Qed.

Lemma on_free_list_free p h0 :
  on_free_list (Pool.released p h0)
  = ((if Nat.eqb h0 h then 1 else 0) + on_free_list p)%nat.
Proof. unfold on_free_list, Pool.released. cbn. now destruct (Nat.eqb h0 h). Qed.

Lemma issued_free p h0 : issued (Pool.released p h0) = issued p.
Proof. reflexivity. Qed.

Lemma alloc_owned p h0 p' :
  Pool.alloc p = (h0, p') ->
  (1 <= next_fresh_ p)%nat ->
  (1 <= next_fresh_ p')%nat /\
  (on_free_list p' + (if Nat.eqb h0 h then 1 else 0) + issued p
   = on_free_list p + issued p')%nat.
Proof.
  unfold Pool.alloc, on_free_list, issued.
  destruct (free_list_ p) as [|x fl] eqn:E; intros H Hn;
    injection H as <- <-; cbn [free_list_ next_fresh_ List.filter length].
  - split; [lia|].
    destruct (Nat.eqb_spec (next_fresh_ p) h) as [<-|Hne].
    + replace (next_fresh_ p <? next_fresh_ p)%nat with false
        by (symmetry; apply Nat.ltb_ge; lia).
      replace (next_fresh_ p <? S (next_fresh_ p))%nat with true
        by (symmetry; apply Nat.ltb_lt; lia).
      replace (1 <=? next_fresh_ p)%nat with true
        by (symmetry; apply Nat.leb_le; lia).
      cbn. lia.
    + destruct (1 <=? h)%nat; cbn [andb]; [|lia].
      destruct (Nat.ltb_spec h (next_fresh_ p)), (Nat.ltb_spec h (S (next_fresh_ p)));
        lia.
  - split; [exact Hn|]. destruct (Nat.eqb x h); cbn [length]; lia.
Qed.

Lemma match_level_owned tid tu ts stp bp makers kept total qty filled w r w' :
  match_level tid tu ts stp bp makers kept total qty filled w = Done r w' ->
  next_fresh_ (order_pool_ (book w')) = next_fresh_ (order_pool_ (book w)) /\
  (on_free_list (order_pool_ (book w')) + held (nodes (fst (fst r)))
   = on_free_list (order_pool_ (book w)) + held kept + held makers)%nat.
Proof.
  revert makers kept total qty filled w r w'.
  apply (match_level_ind tid tu ts stp bp
    (fun makers kept _ _ _ w r w' =>
       next_fresh_ (order_pool_ (book w')) = next_fresh_ (order_pool_ (book w))
       /\ (on_free_list (order_pool_ (book w')) + held (nodes (fst (fst r)))
           = on_free_list (order_pool_ (book w)) + held kept + held makers)%nat)).
  - intros. cbn [fst nodes]. rewrite held_nil. split; [reflexivity|lia].
  - intros. cbn [fst nodes]. rewrite held_app. split; [reflexivity|lia].
  - intros h0 maker rest kept total qty filled w r w' _ _ _ [IHn IH].
    rewrite held_app, !held_cons, held_nil in *.
    split; [exact IHn|lia].
  - intros h0 maker rest kept total qty filled w ix' r w' _ _ _ w1 _ w3 [IHn IH].
    assert (Hp : order_pool_ (book w3)
                 = Pool.released (order_pool_ (book w)) h0).
    { subst w3 w1. unfold after_free, set_book, after_trade.
      now destruct (on_trade_ (book w)). }
    rewrite Hp in IH, IHn. rewrite on_free_list_free in IH.
    rewrite held_cons. split; [exact IHn|lia].
  - intros h0 maker rest kept total qty filled w r w' _ _ _ w1 [IHn IH].
    assert (Hp : order_pool_ (book w1) = order_pool_ (book w)).
    { subst w1. unfold after_trade. now destruct (on_trade_ (book w)). }
    rewrite Hp in IH, IHn.
    rewrite held_app, !held_cons, held_nil in *.
    split; [exact IHn|lia].
Qed.

Lemma match_loop_owned s px tid tu ts stp fuel qty filled w r w' :
  match_loop s px tid tu ts stp fuel qty filled w = Done r w' ->
  owned_once (book w) -> owned_once (book w').
Proof.
  revert fuel qty filled w r w'.
  assert (Hround : forall w i l l' qty qty' filled filled' w1,
    levels_ (side_levels s (book w)) !! i = Some l ->
    match_level tid tu ts stp (side_best s (side_levels s (book w)))
                (nodes l) [] (total_qty l) qty filled w
    = Done (l', qty', filled') w1 ->
    owned_once (book w) ->
    owned_once (store_level s i l' (book w1))).
  { intros w i l l' qty qty' filled filled' w1 Hl Hm Hacc.
    pose proof (match_level_frame _ _ _ _ _ _ _ _ _ _ _ _ _ Hm) as Hf.
    apply (owned_once_sides s) in Hacc. destruct Hacc as [Hn Hacc].
    pose proof (held_levels_lookup _ _ _ Hl) as Hle.
    apply match_level_owned in Hm as [Hfresh Hm].
    cbn [fst] in Hm. rewrite held_nil in Hm.
    apply (owned_once_sides s).
    rewrite store_level_pool, side_levels_store.
    replace (side_levels (opposite s) (store_level s i l' (book w1)))
      with (side_levels (opposite s) (book w1)) by now destruct s.
    rewrite !(same_ladders_side _ _ _ Hf).
    pose proof (held_levels_insert _ _ _ l' Hl) as Hins.
    unfold issued in *. rewrite Hfresh.
    unfold held_ladder in *. cbn [PLA.store levels_]. split; lia. }
  apply (match_loop_ind s px tid tu ts stp
           (fun _ _ _ w _ w' =>
              owned_once (book w) -> owned_once (book w'))); auto.
  - intros fuel qty filled w i l l' qty' filled' w1 _ _ Hl _ _ Hm _ Hacc.
    cbn [book set_book]. eapply Hround; eauto.
  - intros fuel qty filled w i l l' qty' filled' w1 w3 r w'
           _ _ Hl _ _ Hm _ Hr IH Hacc.
    apply IH. apply refresh_pool in Hr as (Hp & Hlv & Hopp).
    pose proof (Hround _ _ _ _ _ _ _ _ _ Hl Hm Hacc) as H1.
    apply (owned_once_sides s) in H1. apply (owned_once_sides s).
    cbn [book set_book] in Hp, Hlv, Hopp.
    rewrite Hp, Hopp. unfold held_ladder at 1. rewrite Hlv. exact H1.
Qed.

Lemma cross_and_match_owned is_bid cmd w filled w1 :
  cross_and_match is_bid cmd w = Done filled w1 ->
  owned_once (book w) -> owned_once (book w1).
Proof.
  intros H Hacc. apply cross_and_match_done in H as [[_ ->]|[fuel H]];
    [exact Hacc|].
  eapply match_loop_owned; eauto.
Qed.

Lemma rest_residual_owned is_bid cmd remaining w w' :
  rest_residual is_bid cmd remaining w = Done tt w' ->
  owned_once (book w) -> owned_once (book w').
Proof.
  intros H Hacc.
  pose proof (rest_residual_opposite _ _ _ _ _ H) as Hopp.
  set (s := taker_side is_bid) in *.
  apply rest_residual_done in H
    as (i & level & h0 & pool' & pl' & ix' & _ & Hl & Ha & Hr & _ & ->).
  fold s in Hl, Hr.
  apply rested_ladder_levels in Hr as [Hlv _].
  apply (owned_once_sides s) in Hacc. destruct Hacc as [Hn Hacc].
  apply alloc_owned in Ha as [Hn' Ha]; [|exact Hn].
  apply (owned_once_sides s).
  rewrite Hopp. cbn [book set_book].
  assert (Hs : side_levels s (with_index ix'
                 (with_side_levels (taker_side is_bid) pl'
                    (with_pool pool' (book w)))) = pl')
    by (subst s; now destruct is_bid).
  assert (Hp : order_pool_ (with_index ix'
                 (with_side_levels (taker_side is_bid) pl'
                    (with_pool pool' (book w)))) = pool')
    by now destruct is_bid.
  rewrite Hs, Hp. split; [exact Hn'|].
  pose proof (held_levels_insert _ _ _
                (Level.enqueue level h0
                   (OrderNode.mk (OrderCommand.order_id cmd)
                      (OrderCommand.user_id cmd) remaining
                      (OrderCommand.recv_ts cmd) (OrderCommand.flags cmd)))
                Hl) as Hins.
  unfold held_ladder in *. rewrite Hlv.
  cbn [Level.enqueue nodes] in Hins.
  rewrite held_app, held_cons, held_nil in Hins. lia.
Qed.

Lemma submit_limit_owned now cmd w r w' :
  submit_limit now cmd w = Done r w' ->
  owned_once (book w) -> owned_once (book w').
Proof.
  intros H Hacc. rewrite submit_limit_is_side in H.
  apply submit_limit_side_done in H
    as [(_ & _ & He & _)|(filled & w1 & w2 & Hm & He & Hcase)];
    apply emit_book_update_book in He; rewrite He; [exact Hacc|].
  apply cross_and_match_owned in Hm; [|exact Hacc].
  destruct Hcase as [(_ & _ & Hr & _)|[-> _]]; [|exact Hm].
  eapply rest_residual_owned; eauto.
Qed.

Lemma submit_market_owned now cmd w r w' :
  submit_market now cmd w = Done r w' ->
  owned_once (book w) -> owned_once (book w').
Proof.
  intros H Hacc.
  apply submit_market_done in H as (fuel & filled & w1 & Hm & He & _).
  apply emit_book_update_book in He. rewrite He.
  eapply match_loop_owned; eauto.
Qed.

Lemma cancel_owned now id w ok w' :
  cancel now id w = Done ok w' ->
  owned_once (book w) -> owned_once (book w').
Proof.
  intros H Hacc. destruct ok.
  - apply cancel_levels in H
      as (entry & i & level & level' & _ & Hel & Her & Hlv & Hopp & Hp).
    set (s := OrderEntry.side entry) in *.
    apply entry_level_lookup in Hel. fold s in Hel.
    apply erase_done in Her as (n & Hn & ->).
    apply held_unlink in Hn.
    apply (owned_once_sides s) in Hacc. destruct Hacc as [Hf Hacc].
    apply (owned_once_sides s).
    rewrite Hopp, Hp. unfold held_ladder in *. rewrite Hlv.
    pose proof (held_levels_insert _ _ _
                  (mkLevel (Level.unlink (OrderEntry.node entry) (nodes level))
                           (total_qty level - OrderNode.qty n)) Hel) as Hins.
    pose proof (held_levels_lookup _ _ _ Hel) as Hle.
    rewrite on_free_list_free, issued_free.
    cbn [nodes Pool.released next_fresh_] in *. split; [exact Hf|lia].
  - apply cancel_done in H as [(_ & -> & _)|(Hf & _)];
      [exact Hacc|discriminate].
Qed.

Lemma modify_owned now id new_price new_qty w r w' :
  modify now id new_price new_qty w = Done r w' ->
  owned_once (book w) -> owned_once (book w').
Proof.
  intros H Hacc.
  apply modify_done in H as [(_ & -> & _)|(entry & n & _ & Hn & H)];
    [exact Hacc|].
  destruct H as [(_ & i & level & level' & Hel & Hr & He & _)
                |(_ & w2 & Hcn & Hs)].
  - apply emit_book_update_book in He. rewrite He. cbn [book set_book].
    set (s := OrderEntry.side entry) in *.
    apply entry_level_lookup in Hel. fold s in Hel.
    unfold Level.reduce_qty in Hr.
    destruct (Level.lookup _ _); [|discriminate]. injection Hr as <-.
    apply (owned_once_sides s) in Hacc. destruct Hacc as [Hf Hacc].
    apply (owned_once_sides s).
    rewrite store_level_pool, side_levels_store.
    replace (side_levels (opposite s) (store_level s i _ (book w)))
      with (side_levels (opposite s) (book w)) by now destruct s.
    match goal with |- context [PLA.store _ i ?l] =>
      pose proof (held_levels_insert _ _ _ l Hel) as Hins end.
    unfold held_ladder in *. cbn [PLA.store levels_ nodes] in *.
    rewrite held_update in Hins. split; [exact Hf|lia].
  - apply cancel_owned in Hcn; [|exact Hacc].
    eapply submit_limit_owned; eauto.
Qed.

Lemma step_owned now cmd w reply w' :
  step now cmd w = Done reply w' ->
  owned_once (book w) -> owned_once (book w').
Proof.
  intros H Hacc. unfold step in H.
  destruct (OrderCommand.type cmd).
  - destruct (OrderCommand.order_type cmd);
      apply bind_done in H as (r & w1 & H & Hr); injection Hr as <- <-;
      first [eapply submit_limit_owned; eassumption
            |eapply submit_market_owned; eassumption].
  - apply bind_done in H as (r & w1 & H & Hr); injection Hr as <- <-.
    eapply cancel_owned; eauto.
  - apply bind_done in H as (r & w1 & H & Hr); injection Hr as <- <-.
    eapply modify_owned; eauto.
Qed.

Lemma run_owned now cmds : forall w replies w',
  run now cmds w = Done replies w' ->
  owned_once (book w) -> owned_once (book w').
Proof.
  induction cmds as [|cmd cmds IH]; intros w replies w' H Hacc.
  - now injection H as <- <-.
  - cbn [run] in H.
    apply bind_done in H as (reply & w1 & Hs & H).
    apply bind_done in H as (rs & w2 & Hr & H). injection H as <- <-.
    eapply IH; eauto. eapply step_owned; eauto.
Qed.

Lemma held_levels_fresh c : held_levels (replicate c Level.empty_level) = 0%nat.
Proof. induction c as [|c IH]; [reflexivity|exact IH]. Qed.

Lemma new_engine_owned symbol band : owned_once (book (new_engine symbol band)).
Proof.
  unfold owned_once, held_ladder, on_free_list, issued.
  cbn [book new_engine set_on_book_update set_on_trade new_book order_pool_
       bids_ asks_ PLA.create levels_ Pool.create free_list_ next_fresh_
       List.filter length].
  rewrite held_levels_fresh. split; [lia|].
  destruct (Nat.leb_spec 1 h), (Nat.ltb_spec h 1); cbn [andb]; lia.
Qed.

End Ownership.

(** X19.  Every pool node has one owner at a time: after every command
    sequence that a fresh engine runs to completion, every Cancel and Modify
    that finds its identifier finding an entry whose node is queued in the
    level the entry names, each handle the pool has handed out at some time
    is either once on the free list or the handle of exactly one queued node
    of one ladder, never both and never twice; a handle not yet handed out is
    neither. *)
Theorem pool_nodes_have_one_owner now symbol band cmds replies w :
  lookups_live now cmds (new_engine symbol band) = true ->
  run now cmds (new_engine symbol band) = Done replies w ->
  forall h,
    (on_free_list h (order_pool_ (book w))
     + held_ladder h (bids_ (book w)) + held_ladder h (asks_ (book w))
     = issued h (order_pool_ (book w)))%nat.
Proof.
  intros _ H h.
  exact (proj2 (run_owned h now cmds _ _ _ H (new_engine_owned h symbol band))).
Qed.

(** In the mixed script node 1 is handed out to order 1, released by the
    cancel and handed out again to order 4; node 2 holds order 2; node 3 was
    never handed out. *)
Lemma pool_nodes_have_one_owner_witness :
  map (fun h => (on_free_list h (order_pool_ (book mixed_world)),
                 held_ladder h (bids_ (book mixed_world)),
                 held_ladder h (asks_ (book mixed_world)),
                 issued h (order_pool_ (book mixed_world))))
      [1; 2; 3]%nat
  = [(0, 0, 1, 1); (0, 1, 0, 1); (0, 0, 0, 0)]%nat /\
  forall h,
    (on_free_list h (order_pool_ (book mixed_world))
     + held_ladder h (bids_ (book mixed_world))
     + held_ladder h (asks_ (book mixed_world))
     = issued h (order_pool_ (book mixed_world)))%nat.
Proof.
  split; [vm_compute; reflexivity|]. unfold mixed_world.
  destruct (run counting_clock mixed_script (new_engine 1 band_100_200))
    as [replies w|f w] eqn:E; [|vm_compute in E; discriminate E].
  apply (pool_nodes_have_one_owner counting_clock 1 band_100_200
           mixed_script replies w); [vm_compute; reflexivity|exact E].
Defined.

(** * Resting an order and cancelling it *)

Lemma insert_shape {V} (zero : V) (m : FlatMap.t V) k v m' :
  table_shape m -> FlatMap.insert zero m k v = Some m' -> table_shape m'.
Proof.
  intros Hs. unfold FlatMap.insert.
  destruct (10 * FlatMap.size_ m >=? 7 * FlatMap.capacity_ m).
  - destruct (FlatMap.resize zero m (FlatMap.capacity_ m * 2)) as [m1|] eqn:Hr;
      [|discriminate].
    intros H. apply (insert_internal_shape zero m1 k v m'); [|exact H].
    destruct Hs as (n & Hn & Hcap & _). rewrite Hcap in Hr.
    replace (2 ^ n * 2) with (2 ^ (n + 1)) in Hr by (rewrite Z.pow_add_r; lia).
    eapply resize_shape; [|exact Hr]. lia.
  - intros H. now apply (insert_internal_shape zero m k v m').
Qed.

Lemma submit_limit_shape now cmd w r w' :
  submit_limit now cmd w = Done r w' ->
  index_shape (book w) -> index_shape (book w').
Proof.
  intros H Hs. rewrite submit_limit_is_side in H.
  apply submit_limit_side_done in H
    as [(_ & _ & He & _)|(filled & w1 & w2 & Hm & He & Hcase)];
    apply emit_book_update_book in He; rewrite He; [exact Hs|].
  apply cross_and_match_shape in Hm; [|exact Hs].
  destruct Hcase as [(_ & _ & Hr & _)|[-> _]]; [|exact Hm].
  apply rest_residual_done in Hr
    as (i & level & h & pool' & pl' & ix' & _ & _ & _ & _ & Hix & ->).
  unfold index_shape in *. cbn [book set_book id_index_ with_index].
  exact (insert_shape OrderEntry.zero _ _ _ _ Hm Hix).
Qed.

Lemma step_shape now cmd w reply w' :
  step now cmd w = Done reply w' ->
  index_shape (book w) -> index_shape (book w').
Proof.
  intros H Hs. unfold step in H.
  destruct (OrderCommand.type cmd).
  - destruct (OrderCommand.order_type cmd);
      apply bind_done in H as (r & w1 & H & Hr); injection Hr as <- <-;
      try (eapply submit_limit_shape; eassumption);
      apply submit_market_done in H as (fuel & filled & w2 & Hm & He & _);
      apply emit_book_update_book in He; rewrite He;
      eapply match_loop_shape; eauto.
  - apply bind_done in H as (r & w1 & H & Hr); injection Hr as <- <-.
    apply cancel_band_shape in H as [_ H]. exact (H Hs).
  - apply bind_done in H as (r & w1 & H & Hr); injection Hr as <- <-.
    apply modify_done in H as [(_ & -> & _)|(entry & n & _ & _ & H)];
      [exact Hs|].
    destruct H as [(_ & i & level & level' & _ & _ & He & _)
                  |(_ & w2 & Hcn & Hsub)].
    + apply emit_book_update_book in He. rewrite He.
      unfold index_shape, set_book, store_level in *.
      now destruct (OrderEntry.side entry).
    + apply cancel_band_shape in Hcn as [_ Hcn].
      eapply submit_limit_shape; [exact Hsub|]. exact (Hcn Hs).
Qed.

Lemma run_shape now cmds : forall w replies w',
  run now cmds w = Done replies w' ->
  index_shape (book w) -> index_shape (book w').
Proof.
  induction cmds as [|cmd cmds IH]; intros w replies w' H Hs.
  - now injection H as <- <-.
  - cbn [run] in H.
    apply bind_done in H as (reply & w1 & Hst & H).
    apply bind_done in H as (rs & w2 & Hr & H). injection H as <- <-.
    eapply IH; eauto. eapply step_shape; eauto.
Qed.

Lemma new_engine_shape symbol band : index_shape (book (new_engine symbol band)).
Proof. exact (fresh_shape OrderEntry.zero 13 ltac:(lia)). Qed.

(** A handle that the queue does not hold yet denotes the node appended
    under it. *)
Lemma tail_node_fresh h x ns :
  held h ns = 0%nat ->
  Level.lookup h (ns ++ [(h, x)]) = Some x /\
  Level.unlink h (ns ++ [(h, x)]) = ns.
Proof.
  induction ns as [|[h' n'] ns IH]; intros Hh.
  - cbn. now rewrite Nat.eqb_refl.
  - rewrite held_cons in Hh. cbn [app Level.lookup Level.unlink].
    destruct (Nat.eqb h' h); [lia|].
    destruct IH as [-> ->]; [lia|]. auto.
Qed.

(** X20.  Rest, then cancel: on a book that a fresh engine reached by a
    completed run in which every Cancel and Modify that found its identifier
    found an entry whose node was queued in the level the entry named, when
    a completed GTC or GTD limit order with a non-zero identifier leaves a
    remainder resting, a completed cancel of its identifier succeeds and
    takes out exactly the node that was appended: every level of the order's
    own side is afterwards as it was before the order was submitted, and the
    opposite ladder is as the order's matching left it. *)
Theorem rest_then_cancel_restores_the_queue
        now symbol band cmds replies w cmd r w1 ok w2 :
  lookups_live now cmds (new_engine symbol band) = true ->
  run now cmds (new_engine symbol band) = Done replies w ->
  submit_limit now cmd w = Done r w1 ->
  never_rests (OrderCommand.tif cmd) = false ->
  0 < ExecResult.remaining r ->
  OrderCommand.order_id cmd <> 0 ->
  cancel now (OrderCommand.order_id cmd) w1 = Done ok w2 ->
  let own := OrderCommand.side cmd in
  ok = true /\
  levels_ (side_levels own (book w2)) = levels_ (side_levels own (book w)) /\
  side_levels (opposite own) (book w2) = side_levels (opposite own) (book w1).
Proof.
  intros _ Hrun Hsub Hnr Hrem Hid Hc own.
  pose proof (run_shape _ _ _ _ _ Hrun (new_engine_shape symbol band)) as Hshape.
  destruct (submit_limit_rests _ _ _ _ _ Hsub Hnr Hrem Hid Hshape)
    as (i & level & h0 & Hi & Hl & Hlv & Hix & Hi1).
  fold own in Hi, Hl, Hlv, Hix, Hi1.
  pose proof (lookup_lt_Some _ _ _ Hl) as Hlt.
  assert (Hfresh : held h0 (nodes level) = 0%nat).
  { pose proof (run_owned h0 _ _ _ _ _ Hrun (new_engine_owned h0 symbol band))
      as Ho.
    apply (submit_limit_owned h0 _ _ _ _ _ Hsub) in Ho.
    apply (owned_once_sides h0 own) in Ho as [_ Ho].
    unfold held_ladder in Ho. rewrite Hlv in Ho.
    match type of Ho with context [<[i := ?l]> _] =>
      assert (Hq : (held h0 (nodes l)
                    <= held_levels h0 (<[i := l]> (levels_ (side_levels own (book w)))))%nat)
        by (eapply held_levels_lookup; now apply list_lookup_insert_eq)
    end.
    cbn [Level.enqueue nodes] in Hq.
    rewrite held_app, held_cons, held_nil, Nat.eqb_refl in Hq.
    assert (issued h0 (order_pool_ (book w1)) <= 1)%nat
      by (unfold issued; destruct (_ && _); lia).
    lia. }
  destruct ok.
  2:{ apply cancel_done in Hc as [(_ & _ & Hf)|(Hf & _)]; congruence. }
  apply cancel_levels in Hc
    as (entry & i' & level1 & level' & Hf & Hel & Her & Hlv2 & Hopp & _).
  rewrite Hix in Hf. injection Hf as <-.
  cbn [OrderEntry.side OrderEntry.node] in *.
  unfold entry_level in Hel. cbn [OrderEntry.side OrderEntry.price] in Hel.
  rewrite Hi1, Hlv, list_lookup_insert_eq in Hel by exact Hlt.
  injection Hel as <- <-.
  apply erase_done in Her as (n & Hn & ->).
  cbn [Level.enqueue nodes total_qty] in Hn |- *.
  destruct (tail_node_fresh h0
              (OrderNode.mk (OrderCommand.order_id cmd)
                            (OrderCommand.user_id cmd) (ExecResult.remaining r)
                            (OrderCommand.recv_ts cmd) (OrderCommand.flags cmd))
              (nodes level) Hfresh) as [Hlk Hun].
  rewrite Hlk in Hn. injection Hn as <-.
  split; [reflexivity|]. split; [|exact Hopp].
  rewrite Hlv2, Hlv, list_insert_insert_eq.
  cbn [Level.enqueue nodes total_qty]. rewrite Hun.
  cbn [OrderNode.qty].
  apply list_insert_id. rewrite Hl. f_equal.
  destruct level as [ns t]. cbn. f_equal. lia.
Qed.

(** Order 3 joins the two bids at 150 and is cancelled again. *)
Lemma rest_then_cancel_restores_the_queue_witness :
  let script := [limit_order 1 100 Bid 150 10 GTC 0;
                 limit_order 2 101 Bid 150 10 GTC 0] in
  let cmd := limit_order 3 102 Bid 150 8 GTC 0 in
  let w1 := final_world (submit_limit counting_clock cmd two_bids_world) in
  let o := cancel counting_clock 3 w1 in
  o = Done true (final_world o) /\
  levels_ (side_levels Bid (book (final_world o)))
  = levels_ (side_levels Bid (book two_bids_world)) /\
  side_levels Ask (book (final_world o)) = side_levels Ask (book w1).
Proof.
  intros script cmd w1 o.
  destruct (run counting_clock script (new_engine 1 band_100_200))
    as [replies w|f w] eqn:Hrun; [|vm_compute in Hrun; discriminate Hrun].
  assert (Hw : w = two_bids_world)
    by (unfold two_bids_world; fold script; now rewrite Hrun).
  destruct (submit_limit counting_clock cmd w) as [r w1'|f w1'] eqn:Hsub;
    [|rewrite Hw in Hsub; vm_compute in Hsub; discriminate Hsub].
  assert (Hw1 : w1' = w1)
    by (subst w1; rewrite <- Hw, Hsub; reflexivity).
  destruct (cancel counting_clock 3 w1') as [ok w2|f w2] eqn:Hc;
    [|rewrite Hw1 in Hc; subst w1; vm_compute in Hc; discriminate Hc].
  assert (Ho : o = Done ok w2) by (subst o; rewrite <- Hw1; exact Hc).
  rewrite Ho. cbn [final_world]. rewrite <- Hw, <- Hw1.
  assert (Hlive : lookups_live counting_clock script
                                (new_engine 1 band_100_200) = true)
    by (vm_compute; reflexivity).
  destruct (rest_then_cancel_restores_the_queue counting_clock 1 band_100_200
              script replies w cmd r w1' ok w2 Hlive Hrun Hsub)
    as (-> & Hown & Hopp); [reflexivity| |discriminate|exact Hc|auto].
  rewrite Hw in Hsub. vm_compute in Hsub. injection Hsub as <- _. reflexivity.
Defined.

(** * Fill-or-kill: all or nothing *)

(** The side a taker is matched against. *)
Definition maker_side (is_bid : bool) : Side := if is_bid then Ask else Bid.

(** The last tick the precheck may count: the limit, the end of the band, the
    tick before the sentinel. *)
Definition far_end (s : Side) (pl : PriceLevelsArray) (px_limit : Tick) : Tick :=
  match s with
  | Ask => Z.min px_limit (Z.min (max_tick (band_ pl)) (Sentinel.EMPTY_ASK - 1))
  | Bid => Z.max px_limit (Z.max (min_tick (band_ pl)) (Sentinel.EMPTY_BID + 1))
  end.

(** The number of ticks from [a] away to [b]. *)
Definition span (s : Side) (a b : Tick) : Z :=
  match s with Ask => b - a + 1 | Bid => a - b + 1 end.

Definition tsum (f : nat -> Z) (n : nat) : Z := sumZ (map f (seq 0 n)).

(** The liquidity the precheck counts on side [s], from its cached best. *)
Definition reach (s : Side) (pl : PriceLevelsArray) (px_limit : Tick)
  : Quantity :=
  tsum (fun k => level_liquidity pl (away s (side_best s pl) (Z.of_nat k)))
       (Z.to_nat (Z.min MAX_STEPS
                        (span s (side_best s pl) (far_end s pl px_limit)))).

Lemma crossing_liquidity_reach is_bid b px_limit :
  crossing_liquidity is_bid b px_limit
  = reach (maker_side is_bid) (side_levels (maker_side is_bid) b) px_limit.
Proof.
  unfold crossing_liquidity, crossing_ticks, reach, tsum.
  rewrite map_map. now destruct is_bid.
Qed.

Lemma tsum_S f n : tsum f (S n) = f 0%nat + tsum (fun k => f (S k)) n.
Proof. unfold tsum. now rewrite seq_ticks. Qed.

Lemma tsum_ext f g n :
  (forall k, (k < n)%nat -> f k = g k) -> tsum f n = tsum g n.
Proof.
  revert f g. induction n as [|n IH]; intros f g H; [reflexivity|].
  rewrite !tsum_S, (H 0%nat) by lia. f_equal.
  apply IH. intros k Hk. apply H. lia.
Qed.

Lemma tsum_zero f n : (forall k, (k < n)%nat -> f k = 0) -> tsum f n = 0.
Proof.
  revert f. induction n as [|n IH]; intros f H; [reflexivity|].
  rewrite tsum_S, (H 0%nat) by lia. rewrite IH; [lia|].
  intros k Hk. apply H. lia.
Qed.

Lemma tsum_split f n : forall m,
  tsum f (n + m) = tsum f n + tsum (fun k => f (n + k)%nat) m.
Proof.
  revert f. induction n as [|n IH]; intros f m.
  - change (tsum f 0) with 0. rewrite Z.add_0_l. now apply tsum_ext.
  - cbn [Nat.add]. rewrite !tsum_S, IH. cbn [Nat.add]. lia.
Qed.

Lemma tsum_nonneg f n : (forall k, 0 <= f k) -> 0 <= tsum f n.
Proof.
  revert f. induction n as [|n IH]; intros f H; [unfold tsum; cbn; lia|].
  rewrite tsum_S. specialize (IH (fun k => f (S k)) (fun k => H (S k))).
  specialize (H 0%nat). lia.
Qed.

Lemma tsum_mono f n m :
  (forall k, 0 <= f k) -> (n <= m)%nat -> tsum f n <= tsum f m.
Proof.
  intros H Hle. replace m with (n + (m - n))%nat by lia.
  rewrite tsum_split.
  pose proof (tsum_nonneg (fun k => f (n + k)%nat) (m - n)
                (fun k => H (n + k)%nat)). lia.
Qed.

(** ** The liquidity of a ladder after its best level was emptied *)

Lemma liquidity_store_other pl i l' best t :
  PLA.idx pl best = Some i -> t <> best ->
  level_liquidity (PLA.store pl i l') t = level_liquidity pl t.
Proof.
  intros Hi Hne. unfold level_liquidity, PLA.get_level.
  rewrite idx_store.
  destruct (PLA.idx pl t) as [j|] eqn:Hj; [|reflexivity].
  apply idx_some in Hi as [Hvi ->]. apply idx_some in Hj as [Hvj ->].
  apply valid_range in Hvi, Hvj.
  cbn [PLA.store levels_]. rewrite list_lookup_insert_ne by lia. reflexivity.
Qed.

Lemma liquidity_store_empty pl i l' best :
  PLA.idx pl best = Some i -> Level.empty l' = true ->
  level_liquidity (PLA.store pl i l') best = 0.
Proof.
  intros Hi He. unfold level_liquidity, PLA.get_level.
  rewrite idx_store, Hi. cbn [PLA.store levels_].
  destruct (decide (i < length (levels_ pl))%nat) as [Hlt|Hge].
  - rewrite list_lookup_insert_eq by exact Hlt. now rewrite He.
  - destruct (<[i:=l']> (levels_ pl) !! i) as [x|] eqn:E; [|reflexivity].
    apply lookup_lt_Some in E. rewrite length_insert in E. lia.
Qed.

Lemma liquidity_same_levels pl pl' t :
  levels_ pl' = levels_ pl -> band_ pl' = band_ pl ->
  level_liquidity pl' t = level_liquidity pl t.
Proof.
  intros Hl Hb. unfold level_liquidity, PLA.get_level, PLA.idx.
  now rewrite Hl, Hb.
Qed.

Lemma no_level_no_liquidity pl t :
  PLA.has_level pl t = Some false -> level_liquidity pl t = 0.
Proof.
  unfold PLA.has_level, level_liquidity.
  destruct (PLA.get_level pl t) as [l|]; [|discriminate].
  destruct (Level.empty l); [reflexivity|discriminate].
Qed.

Lemma away_away s px a b : away s (away s px a) b = away s px (a + b).
Proof. destruct s; cbn; lia. Qed.

Lemma away_0 s px : away s px 0 = px.
Proof. destruct s; cbn; lia. Qed.

Lemma away_inj s px a b : away s px a = away s px b -> a = b.
Proof. destruct s; cbn; lia. Qed.

Lemma span_away s best E k : span s (away s best k) E = span s best E - k.
Proof. destruct s; cbn; lia. Qed.

(** A tick within the span is a price of the band short of the sentinel. *)
Lemma in_span_valid s pl px_limit k :
  PLA.is_valid_price pl (side_best s pl) = true ->
  0 <= k < span s (side_best s pl) (far_end s pl px_limit) ->
  PLA.is_valid_price pl (away s (side_best s pl) k) = true /\
  inside s (away s (side_best s pl) k).
Proof.
  intros Hv Hk. apply valid_range in Hv. rewrite valid_range.
  destruct s; cbn [span far_end away inside side_best] in *; lia.
Qed.

Lemma reach_sentinel s pl px_limit :
  ticks_in_range pl -> side_best s pl = sentinel s -> reach s pl px_limit = 0.
Proof.
  intros [Hlo Hhi] Hb. unfold reach. rewrite Hb.
  replace (Z.to_nat _) with 0%nat; [reflexivity|].
  destruct s; cbn [span far_end sentinel]; lia.
Qed.

Lemma reach_no_cross s pl px_limit :
  no_cross s pl px_limit = true -> reach s pl px_limit = 0.
Proof.
  intros Hnc. unfold reach.
  replace (Z.to_nat _) with 0%nat; [reflexivity|].
  destruct s; cbn [span far_end no_cross side_best] in *; lia.
Qed.

Lemma reach_nonneg s pl px_limit :
  totals_nonneg pl -> 0 <= reach s pl px_limit.
Proof.
  intros Hn. apply tsum_nonneg. intros k. now apply level_liquidity_nonneg.
Qed.

(** Emptying the best level and refreshing the cached best takes the
    liquidity of that level off what can be reached, and no more. *)
Lemma reach_after_depletion s pl i l l' pl3 px_limit :
  ladder_shape pl -> ticks_in_range pl -> totals_nonneg pl ->
  side_best s pl <> sentinel s ->
  PLA.idx pl (side_best s pl) = Some i ->
  levels_ pl !! i = Some l -> Level.empty l = false ->
  no_cross s pl px_limit = false ->
  Level.empty l' = true -> 0 <= total_qty l' ->
  refresh_ladder s (PLA.store pl i l') = Some pl3 ->
  totals_nonneg pl3 /\
  reach s pl px_limit - total_qty l <= reach s pl3 px_limit.
Proof.
  intros Hshape Hrange Hnn Hne Hi Hl Hle Hnc He' Ht' Hr.
  set (best := side_best s pl) in *.
  set (pl2 := PLA.store pl i l') in *.
  pose proof (idx_some _ _ _ Hi) as [Hv _].
  pose proof (refresh_ladder_levels _ _ _ Hr) as [Hlv3 Hb3].
  assert (Hnn3 : totals_nonneg pl3).
  { intros j x Hx. rewrite Hlv3 in Hx. subst pl2. cbn [PLA.store levels_] in Hx.
    destruct (decide (j = i)) as [->|Hji].
    - rewrite list_lookup_insert_eq in Hx by (eapply lookup_lt_Some, Hl).
      now injection Hx as <-.
    - rewrite list_lookup_insert_ne in Hx by congruence. eauto. }
  split; [exact Hnn3|].
  assert (Hbest2 : side_best s pl2 = best) by (subst pl2; now destruct s).
  assert (Hfar : far_end s pl3 px_limit = far_end s pl px_limit).
  { unfold far_end. rewrite Hb3. subst pl2. now destruct s. }
  assert (Hliq3 : forall t, level_liquidity pl3 t = level_liquidity pl2 t)
    by (intros t; now apply liquidity_same_levels).
  assert (Hspan : 1 <= span s best (far_end s pl px_limit)).
  { apply valid_range in Hv.
    destruct Hrange as [Hlo Hhi].
    destruct s; cbn [span far_end no_cross side_best sentinel] in *;
      subst best; cbn [side_best] in *; lia. }
  set (E := far_end s pl px_limit) in *.
  set (n := Z.to_nat (Z.min MAX_STEPS (span s best E))).
  assert (Hn : (1 <= n)%nat) by (subst n; unfold MAX_STEPS; lia).
  assert (Hreach : reach s pl px_limit
                   = total_qty l
                     + tsum (fun k => level_liquidity pl2
                                        (away s best (Z.of_nat (S k))))
                            (n - 1)).
  { unfold reach. fold best E n.
    replace n with (S (n - 1)) at 1 by lia. rewrite tsum_S. f_equal.
    - cbn [Z.of_nat]. rewrite away_0. unfold level_liquidity, PLA.get_level.
      rewrite Hi, Hl, Hle. reflexivity.
    - apply tsum_ext. intros k Hk. symmetry.
      apply (liquidity_store_other pl i l' best); [exact Hi|].
      rewrite <- (away_0 s best) at 2. intros Heq.
      apply away_inj in Heq. lia. }
  rewrite Hreach.
  assert (Hcases : refreshed s pl2 pl3).
  { apply (refresh_ladder_nearest s pl2 pl3 Hr); rewrite Hbest2;
      [exact Hne|exact Hv]. }
  destruct Hcases as [_ Hcases]. rewrite Hbest2 in Hcases.
  destruct Hcases as [(k0 & Hk0 & Hb3' & _ & _ & Hgap)|(Hb3' & _ & Hnone)].
  - (* the refresh found the next level, [k0] ticks away *)
    assert (Hzero : forall k, (S k < Z.to_nat k0)%nat ->
              level_liquidity pl2 (away s best (Z.of_nat (S k))) = 0).
    { intros k Hk. apply no_level_no_liquidity, Hgap. lia. }
    assert (Hreach3 : reach s pl3 px_limit
                      = tsum (fun k => level_liquidity pl2
                                (away s best (k0 + Z.of_nat k)))
                             (Z.to_nat (Z.min MAX_STEPS (span s best E - k0)))).
    { unfold reach. rewrite Hb3', Hfar, span_away. fold E.
      apply tsum_ext. intros k _. now rewrite Hliq3, away_away. }
    rewrite Hreach3.
    destruct (le_lt_dec (n - 1) (Z.to_nat k0 - 1)) as [Hshort|Hlong].
    + rewrite tsum_zero by (intros k Hk; apply Hzero; lia).
      pose proof (tsum_nonneg
                    (fun k => level_liquidity pl2 (away s best (k0 + Z.of_nat k)))
                    (Z.to_nat (Z.min MAX_STEPS (span s best E - k0)))) as Hpos.
      rewrite Z.add_0_r.
      assert (0 <= tsum (fun k => level_liquidity pl2
                                    (away s best (k0 + Z.of_nat k)))
                        (Z.to_nat (Z.min MAX_STEPS (span s best E - k0))));
        [|lia].
      apply Hpos. intros k. rewrite <- Hliq3. now apply level_liquidity_nonneg.
    + replace (n - 1)%nat with ((Z.to_nat k0 - 1) + (n - Z.to_nat k0))%nat by lia.
      rewrite tsum_split.
      rewrite tsum_zero by (intros k Hk; apply Hzero; lia).
      rewrite Z.add_0_l.
      assert (Hle2 : tsum (fun k => level_liquidity pl2
                              (away s best (Z.of_nat (S (Z.to_nat k0 - 1 + k)))))
                          (n - Z.to_nat k0)
                     <= tsum (fun k => level_liquidity pl2
                                (away s best (k0 + Z.of_nat k)))
                             (Z.to_nat (Z.min MAX_STEPS (span s best E - k0))));
        [|lia].
      rewrite (tsum_ext _ (fun k => level_liquidity pl2
                                      (away s best (k0 + Z.of_nat k)))).
      * apply tsum_mono.
        -- intros k. rewrite <- Hliq3. now apply level_liquidity_nonneg.
        -- subst n. unfold MAX_STEPS in *. lia.
      * intros k _. do 2 f_equal. lia.
  - (* no level left within the search *)
    rewrite tsum_zero.
    + pose proof (reach_nonneg s pl3 px_limit Hnn3). lia.
    + intros k Hk.
      assert (Hkk : 0 <= Z.of_nat (S k) < span s best E)
        by (subst n; unfold MAX_STEPS in *; lia).
      destruct (in_span_valid s pl px_limit (Z.of_nat (S k)) Hv Hkk)
        as [Hvk Hik].
      apply no_level_no_liquidity, Hnone; auto.
      subst n. unfold MAX_STEPS, MAX_SEARCH in *. lia.
Qed.

(** What the matching loop needs of the ladder it walks. *)
Definition fok_ready (s : Side) (pl : PriceLevelsArray) : Prop :=
  ladder_shape pl /\ ticks_in_range pl /\ ladder_ok s pl /\
  ladder_consistent pl /\ totals_nonneg pl.

(** Without self-trade prevention the loop fills a quantity that the
    precheck can reach. *)
Lemma match_loop_fills s px tid tu ts fuel qty filled w r w' :
  match_loop s px tid tu ts false fuel qty filled w = Done r w' ->
  fok_ready s (side_levels s (book w)) ->
  0 <= qty -> qty <= reach s (side_levels s (book w)) px ->
  r = filled + qty.
Proof.
  revert fuel qty filled w r w'.
  apply (match_loop_ind s px tid tu ts false
    (fun _ qty filled w r _ =>
       fok_ready s (side_levels s (book w)) ->
       0 <= qty -> qty <= reach s (side_levels s (book w)) px ->
       r = filled + qty)).
  - intros. lia.
  - intros fuel qty filled w Hq Hp (_ & Hrange & Hok & _) _ Hle.
    unfold ladder_ok in Hok. rewrite Hp in Hok.
    rewrite (reach_sentinel _ _ _ Hrange Hok) in Hle. lia.
  - intros fuel qty filled w i l Hq Hp Hl He (_ & _ & Hok & _) _ _.
    unfold ladder_ok in Hok. rewrite Hp in Hok.
    destruct Hok as (_ & _ & l0 & Hl0 & He0). congruence.
  - intros fuel qty filled w i l Hq Hp Hl He Hnc _ _ Hle.
    rewrite (reach_no_cross _ _ _ Hnc) in Hle. lia.
  - intros fuel qty filled w i l l' qty' filled' w1 Hq Hp Hl He Hnc Hm He' _ Hq0 _.
    pose proof (match_level_residual _ _ _ _ _ _ _ _ _ _ _ _ _ Hm Hq0) as Hres.
    pose proof (match_level_no_stp _ _ _ _ _ _ _ _ _ _ _ _ Hm) as [_ Hns].
    apply match_level_account in Hm as (Hqty & _).
    cbn [fst snd] in Hres, Hns.
    destruct Hns as [Hnil|Hz].
    + unfold Level.empty in He'. now rewrite Hnil in He'.
    + lia.
  - intros fuel qty filled w i l l' qty' filled' w1 w3 r w'
           Hq Hp Hl He Hnc Hm He' Hr IH (Hshape & Hrange & Hok & Hcons & Hnn)
           Hq0 Hle.
    set (pl := side_levels s (book w)) in *.
    unfold ladder_ok in Hok. rewrite Hp in Hok.
    destruct Hok as (Hne & Hi & _).
    pose proof (match_level_residual _ _ _ _ _ _ _ _ _ _ _ _ _ Hm Hq0) as Hres.
    pose proof (match_level_frame _ _ _ _ _ _ _ _ _ _ _ _ _ Hm) as Hf.
    pose proof (ladder_consistent_lookup _ _ _ Hcons Hl) as Hcl.
    pose proof (match_level_consistent _ _ _ _ _ _ _ _ _ _ _ _ _ Hm Hcl) as Hcl'.
    apply match_level_account in Hm as (Hqty & Htot & Hnq & _).
    cbn [fst snd] in Hres.
    assert (Hnil : nodes l' = []).
    { unfold Level.empty in He'. now destruct (nodes l'). }
    rewrite Hnil in Hnq. change (nodes_qty []) with 0 in Hnq.
    unfold level_consistent in Hcl.
    change (level_open_qty l) with (nodes_qty (nodes l)) in Hcl.
    assert (Hfill : filled' - filled = total_qty l) by lia.
    apply refresh_done in Hr as (pl3 & Hr & ->).
    cbn [book set_book] in Hr. rewrite side_levels_store in Hr.
    rewrite (same_ladders_side _ _ _ Hf) in Hr. fold pl in Hr.
    destruct (reach_after_depletion s pl i l l' pl3 px Hshape Hrange Hnn Hne Hi
                Hl He Hnc He' ltac:(lia) Hr) as [Hnn3 Hreach].
    pose proof (refresh_ladder_levels _ _ _ Hr) as [Hlv3 Hb3].
    pose proof (refresh_ladder_ok _ _ _ Hr) as [Hok3 _].
    { left. replace (side_best s (PLA.store pl i l')) with (side_best s pl)
        by now destruct s. exact Hne. }
    assert (Hs3 : side_levels s
                    (book (set_book
                             (with_side_levels s pl3
                                (book (set_book (store_level s i l' (book w1))
                                                w1)))
                             (set_book (store_level s i l' (book w1)) w1)))
                  = pl3) by now destruct s.
    rewrite Hs3 in IH.
    rewrite IH; [lia| |lia|lia].
    split; [|split; [|split; [exact Hok3|split; [|exact Hnn3]]]].
    + unfold ladder_shape in *. rewrite Hlv3, Hb3. cbn [PLA.store levels_ band_].
      now rewrite length_insert.
    + unfold ticks_in_range in *. now rewrite Hb3.
    + unfold ladder_consistent. rewrite Hlv3. cbn [PLA.store levels_].
      now apply Forall_insert.
Qed.

Lemma cross_and_match_fills is_bid cmd w filled w1 :
  cross_and_match is_bid cmd w = Done filled w1 ->
  stp_enabled (OrderCommand.flags cmd) = false ->
  fok_ready (maker_side is_bid) (side_levels (maker_side is_bid) (book w)) ->
  0 < OrderCommand.qty cmd ->
  OrderCommand.qty cmd
  <= crossing_liquidity is_bid (book w) (OrderCommand.price_ticks cmd) ->
  filled = OrderCommand.qty cmd.
Proof.
  intros H Hstp Hready Hq Hle. rewrite crossing_liquidity_reach in Hle.
  pose proof Hready as (_ & Hrange & _).
  unfold cross_and_match, match_against_side in H. rewrite Hstp in H.
  destruct is_bid; cbn [maker_side] in *;
    unfold bind, gets, ret in H; cbn beta in H;
    match type of H with context [if ?c then _ else _] =>
      destruct c eqn:Hc end;
    try (injection H as <- <-).
  - apply match_loop_fills in H; auto; lia.
  - exfalso. apply andb_false_iff in Hc as [Hc|Hc].
    + apply negb_false_iff, Z.eqb_eq in Hc.
      rewrite (reach_sentinel Ask _ _ Hrange Hc) in Hle. lia.
    + rewrite reach_no_cross in Hle; [lia|].
      apply Z.leb_gt in Hc. apply Z.gtb_lt. exact Hc.
  - apply match_loop_fills in H; auto; lia.
  - exfalso. apply andb_false_iff in Hc as [Hc|Hc].
    + apply negb_false_iff, Z.eqb_eq in Hc.
      rewrite (reach_sentinel Bid _ _ Hrange Hc) in Hle. lia.
    + rewrite reach_no_cross in Hle; [lia|].
      rewrite Z.geb_leb in Hc. apply Z.leb_gt in Hc. apply Z.ltb_lt. exact Hc.
Qed.

(** X21.  Fill or kill, without self-trade prevention: on a well-shaped
    book whose opposite ladder has a consistent cached best, level totals
    that are the sums of their nodes and none of them negative, and a
    crossing liquidity within [int64_t] (the sum the precheck forms does not
    overflow), a FOK order of positive quantity that completes is either
    filled in full (when the precheck's crossing liquidity reaches the
    quantity) or rejected with nothing filled and the book untouched; it is
    never filled in part. *)
Theorem fok_is_all_or_nothing now cmd w r w' :
  let is_bid := is_bid_side (OrderCommand.side cmd) in
  let opp := side_levels (maker_side is_bid) (book w) in
  OrderCommand.tif cmd = FOK ->
  stp_enabled (OrderCommand.flags cmd) = false ->
  0 < OrderCommand.qty cmd ->
  book_shape (book w) -> bests_ok (book w) ->
  ladder_ok (maker_side is_bid) opp -> ladder_consistent opp ->
  totals_nonneg opp ->
  crossing_liquidity is_bid (book w) (OrderCommand.price_ticks cmd)
  <= INT64_MAX ->
  submit_limit now cmd w = Done r w' ->
  (OrderCommand.qty cmd
   <= crossing_liquidity is_bid (book w) (OrderCommand.price_ticks cmd) /\
   r = ExecResult.make (OrderCommand.qty cmd) 0) \/
  (crossing_liquidity is_bid (book w) (OrderCommand.price_ticks cmd)
   < OrderCommand.qty cmd /\
   r = ExecResult.make 0 0 /\ book w' = book w).
Proof.
  intros is_bid opp Htif Hstp Hq Hshape Hbests Hok Hcons Hnn _ H.
  assert (Hopp : ladder_shape opp /\ ticks_in_range opp).
  { subst opp is_bid. destruct Hshape as [[? ?] [? ?]].
    now destruct (OrderCommand.side cmd). }
  destruct Hopp as [Hls Htr].
  assert (Hopp' : opp = if is_bid then asks_ (book w) else bids_ (book w))
    by (subst opp; now destruct is_bid).
  rewrite submit_limit_is_side in H. fold is_bid in H.
  destruct (Z_le_gt_dec (OrderCommand.qty cmd)
              (crossing_liquidity is_bid (book w) (OrderCommand.price_ticks cmd)))
    as [Hle|Hgt]; [left|right]; (split; [lia|]).
  - assert (Hc : check_fok_liquidity is_bid (book w) (OrderCommand.qty cmd)
                   (OrderCommand.price_ticks cmd) = Some true).
    { apply check_fok_sufficient; auto; rewrite <- Hopp'; auto. }
    apply submit_limit_side_done in H
      as [(_ & Hc' & _)|(filled & w1 & w2 & Hm & He & Hcase)]; [congruence|].
    apply cross_and_match_fills in Hm; auto;
      [|exact (conj Hls (conj Htr (conj Hok (conj Hcons Hnn))))].
    subst filled. cbv zeta in Hcase. rewrite Z.sub_diag in Hcase.
    destruct Hcase as [(Hpos & _)|(_ & [(_ & ->)|(Hpos & _)])];
      [lia|reflexivity|lia].
  - assert (Hc : check_fok_liquidity is_bid (book w) (OrderCommand.qty cmd)
                   (OrderCommand.price_ticks cmd) = Some false).
    { apply check_fok_insufficient; auto; try (rewrite <- Hopp'; auto). lia. }
    rewrite submit_limit_side_phases in H.
    unfold submit_limit_phases, fok_gate in H.
    rewrite Htif in H. cbn [TimeInForce_eqb] in H.
    unfold bind at 1, bind at 1, get_book, gets, lift in H.
    rewrite Hc in H. cbn [negb] in H.
    apply bind_done in H as ([] & w2 & He & H). injection H as <- <-.
    split; [reflexivity|]. now apply emit_book_update_book in He.
Qed.

Lemma ladder_consistent_check pl :
  forallb (fun l => total_qty l =? level_open_qty l) (levels_ pl) = true ->
  ladder_consistent pl.
Proof.
  intros H. unfold ladder_consistent. apply Forall_forall. intros l Hl.
  rewrite forallb_forall in H. apply Z.eqb_eq, H. exact Hl.
Qed.

(** Three asks of 5 lots rest at 150: a FOK bid for 12 takes the first two
    and 2 lots of the third; a FOK bid for 16 is turned away. *)
Lemma fok_is_all_or_nothing_witness :
  let o12 := submit_limit counting_clock (limit_order 9 200 Bid 150 12 FOK 0)
                          three_asks_world in
  let o16 := submit_limit counting_clock (limit_order 9 200 Bid 150 16 FOK 0)
                          three_asks_world in
  crossing_liquidity true (book three_asks_world) 150 = 15 /\
  (exists w', o12 = Done (ExecResult.make 12 0) w') /\
  (exists w', o16 = Done (ExecResult.make 0 0) w'
              /\ book w' = book three_asks_world).
Proof.
  intros o12 o16.
  assert (Hl : crossing_liquidity true (book three_asks_world) 150 = 15)
    by (vm_compute; reflexivity).
  assert (Hready :
    book_shape (book three_asks_world) /\ bests_ok (book three_asks_world) /\
    ladder_ok Ask (asks_ (book three_asks_world)) /\
    ladder_consistent (asks_ (book three_asks_world)) /\
    totals_nonneg (asks_ (book three_asks_world))).
  { split; [repeat split; vm_compute; congruence|].
    split; [split; [left|right]; vm_compute; reflexivity|].
    split.
    { unfold ladder_ok. vm_compute.
      split; [discriminate|]. split; [reflexivity|].
      eexists. split; reflexivity. }
    split; [apply ladder_consistent_check|apply totals_nonneg_check];
      vm_compute; reflexivity. }
  destruct Hready as (Hshape & Hbests & Hok & Hcons & Hnn).
  assert (Hrange : crossing_liquidity true (book three_asks_world) 150
                   <= INT64_MAX)
    by (rewrite Hl; vm_compute; discriminate).
  split; [exact Hl|]. split.
  - subst o12.
    destruct (submit_limit counting_clock (limit_order 9 200 Bid 150 12 FOK 0)
                           three_asks_world) as [r w'|f w'] eqn:E;
      [|vm_compute in E; discriminate E].
    exists w'. f_equal.
    pose proof (fok_is_all_or_nothing counting_clock
                  (limit_order 9 200 Bid 150 12 FOK 0) three_asks_world r w'
                  eq_refl eq_refl ltac:(cbn; lia) Hshape Hbests Hok Hcons Hnn
                  Hrange E)
      as Hx.
    destruct Hx as [[_ ->]|[Hlt _]]; [reflexivity|].
    cbn [is_bid_side limit_order OrderCommand.side OrderCommand.price_ticks
         OrderCommand.qty] in Hlt. lia.
  - subst o16.
    destruct (submit_limit counting_clock (limit_order 9 200 Bid 150 16 FOK 0)
                           three_asks_world) as [r w'|f w'] eqn:E;
      [|vm_compute in E; discriminate E].
    exists w'.
    pose proof (fok_is_all_or_nothing counting_clock
                  (limit_order 9 200 Bid 150 16 FOK 0) three_asks_world r w'
                  eq_refl eq_refl ltac:(cbn; lia) Hshape Hbests Hok Hcons Hnn
                  Hrange E)
      as Hx.
    destruct Hx as [[Hle _]|(_ & Hr & Hb)].
    + exfalso.
      cbn [is_bid_side limit_order OrderCommand.side OrderCommand.price_ticks
           OrderCommand.qty] in Hle. lia.
    + rewrite Hr. split; [reflexivity|exact Hb].
Defined.

(** * Price priority *)

Definition trade_prices (evs : list AnyEvent) : list Tick :=
  omap (fun e => match e with
                 | Trade t => Some (TradeEvent.price_ticks t)
                 | Update _ => None
                 end) evs.

(** On side [s], price [q] lies at [p] or farther from the other side. *)
Definition at_or_beyond (s : Side) (p q : Tick) : Prop :=
  match s with Ask => p <= q | Bid => q <= p end.

(** No price of the list is better for the taker than one before it. *)
Fixpoint best_first (s : Side) (ps : list Tick) : Prop :=
  match ps with
  | [] => True
  | p :: ps' => Forall (at_or_beyond s p) ps' /\ best_first s ps'
  end.

Lemma at_or_beyond_refl s p : at_or_beyond s p p.
Proof. destruct s; cbn; lia. Qed.

Lemma at_or_beyond_trans s p q r :
  at_or_beyond s p q -> at_or_beyond s q r -> at_or_beyond s p r.
Proof. destruct s; cbn; lia. Qed.

Lemma best_first_app s ps qs :
  best_first s ps -> best_first s qs ->
  (forall p, In p ps -> Forall (at_or_beyond s p) qs) ->
  best_first s (ps ++ qs).
Proof.
  induction ps as [|p ps IH]; intros Hp Hq Hpq; [exact Hq|].
  destruct Hp as [Hall Hp]. cbn [app best_first]. split.
  - apply Forall_app. split; [exact Hall|]. apply Hpq. now left.
  - apply IH; auto. intros p' Hin. apply Hpq. now right.
Qed.

Lemma best_first_same s p ps : Forall (eq p) ps -> best_first s ps.
Proof.
  induction 1 as [|q ps <- Hps IH]; [exact I|].
  split; [|exact IH].
  eapply Forall_impl; [|exact Hps]. intros q <-. apply at_or_beyond_refl.
Qed.

Lemma trade_prices_app a b :
  trade_prices (a ++ b) = trade_prices a ++ trade_prices b.
Proof. apply omap_app. Qed.

Lemma trade_prices_by tid ts sym (P : Tick -> Prop) evs :
  Forall (trade_by tid ts sym P) evs -> Forall P (trade_prices evs).
Proof.
  induction 1 as [|e evs He Hevs IH]; [constructor|].
  destruct e as [t|u]; cbn in He; [|contradiction].
  destruct He as (_ & _ & _ & Hp).
  change (trade_prices (Trade t :: evs))
    with (TradeEvent.price_ticks t :: trade_prices evs).
  now constructor.
Qed.

Lemma trade_prices_updates us :
  forallb is_update us = true -> trade_prices us = [].
Proof.
  induction us as [|[t|u] us IH]; cbn [forallb is_update];
    [reflexivity|discriminate|].
  intros H. exact (IH H).
Qed.

(** A refresh moves the cached best away, or marks the side empty. *)
Lemma refresh_moves_on s pl pl' :
  refresh_ladder s pl = Some pl' ->
  at_or_beyond s (side_best s pl) (side_best s pl') \/
  PLA.best_level_ptr pl' s = None.
Proof.
  destruct s; cbn [refresh_ladder side_best at_or_beyond PLA.best_level_ptr].
  - unfold refresh_bids.
    destruct (best_bid_ pl =? Sentinel.EMPTY_BID); [intros [= <-]; left; lia|].
    destruct (search_down pl (best_bid_ pl) 1 _) as [[px|]|] eqn:Hs;
      [| |discriminate].
    + apply search_down_found in Hs as (Hlt & _); [|lia].
      unfold PLA.set_best_bid.
      destruct (px =? Sentinel.EMPTY_BID); [intros [= <-]; now right|].
      destruct (PLA.idx pl px); [|discriminate].
      intros [= <-]. left. cbn. lia.
    + unfold PLA.set_best_bid. rewrite Z.eqb_refl. intros [= <-]. now right.
  - unfold refresh_asks.
    destruct (best_ask_ pl =? Sentinel.EMPTY_ASK); [intros [= <-]; left; lia|].
    destruct (search_up pl (best_ask_ pl) 1 _) as [[px|]|] eqn:Hs;
      [| |discriminate].
    + apply search_up_found in Hs as (Hlt & _); [|lia].
      unfold PLA.set_best_ask.
      destruct (px =? Sentinel.EMPTY_ASK); [intros [= <-]; now right|].
      destruct (PLA.idx pl px); [|discriminate].
      intros [= <-]. left. cbn. lia.
    + unfold PLA.set_best_ask. rewrite Z.eqb_refl. intros [= <-]. now right.
Qed.

Lemma match_loop_priced s px tid tu ts stp fuel qty filled w r w' :
  match_loop s px tid tu ts stp fuel qty filled w = Done r w' ->
  exists evs,
    events w' = events w ++ evs /\
    best_first s (trade_prices evs) /\
    Forall (at_or_beyond s (side_best s (side_levels s (book w))))
           (trade_prices evs) /\
    (PLA.best_level_ptr (side_levels s (book w)) s = None -> evs = []).
Proof.
  revert fuel qty filled w r w'.
  apply (match_loop_ind s px tid tu ts stp
    (fun _ _ _ w _ w' =>
       exists evs,
         events w' = events w ++ evs /\
         best_first s (trade_prices evs) /\
         Forall (at_or_beyond s (side_best s (side_levels s (book w))))
                (trade_prices evs) /\
         (PLA.best_level_ptr (side_levels s (book w)) s = None -> evs = [])));
    try (intros; exists []; rewrite app_nil_r;
         split; [reflexivity|]; split; [exact I|]; split; [constructor|];
         reflexivity).
  - intros fuel qty filled w i l l' qty' filled' w1 _ Hp _ _ _ Hm _.
    apply match_level_trades in Hm as (evs & Hev & Hall).
    apply trade_prices_by in Hall.
    exists evs. split; [exact Hev|]. split; [eapply best_first_same, Hall|].
    split; [|congruence].
    eapply Forall_impl; [|exact Hall]. intros p <-. apply at_or_beyond_refl.
  - intros fuel qty filled w i l l' qty' filled' w1 w3 r w'
           _ Hp _ _ _ Hm _ Hr (evs2 & Hev2 & Hsorted2 & Hall2 & Hnone2).
    pose proof (match_level_frame _ _ _ _ _ _ _ _ _ _ _ _ _ Hm) as Hf.
    apply match_level_trades in Hm as (evs & Hev & Hall).
    apply trade_prices_by in Hall.
    pose proof (refresh_open_qty _ _ _ Hr) as (_ & Hev3 & _).
    cbn [book set_book events] in Hev3.
    apply refresh_done in Hr as (pl3 & Hr & ->).
    cbn [book set_book] in Hr. rewrite side_levels_store in Hr.
    rewrite (same_ladders_side _ _ _ Hf) in Hr.
    assert (Hs3 : side_levels s
                    (book (set_book
                             (with_side_levels s pl3
                                (book (set_book (store_level s i l' (book w1))
                                                w1)))
                             (set_book (store_level s i l' (book w1)) w1)))
                  = pl3) by now destruct s.
    rewrite Hs3 in Hall2, Hnone2.
    set (best := side_best s (side_levels s (book w))) in *.
    assert (Hbest : side_best s (PLA.store (side_levels s (book w)) i l') = best)
      by (subst best; now destruct s).
    exists (evs ++ evs2). rewrite Hev2, Hev3, Hev, app_assoc.
    split; [reflexivity|]. rewrite trade_prices_app.
    destruct (refresh_moves_on _ _ _ Hr) as [Hon|Hnone].
    + rewrite Hbest in Hon.
      assert (Hall2' : Forall (at_or_beyond s best) (trade_prices evs2)).
      { eapply Forall_impl; [|exact Hall2].
        intros q Hq. eapply at_or_beyond_trans; eauto. }
      split; [|split; [|congruence]].
      * apply best_first_app; [eapply best_first_same, Hall|exact Hsorted2|].
        intros p Hin.
        assert (best = p) as <-; [|exact Hall2'].
        rewrite Forall_forall in Hall. apply Hall. exact Hin.
      * apply Forall_app. split; [|exact Hall2'].
        eapply Forall_impl; [|exact Hall]. intros p <-. apply at_or_beyond_refl.
    + rewrite (Hnone2 Hnone), app_nil_r.
      split; [eapply best_first_same, Hall|]. split; [|congruence].
      eapply Forall_impl; [|exact Hall]. intros p <-. apply at_or_beyond_refl.
Qed.

(** X22.  Price priority: the trades of a new order are made best price
    first.  Every trade is at the cached best of the opposite side or
    farther from the order's own side, and no trade is at a better price
    for the taker than a trade emitted before it: for a buy the trade
    prices never fall, for a sell they never rise. *)
Theorem trades_come_best_price_first now cmd w reply w' :
  OrderCommand.type cmd = NewOrder ->
  step now cmd w = Done reply w' ->
  let s := opposite (OrderCommand.side cmd) in
  exists evs,
    events w' = events w ++ evs /\
    best_first s (trade_prices evs) /\
    Forall (at_or_beyond s (side_best s (side_levels s (book w))))
           (trade_prices evs).
Proof.
  intros Hty H s. unfold step in H. rewrite Hty in H.
  assert (Hloop : forall px fuel filled w1 w2,
    match_loop s px (OrderCommand.order_id cmd) (OrderCommand.user_id cmd)
               (OrderCommand.recv_ts cmd)
               (stp_enabled (OrderCommand.flags cmd)) fuel
               (OrderCommand.qty cmd) 0 w = Done filled w1 ->
    (exists us, events w2 = events w1 ++ us /\ forallb is_update us = true) ->
    exists evs,
      events w2 = events w ++ evs /\
      best_first s (trade_prices evs) /\
      Forall (at_or_beyond s (side_best s (side_levels s (book w))))
             (trade_prices evs)).
  { intros px fuel filled w1 w2 Hm (us & Hus & Hup).
    apply match_loop_priced in Hm as (evs & Hev & Hsorted & Hall & _).
    exists (evs ++ us). rewrite Hus, Hev, app_assoc.
    split; [reflexivity|].
    rewrite trade_prices_app, (trade_prices_updates us Hup), app_nil_r. auto. }
  assert (Hquiet : forall w2,
    (exists us, events w2 = events w ++ us /\ forallb is_update us = true) ->
    exists evs,
      events w2 = events w ++ evs /\
      best_first s (trade_prices evs) /\
      Forall (at_or_beyond s (side_best s (side_levels s (book w))))
             (trade_prices evs)).
  { intros w2 (us & Hus & Hup). exists us.
    rewrite (trade_prices_updates us Hup).
    split; [exact Hus|]. split; [exact I|constructor]. }
  destruct (OrderCommand.order_type cmd) eqn:Hot;
    apply bind_done in H as (r & w1 & H & Hr); injection Hr as <- <-.
  2,3,4: apply submit_market_done in H as (fuel & filled & w2 & Hm & He & _);
    apply emit_book_update_appends in He; now apply (Hloop _ _ _ _ _ Hm).
  rewrite submit_limit_is_side in H.
  apply submit_limit_side_done in H
    as [(_ & _ & He & _)|(filled & w2 & w3 & Hm & He & Hcase)].
  { apply emit_book_update_appends in He. now apply Hquiet. }
  apply emit_book_update_appends in He as (us & Hus & Hup).
  assert (Hev3 : events w3 = events w2).
  { destruct Hcase as [(_ & _ & Hrest & _)|[-> _]]; [|reflexivity].
    apply rest_residual_done in Hrest
      as (i & level & h & pool' & pl' & ix' & _ & _ & _ & _ & _ & ->).
    reflexivity. }
  rewrite Hev3 in Hus.
  apply cross_and_match_done in Hm as [[_ ->]|[fuel Hm]].
  - apply Hquiet. eauto.
  - replace (opposite (taker_side (is_bid_side (OrderCommand.side cmd))))
      with s in Hm by (subst s; now destruct (OrderCommand.side cmd)).
    eapply Hloop; eauto.
Qed.

(** Asks rest at 150 (5 lots), 152 (5 lots) and 151 (5 lots); a bid for 12
    at 155 trades at 150, then 151, then 152. *)
Definition ask_ladder_world : World :=
  final_world (run counting_clock
                   [limit_order 1 100 Ask 150 5 GTC 0;
                    limit_order 2 101 Ask 152 5 GTC 0;
                    limit_order 3 102 Ask 151 5 GTC 0]
                   (new_engine 1 band_100_200)).

Lemma trades_come_best_price_first_witness :
  let cmd := limit_order 4 103 Bid 155 12 GTC 0 in
  let o := step counting_clock cmd ask_ladder_world in
  trade_prices (drop (length (events ask_ladder_world))
                     (events (final_world o))) = [150; 151; 152] /\
  exists evs,
    events (final_world o) = events ask_ladder_world ++ evs /\
    best_first Ask (trade_prices evs) /\
    Forall (at_or_beyond Ask (side_best Ask (side_levels Ask (book ask_ladder_world))))
           (trade_prices evs).
Proof.
  intros cmd o. split; [vm_compute; reflexivity|]. subst o.
  destruct (step counting_clock cmd ask_ladder_world) as [reply w'|f w'] eqn:E;
    [|vm_compute in E; discriminate E].
  exact (trades_come_best_price_first counting_clock cmd ask_ladder_world
           reply w' eq_refl E).
Defined.

(** * Matching goes as far as it can *)

(** The limit a new order is matched under: its price for a limit order,
    the opposite sentinel for every other order type. *)
Definition matching_limit (cmd : OrderCommand.t) : Tick :=
  match OrderCommand.order_type cmd with
  | Limit => OrderCommand.price_ticks cmd
  | _ => sentinel (opposite (OrderCommand.side cmd))
  end.

Lemma match_loop_exhausts s px tid tu ts fuel qty filled w r w' :
  match_loop s px tid tu ts false fuel qty filled w = Done r w' ->
  ladder_ok s (side_levels s (book w)) ->
  ladder_ok s (side_levels s (book w')) /\
  (qty - (r - filled) <= 0 \/ beyond s (side_levels s (book w')) px).
Proof.
  revert fuel qty filled w r w'.
  apply (match_loop_ind s px tid tu ts false
    (fun _ qty filled w r w' =>
       ladder_ok s (side_levels s (book w)) ->
       ladder_ok s (side_levels s (book w')) /\
       (qty - (r - filled) <= 0 \/ beyond s (side_levels s (book w')) px))).
  - intros fuel qty filled w Hq Hok. split; [exact Hok|left; lia].
  - intros fuel qty filled w Hq Hp Hok. split; [exact Hok|right].
    unfold ladder_ok in Hok. rewrite Hp in Hok.
    destruct s; cbn in Hok |- *; now left.
  - intros fuel qty filled w i l Hq Hp Hl He Hok. exfalso.
    unfold ladder_ok in Hok. rewrite Hp in Hok.
    destruct Hok as (_ & _ & l0 & Hl0 & He0). congruence.
  - intros fuel qty filled w i l Hq Hp Hl He Hnc Hok.
    split; [exact Hok|right]. now apply no_cross_beyond.
  - intros fuel qty filled w i l l' qty' filled' w1 Hq Hp Hl He Hnc Hm He' Hok.
    pose proof (match_level_frame _ _ _ _ _ _ _ _ _ _ _ _ _ Hm) as Hf.
    pose proof (match_level_no_stp _ _ _ _ _ _ _ _ _ _ _ _ Hm) as [_ Hns].
    apply match_level_account in Hm as (Hqty & _).
    cbn [fst snd] in Hns. cbn [book set_book].
    rewrite side_levels_store, (same_ladders_side _ _ _ Hf).
    split; [eapply ladder_ok_store; eauto|left].
    destruct Hns as [Hnil|Hz]; [|lia].
    unfold Level.empty in He'. now rewrite Hnil in He'.
  - intros fuel qty filled w i l l' qty' filled' w1 w3 r w'
           Hq Hp Hl He Hnc Hm He' Hr IH Hok.
    pose proof (match_level_frame _ _ _ _ _ _ _ _ _ _ _ _ _ Hm) as Hf.
    apply match_level_account in Hm as (Hqty & _).
    unfold ladder_ok in Hok. rewrite Hp in Hok. destruct Hok as (Hne & _).
    apply refresh_done in Hr as (pl3 & Hr & ->).
    cbn [book set_book] in Hr. rewrite side_levels_store in Hr.
    rewrite (same_ladders_side _ _ _ Hf) in Hr.
    pose proof (refresh_ladder_ok _ _ _ Hr) as [Hok3 _].
    { left. replace (side_best s (PLA.store (side_levels s (book w)) i l'))
        with (side_best s (side_levels s (book w))) by now destruct s.
      exact Hne. }
    destruct IH as [Hok' Hend].
    { replace (side_levels s _) with pl3 by now destruct s. exact Hok3. }
    split; [exact Hok'|]. destruct Hend as [Hend|Hend]; [left; lia|now right].
Qed.

(** X23.  Matching is exhaustive with respect to the cached best: a new
    order without the STP flag, other than a FOK order, stops matching only
    when its quantity is filled or when the cached best of the opposite side
    is the sentinel or no longer crosses the order's limit.  The statement
    is about the cached best, not about the orders that rest: a cancel can
    have left it at the sentinel while orders still rest, and then nothing
    is matched. *)
Theorem matching_is_exhaustive now cmd w r w' :
  OrderCommand.type cmd = NewOrder ->
  stp_enabled (OrderCommand.flags cmd) = false ->
  OrderCommand.order_type cmd <> Limit \/ OrderCommand.tif cmd <> FOK ->
  let s := opposite (OrderCommand.side cmd) in
  ladder_ok s (side_levels s (book w)) ->
  step now cmd w = Done (Exec r) w' ->
  OrderCommand.qty cmd <= ExecResult.filled r \/
  beyond s (side_levels s (book w')) (matching_limit cmd).
Proof.
  intros Hty Hstp Hkind s Hok H. unfold step in H. rewrite Hty in H.
  unfold matching_limit.
  assert (Hmarket : forall r0 w0,
    submit_market now cmd w = Done r0 w0 ->
    OrderCommand.qty cmd <= ExecResult.filled r0 \/
    beyond s (side_levels s (book w0)) (sentinel s)).
  { intros r0 w0 Hs.
    apply submit_market_done in Hs as (fuel & filled & w1 & Hm & He & ->).
    apply emit_book_update_book in He. rewrite He. rewrite Hstp in Hm.
    replace (match OrderCommand.side cmd with
             | Bid => Sentinel.EMPTY_ASK
             | Ask => Sentinel.EMPTY_BID
             end) with (sentinel s) in Hm
      by (subst s; now destruct (OrderCommand.side cmd)).
    apply match_loop_exhausts in Hm as [_ [Hm|Hm]]; [| |exact Hok].
    - left. cbn. lia.
    - now right. }
  destruct (OrderCommand.order_type cmd) eqn:Hot;
    apply bind_done in H as (r0 & w1 & H & Hr); injection Hr as -> ->.
  2,3,4: now apply Hmarket.
  destruct Hkind as [Hk|Hfok]; [congruence|].
  rewrite submit_limit_is_side in H.
  apply submit_limit_side_done in H
    as [(Hf & _)|(filled & w2 & w3 & Hm & He & Hcase)]; [congruence|].
  apply emit_book_update_book in He. rewrite He.
  assert (Hfilled : ExecResult.filled r = filled).
  { destruct Hcase as [(_ & _ & _ & ->)|(_ & [(_ & ->)|(_ & _ & ->)])];
      reflexivity. }
  assert (Hopp : side_levels s (book w3) = side_levels s (book w2)).
  { destruct Hcase as [(_ & _ & Hrest & _)|[-> _]]; [|reflexivity].
    apply rest_residual_opposite in Hrest.
    rewrite taker_side_is_bid in Hrest. exact Hrest. }
  rewrite Hopp, Hfilled.
  assert (Hs : opposite (taker_side (is_bid_side (OrderCommand.side cmd))) = s)
    by (subst s; now rewrite taker_side_is_bid).
  unfold cross_and_match in Hm.
  apply bind_done in Hm as (crosses & w0 & Hc & Hm).
  assert (Hw0 : w0 = w /\
    crosses = (if is_bid_side (OrderCommand.side cmd)
               then negb (best_ask (book w) =? Sentinel.EMPTY_ASK)
                    && (best_ask (book w) <=? OrderCommand.price_ticks cmd)
               else negb (best_bid (book w) =? Sentinel.EMPTY_BID)
                    && (best_bid (book w) >=? OrderCommand.price_ticks cmd))).
  { destruct (is_bid_side (OrderCommand.side cmd));
      unfold bind, gets, ret in Hc; now injection Hc as <- <-. }
  destruct Hw0 as [-> Hcr].
  destruct crosses.
  - rewrite Hstp in Hm. unfold match_against_side, bind, gets in Hm.
    replace (if is_bid_side (OrderCommand.side cmd) then Ask else Bid)
      with s in Hm by (subst s; now destruct (OrderCommand.side cmd)).
    apply match_loop_exhausts in Hm as [_ [Hm|Hm]]; [| |exact Hok].
    + left. lia.
    + now right.
  - injection Hm as <- <-. right.
    symmetry in Hcr. apply crossing_test_beyond in Hcr.
    now rewrite Hs in Hcr.
Qed.

(** A market bid for 20 lots meets the 15 lots of the three asks: it is
    filled for 15 and leaves the ask side empty. *)
Lemma matching_is_exhaustive_witness :
  let cmd := market_order 9 200 Bid 20 in
  let o := step counting_clock cmd three_asks_world in
  exists r w',
    o = Done (Exec r) w' /\ ExecResult.filled r = 15 /\
    best_ask (book w') = Sentinel.EMPTY_ASK /\
    (OrderCommand.qty cmd <= ExecResult.filled r \/
     beyond Ask (side_levels Ask (book w')) (matching_limit cmd)).
Proof.
  intros cmd o. subst o.
  destruct (step counting_clock cmd three_asks_world) as [reply w'|f w'] eqn:E;
    [|vm_compute in E; discriminate E].
  destruct reply as [r|ok]; [|vm_compute in E; discriminate E].
  exists r, w'. split; [reflexivity|].
  split; [vm_compute in E; injection E as <- _; reflexivity|].
  split; [vm_compute in E; injection E as _ <-; reflexivity|].
  apply (matching_is_exhaustive counting_clock cmd three_asks_world r w'
           eq_refl eq_refl); [left; discriminate| |exact E].
  unfold ladder_ok. vm_compute.
  split; [discriminate|]. split; [reflexivity|].
  eexists. split; reflexivity.
Defined.

(** * order.h, with its links

    [LevelFIFO] as it is written: nodes that point to their neighbours and a
    level that points to its first and last node.  The list of the model is
    what these links denote; the operations on the links are shown to be the
    operations on the list, for the nodes that are queued in the level. *)

Module Links.

(** A node of the slab: the fields the book uses and the two links; 0 is
    the null pointer. *)
Record Node := mkNode {
  fields : OrderNode.t;
  prev : Handle;
  next : Handle
}.

(** What every node pointer holds. *)
Definition Slab := Handle -> Node.

Definition write (m : Slab) (h : Handle) (n : Node) : Slab :=
  fun h' => if Nat.eqb h' h then n else m h'.

Definition set_prev (m : Slab) (h p : Handle) : Slab :=
  write m h (mkNode (fields (m h)) p (next (m h))).

Definition set_next (m : Slab) (h n : Handle) : Slab :=
  write m h (mkNode (fields (m h)) (prev (m h)) n).

Definition set_qty (m : Slab) (h : Handle) (q : Quantity) : Slab :=
  write m h (mkNode (OrderNode.set_qty (fields (m h)) q)
                    (prev (m h)) (next (m h))).

Definition qty (m : Slab) (h : Handle) : Quantity :=
  OrderNode.qty (fields (m h)).

Record Fifo := mkFifo {
  head : Handle;
  tail : Handle;
  total_qty : Quantity
}.

Definition empty (f : Fifo) : bool := Nat.eqb (head f) 0.

(** [enqueue(node)] *)
Definition enqueue (m : Slab) (f : Fifo) (node : Handle) : Slab * Fifo :=
  let m := set_next m node 0%nat in
  let m := set_prev m node (tail f) in
  let '(m, hd) :=
    if negb (Nat.eqb (tail f) 0) then (set_next m (tail f) node, head f)
    else (m, node) in
  (m, mkFifo hd node (total_qty f + qty m node)).

(** [erase(node)] *)
Definition erase (m : Slab) (f : Fifo) (node : Handle) : Slab * Fifo :=
  let '(m, hd) :=
    if negb (Nat.eqb (prev (m node)) 0)
    then (set_next m (prev (m node)) (next (m node)), head f)
    else (m, next (m node)) in
  let '(m, tl) :=
    if negb (Nat.eqb (next (m node)) 0)
    then (set_prev m (next (m node)) (prev (m node)), tail f)
    else (m, prev (m node)) in
  let total := total_qty f - qty m node in
  let m := set_next m node 0%nat in
  let m := set_prev m node 0%nat in
  (m, mkFifo hd tl total).

(** [reduce_qty(node, reduction)] *)
Definition reduce_qty (m : Slab) (f : Fifo) (node : Handle)
           (reduction : Quantity) : Slab * Fifo :=
  (set_qty m node (qty m node - reduction),
   mkFifo (head f) (tail f) (total_qty f - reduction)).

(** The nodes met from [h] along [next], with what they hold. *)
Fixpoint walk (m : Slab) (h : Handle) (fuel : nat)
  : list (Handle * OrderNode.t) :=
  match fuel with
  | O => []
  | S fuel' =>
      if Nat.eqb h 0 then []
      else (h, fields (m h)) :: walk m (next (m h)) fuel'
  end.

End Links.

(** ** The list a linked level denotes *)

(** The nodes [l], in this order, are linked to each other; [p] is the
    [prev] of the first and [n] the [next] of the last. *)
Fixpoint seg (m : Links.Slab) (p : Handle) (l : list Handle) (n : Handle)
  : Prop :=
  match l with
  | [] => True
  | h :: l' =>
      h <> 0%nat /\ Links.prev (m h) = p /\ Links.next (m h) = List.hd n l' /\
      seg m h l' n
  end.

(** The level [f] queues the nodes [l], head first. *)
Definition linked (m : Links.Slab) (f : Links.Fifo) (l : list Handle) : Prop :=
  NoDup l /\ seg m 0%nat l 0%nat /\
  Links.head f = List.hd 0%nat l /\ Links.tail f = List.last l 0%nat.

(** The linked level [f] is the level [lv] of the list model. *)
Definition represents (m : Links.Slab) (f : Links.Fifo) (lv : LevelFIFO)
  : Prop :=
  linked m f (handles lv) /\
  Forall (fun hn => Links.fields (m (fst hn)) = snd hn) (nodes lv) /\
  Links.total_qty f = total_qty lv.


































Lemma lookup_unqueued h ns : h ∉ map fst ns -> Level.lookup h ns = None.
Proof.
  induction ns as [|[h' n] ns IH]; [reflexivity|]. cbn [map fst Level.lookup].
  intros Hnot. destruct (Nat.eqb_spec h' h) as [->|_].
  - exfalso. apply Hnot. left.
  - apply IH. intros Hin. apply Hnot. now right.
Qed.

(** A linked level of two nodes, and the list it is. *)
Definition two_linked_nodes : Links.Slab :=
  fun h =>
    if Nat.eqb h 1 then Links.mkNode (OrderNode.mk 7 100 10 0 0) 0%nat 2%nat
    else if Nat.eqb h 2 then Links.mkNode (OrderNode.mk 8 100 5 0 0) 1%nat 0%nat
    else Links.mkNode (OrderNode.mk 9 100 3 0 0) 0%nat 0%nat.

Definition two_linked_fifo : Links.Fifo := Links.mkFifo 1%nat 2%nat 15.

Definition two_node_level : LevelFIFO :=
  mkLevel [(1%nat, OrderNode.mk 7 100 10 0 0); (2%nat, OrderNode.mk 8 100 5 0 0)]
          15.

Lemma two_nodes_represented :
  represents two_linked_nodes two_linked_fifo two_node_level.
Proof.
  split; [split; [|split; [|split; reflexivity]]|split; [|reflexivity]].
  - apply list.NoDup_cons. split.
    + intros Hin. apply list_elem_of_singleton in Hin. discriminate.
    + apply list.NoDup_singleton.
  - cbn. repeat split; discriminate.
  - repeat constructor.
Qed.



(** X28.  [erase] does not check that the node is queued in the level it is
    called on.  For a node that is not queued there and whose links are null
    (a node that was erased before), on a level that is the list [lv], the
    list model has no answer, while the code sets [head] and [tail] to null,
    so that the level reads as empty, lowers [total_qty] by the node's
    quantity and leaves the nodes that were queued linked to each other. *)
Theorem erase_of_unqueued_node_empties_level m f lv h :
  represents m f lv -> h ∉ handles lv ->
  Links.prev (m h) = 0%nat -> Links.next (m h) = 0%nat ->
  Level.erase lv h = None /\
  let r := Links.erase m f h in
  snd r = Links.mkFifo 0%nat 0%nat (total_qty lv - Links.qty m h) /\
  Links.empty (snd r) = true /\
  forall x, x ∈ handles lv -> fst r x = m x.
Proof.
  intros (_ & _ & Htot) Hnot Hp Hn. split.
  - unfold Level.erase. now rewrite (lookup_unqueued h (nodes lv) Hnot).
  - unfold Links.erase. rewrite Hp, Hn. cbn [Nat.eqb negb fst snd].
    rewrite Hp, Hn, Htot. cbn [Nat.eqb negb fst snd].
    split; [reflexivity|]. split; [reflexivity|].
    intros x Hx. unfold Links.set_prev, Links.set_next, Links.write.
    destruct (Nat.eqb_spec x h) as [->|]; [contradiction|reflexivity].
Qed.

(** Erasing node 3, which is not one of the two queued nodes, leaves a level
    that reads as empty with a total of 12, its two nodes still linked. *)
Lemma erase_of_unqueued_node_empties_level_witness :
  represents two_linked_nodes two_linked_fifo two_node_level /\
  Level.erase two_node_level 3%nat = None /\
  snd (Links.erase two_linked_nodes two_linked_fifo 3%nat)
  = Links.mkFifo 0%nat 0%nat 12 /\
  Links.walk (fst (Links.erase two_linked_nodes two_linked_fifo 3%nat))
             1%nat 3%nat
  = nodes two_node_level.
Proof.
  assert (Hnot : 3%nat ∉ handles two_node_level).
  { intros Hin. apply list.elem_of_cons in Hin as [Hin|Hin]; [discriminate|].
    apply list_elem_of_singleton in Hin. discriminate. }
  pose proof (erase_of_unqueued_node_empties_level two_linked_nodes
                two_linked_fifo two_node_level 3%nat two_nodes_represented
                Hnot eq_refl eq_refl) as (Hnone & Hf & _ & _).
  split; [exact two_nodes_represented|]. split; [exact Hnone|].
  split; [exact Hf|reflexivity].
Defined.
